(** * Diagram converter: Mermaid text to draw.io cells

    A shallow embedding of [src/mcp-servers/diagram-converter/index.js]:
    the type detector, the six dialect parsers, the six XML generators with
    their layout code, and [escapeXML].

    Conventions of the embedding.
    - A JavaScript string is a [string]; a character is a UTF-16 code unit
      in the range U+0000..U+00FF, written as an [ascii].
    - Integers the code computes with are in [Z].  The radial mindmap
      layout computes in doubles: a number is the real it denotes and
      every operation rounds, as the engine does ([Engine]).
    - What a run reads from outside the model is a parameter: the clock,
      the properties a lookup in a plain object finds on
      [Object.prototype], the engine's arithmetic and the depth of its
      call stack.
    - A JavaScript [Map] is an association list in insertion order.
    - The markup a generator concatenates into [cellsXML] is kept as the list
      of its [mxCell] elements. *)

From Stdlib Require Import Ascii String List ZArith Bool Arith Lia.
From Stdlib Require Import Permutation.
From Stdlib Require Import DecimalString DecimalNat DecimalFacts.
From Stdlib Require Import Reals Lra.
Import ListNotations.

Set Warnings "-register-all".

Local Open Scope list_scope.
Local Open Scope string_scope.

(* ================================================================== *)
(** ** JavaScript string primitives *)
(* ================================================================== *)

Module Js.

Definition code (c : ascii) : nat := nat_of_ascii c.

(** [WhiteSpace] and [LineTerminator] code units below U+0100: TAB, LF, VT,
    FF, CR, SPACE and NBSP.  This is the set [trim] strips and [\s]
    matches. *)
Definition isSpace (c : ascii) : bool :=
  let n := code c in
  (Nat.leb 9 n && Nat.leb n 13) || Nat.eqb n 32 || Nat.eqb n 160.

(** [.] in a regular expression without the [s] flag: anything but LF, CR. *)
Definition isDot (c : ascii) : bool :=
  let n := code c in negb (Nat.eqb n 10 || Nat.eqb n 13).

Definition isDigit (c : ascii) : bool :=
  let n := code c in Nat.leb 48 n && Nat.leb n 57.

Definition isUpperAZ (c : ascii) : bool :=
  let n := code c in Nat.leb 65 n && Nat.leb n 90.

Definition isLowerAZ (c : ascii) : bool :=
  let n := code c in Nat.leb 97 n && Nat.leb n 122.

(** [\w] is [[A-Za-z0-9_]]. *)
Definition isWord (c : ascii) : bool :=
  isUpperAZ c || isLowerAZ c || isDigit c || Nat.eqb (code c) 95.

(** [String.prototype.toLowerCase] on one code unit: A-Z and the Latin-1
    capitals U+00C0..U+00DE other than the multiplication sign U+00D7. *)
Definition toLowerChar (c : ascii) : ascii :=
  let n := code c in
  if isUpperAZ c then ascii_of_nat (n + 32)
  else if Nat.leb 192 n && Nat.leb n 222 && negb (Nat.eqb n 215)
       then ascii_of_nat (n + 32)
       else c.

(** [String.prototype.toUpperCase] on one code unit: a-z and the Latin-1
    small letters U+00E0..U+00FE other than the division sign U+00F7.  The
    upper-case forms of U+00B5, U+00DF and U+00FF lie outside the range of
    [ascii]; the code applies [toUpperCase] to text matched by
    [(TD|TB|LR|RL|BT)/i] only, which consists of ASCII letters. *)
Definition toUpperChar (c : ascii) : ascii :=
  let n := code c in
  if isLowerAZ c then ascii_of_nat (n - 32)
  else if Nat.leb 224 n && Nat.leb n 254 && negb (Nat.eqb n 247)
       then ascii_of_nat (n - 32)
       else c.

Fixpoint smap (f : ascii -> ascii) (s : string) : string :=
  match s with
  | EmptyString => EmptyString
  | String c t => String (f c) (smap f t)
  end.

Definition toLowerCase : string -> string := smap toLowerChar.
Definition toUpperCase : string -> string := smap toUpperChar.

Fixpoint trimStart (s : string) : string :=
  match s with
  | EmptyString => EmptyString
  | String c t => if isSpace c then trimStart t else s
  end.

Fixpoint allSpace (s : string) : bool :=
  match s with
  | EmptyString => true
  | String c t => isSpace c && allSpace t
  end.

Fixpoint trimEnd (s : string) : string :=
  match s with
  | EmptyString => EmptyString
  | String c t => if allSpace s then EmptyString else String c (trimEnd t)
  end.

Definition trim (s : string) : string := trimEnd (trimStart s).

(** [s.split(sep)] for a one-character separator: the pieces between
    separators; never empty. *)
Fixpoint split (sep : ascii) (s : string) : list string :=
  match s with
  | EmptyString => [EmptyString]
  | String c t =>
      if Ascii.eqb c sep then EmptyString :: split sep t
      else match split sep t with
           | [] => [String c EmptyString]
           | l :: ls => String c l :: ls
           end
  end.

Definition LF : ascii := ascii_of_nat 10.
Definition DQ : ascii := ascii_of_nat 34.      (* the double quote *)

(** [s.split('\n')] *)
Definition splitLines (s : string) : list string := split LF s.

Fixpoint startsWith (p s : string) : bool :=
  match p, s with
  | EmptyString, _ => true
  | String _ _, EmptyString => false
  | String a p', String b s' => Ascii.eqb a b && startsWith p' s'
  end.

Fixpoint includes (p s : string) : bool :=
  startsWith p s ||
  match s with
  | EmptyString => false
  | String _ t => includes p t
  end.

Fixpoint drop (n : nat) (s : string) : string :=
  match n, s with
  | O, _ => s
  | S _, EmptyString => EmptyString
  | S k, String _ t => drop k t
  end.

Definition endsWith (p s : string) : bool :=
  Nat.leb (String.length p) (String.length s)
  && String.eqb (drop (String.length s - String.length p) s) p.

(** [s.slice(a, -b)] for literal [a >= 0] and [b > 0]. *)
Definition slice (a b : nat) (s : string) : string :=
  substring a (String.length s - b - a) s.

Fixpoint sfilter (p : ascii -> bool) (s : string) : string :=
  match s with
  | EmptyString => EmptyString
  | String c t => if p c then String c (sfilter p t) else sfilter p t
  end.

(** [s.replace(/c/g, r)] for a single character [c]. *)
Fixpoint replaceChar (c : ascii) (r : string) (s : string) : string :=
  match s with
  | EmptyString => EmptyString
  | String d t =>
      if Ascii.eqb d c then r ++ replaceChar c r t
      else String d (replaceChar c r t)
  end.

(** Template-literal rendering of a non-negative integer counter. *)
Definition ofNat (n : nat) : string :=
  NilEmpty.string_of_uint (Nat.to_uint n).

End Js.

(* ================================================================== *)
(** ** escapeXML *)
(* ================================================================== *)

Definition escapeXML (str : string) : string :=
  Js.replaceChar "'" "&apos;"
    (Js.replaceChar Js.DQ "&quot;"
      (Js.replaceChar ">" "&gt;"
        (Js.replaceChar "<" "&lt;"
          (Js.replaceChar "&" "&amp;" str)))).

(* ================================================================== *)
(** ** Regular expressions

    A backtracking matcher for the fragment of ECMAScript regular
    expressions the parsers use: ordered alternation, greedy and lazy
    stars, capturing groups and [$].  Every expression in the source starts
    with [^] and none has the [m] flag, so a match is always attempted at
    index 0 only; [exec] does exactly that and returns the captures. *)
(* ================================================================== *)

Module Re.

Inductive regex : Type :=
| Eps                           (* the empty pattern *)
| Chr (p : ascii -> bool)       (* one character, or a class *)
| Cat (r1 r2 : regex)
| Alt (r1 r2 : regex)           (* r1|r2, r1 tried first *)
| Star (r : regex)              (* r*  *)
| StarLazy (r : regex)          (* r*? *)
| Grp (n : nat) (r : regex)     (* the n-th capturing group *)
| Eol.                          (* $ *)

Definition caps := list (nat * string).

(** The text between two positions of the same input, each given by the
    input that remains. *)
Definition taken (s s' : string) : string :=
  substring 0 (String.length s - String.length s') s.

Definition shorter (s1 s : string) : bool :=
  Nat.ltb (String.length s1) (String.length s).

(** [run r s cs k]: match [r] at the head of [s], then continue with [k]
    on what remains.  An iteration of a star that consumes nothing is
    rejected, as in ECMAScript, which also bounds the number of
    iterations by the length of the input. *)
Fixpoint run {A : Type} (r : regex) (s : string) (cs : caps)
         (k : string -> caps -> option A) {struct r} : option A :=
  match r with
  | Eps => k s cs
  | Chr p =>
      match s with
      | String c t => if p c then k t cs else None
      | EmptyString => None
      end
  | Cat r1 r2 => run r1 s cs (fun s1 cs1 => run r2 s1 cs1 k)
  | Alt r1 r2 =>
      match run r1 s cs k with
      | Some a => Some a
      | None => run r2 s cs k
      end
  | Star r1 =>
      (fix loop (fuel : nat) (s : string) (cs : caps) {struct fuel} : option A :=
         match fuel with
         | O => k s cs
         | S f =>
             match run r1 s cs
                     (fun s1 cs1 => if shorter s1 s then loop f s1 cs1 else None)
             with
             | Some a => Some a
             | None => k s cs
             end
         end) (String.length s) s cs
  | StarLazy r1 =>
      (fix loop (fuel : nat) (s : string) (cs : caps) {struct fuel} : option A :=
         match fuel with
         | O => k s cs
         | S f =>
             match k s cs with
             | Some a => Some a
             | None =>
                 run r1 s cs
                   (fun s1 cs1 => if shorter s1 s then loop f s1 cs1 else None)
             end
         end) (String.length s) s cs
  | Grp n r1 => run r1 s cs (fun s1 cs1 => k s1 ((n, taken s s1) :: cs1))
  | Eol =>
      match s with
      | EmptyString => k s cs
      | String _ _ => None
      end
  end.

(** [str.match(/^r/)]: the captures of the match at index 0, if any. *)
Definition exec (r : regex) (s : string) : option caps :=
  run r s [] (fun _ cs => Some cs).

(** Capture [n] of a match; [None] is [undefined]. *)
Fixpoint cap (n : nat) (cs : caps) : option string :=
  match cs with
  | [] => None
  | (m, v) :: cs' => if Nat.eqb m n then Some v else cap n cs'
  end.

(** A capture the expression always sets when it matches. *)
Definition capd (n : nat) (cs : caps) : string :=
  match cap n cs with Some v => v | None => EmptyString end.

(** *** Pattern combinators *)

Definition chr (c : ascii) : regex := Chr (Ascii.eqb c).

(** A letter under the [i] flag: both cases of an ASCII letter. *)
Definition chrI (c : ascii) : regex :=
  Chr (fun d => Ascii.eqb (Js.toLowerChar d) (Js.toLowerChar c)
                && Nat.ltb (Js.code d) 128).

Fixpoint lit (s : string) : regex :=
  match s with
  | EmptyString => Eps
  | String c t => Cat (chr c) (lit t)
  end.

Fixpoint litI (s : string) : regex :=
  match s with
  | EmptyString => Eps
  | String c t => Cat (chrI c) (litI t)
  end.

Fixpoint seq (rs : list regex) : regex :=
  match rs with
  | [] => Eps
  | r :: rs' => Cat r (seq rs')
  end.

Fixpoint alts (rs : list regex) : regex :=
  match rs with
  | [] => Chr (fun _ => false)
  | [r] => r
  | r :: rs' => Alt r (alts rs')
  end.

Definition plus (r : regex) : regex := Cat r (Star r).
Definition opt (r : regex) : regex := Alt r Eps.

Definition ws : regex := Chr Js.isSpace.          (* \s *)
Definition word : regex := Chr Js.isWord.         (* \w *)
Definition dot : regex := Chr Js.isDot.           (* .  *)
Definition notChr (c : ascii) : regex :=          (* [^c] *)
  Chr (fun d => negb (Ascii.eqb d c)).
Fixpoint mem (c : ascii) (s : string) : bool :=
  match s with
  | EmptyString => false
  | String d t => Ascii.eqb c d || mem c t
  end.
Definition oneOf (s : string) : regex := Chr (fun c => mem c s).

End Re.

(* ================================================================== *)
(** ** JavaScript [Map] with string keys

    Entries are kept in insertion order; [set] on a key already present
    replaces the value and leaves the entry where it is. *)
(* ================================================================== *)

Module JsMap.
Section WithValue.
Context {V : Type}.

Definition t := list (string * V).

Definition empty : t := [].

Fixpoint get (k : string) (m : t) : option V :=
  match m with
  | [] => None
  | (k', v) :: m' => if String.eqb k' k then Some v else get k m'
  end.

Definition has (k : string) (m : t) : bool :=
  match get k m with Some _ => true | None => false end.

Fixpoint set (k : string) (v : V) (m : t) : t :=
  match m with
  | [] => [(k, v)]
  | (k', v') :: m' =>
      if String.eqb k' k then (k, v) :: m' else (k', v') :: set k v m'
  end.

Definition keys (m : t) : list string := map fst m.
Definition values (m : t) : list V := map snd m.

End WithValue.
Arguments t : clear implicits.
End JsMap.

(** A call either returns or throws a [TypeError] (here always the read of
    a property of [undefined]). *)
Inductive result (A : Type) : Type :=
| Ok (a : A)
| TypeError.
Arguments Ok {A} a.
Arguments TypeError {A}.

Definition bind {A B : Type} (r : result A) (f : A -> result B) : result B :=
  match r with
  | Ok a => f a
  | TypeError => TypeError
  end.

(** The [for (const line of lines)] loop with a body that may throw. *)
Fixpoint foldM {S : Type} (step : S -> string -> result S)
         (lines : list string) (st : S) : result S :=
  match lines with
  | [] => Ok st
  | l :: ls => bind (step st l) (foldM step ls)
  end.

(** The operand selection of [a || b] and the test of [a ? x : y] on a
    value that is a string or [undefined]: the empty string is falsy. *)
Definition truthy (o : option string) : bool :=
  match o with
  | Some s => negb (String.eqb s EmptyString)
  | None => false
  end.

Definition orElse (o : option string) (d : string) : string :=
  match o with
  | Some s => if String.eqb s EmptyString then d else s
  | None => d
  end.

(** [a || null] *)
Definition orNull (o : option string) : option string :=
  if truthy o then o else None.

(* ================================================================== *)
(** ** Flowchart parser *)
(* ================================================================== *)

Module Flow.
Import Re.

Record node := { id : string; label : string; shape : string }.
Record edge := { source : string; target : string; elabel : option string }.
Record parsed :=
  { nodes : list node; edges : list edge; direction : string }.

(** [/^(?:flowchart|graph)\s+(TD|TB|LR|RL|BT)/i] *)
Definition dirRe : regex :=
  seq [ Alt (litI "flowchart") (litI "graph"); plus ws;
        Grp 1 (alts [litI "TD"; litI "TB"; litI "LR"; litI "RL"; litI "BT"]) ].

Definition bracketed (o c : string) : regex :=
  seq [lit o; StarLazy dot; lit c].

(** [\[.*?\]|\(.*?\)|\{.*?\}] *)
Definition shape3 : regex :=
  alts [bracketed "[" "]"; bracketed "(" ")"; bracketed "{" "}"].

(** [/^(\w+)(\[.*?\]|\(.*?\)|\{.*?\})?(\s* )(-->|---|-\.->|==>)(\|.*?\|)?(\s* )(\w+)(\[.*?\]|\(.*?\)|\{.*?\})?/]
    (groups 3 and 6 are [\s] starred; the blank before their closing
    parenthesis is not part of the expression) *)
Definition edgeRe : regex :=
  seq [ Grp 1 (plus word); opt (Grp 2 shape3); Grp 3 (Star ws);
        Grp 4 (alts [lit "-->"; lit "---"; lit "-.->"; lit "==>"]);
        opt (Grp 5 (bracketed "|" "|")); Grp 6 (Star ws);
        Grp 7 (plus word); opt (Grp 8 shape3) ].

(** [/^(\w+)(\[.*?\]|\(.*?\)|\{.*?\}|\(\[.*?\]\)|\(\(.*?\)\)|\[\[.*?\]\])/] *)
Definition nodeRe : regex :=
  seq [ Grp 1 (plus word);
        Grp 2 (alts [ bracketed "[" "]"; bracketed "(" ")"; bracketed "{" "}";
                      bracketed "([" "])"; bracketed "((" "))";
                      bracketed "[[" "]]" ]) ].

Definition isBracket (c : ascii) : bool := mem c "[](){}".

(** [s.replace(/[\[\](){}]/g, '')] *)
Definition stripBrackets (s : string) : string :=
  Js.sfilter (fun c => negb (isBracket c)) s.

Definition detectShape (shapeStr : option string) : string :=
  match shapeStr with
  | None => "[]"
  | Some s =>
      if String.eqb s EmptyString then "[]"
      else if Js.startsWith "([" s && Js.endsWith "])" s then "([])"
      else if Js.startsWith "((" s && Js.endsWith "))" s then "(())"
      else if Js.startsWith "[[" s && Js.endsWith "]]" s then "[[]]"
      else if Js.startsWith "[" s && Js.endsWith "]" s then "[]"
      else if Js.startsWith "(" s && Js.endsWith ")" s then "()"
      else if Js.startsWith "{" s && Js.endsWith "}" s then "{}"
      else "[]"
  end.

Fixpoint dropNonWord (s : string) : string :=
  match s with
  | EmptyString => EmptyString
  | String c t => if Js.isWord c then s else dropNonWord t
  end.

Fixpoint noWord (s : string) : bool :=
  match s with
  | EmptyString => true
  | String c t => negb (Js.isWord c) && noWord t
  end.

Fixpoint dropNonWordEnd (s : string) : string :=
  match s with
  | EmptyString => EmptyString
  | String c t => if noWord s then EmptyString else String c (dropNonWordEnd t)
  end.

(** [shapeStr.replace(/^\W+|\W+$/g, '').replace(/[\[\](){}]/g, '')] *)
Definition extractLabel (shapeStr : string) : string :=
  if String.eqb shapeStr EmptyString then EmptyString
  else stripBrackets (dropNonWordEnd (dropNonWord shapeStr)).

Record state :=
  { st_nodes : JsMap.t node; st_edges : list edge; st_direction : string }.

Definition init : state :=
  {| st_nodes := JsMap.empty; st_edges := []; st_direction := "TD" |}.

(** The endpoint registration of an edge line:
    [if (!nodes.has(id)) nodes.set(id, {id, label, shape})]. *)
Definition addEndpoint (nid : string) (shp : option string)
           (m : JsMap.t node) : JsMap.t node :=
  if JsMap.has nid m then m
  else
    let lbl := if truthy shp
               then stripBrackets (Js.slice 1 1 (orElse shp EmptyString))
               else nid in
    JsMap.set nid {| id := nid; label := lbl; shape := detectShape shp |} m.

(** One iteration of the [for (const line of lines)] loop. *)
Definition step (st : state) (line : string) : state :=
  let trimmed := Js.trim line in
  match exec dirRe trimmed with
  | Some cs =>
      {| st_nodes := st_nodes st; st_edges := st_edges st;
         st_direction := Js.toUpperCase (capd 1 cs) |}
  | None =>
  match exec edgeRe trimmed with
  | Some cs =>
      let srcId := capd 1 cs in
      let tgtId := capd 7 cs in
      let lbl := cap 5 cs in
      let ns := addEndpoint tgtId (cap 8 cs)
                  (addEndpoint srcId (cap 2 cs) (st_nodes st)) in
      {| st_nodes := ns;
         st_edges := st_edges st ++
           [ {| source := srcId; target := tgtId;
                elabel := if truthy lbl
                          then option_map (Js.slice 1 1) lbl else None |} ];
         st_direction := st_direction st |}
  | None =>
  match exec nodeRe trimmed with
  | Some cs =>
      let nid := capd 1 cs in
      let shp := capd 2 cs in
      {| st_nodes := JsMap.set nid
                       {| id := nid; label := extractLabel shp;
                          shape := detectShape (Some shp) |} (st_nodes st);
         st_edges := st_edges st;
         st_direction := st_direction st |}
  | None => st
  end end end.

Definition parseFlowchart (mermaidCode : string) : parsed :=
  let lines := Js.splitLines (Js.trim mermaidCode) in
  let st := fold_left step lines init in
  {| nodes := JsMap.values (st_nodes st);
     edges := st_edges st;
     direction := st_direction st |}.

End Flow.

(* ================================================================== *)
(** ** ER diagram parser *)
(* ================================================================== *)

Module ER.
Import Re.

Record attribute :=
  { atype : string; aname : string; constraint : option string }.
Record entity := { name : string; attributes : list attribute }.
Record relationship :=
  { source : string; target : string;
    sourceCardinality : string; targetCardinality : string;
    label : string }.
Record parsed :=
  { entities : list entity; relationships : list relationship }.

(** [\|\||o\||\|o|\}o|o\{|\}\||\|\{] *)
Definition card : regex :=
  alts [lit "||"; lit "o|"; lit "|o"; lit "}o"; lit "o{"; lit "}|"; lit "|{"].

(** [/^(\w+)\s+(CARD)\s*--\s*(CARD)\s+(\w+)\s*:\s*(.+)$/] *)
Definition relRe : regex :=
  seq [ Grp 1 (plus word); plus ws; Grp 2 card; Star ws; lit "--"; Star ws;
        Grp 3 card; plus ws; Grp 4 (plus word); Star ws; chr ":"; Star ws;
        Grp 5 (plus dot); Eol ].

(** [/^(\w+)\s*\{$/] *)
Definition entityRe : regex :=
  seq [ Grp 1 (plus word); Star ws; chr "{"; Eol ].

(** [/^(\w+)\s+(\w+)(?:\s+(PK|FK|UK))?/] *)
Definition attrRe : regex :=
  seq [ Grp 1 (plus word); plus ws; Grp 2 (plus word);
        opt (seq [plus ws; Grp 3 (alts [lit "PK"; lit "FK"; lit "UK"])]) ].

Record state :=
  { st_entities : JsMap.t entity;
    st_relationships : list relationship;
    currentEntity : option string }.

Definition init : state :=
  {| st_entities := JsMap.empty; st_relationships := [];
     currentEntity := None |}.

(** [if (!entities.has(n)) entities.set(n, { name: n, attributes: [] })] *)
Definition register (n : string) (m : JsMap.t entity) : JsMap.t entity :=
  if JsMap.has n m then m
  else JsMap.set n {| name := n; attributes := [] |} m.

(** [entities.get(cur).attributes.push(a)]: the entity object held by the
    map is mutated in place; the read of [.attributes] throws when the map
    has no such key. *)
Definition pushAttribute (cur : string) (a : attribute)
           (m : JsMap.t entity) : result (JsMap.t entity) :=
  match JsMap.get cur m with
  | Some e =>
      Ok (JsMap.set cur
            {| name := name e; attributes := attributes e ++ [a] |} m)
  | None => TypeError
  end.

Definition step (st : state) (line : string) : result state :=
  let trimmed := Js.trim line in
  if String.eqb trimmed "erDiagram" || String.eqb trimmed EmptyString
  then Ok st
  else
  match exec relRe trimmed with
  | Some cs =>
      let srcEntity := capd 1 cs in
      let tgtEntity := capd 4 cs in
      Ok {| st_entities :=
              register tgtEntity (register srcEntity (st_entities st));
            st_relationships := st_relationships st ++
              [ {| source := srcEntity; target := tgtEntity;
                   sourceCardinality := capd 2 cs;
                   targetCardinality := capd 3 cs;
                   label := Js.trim (capd 5 cs) |} ];
            currentEntity := currentEntity st |}
  | None =>
  match exec entityRe trimmed with
  | Some cs =>
      let e := capd 1 cs in
      Ok {| st_entities := register e (st_entities st);
            st_relationships := st_relationships st;
            currentEntity := Some e |}
  | None =>
  if String.eqb trimmed "}" then
    Ok {| st_entities := st_entities st;
          st_relationships := st_relationships st;
          currentEntity := None |}
  else if truthy (currentEntity st) then
    match exec attrRe trimmed with
    | Some cs =>
        bind (pushAttribute (orElse (currentEntity st) EmptyString)
                {| atype := capd 1 cs; aname := capd 2 cs;
                   constraint := cap 3 cs |}
                (st_entities st))
             (fun m =>
                Ok {| st_entities := m;
                      st_relationships := st_relationships st;
                      currentEntity := currentEntity st |})
    | None => Ok st
    end
  else Ok st
  end end.

Definition parseERDiagram (mermaidCode : string) : result parsed :=
  bind (foldM step (Js.splitLines (Js.trim mermaidCode)) init)
       (fun st =>
          Ok {| entities := JsMap.values (st_entities st);
                relationships := st_relationships st |}).

End ER.

(* ================================================================== *)
(** ** Sequence diagram parser *)
(* ================================================================== *)

Module Seq.
Import Re.

Record participant :=
  { id : string; label : string; ptype : string; order : nat }.
Record message :=
  { from : string; to : string; text : string; mtype : string;
    arrow : string }.
Record note :=
  { position : string; nparticipants : list string; ntext : string }.
Record activation := { action : string; aparticipant : string }.
Record parsed :=
  { participants : list participant; messages : list message;
    notes : list note; activations : list activation }.

(** [/^(participant|actor)\s+(\w+)(?:\s+as\s+(.+))?$/i] *)
Definition participantRe : regex :=
  seq [ Grp 1 (Alt (litI "participant") (litI "actor")); plus ws;
        Grp 2 (plus word);
        opt (seq [plus ws; litI "as"; plus ws; Grp 3 (plus dot)]); Eol ].

(** [/^(\w+)\s*(->>|-->>|->|-->|-x|--x|-\)|\--\))\s*(\w+)\s*:\s*(.+)$/] *)
Definition messageRe : regex :=
  seq [ Grp 1 (plus word); Star ws;
        Grp 2 (alts [ lit "->>"; lit "-->>"; lit "->"; lit "-->";
                      lit "-x"; lit "--x"; lit "-)"; lit "--)" ]);
        Star ws; Grp 3 (plus word); Star ws; chr ":"; Star ws;
        Grp 4 (plus dot); Eol ].

(** [/^Note\s+(right of|left of|over)\s+(\w+(?:,\s*\w+)?)\s*:\s*(.+)$/i] *)
Definition noteRe : regex :=
  seq [ litI "Note"; plus ws;
        Grp 1 (alts [litI "right of"; litI "left of"; litI "over"]);
        plus ws;
        Grp 2 (seq [plus word; opt (seq [chr ","; Star ws; plus word])]);
        Star ws; chr ":"; Star ws; Grp 3 (plus dot); Eol ].

(** [/^(activate|deactivate)\s+(\w+)$/i] *)
Definition activateRe : regex :=
  seq [ Grp 1 (Alt (litI "activate") (litI "deactivate")); plus ws;
        Grp 2 (plus word); Eol ].

Record state :=
  { st_participants : JsMap.t participant;
    st_messages : list message;
    st_notes : list note;
    st_activations : list activation;
    participantOrder : nat }.

Definition init : state :=
  {| st_participants := JsMap.empty; st_messages := []; st_notes := [];
     st_activations := []; participantOrder := 0 |}.

(** Auto-registration of a message endpoint, threading the counter:
    [if (!participants.has(p)) participants.set(p, {..., order: participantOrder++})] *)
Definition autoAdd (p : string) (mo : JsMap.t participant * nat)
  : JsMap.t participant * nat :=
  let (m, o) := mo in
  if JsMap.has p m then (m, o)
  else (JsMap.set p {| id := p; label := p; ptype := "participant";
                       order := o |} m, S o).

Definition messageType (arrow : string) : string :=
  if Js.includes "--" arrow then "async"
  else if Js.includes "x" arrow then "lost"
  else if Js.includes ")" arrow then "create"
  else "sync".

Definition step (st : state) (line : string) : state :=
  let trimmed := Js.trim line in
  if String.eqb trimmed "sequenceDiagram" || String.eqb trimmed EmptyString
  then st
  else
  match exec participantRe trimmed with
  | Some cs =>
      let pid := capd 2 cs in
      {| st_participants :=
           JsMap.set pid
             {| id := pid; label := orElse (cap 3 cs) pid;
                ptype := Js.toLowerCase (capd 1 cs);
                order := participantOrder st |} (st_participants st);
         st_messages := st_messages st; st_notes := st_notes st;
         st_activations := st_activations st;
         participantOrder := S (participantOrder st) |}
  | None =>
  match exec messageRe trimmed with
  | Some cs =>
      let f := capd 1 cs in
      let a := capd 2 cs in
      let t := capd 3 cs in
      let mo := autoAdd t (autoAdd f (st_participants st, participantOrder st)) in
      {| st_participants := fst mo;
         st_messages := st_messages st ++
           [ {| from := f; to := t; text := capd 4 cs;
                mtype := messageType a; arrow := a |} ];
         st_notes := st_notes st;
         st_activations := st_activations st;
         participantOrder := snd mo |}
  | None =>
  match exec noteRe trimmed with
  | Some cs =>
      {| st_participants := st_participants st;
         st_messages := st_messages st;
         st_notes := st_notes st ++
           [ {| position := capd 1 cs;
                nparticipants := map Js.trim (Js.split "," (capd 2 cs));
                ntext := capd 3 cs |} ];
         st_activations := st_activations st;
         participantOrder := participantOrder st |}
  | None =>
  match exec activateRe trimmed with
  | Some cs =>
      {| st_participants := st_participants st;
         st_messages := st_messages st;
         st_notes := st_notes st;
         st_activations := st_activations st ++
           [ {| action := Js.toLowerCase (capd 1 cs);
                aparticipant := capd 2 cs |} ];
         participantOrder := participantOrder st |}
  | None => st
  end end end end.

(** [Array.prototype.sort((a, b) => a.order - b.order)]: the sort is
    stable; written as an insertion sort. *)
Fixpoint insertByOrder (p : participant) (l : list participant)
  : list participant :=
  match l with
  | [] => [p]
  | q :: l' =>
      if Nat.leb (order p) (order q) then p :: q :: l'
      else q :: insertByOrder p l'
  end.

Definition sortByOrder (l : list participant) : list participant :=
  fold_right insertByOrder [] l.

Definition parseSequenceDiagram (mermaidCode : string) : parsed :=
  let st := fold_left step (Js.splitLines (Js.trim mermaidCode)) init in
  {| participants := sortByOrder (JsMap.values (st_participants st));
     messages := st_messages st;
     notes := st_notes st;
     activations := st_activations st |}.

End Seq.

(* ================================================================== *)
(** ** Class diagram parser *)
(* ================================================================== *)

Module Class.
Import Re.

Record attribute :=
  { avisibility : string; aname : string; atype : string }.
Record method :=
  { visibility : string; mname : string; params : string;
    returnType : string }.
Record class :=
  { name : string; attributes : list attribute; methods : list method;
    stereotype : option string }.
Record relationship :=
  { from : string; to : string; rtype : string; label : option string;
    arrow : string }.
Record parsed :=
  { classes : list class; relationships : list relationship }.

(** [/^class\s+(\w+)(?:\s*\{)?$/] *)
Definition classStartRe : regex :=
  seq [ lit "class"; plus ws; Grp 1 (plus word);
        opt (seq [Star ws; chr "{"]); Eol ].

(** [/^<<(\w+)>>\s*(\w+)$/] *)
Definition annotationRe : regex :=
  seq [ lit "<<"; Grp 1 (plus word); lit ">>"; Star ws;
        Grp 2 (plus word); Eol ].

(** [/^([+\-#~])?\s*(\w+)\s*\((.* )\)(?:\s*:\s*(\w+))?(?:\s*\*|\s*\$)?$/]
    (group 3 is a starred dot; the blank before its closing parenthesis is
    not part of the expression) *)
Definition methodRe : regex :=
  seq [ opt (Grp 1 (oneOf "+-#~")); Star ws; Grp 2 (plus word); Star ws;
        chr "("; Grp 3 (Star dot); chr ")";
        opt (seq [Star ws; chr ":"; Star ws; Grp 4 (plus word)]);
        opt (Alt (seq [Star ws; chr "*"]) (seq [Star ws; chr "$"]));
        Eol ].

(** [/^([+\-#~])?\s*(\w+)\s*:\s*(\w+)$/] *)
Definition attrRe : regex :=
  seq [ opt (Grp 1 (oneOf "+-#~")); Star ws; Grp 2 (plus word); Star ws;
        chr ":"; Star ws; Grp 3 (plus word); Eol ].

(** [/^(\w+)\s+(<\|--|<\|-|<--|\*--|o--|-->|--\*|--o|\.\.>|<\.\.|\.\.|--)\s+(\w+)(?:\s*:\s*(.+))?$/] *)
Definition relRe : regex :=
  seq [ Grp 1 (plus word); plus ws;
        Grp 2 (alts [ lit "<|--"; lit "<|-"; lit "<--"; lit "*--";
                      lit "o--"; lit "-->"; lit "--*"; lit "--o";
                      lit "..>"; lit "<.."; lit ".."; lit "--" ]);
        plus ws; Grp 3 (plus word);
        opt (seq [Star ws; chr ":"; Star ws; Grp 4 (plus dot)]); Eol ].

Record state :=
  { st_classes : JsMap.t class;
    st_relationships : list relationship;
    currentClass : option string }.

Definition init : state :=
  {| st_classes := JsMap.empty; st_relationships := [];
     currentClass := None |}.

Definition fresh (n : string) (st : option string) : class :=
  {| name := n; attributes := []; methods := []; stereotype := st |}.

(** [if (!classes.has(n)) classes.set(n, {name: n, attributes: [], methods: [], stereotype: null})] *)
Definition register (n : string) (m : JsMap.t class) : JsMap.t class :=
  if JsMap.has n m then m else JsMap.set n (fresh n None) m.

(** [classes.get(cur).methods.push(x)] and [classes.get(cur).attributes.push(x)]:
    in-place mutation of the object the map holds; throws when the key is
    missing. *)
Definition update (cur : string) (f : class -> class) (m : JsMap.t class)
  : result (JsMap.t class) :=
  match JsMap.get cur m with
  | Some c => Ok (JsMap.set cur (f c) m)
  | None => TypeError
  end.

Definition relType (rel : string) : string :=
  if Js.includes "<|" rel then "inheritance"
  else if Js.includes "*" rel then "composition"
  else if Js.includes "o" rel then "aggregation"
  else if Js.includes ".." rel then "dependency"
  else "association".

(** The relationship branch at the end of the loop body. *)
Definition relStep (st : state) (trimmed : string) : state :=
  match exec relRe trimmed with
  | Some cs =>
      let f := capd 1 cs in
      let rel := capd 2 cs in
      let t := capd 3 cs in
      {| st_classes := register t (register f (st_classes st));
         st_relationships := st_relationships st ++
           [ {| from := f; to := t; rtype := relType rel;
                label := orNull (cap 4 cs); arrow := rel |} ];
         currentClass := currentClass st |}
  | None => st
  end.

Definition withClasses (st : state) (m : JsMap.t class) : state :=
  {| st_classes := m; st_relationships := st_relationships st;
     currentClass := currentClass st |}.

Definition step (st : state) (line : string) : result state :=
  let trimmed := Js.trim line in
  if String.eqb trimmed "classDiagram" || String.eqb trimmed EmptyString
  then Ok st
  else
  match exec classStartRe trimmed with
  | Some cs =>
      let n := capd 1 cs in
      Ok {| st_classes := register n (st_classes st);
            st_relationships := st_relationships st;
            currentClass := Some n |}
  | None =>
  if String.eqb trimmed "}" then
    Ok {| st_classes := st_classes st;
          st_relationships := st_relationships st;
          currentClass := None |}
  else
  match exec annotationRe trimmed with
  | Some cs =>
      let st' := Js.toLowerCase (capd 1 cs) in
      let n := capd 2 cs in
      Ok (withClasses st
            match JsMap.get n (st_classes st) with
            | None => JsMap.set n (fresh n (Some st')) (st_classes st)
            | Some c =>
                JsMap.set n
                  {| name := name c; attributes := attributes c;
                     methods := methods c; stereotype := Some st' |}
                  (st_classes st)
            end)
  | None =>
  if truthy (currentClass st) then
    let cur := orElse (currentClass st) EmptyString in
    match exec methodRe trimmed with
    | Some cs =>
        bind (update cur
                (fun c =>
                   {| name := name c; attributes := attributes c;
                      methods := methods c ++
                        [ {| visibility := orElse (cap 1 cs) "+";
                             mname := capd 2 cs; params := capd 3 cs;
                             returnType := orElse (cap 4 cs) "void" |} ];
                      stereotype := stereotype c |})
                (st_classes st))
             (fun m => Ok (withClasses st m))
    | None =>
    match exec attrRe trimmed with
    | Some cs =>
        bind (update cur
                (fun c =>
                   {| name := name c;
                      attributes := attributes c ++
                        [ {| avisibility := orElse (cap 1 cs) "+";
                             aname := capd 2 cs; atype := capd 3 cs |} ];
                      methods := methods c;
                      stereotype := stereotype c |})
                (st_classes st))
             (fun m => Ok (withClasses st m))
    | None => Ok (relStep st trimmed)
    end end
  else Ok (relStep st trimmed)
  end end.

Definition parseClassDiagram (mermaidCode : string) : result parsed :=
  bind (foldM step (Js.splitLines (Js.trim mermaidCode)) init)
       (fun st =>
          Ok {| classes := JsMap.values (st_classes st);
                relationships := st_relationships st |}).

End Class.

(* ================================================================== *)
(** ** Mindmap parser *)
(* ================================================================== *)

Module Mindmap.

(** An entry of the flat [nodes] array.  The [children] array of an entry
    is the one of the tree object it was copied from; it is kept in the
    [children] table of the result, keyed by node id. *)
Record node :=
  { id : string; label : string; shape : string; level : Z;
    parentId : option string }.

(** What the loop reads of a stack entry. *)
Record frame := { f_id : string; f_level : Z }.

Record parsed :=
  { nodes : list node;
    root : option string;                 (* id of [stack[0].children[0]] *)
    children : JsMap.t (list string) }.

(** [line.search(/\S/)] on a line that has a non-blank character. *)
Fixpoint indentOf (line : string) : nat :=
  match line with
  | EmptyString => 0
  | String c t => if Js.isSpace c then S (indentOf t) else 0
  end.

(** The [if / else if] chain on bracket conventions: label and shape. *)
Definition shapeOf (text : string) : string * string :=
  if Js.startsWith "((" text && Js.endsWith "))" text
  then (Js.slice 2 2 text, "circle")
  else if Js.startsWith "{{" text && Js.endsWith "}}" text
  then (Js.slice 2 2 text, "hexagon")
  else if Js.startsWith "(" text && Js.endsWith ")" text
  then (Js.slice 1 1 text, "rounded")
  else if Js.startsWith "[" text && Js.endsWith "]" text
  then (Js.slice 1 1 text, "square")
  else if Js.startsWith ")" text && Js.endsWith "(" text
  then (Js.slice 1 1 text, "cloud")
  else (text, "default").

(** The stack, top first; its last entry is the sentinel
    [{ id: 'root', level: -1, children: [] }]. *)
Record state :=
  { st_nodes : list node;
    nodeId : nat;
    stack : list frame;
    st_children : JsMap.t (list string) }.

Definition sentinel : frame := {| f_id := "root"; f_level := (-1)%Z |}.

Definition init : state :=
  {| st_nodes := []; nodeId := 0; stack := [sentinel];
     st_children := JsMap.set "root" [] JsMap.empty |}.

(** [while (stack.length > 1 && stack[stack.length - 1].level >= level) stack.pop()] *)
Fixpoint popTo (lvl : Z) (stk : list frame) : list frame :=
  match stk with
  | top :: (_ :: _) as rest =>
      if Z.leb lvl (f_level top) then popTo lvl rest else stk
  | _ => stk
  end.

Definition top (stk : list frame) : frame :=
  match stk with
  | f :: _ => f
  | [] => sentinel
  end.

(** [parent.children.push(node)] *)
Definition pushChild (parent child : string) (m : JsMap.t (list string))
  : JsMap.t (list string) :=
  match JsMap.get parent m with
  | Some l => JsMap.set parent (l ++ [child])%list m
  | None => JsMap.set parent [child] m
  end.

Definition step (st : state) (line : string) : state :=
  if String.eqb (Js.trim line) "mindmap"
     || String.eqb (Js.trim line) EmptyString
  then st
  else
    let indent := indentOf line in
    let lvl := Z.of_nat (indent / 2) in
    let text := Js.trim line in
    let (lbl, shp) := shapeOf text in
    let nid := "node" ++ Js.ofNat (nodeId st) in
    let stk := popTo lvl (stack st) in
    let parent := top stk in
    {| st_nodes := st_nodes st ++
         [ {| id := nid; label := lbl; shape := shp; level := lvl;
              parentId := if String.eqb (f_id parent) "root"
                          then None else Some (f_id parent) |} ];
       nodeId := S (nodeId st);
       stack := {| f_id := nid; f_level := lvl |} :: stk;
       st_children :=
         JsMap.set nid [] (pushChild (f_id parent) nid (st_children st)) |}.

Definition parseMindmap (mermaidCode : string) : parsed :=
  let st := fold_left step (Js.splitLines (Js.trim mermaidCode)) init in
  {| nodes := st_nodes st;
     root := match JsMap.get "root" (st_children st) with
             | Some (r :: _) => Some r
             | _ => None
             end;
     children := st_children st |}.

End Mindmap.

(* ================================================================== *)
(** ** Git graph parser *)
(* ================================================================== *)

Module Git.
Import Re.

Record commit :=
  { id : string; tag : option string; ctype : string; branch : string;
    mergeFrom : option string }.
Record branchRec :=
  { name : string; bcommits : list string; parentBranch : option string }.
Record parsed := { commits : list commit; branches : list branchRec }.

Definition dq : ascii := Js.DQ.

(** [\s+KEY\s*Q([^Q]+)Q] with the value in group [n]; here and below [Q]
    stands for the double-quote character. *)
Definition quoted (key : string) (n : nat) : regex :=
  seq [ plus ws; litI key; Star ws; chr dq; Grp n (plus (notChr dq));
        chr dq ].

(** [/^commit(?:\s+id:\s*Q([^Q]+)Q)?(?:\s+tag:\s*Q([^Q]+)Q)?(?:\s+type:\s*(\w+))?/i] *)
Definition commitRe : regex :=
  seq [ litI "commit"; opt (quoted "id:" 1); opt (quoted "tag:" 2);
        opt (seq [plus ws; litI "type:"; Star ws; Grp 3 (plus word)]) ].

(** [/^branch\s+(\w+)/i] *)
Definition branchRe : regex := seq [ litI "branch"; plus ws; Grp 1 (plus word) ].

(** [/^checkout\s+(\w+)/i] *)
Definition checkoutRe : regex :=
  seq [ litI "checkout"; plus ws; Grp 1 (plus word) ].

(** [/^merge\s+(\w+)(?:\s+tag:\s*Q([^Q]+)Q)?/i] *)
Definition mergeRe : regex :=
  seq [ litI "merge"; plus ws; Grp 1 (plus word); opt (quoted "tag:" 2) ].

Record state :=
  { st_commits : list commit;
    st_branches : JsMap.t branchRec;
    currentBranch : string;
    commitId : nat }.

Definition init : state :=
  {| st_commits := [];
     st_branches :=
       [("main", {| name := "main"; bcommits := []; parentBranch := None |})];
     currentBranch := "main";
     commitId := 0 |}.

(** [commits.push(commit); branches.get(currentBranch).commits.push(commit.id)]:
    the read of [.commits] throws when [currentBranch] is not a key of
    [branches]. *)
Definition record (st : state) (c : commit) (nextId : nat) : result state :=
  match JsMap.get (currentBranch st) (st_branches st) with
  | Some b =>
      Ok {| st_commits := st_commits st ++ [c];
            st_branches :=
              JsMap.set (currentBranch st)
                {| name := name b; bcommits := bcommits b ++ [id c];
                   parentBranch := parentBranch b |} (st_branches st);
            currentBranch := currentBranch st;
            commitId := nextId |}
  | None => TypeError
  end.

Definition step (st : state) (line : string) : result state :=
  let trimmed := Js.trim line in
  if String.eqb trimmed "gitGraph" || Js.startsWith "gitGraph" trimmed
     || String.eqb trimmed EmptyString
  then Ok st
  else
  match exec commitRe trimmed with
  | Some cs =>
      let given := cap 1 cs in
      record st
        {| id := if truthy given then orElse given EmptyString
                 else "c" ++ Js.ofNat (commitId st);
           tag := orNull (cap 2 cs);
           ctype := orElse (cap 3 cs) "NORMAL";
           branch := currentBranch st;
           mergeFrom := None |}
        (if truthy given then commitId st else S (commitId st))
  | None =>
  match exec branchRe trimmed with
  | Some cs =>
      let n := capd 1 cs in
      Ok {| st_commits := st_commits st;
            st_branches :=
              JsMap.set n {| name := n; bcommits := [];
                             parentBranch := Some (currentBranch st) |}
                (st_branches st);
            currentBranch := n;
            commitId := commitId st |}
  | None =>
  match exec checkoutRe trimmed with
  | Some cs =>
      Ok {| st_commits := st_commits st;
            st_branches := st_branches st;
            currentBranch := capd 1 cs;
            commitId := commitId st |}
  | None =>
  match exec mergeRe trimmed with
  | Some cs =>
      record st
        {| id := "merge_" ++ Js.ofNat (commitId st);
           tag := orNull (cap 2 cs);
           ctype := "MERGE";
           branch := currentBranch st;
           mergeFrom := Some (capd 1 cs) |}
        (S (commitId st))
  | None => Ok st
  end end end end.

Definition parseGitGraph (mermaidCode : string) : result parsed :=
  bind (foldM step (Js.splitLines (Js.trim mermaidCode)) init)
       (fun st =>
          Ok {| commits := st_commits st;
                branches := JsMap.values (st_branches st) |}).

End Git.

(* ================================================================== *)
(** ** Cells and the document envelope *)
(* ================================================================== *)

Module Xml.

Inductive kind := Vertex | Edge.

(** [<mxPoint x=.. y=.. as=../>] *)
Record point (N : Type) := { pas : string; px : N; py : N }.

(** [<mxGeometry .. as="geometry">]; an attribute the template omits is
    [None]. *)
Record geometry (N : Type) :=
  { gx : option N; gy : option N; gwidth : option N; gheight : option N;
    relative : bool; points : list (point N) }.

(** [<mxCell ..>]: [value] is the attribute text as written to the markup
    (after escaping where the template escapes); [kind] is the
    [vertex="1"] or [edge="1"] attribute. *)
Record cell (N : Type) :=
  { cid : string; value : option string; style : string; ckind : kind;
    parent : string; csource : option string; ctarget : option string;
    geom : geometry N }.

Arguments pas {N}. Arguments px {N}. Arguments py {N}.
Arguments gx {N}. Arguments gy {N}. Arguments gwidth {N}.
Arguments gheight {N}. Arguments relative {N}. Arguments points {N}.
Arguments cid {N}. Arguments value {N}. Arguments style {N}.
Arguments ckind {N}. Arguments parent {N}. Arguments csource {N}.
Arguments ctarget {N}. Arguments geom {N}.

Definition box {N : Type} (x y w h : N) : geometry N :=
  {| gx := Some x; gy := Some y; gwidth := Some w; gheight := Some h;
     relative := false; points := [] |}.

(** [<mxGeometry y=.. width=.. height=.. as="geometry"/>] *)
Definition row {N : Type} (y w h : N) : geometry N :=
  {| gx := None; gy := Some y; gwidth := Some w; gheight := Some h;
     relative := false; points := [] |}.

(** [<mxGeometry relative="1" as="geometry">] with its points *)
Definition rel {N : Type} (pts : list (point N)) : geometry N :=
  {| gx := None; gy := None; gwidth := None; gheight := None;
     relative := true; points := pts |}.

Definition isVertex {N : Type} (c : cell N) : bool :=
  match ckind c with Vertex => true | Edge => false end.

Definition isEdge {N : Type} (c : cell N) : bool :=
  match ckind c with Vertex => false | Edge => true end.

Definition vertexIds {N : Type} (cs : list (cell N)) : list string :=
  map cid (filter isVertex cs).

Definition edgeCount {N : Type} (cs : list (cell N)) : nat :=
  List.length (filter isEdge cs).

(** The two readings of the system clock [wrapInDrawioXML] makes:
    [new Date().toISOString()] and [Date.now()]. *)
Record clock := { isoNow : string; msNow : nat }.

Record document (N : Type) :=
  { dname : string; diagramId : string; modified : string;
    pageWidth : Z; pageHeight : Z; cells : list (cell N) }.

Arguments dname {N}. Arguments diagramId {N}. Arguments modified {N}.
Arguments pageWidth {N}. Arguments pageHeight {N}. Arguments cells {N}.

(** [wrapInDrawioXML(name, cellsXML, width = 850, height = 1100)] *)
Definition wrapInDrawioXML {N : Type} (clk : clock) (name : string)
           (cellsXML : list (cell N)) (width height : option Z)
  : document N :=
  {| dname := escapeXML name;
     diagramId := "diagram_" ++ Js.ofNat (msNow clk);
     modified := isoNow clk;
     pageWidth := match width with Some w => w | None => 850%Z end;
     pageHeight := match height with Some h => h | None => 1100%Z end;
     cells := cellsXML |}.

(** [arr.forEach((x, index) => ..)]: the elements with their indices. *)
Fixpoint indexedFrom {A : Type} (i : nat) (l : list A) : list (nat * A) :=
  match l with
  | [] => []
  | a :: l' => (i, a) :: indexedFrom (S i) l'
  end.

Definition indexed {A : Type} (l : list A) : list (nat * A) :=
  indexedFrom 0 l.

End Xml.

(* ================================================================== *)
(** ** Flowchart generator *)
(* ================================================================== *)

Module FlowGen.
Import Xml Flow.
Local Open Scope Z_scope.

(** [SHAPE_MAPPINGS.flowchart] *)
Definition styleRect : string :=
  "rounded=0;whiteSpace=wrap;html=1;fillColor=#dae8fc;strokeColor=#6c8ebf;".
Definition styleStart : string :=
  "rounded=1;arcSize=50;whiteSpace=wrap;html=1;fillColor=#d5e8d4;strokeColor=#82b366;".
Definition styleEnd : string :=
  "rounded=1;arcSize=50;whiteSpace=wrap;html=1;fillColor=#f8cecc;strokeColor=#b85450;".

Definition shapeTable : list (string * string) :=
  [ ("[]", styleRect);
    ("()", "rounded=1;whiteSpace=wrap;html=1;fillColor=#dae8fc;strokeColor=#6c8ebf;");
    ("{}", "rhombus;whiteSpace=wrap;html=1;fillColor=#fff2cc;strokeColor=#d6b656;overflow=hidden;");
    ("([])", "rounded=1;arcSize=50;whiteSpace=wrap;html=1;fillColor=#dae8fc;strokeColor=#6c8ebf;");
    ("(())", "ellipse;whiteSpace=wrap;html=1;fillColor=#dae8fc;strokeColor=#6c8ebf;");
    ("[[]]", "shape=process;whiteSpace=wrap;html=1;fillColor=#dae8fc;strokeColor=#6c8ebf;");
    ("start", styleStart);
    ("end", styleEnd) ].

(** [SHAPE_MAPPINGS.edge] *)
Definition styleEdge : string :=
  "edgeStyle=orthogonalEdgeStyle;rounded=1;orthogonalLoop=1;jettySize=auto;html=1;endArrow=classic;strokeWidth=1;".

(** [SHAPE_MAPPINGS.flowchart[shape] || SHAPE_MAPPINGS.flowchart['[]']],
    for the shape tags [detectShape] produces. *)
Definition shapeStyle (shape : string) : string :=
  match JsMap.get shape shapeTable with
  | Some s => s
  | None => styleRect
  end.

Record pos := { x : Z; y : Z }.

(** The loop of [calculateFlowchartLayout]: the map and the running
    coordinates. *)
Definition layoutStep (isVertical : bool) (acc : JsMap.t pos * (Z * Z))
           (n : node) : JsMap.t pos * (Z * Z) :=
  let '(positions, (cx, cy)) := acc in
  (JsMap.set (id n) {| x := cx; y := cy |} positions,
   if isVertical then (cx, cy + 120) else (cx + 200, cy)).

Definition calculateFlowchartLayout (nodes : list node) (edges : list edge)
           (isVertical : bool) : JsMap.t pos :=
  fst (fold_left (layoutStep isVertical) nodes (JsMap.empty, (340, 40))).

Definition getExitPoints (sourceId targetId : string)
           (positions : JsMap.t pos) (direction : string) : string :=
  match JsMap.get sourceId positions, JsMap.get targetId positions with
  | Some _, Some _ =>
      if String.eqb direction "TD" || String.eqb direction "TB"
      then "exitX=0.5;exitY=1;entryX=0.5;entryY=0;"
      else if String.eqb direction "BT"
      then "exitX=0.5;exitY=0;entryX=0.5;entryY=1;"
      else if String.eqb direction "LR"
      then "exitX=1;exitY=0.5;entryX=0;entryY=0.5;"
      else if String.eqb direction "RL"
      then "exitX=0;exitY=0.5;entryX=1;entryY=0.5;"
      else EmptyString
  | _, _ => EmptyString
  end.

(** The cell of one node; reading [pos.x] throws if the node has no
    position. *)
Definition nodeCell (positions : JsMap.t pos) (n : node) : result (cell Z) :=
  match JsMap.get (id n) positions with
  | None => TypeError
  | Some p =>
      let labelLower := Js.toLowerCase (label n) in
      let style :=
        if String.eqb labelLower "start" then styleStart
        else if String.eqb labelLower "end" || String.eqb labelLower "stop"
        then styleEnd
        else shapeStyle (shape n) in
      let textLen := Z.of_nat (String.length (label n)) in
      let diamond := String.eqb (shape n) "{}" in
      let width := if diamond
                   then if textLen <=? 15 then 120
                        else if textLen <=? 30 then 160 else 200
                   else 120 in
      let height := if diamond
                    then if textLen <=? 15 then 80
                         else if textLen <=? 30 then 100 else 120
                    else 60 in
      Ok {| cid := id n; value := Some (escapeXML (label n));
            style := style; ckind := Vertex; parent := "1";
            csource := None; ctarget := None;
            geom := box (x p) (y p) width height |}
  end.

Fixpoint nodeCells (positions : JsMap.t pos) (ns : list node)
  : result (list (cell Z)) :=
  match ns with
  | [] => Ok []
  | n :: ns' =>
      bind (nodeCell positions n) (fun c =>
      bind (nodeCells positions ns') (fun cs => Ok (c :: cs)))
  end.

(** The edge loop; [cellId] counts from 2. *)
Fixpoint edgeCells (positions : JsMap.t pos) (direction : string)
         (cellId : nat) (es : list edge) : list (cell Z) :=
  match es with
  | [] => []
  | e :: es' =>
      {| cid := "e" ++ Js.ofNat cellId;
         value := if truthy (elabel e)
                  then option_map escapeXML (elabel e) else None;
         style := styleEdge ++
                  getExitPoints (source e) (target e) positions direction;
         ckind := Edge; parent := "1";
         csource := Some (source e); ctarget := Some (target e);
         geom := rel [] |}
      :: edgeCells positions direction (S cellId) es'
  end.

Definition generateFlowchartXML (clk : clock) (p : parsed)
  : result (document Z) :=
  let isVertical := String.eqb (direction p) "TD"
                    || String.eqb (direction p) "TB"
                    || String.eqb (direction p) "BT" in
  let positions := calculateFlowchartLayout (nodes p) (edges p) isVertical in
  bind (nodeCells positions (nodes p)) (fun ncs =>
  Ok (wrapInDrawioXML clk "Flowchart"
        (ncs ++ edgeCells positions (direction p) 2 (edges p))
        None None)).

End FlowGen.

(* ================================================================== *)
(** ** ER diagram generator *)
(* ================================================================== *)

(** Geometry of a placed box, as stored in [entityPositions] and
    [classPositions]. *)
Record boxPos := { bx : Z; by_ : Z; bwidth : Z; bheight : Z }.

(** [calculateERExitEntry(srcPos, tgtPos)] *)
Definition calculateERExitEntry (srcPos tgtPos : boxPos) : string :=
  if (Z.abs (by_ srcPos - by_ tgtPos) <? 50)%Z then
    if (bx srcPos <? bx tgtPos)%Z
    then "exitX=1;exitY=0.5;entryX=0;entryY=0.5;"
    else "exitX=0;exitY=0.5;entryX=1;entryY=0.5;"
  else if (Z.abs (bx srcPos - bx tgtPos) <? 50)%Z then
    if (by_ srcPos <? by_ tgtPos)%Z
    then "exitX=0.5;exitY=1;entryX=0.5;entryY=0;"
    else "exitX=0.5;exitY=0;entryX=0.5;entryY=1;"
  else
    (if (bx srcPos <? bx tgtPos)%Z
     then "exitX=1;exitY=0.5;" else "exitX=0;exitY=0.5;")
    ++ (if (by_ srcPos <? by_ tgtPos)%Z
        then "entryX=0.5;entryY=0;" else "entryX=0.5;entryY=1;").

Module ERGen.
Import Xml ER.
Local Open Scope Z_scope.

(** [SHAPE_MAPPINGS.erEntity] and [SHAPE_MAPPINGS.erAttribute] *)
Definition styleEntity : string :=
  "swimlane;fontStyle=1;align=center;verticalAlign=top;childLayout=stackLayout;horizontal=1;startSize=30;horizontalStack=0;resizeParent=1;resizeParentMax=0;resizeLast=0;collapsible=0;marginBottom=0;fillColor=#dae8fc;strokeColor=#6c8ebf;".
Definition styleAttribute : string :=
  "text;strokeColor=none;fillColor=none;align=left;verticalAlign=middle;spacingLeft=4;spacingRight=4;overflow=hidden;rotatable=0;points=[[0,0.5],[1,0.5]];portConstraint=eastwest;".

Section WithPrototype.
(** [ER_CARDINALITY] is a plain object, so a cardinality named after a
    property of [Object.prototype] reads that property; when its value is
    truthy, [inherited c] is the pair of texts its [arrow] and [fill]
    properties are written as ([undefined] twice for [constructor]). *)
Variable inherited : string -> option (string * string).

(** [ER_CARDINALITY[c] || { arrow: 'ERone', fill: 0 }]: the texts written
    for [.arrow] and [.fill]. *)
Definition cardinalityArrow (c : string) : string * string :=
  match JsMap.get c
          [ ("||", "ERone"); ("|o", "ERzeroToOne"); ("o|", "ERzeroToOne");
            ("}|", "ERoneToMany"); ("|{", "ERoneToMany");
            ("}o", "ERzeroToMany"); ("o{", "ERzeroToMany") ] with
  | Some a => (a, "0")
  | None => match inherited c with
            | Some af => af
            | None => ("ERone", "0")
            end
  end.

Definition GRID_X : list Z := [40; 440; 840; 1240].
Definition GRID_Y : list Z := [40; 390; 740; 1090].
Definition ENTITY_WIDTH : Z := 200.

(** [GRID[i] || fallback] *)
Definition gridOr (grid : list Z) (i : nat) (fallback : Z) : Z :=
  match nth_error grid i with
  | Some v => if v =? 0 then fallback else v
  | None => fallback
  end.

Definition entityPos (index : nat) (e : entity) : boxPos :=
  let col := (index mod 4)%nat in
  let row := (index / 4)%nat in
  let h := 30 + Z.of_nat (List.length (attributes e)) * 22 in
  {| bx := gridOr GRID_X col (40 + Z.of_nat col * 400);
     by_ := gridOr GRID_Y row (40 + Z.of_nat row * 350);
     bwidth := ENTITY_WIDTH;
     bheight := if h =? 0 then 100 else h |}.

Definition attrCell (ename : string) (ia : nat * attribute) : cell Z :=
  let (attrIndex, attr) := ia in
  let c := constraint attr in
  {| cid := ename ++ "_attr" ++ Js.ofNat attrIndex;
     value := Some (escapeXML
                      (atype attr ++ " " ++ aname attr ++
                       (if truthy c then " " ++ orElse c EmptyString
                        else EmptyString)));
     style := styleAttribute
              ++ (if String.eqb (orElse c EmptyString) "PK"
                  then "fontStyle=4;" else EmptyString)
              ++ (if String.eqb (orElse c EmptyString) "FK"
                  then "fontStyle=2;" else EmptyString);
     ckind := Vertex; parent := ename;
     csource := None; ctarget := None;
     geom := row (30 + Z.of_nat attrIndex * 22) ENTITY_WIDTH 22 |}.

(** The cells one pass of [entities.forEach] appends: the container, then
    its attribute rows. *)
Definition containerCell (ie : nat * entity) : cell Z :=
  let (index, e) := ie in
  let p := entityPos index e in
  {| cid := name e; value := Some (escapeXML (name e));
     style := styleEntity; ckind := Vertex; parent := "1";
     csource := None; ctarget := None;
     geom := box (bx p) (by_ p) ENTITY_WIDTH (bheight p) |}.

Definition attrCells (ie : nat * entity) : list (cell Z) :=
  map (attrCell (name (snd ie))) (indexed (attributes (snd ie))).

Definition entityCells (ie : nat * entity) : list (cell Z) :=
  containerCell ie :: attrCells ie.

(** The [entityPositions] map the same pass fills. *)
Definition entityPositions (es : list entity) : JsMap.t boxPos :=
  fold_left (fun m (ie : nat * entity) =>
               JsMap.set (name (snd ie)) (entityPos (fst ie) (snd ie)) m)
            (indexed es) JsMap.empty.

(** The relationship loop: the counter advances before the
    [if (!srcPos || !tgtPos) continue] test. *)
Fixpoint relCells (positions : JsMap.t boxPos) (cellId : nat)
         (rs : list relationship) : list (cell Z) :=
  match rs with
  | [] => []
  | r :: rs' =>
      match JsMap.get (source r) positions, JsMap.get (target r) positions with
      | Some srcPos, Some tgtPos =>
          [ {| cid := "rel" ++ Js.ofNat cellId;
               value := Some (escapeXML (label r));
               style :=
                 "edgeStyle=orthogonalEdgeStyle;rounded=0;orthogonalLoop=1;jettySize=auto;html=1;startArrow="
                 ++ fst (cardinalityArrow (sourceCardinality r))
                 ++ ";startFill="
                 ++ snd (cardinalityArrow (sourceCardinality r))
                 ++ ";endArrow="
                 ++ fst (cardinalityArrow (targetCardinality r))
                 ++ ";endFill="
                 ++ snd (cardinalityArrow (targetCardinality r)) ++ ";"
                 ++ calculateERExitEntry srcPos tgtPos;
               ckind := Edge; parent := "1";
               csource := Some (source r); ctarget := Some (target r);
               geom := rel [ {| pas := "offset"; px := 0; py := -25 |} ] |} ]
      | _, _ => []
      end ++ relCells positions (S cellId) rs'
  end.

Definition generateERDiagramXML (clk : clock) (p : parsed) : document Z :=
  wrapInDrawioXML clk "ER Diagram"
    (flat_map entityCells (indexed (entities p))
     ++ relCells (entityPositions (entities p)) 2 (relationships p))
    (Some 1600) (Some 1200).

End WithPrototype.

End ERGen.

(* ================================================================== *)
(** ** Sequence diagram generator *)
(* ================================================================== *)

Module SeqGen.
Import Xml Seq.
Local Open Scope Z_scope.

(** [SEQUENCE_STYLES] *)
Definition styleParticipant : string :=
  "rounded=0;whiteSpace=wrap;html=1;fillColor=#dae8fc;strokeColor=#6c8ebf;fontStyle=1;".
Definition styleActor : string :=
  "shape=umlActor;verticalLabelPosition=bottom;verticalAlign=top;html=1;fillColor=#dae8fc;strokeColor=#6c8ebf;".
Definition styleLifeline : string :=
  "html=1;points=[];perimeter=orthogonalPerimeter;outlineConnect=0;targetShapes=umlLifeline;portConstraint=eastwest;newEdgeStyle={"
  ++ String Js.DQ "curved" ++ String Js.DQ ":0,"
  ++ String Js.DQ "rounded" ++ String Js.DQ
       ":0};dashed=1;dashPattern=8 8;strokeWidth=1;strokeColor=#666666;".
Definition styleMessage : string :=
  "html=1;verticalAlign=bottom;endArrow=block;curved=0;rounded=0;".
Definition styleMessageAsync : string :=
  "html=1;verticalAlign=bottom;endArrow=open;curved=0;rounded=0;dashed=1;".
Definition styleNote : string :=
  "shape=note;whiteSpace=wrap;html=1;backgroundOutline=1;darkOpacity=0.05;fillColor=#fff2cc;strokeColor=#d6b656;".

Definition PARTICIPANT_WIDTH : Z := 100.
Definition PARTICIPANT_HEIGHT : Z := 50.
Definition PARTICIPANT_SPACING : Z := 180.
Definition LIFELINE_START_Y : Z := 80.
Definition MESSAGE_SPACING : Z := 60.

Record ppos := { x : Z; centerX : Z }.

Definition participantPos (index : nat) : ppos :=
  let x0 := 80 + Z.of_nat index * PARTICIPANT_SPACING in
  {| x := x0; centerX := x0 + PARTICIPANT_WIDTH / 2 |}.

Definition participantPositions (ps : list participant) : JsMap.t ppos :=
  fold_left (fun m (ip : nat * participant) =>
               JsMap.set (id (snd ip)) (participantPos (fst ip)) m)
            (indexed ps) JsMap.empty.

(** The box and the lifeline of one participant. *)
Definition participantCells (nmessages : nat) (ip : nat * participant)
  : list (cell Z) :=
  let (index, p) := ip in
  let x0 := x (participantPos index) in
  [ {| cid := id p; value := Some (escapeXML (label p));
       style := if String.eqb (ptype p) "actor"
                then styleActor else styleParticipant;
       ckind := Vertex; parent := "1"; csource := None; ctarget := None;
       geom := box x0 20 PARTICIPANT_WIDTH PARTICIPANT_HEIGHT |};
    {| cid := id p ++ "_lifeline"; value := None; style := styleLifeline;
       ckind := Vertex; parent := "1"; csource := None; ctarget := None;
       geom := box (x0 + PARTICIPANT_WIDTH / 2 - 1) LIFELINE_START_Y 2
                   (LIFELINE_START_Y + Z.of_nat nmessages * MESSAGE_SPACING
                    + 100) |} ].

(** [messages.forEach]: the counter advances only when a cell is written;
    a message with an unplaced endpoint is passed over. *)
Fixpoint messageCells (positions : JsMap.t ppos) (cellId : nat)
         (ims : list (nat * message)) : list (cell Z) * nat :=
  match ims with
  | [] => ([], cellId)
  | (index, msg) :: ims' =>
      match JsMap.get (from msg) positions, JsMap.get (to msg) positions with
      | Some fromPos, Some toPos =>
          let yy := LIFELINE_START_Y + 30 + Z.of_nat index * MESSAGE_SPACING in
          let (cs, n) := messageCells positions (S cellId) ims' in
          ({| cid := "msg" ++ Js.ofNat cellId;
              value := Some (escapeXML (text msg));
              style := if String.eqb (mtype msg) "async"
                       then styleMessageAsync else styleMessage;
              ckind := Edge; parent := "1";
              csource := None; ctarget := None;
              geom := rel [ {| pas := "sourcePoint";
                               px := centerX fromPos; py := yy |};
                            {| pas := "targetPoint";
                               px := centerX toPos; py := yy |} ] |} :: cs,
           n)
      | _, _ => messageCells positions cellId ims'
      end
  end.

(** [notes.forEach], continuing the same counter. *)
Fixpoint noteCells (positions : JsMap.t ppos) (cellId : nat)
         (ins : list (nat * note)) : list (cell Z) :=
  match ins with
  | [] => []
  | (index, nt) :: ins' =>
      match JsMap.get (hd EmptyString (nparticipants nt)) positions with
      | Some p =>
          {| cid := "note" ++ Js.ofNat cellId;
             value := Some (escapeXML (ntext nt));
             style := styleNote; ckind := Vertex; parent := "1";
             csource := None; ctarget := None;
             geom := box (if Js.includes "right" (position nt)
                          then x p + PARTICIPANT_WIDTH + 20
                          else if Js.includes "left" (position nt)
                          then x p - 120 else x p)
                         (LIFELINE_START_Y + 50 + Z.of_nat index * 30)
                         100 40 |}
          :: noteCells positions (S cellId) ins'
      | None => noteCells positions cellId ins'
      end
  end.

Definition generateSequenceDiagramXML (clk : clock) (p : parsed)
  : document Z :=
  let positions := participantPositions (participants p) in
  let nmsg := List.length (messages p) in
  let (mcs, cellId) := messageCells positions 2 (indexed (messages p)) in
  wrapInDrawioXML clk "Sequence Diagram"
    (flat_map (participantCells nmsg) (indexed (participants p))
     ++ mcs ++ noteCells positions cellId (indexed (notes p)))
    (Some (Z.max 800 (Z.of_nat (List.length (participants p))
                      * PARTICIPANT_SPACING + 100)))
    (Some (LIFELINE_START_Y + Z.of_nat nmsg * MESSAGE_SPACING + 200)).

End SeqGen.

(* ================================================================== *)
(** ** Class diagram generator *)
(* ================================================================== *)

Module ClassGen.
Import Xml Class.
Local Open Scope Z_scope.

(** [CLASS_STYLES] *)
Definition styleClass : string :=
  "swimlane;fontStyle=1;align=center;verticalAlign=top;childLayout=stackLayout;horizontal=1;startSize=26;horizontalStack=0;resizeParent=1;resizeParentMax=0;resizeLast=0;collapsible=0;marginBottom=0;fillColor=#dae8fc;strokeColor=#6c8ebf;".
Definition styleInterface : string :=
  "swimlane;fontStyle=3;align=center;verticalAlign=top;childLayout=stackLayout;horizontal=1;startSize=26;horizontalStack=0;resizeParent=1;resizeParentMax=0;resizeLast=0;collapsible=0;marginBottom=0;fillColor=#d5e8d4;strokeColor=#82b366;".
Definition styleAbstract : string :=
  "swimlane;fontStyle=2;align=center;verticalAlign=top;childLayout=stackLayout;horizontal=1;startSize=26;horizontalStack=0;resizeParent=1;resizeParentMax=0;resizeLast=0;collapsible=0;marginBottom=0;fillColor=#e1d5e7;strokeColor=#9673a6;".
Definition styleMember : string :=
  "text;strokeColor=none;fillColor=none;align=left;verticalAlign=top;spacingLeft=4;spacingRight=4;overflow=hidden;rotatable=0;points=[[0,0.5],[1,0.5]];portConstraint=eastwest;".
Definition styleSeparator : string :=
  "line;strokeWidth=1;fillColor=none;align=left;verticalAlign=middle;spacingTop=-1;spacingLeft=3;spacingRight=3;rotatable=0;labelPosition=right;points=[];portConstraint=eastwest;strokeColor=#6c8ebf;".

Definition CLASS_WIDTH : Z := 180.
Definition CLASS_SPACING_X : Z := 250.
Definition CLASS_SPACING_Y : Z := 200.
Definition headerHeight : Z := 30.
Definition memberHeight : Z := 22.

Definition len {A : Type} (l : list A) : Z := Z.of_nat (List.length l).

Definition classPos (index : nat) (cls : class) : boxPos :=
  let col := (index mod 3)%nat in
  let row := (index / 3)%nat in
  {| bx := 60 + Z.of_nat col * CLASS_SPACING_X;
     by_ := 60 + Z.of_nat row * CLASS_SPACING_Y;
     bwidth := CLASS_WIDTH;
     bheight := headerHeight + len (attributes cls) * memberHeight
                + (if 0 <? len (methods cls) then memberHeight else 0)
                + len (methods cls) * memberHeight + 10 |}.

Definition classPositions (cs : list class) : JsMap.t boxPos :=
  fold_left (fun m (ic : nat * class) =>
               JsMap.set (name (snd ic)) (classPos (fst ic) (snd ic)) m)
            (indexed cs) JsMap.empty.

(** [v === '+' ? '+' : v === '-' ? '-' : v === '#' ? '#' : '~'] *)
Definition visSymbol (v : string) : string :=
  if String.eqb v "+" then "+"
  else if String.eqb v "-" then "-"
  else if String.eqb v "#" then "#" else "~".

Definition member (cname suffix : string) (i : nat) (text : string)
           (memberY : Z) : cell Z :=
  {| cid := cname ++ suffix ++ Js.ofNat i;
     value := Some (escapeXML text); style := styleMember;
     ckind := Vertex; parent := cname; csource := None; ctarget := None;
     geom := row memberY CLASS_WIDTH memberHeight |}.

(** The container cell of a class. *)
Definition containerCell (ic : nat * class) : cell Z :=
  let (index, cls) := ic in
  let p := classPos index cls in
  let st := orElse (stereotype cls) EmptyString in
  {| cid := name cls;
     value := Some (if truthy (stereotype cls)
                    then "&lt;&lt;" ++ st ++ "&gt;&gt;\n" ++ name cls
                    else name cls);
     style := if String.eqb st "abstract" then styleAbstract
              else if String.eqb st "interface" then styleInterface
              else styleClass;
     ckind := Vertex; parent := "1"; csource := None; ctarget := None;
     geom := box (bx p) (by_ p) CLASS_WIDTH (bheight p) |}.

(** The member rows of a class; [memberY] starts at the header height and
    advances by one member height per row and by 8 for the separator. *)
Definition memberCells (ic : nat * class) : list (cell Z) :=
  let (index, cls) := ic in
  let na := len (attributes cls) in
  let hasMethods := 0 <? len (methods cls) in
  let methodsY := headerHeight + na * memberHeight
                  + (if hasMethods then 8 else 0) in
  map (fun ia : nat * attribute =>
         let (i, a) := ia in
         member (name cls) "_attr" i
           (visSymbol (avisibility a) ++ " " ++ aname a ++ ": " ++ atype a)
           (headerHeight + Z.of_nat i * memberHeight))
      (indexed (attributes cls))
  ++ (if hasMethods
      then [ {| cid := name cls ++ "_sep"; value := None;
                style := styleSeparator; ckind := Vertex;
                parent := name cls; csource := None; ctarget := None;
                geom := row (headerHeight + na * memberHeight)
                            CLASS_WIDTH 8 |} ]
      else [])
  ++ map (fun im : nat * method =>
            let (i, m) := im in
            member (name cls) "_method" i
              (visSymbol (visibility m) ++ " " ++ mname m ++ "("
               ++ params m ++ "): " ++ returnType m)
              (methodsY + Z.of_nat i * memberHeight))
         (indexed (methods cls)).

(** The cells one pass of [classes.forEach] appends. *)
Definition classCells (ic : nat * class) : list (cell Z) :=
  containerCell ic :: memberCells ic.

(** The [switch (rel.type)]: start arrow, end arrow and dash pattern. *)
Definition arrows (t : string) : string * string * string :=
  if String.eqb t "inheritance" then ("none", "block", EmptyString)
  else if String.eqb t "composition" then ("diamondThin", "open", EmptyString)
  else if String.eqb t "aggregation" then ("diamond", "open", EmptyString)
  else if String.eqb t "dependency"
  then ("none", "open", "dashed=1;dashPattern=8 8;")
  else ("none", "open", EmptyString).

Fixpoint relCells (positions : JsMap.t boxPos) (cellId : nat)
         (rs : list relationship) : list (cell Z) :=
  match rs with
  | [] => []
  | r :: rs' =>
      match JsMap.get (from r) positions, JsMap.get (to r) positions with
      | Some srcPos, Some tgtPos =>
          let '(startArrow, endArrow, dashed) := arrows (rtype r) in
          [ {| cid := "rel" ++ Js.ofNat cellId;
               value := Some (if truthy (label r)
                              then escapeXML (orElse (label r) EmptyString)
                              else EmptyString);
               style :=
                 "edgeStyle=orthogonalEdgeStyle;rounded=0;orthogonalLoop=1;jettySize=auto;html=1;startArrow="
                 ++ startArrow ++ ";startFill=0;endArrow=" ++ endArrow
                 ++ ";endFill=0;" ++ dashed
                 ++ calculateERExitEntry srcPos tgtPos;
               ckind := Edge; parent := "1";
               csource := Some (from r); ctarget := Some (to r);
               geom := rel [] |} ]
      | _, _ => []
      end ++ relCells positions (S cellId) rs'
  end.

(** [Math.ceil(n / 3)] *)
Definition ceilThird (n : Z) : Z := (n + 2) / 3.

Definition generateClassDiagramXML (clk : clock) (p : parsed) : document Z :=
  let rows := ceilThird (len (classes p)) in
  wrapInDrawioXML clk "Class Diagram"
    (flat_map classCells (indexed (classes p))
     ++ relCells (classPositions (classes p)) 2 (relationships p))
    (Some (Z.max 800 (rows * CLASS_SPACING_X + 150)))
    (Some (Z.max 600 (rows * CLASS_SPACING_Y + 150))).

End ClassGen.

(* ================================================================== *)
(** ** Git graph generator *)
(* ================================================================== *)

Module GitGen.
Import Xml Git.
Local Open Scope Z_scope.

(** [GITGRAPH_STYLES] *)
Definition styleCommit : string :=
  "ellipse;whiteSpace=wrap;html=1;aspect=fixed;fillColor=#dae8fc;strokeColor=#6c8ebf;".
Definition styleConnector : string :=
  "edgeStyle=orthogonalEdgeStyle;rounded=1;orthogonalLoop=1;jettySize=auto;html=1;endArrow=none;strokeWidth=3;".
Definition styleLabel : string :=
  "text;html=1;strokeColor=none;fillColor=none;align=left;verticalAlign=middle;whiteSpace=wrap;rounded=0;fontSize=10;".
Definition branchColors : list (string * string) :=
  [ ("main", "#6c8ebf"); ("develop", "#82b366"); ("feature", "#d6b656");
    ("hotfix", "#b85450"); ("release", "#9673a6") ].

Definition COMMIT_SIZE : Z := 30.
Definition COMMIT_SPACING_Y : Z := 60.
Definition BRANCH_SPACING_X : Z := 100.
Definition START_X : Z := 100.
Definition START_Y : Z := 50.

Section WithPrototype.
(** [GITGRAPH_STYLES.branch] is a plain object, so a branch named after
    a property of [Object.prototype] reads that property;
    [inherited name] is the text such a value is written as, when there
    is one. *)
Variable inherited : string -> option string.

(** [GITGRAPH_STYLES.branch[name] || GITGRAPH_STYLES.branch.feature] *)
Definition color (name : string) : string :=
  match JsMap.get name branchColors with
  | Some c => c
  | None => match inherited name with
            | Some c => c
            | None => "#d6b656"
            end
  end.

Definition branchPositions (bs : list branchRec) : JsMap.t Z :=
  fold_left (fun m (ib : nat * branchRec) =>
               JsMap.set (name (snd ib))
                 (START_X + Z.of_nat (fst ib) * BRANCH_SPACING_X) m)
            (indexed bs) JsMap.empty.

(** Reading [x - 20] of a branch that has no position cannot happen:
    the map was filled from the same list; the default is never used. *)
Definition branchLabel (positions : JsMap.t Z) (b : branchRec) : cell Z :=
  let x := match JsMap.get (name b) positions with
           | Some x => x | None => START_X end in
  {| cid := "branch_" ++ name b; value := Some (escapeXML (name b));
     style := styleLabel ++ "fontStyle=1;fontColor=" ++ color (name b) ++ ";";
     ckind := Vertex; parent := "1"; csource := None; ctarget := None;
     geom := box (x - 20) 10 80 20 |}.

Record cpos := { x : Z; y : Z }.

(** [branchPositions.get(commit.branch) || START_X] *)
Definition commitPositions (bpos : JsMap.t Z) (cs : list commit)
  : JsMap.t cpos :=
  fold_left (fun m (ic : nat * commit) =>
               let bx := match JsMap.get (branch (snd ic)) bpos with
                         | Some v => if v =? 0 then START_X else v
                         | None => START_X
                         end in
               JsMap.set (id (snd ic))
                 {| x := bx;
                    y := START_Y + Z.of_nat (fst ic) * COMMIT_SPACING_Y |} m)
            (indexed cs) JsMap.empty.

(** [branches.find(b => b.name === n)] *)
Definition findBranch (n : string) (bs : list branchRec)
  : option branchRec :=
  find (fun b => String.eqb (name b) n) bs.

(** [branches.find(..)?.commits.slice(-1)[0] || prevCommit.id] *)
Definition mergeSource (bs : list branchRec) (from prevId : string)
  : string :=
  match findBranch from bs with
  | Some b => orElse (last (map Some (bcommits b)) None) prevId
  | None => prevId
  end.

(** The cells written for the commit at [index]: the commit, the
    connector to a previous commit, the tag label. *)
Definition commitCells (bs : list branchRec) (positions : JsMap.t cpos)
           (prev : option commit) (cellId : nat) (c : commit)
  : result (list (cell Z) * nat) :=
  match JsMap.get (id c) positions with
  | None => TypeError
  | Some pos =>
      let col := color (branch c) in
      let fillColor := if String.eqb (ctype c) "MERGE" then "#f8cecc"
                       else if String.eqb (ctype c) "HIGHLIGHT"
                       then "#d5e8d4" else "#dae8fc" in
      let isMerge := String.eqb (ctype c) "MERGE" in
      let connector : list (cell Z) :=
        match prev with
        | None => []
        | Some prevCommit =>
            if String.eqb (branch prevCommit) (branch c) || isMerge
            then
              [ {| cid := "conn" ++ Js.ofNat cellId; value := None;
                   style := styleConnector ++ "strokeColor=" ++ col ++ ";";
                   ckind := Edge; parent := "1";
                   csource :=
                     Some (if isMerge && truthy (mergeFrom c)
                           then mergeSource bs
                                  (orElse (mergeFrom c) EmptyString)
                                  (id prevCommit)
                           else id prevCommit);
                   ctarget := Some (id c);
                   geom := rel [] |} ]
            else []
        end in
      let out : list (cell Z) :=
         ([ {| cid := id c; value := Some (orElse (tag c) EmptyString);
               style := styleCommit ++ "fillColor=" ++ fillColor
                        ++ ";strokeColor=" ++ col ++ ";";
               ckind := Vertex; parent := "1";
               csource := None; ctarget := None;
               geom := box (x pos - COMMIT_SIZE / 2)
                           (y pos - COMMIT_SIZE / 2)
                           COMMIT_SIZE COMMIT_SIZE |} ]
          ++ connector
          ++ (if truthy (tag c)
              then [ {| cid := "tag_" ++ id c;
                        value := Some (escapeXML (orElse (tag c) EmptyString));
                        style := styleLabel
                          ++ "fillColor=#fff2cc;strokeColor=#d6b656;rounded=1;";
                        ckind := Vertex; parent := "1";
                        csource := None; ctarget := None;
                        geom := box (x pos + COMMIT_SIZE) (y pos - 10)
                                    60 20 |} ]
              else []))%list in
      Ok (out, (cellId + List.length connector)%nat)
  end.

(** [commits.forEach((commit, index) => ..)], with [commits[index - 1]]
    carried along as [prev]. *)
Fixpoint commitLoop (bs : list branchRec) (positions : JsMap.t cpos)
         (prev : option commit) (cellId : nat) (cs : list commit)
  : result (list (cell Z)) :=
  match cs with
  | [] => Ok []
  | c :: cs' =>
      bind (commitCells bs positions prev cellId c) (fun out =>
      bind (commitLoop bs positions (Some c) (snd out) cs') (fun rest =>
      Ok (fst out ++ rest)%list))
  end.

Definition generateGitGraphXML (clk : clock) (p : parsed)
  : result (document Z) :=
  let bpos := branchPositions (branches p) in
  let cpos := commitPositions bpos (commits p) in
  bind (commitLoop (branches p) cpos None 2 (commits p)) (fun ccs =>
  Ok (wrapInDrawioXML clk "Git Graph"
        (map (branchLabel bpos) (branches p) ++ ccs)
        (Some (Z.max 600 (Z.of_nat (List.length (branches p))
                          * BRANCH_SPACING_X + 200)))
        (Some (Z.max 400 (Z.of_nat (List.length (commits p))
                          * COMMIT_SPACING_Y + 100))))).

End WithPrototype.

End GitGen.

(* ================================================================== *)
(** ** The engine *)
(* ================================================================== *)

(** What a run takes from the engine that executes the program.

    Numbers are IEEE 754 doubles.  A number is kept as the real it
    denotes; [+], [-], [*] and [/] return the exact result rounded to a
    double, which is [rnd] (the magnitudes here stay far below the
    overflow threshold).  [Math.cos] and [Math.sin] are left to the
    implementation by the language; [Math.PI] is the double nearest to
    pi.

    A call that does not fit on the call stack throws a [RangeError]:
    [layoutFrames] is the number of nested calls of
    [calculateNodePositions] that fit, counted from the call
    [generateMindmapXML] makes, and [renderFrames] the number of nested
    calls of [renderNode], counted from the call [generateMindmapTree]
    makes. *)
Module Engine.
Local Open Scope R_scope.

Record t :=
  { rnd : R -> R;
    mcos : R -> R;
    msin : R -> R;
    layoutFrames : nat;
    renderFrames : nat }.

Section Arithmetic.
Variable e : t.

Definition add (a b : R) : R := rnd e (a + b).
Definition sub (a b : R) : R := rnd e (a - b).
Definition mul (a b : R) : R := rnd e (a * b).
Definition div (a b : R) : R := rnd e (a / b).

(** [Math.PI] *)
Definition pi : R := rnd e PI.

(** A decimal literal, read as the nearest double. *)
Definition literal (x : R) : R := rnd e x.

End Arithmetic.

(** An engine that computes without rounding and holds [frames] nested
    calls. *)
Definition exact (frames : nat) : t :=
  {| rnd := fun x => x; mcos := cos; msin := sin;
     layoutFrames := frames; renderFrames := frames |}.

(** What holds of the arithmetic of every engine: rounding is monotone
    and leaves the halves of the integers up to 2^53 as they are, so
    sums, differences and halves of such numbers are exact; [Math.cos]
    and [Math.sin] range over [-1, 1] and are exact at 0. *)
Record ieee (e : t) : Prop :=
  { rnd_mono : forall x y, x <= y -> rnd e x <= rnd e y;
    rnd_half : forall z : Z,
        (Z.abs z <= 2 ^ 53)%Z -> rnd e (IZR z / 2) = IZR z / 2;
    cos_range : forall a, -1 <= mcos e a <= 1;
    sin_range : forall a, -1 <= msin e a <= 1;
    cos_zero : mcos e 0 = 1;
    sin_zero : msin e 0 = 0 }.

End Engine.

(* ================================================================== *)
(** ** Mindmap generator

    Coordinates are doubles, computed with the arithmetic of the engine. *)
(* ================================================================== *)

Module MindGen.
Import Xml Mindmap.
Local Open Scope R_scope.

(** [MINDMAP_STYLES] *)
Definition styleRoot : string :=
  "ellipse;whiteSpace=wrap;html=1;fillColor=#dae8fc;strokeColor=#6c8ebf;fontStyle=1;fontSize=16;".
Definition styleLevel1 : string :=
  "rounded=1;whiteSpace=wrap;html=1;fillColor=#d5e8d4;strokeColor=#82b366;fontStyle=1;fontSize=14;".
Definition styleLevel2 : string :=
  "rounded=1;whiteSpace=wrap;html=1;fillColor=#fff2cc;strokeColor=#d6b656;fontSize=12;".
Definition styleLevel3 : string :=
  "rounded=1;whiteSpace=wrap;html=1;fillColor=#f8cecc;strokeColor=#b85450;fontSize=11;".
Definition styleConnector : string :=
  "edgeStyle=entityRelationEdgeStyle;curved=1;rounded=0;orthogonalLoop=1;jettySize=auto;html=1;endArrow=none;strokeWidth=2;".

Definition CANVAS_WIDTH : R := 2400.
Definition CANVAS_HEIGHT : R := 1800.

(** [LEVEL_RADII[level] || 150] with [LEVEL_RADII = [0, 350, 280, 220, 180]] *)
Definition radiusOf (level : nat) : R :=
  match level with
  | 1%nat => 350
  | 2%nat => 280
  | 3%nat => 220
  | 4%nat => 180
  | _ => 150
  end.

(** [NODE_SIZES[level] || NODE_SIZES[3]]: width and height *)
Definition sizeOf (level : nat) : R * R :=
  match level with
  | 0%nat => (180, 90)
  | 1%nat => (160, 70)
  | 2%nat => (140, 55)
  | _ => (120, 45)
  end.

Record npos :=
  { x : R; y : R; centerX : R; centerY : R; width : R; height : R }.

(** A node object of the tree [buildTree] links up, with its [children]. *)
Inductive tree := Node (nid : string) (kids : list tree).

(** [node.children.forEach((child, index) => ..)]: the recursive call [rec]
    on each child with the angle of its index, the writes appended in
    order. *)
Definition eachChild (rec : tree -> R -> list (string * npos))
           (angleOf : nat -> R) : list tree -> nat -> list (string * npos) :=
  fix each (cs : list tree) (index : nat) {struct cs} :=
    match cs with
    | [] => []
    | child :: cs' => (rec child (angleOf index) ++ each cs' (S index))%list
    end.

Section WithEngine.
Variable e : Engine.t.

Notation "a +. b" := (Engine.add e a b) (at level 50, left associativity).
Notation "a -. b" := (Engine.sub e a b) (at level 50, left associativity).
Notation "a *. b" := (Engine.mul e a b) (at level 40, left associativity).
Notation "a /. b" := (Engine.div e a b) (at level 40, left associativity).

(** [CANVAS_WIDTH / 2] and [CANVAS_HEIGHT / 2] *)
Definition CENTER_X : R := CANVAS_WIDTH /. 2.
Definition CENTER_Y : R := CANVAS_HEIGHT /. 2.

(** [Math.PI * (level === 0 ? 2 : 1.2)] *)
Definition fanAngleOf (level : nat) : R :=
  Engine.pi e *. (match level with
                  | O => 2
                  | S _ => Engine.literal e (12 / 10)
                  end).

(** [level === 0 ? 0 : angle - fanAngle / 2] *)
Definition startAngleOf (level : nat) (angle : R) : R :=
  match level with
  | O => 0
  | S _ => angle -. fanAngleOf level /. 2
  end.

(** [fanAngle / Math.max(childCount - 1, 1)] *)
Definition angleStepOf (level childCount : nat) : R :=
  fanAngleOf level /. INR (Nat.max (childCount - 1) 1).

(** [childCount === 1 ? angle : startAngle + (index * angleStep)] *)
Definition childAngleOf (level childCount : nat) (angle : R) (index : nat)
  : R :=
  if Nat.eqb childCount 1 then angle
  else startAngleOf level angle
       +. INR index *. angleStepOf level childCount.

(** The position [nodePositions.set(node.id, ..)] stores for a call. *)
Definition placeOf (angle parentX parentY : R) (level : nat) : npos :=
  let radius := radiusOf level in
  let (w, h) := sizeOf level in
  let x0 := match level with
            | O => CENTER_X -. w /. 2
            | S _ => parentX +. Engine.mcos e angle *. radius -. w /. 2
            end in
  let y0 := match level with
            | O => CENTER_Y -. h /. 2
            | S _ => parentY +. Engine.msin e angle *. radius -. h /. 2
            end in
  {| x := x0; y := y0; centerX := x0 +. w /. 2; centerY := y0 +. h /. 2;
     width := w; height := h |}.

(** [calculateNodePositions(node, angle, parentX, parentY, level)]: the
    [nodePositions.set] calls it makes, in order.  The children are
    called with [x + size.width / 2] and [y + size.height / 2], computed
    again, which are the centre just stored. *)
Fixpoint calculateNodePositions (node : tree) (angle parentX parentY : R)
         (level : nat) {struct node} : list (string * npos) :=
  match node with
  | Node nid kids =>
      let p := placeOf angle parentX parentY level in
      (nid, p)
      :: eachChild
           (fun child childAngle =>
              calculateNodePositions child childAngle
                (centerX p) (centerY p) (S level))
           (childAngleOf level (List.length kids) angle)
           kids 0%nat
  end.

End WithEngine.

(** [buildTree(nodeList)], first pass: the ids that get an object in
    [nodeMap]. *)
Definition inNodeMap (nodeList : list node) (i : string) : bool :=
  existsb (fun n => String.eqb (id n) i) nodeList.

(** Second pass: the ids pushed to [parent.children], in order, for the
    object with id [p]. *)
Definition childIds (nodeList : list node) (p : string) : list string :=
  if inNodeMap nodeList p
  then map id (filter (fun n => truthy (parentId n)
                                && String.eqb (orElse (parentId n) EmptyString) p)
                      nodeList)
  else [].

(** Second pass: [rootNode] is the object of the last entry whose
    [parentId] is falsy. *)
Definition rootId (nodeList : list node) : option string :=
  fold_left (fun r n => if truthy (parentId n) then r else Some (id n))
            nodeList None.

Fixpoint sequence {A : Type} (l : list (option A)) : option (list A) :=
  match l with
  | [] => Some []
  | None :: _ => None
  | Some a :: l' =>
      match sequence l' with
      | Some r => Some (a :: r)
      | None => None
      end
  end.

(** The objects reached from the object with id [i] by [frames] nested
    calls of [calculateNodePositions], as a tree.  The result is [None]
    when the calls needed do not fit: the objects below [i] are nested
    deeper than [frames] levels, or their links form a cycle. *)
Fixpoint unfold (nodeList : list node) (frames : nat) (i : string)
  : option tree :=
  match frames with
  | O => None
  | S f =>
      match sequence (map (unfold nodeList f) (childIds nodeList i)) with
      | Some ks => Some (Node i ks)
      | None => None
      end
  end.

Definition nodeStyle (lvl : Z) : string :=
  if Z.eqb lvl 0 then styleRoot
  else if Z.eqb lvl 1 then styleLevel1
  else if Z.eqb lvl 2 then styleLevel2
  else styleLevel3.

(** [nodes.forEach]: a node without a position is passed over; the
    connector counter advances only when a connector is written. *)
Fixpoint nodeCells (positions : JsMap.t npos) (cellId : nat)
         (ns : list node) : list (cell R) :=
  match ns with
  | [] => []
  | n :: ns' =>
      match JsMap.get (id n) positions with
      | None => nodeCells positions cellId ns'
      | Some pos =>
          let connected :=
            truthy (parentId n)
            && JsMap.has (orElse (parentId n) EmptyString) positions in
          ({| cid := id n; value := Some (escapeXML (label n));
              style := nodeStyle (level n); ckind := Vertex; parent := "1";
              csource := None; ctarget := None;
              geom := box (x pos) (y pos) (width pos) (height pos) |}
           :: (if connected
               then [ {| cid := "conn" ++ Js.ofNat cellId; value := None;
                         style := styleConnector; ckind := Edge;
                         parent := "1"; csource := parentId n;
                         ctarget := Some (id n); geom := rel [] |} ]
               else [])
           ++ nodeCells positions (if connected then S cellId else cellId)
                ns')%list
      end
  end.

Definition nodePositions (writes : list (string * npos)) : JsMap.t npos :=
  fold_left (fun m w => JsMap.set (fst w) (snd w) m) writes JsMap.empty.

(** [generateMindmapXML(parsed)]; [None] is the [RangeError] of a call
    stack that the recursion over the tree exhausts. *)
Definition generateMindmapXML (e : Engine.t) (clk : clock) (p : parsed)
  : option (document R) :=
  match root p with
  | None => Some (wrapInDrawioXML clk "Mindmap" [] (Some 800%Z) (Some 600%Z))
  | Some _ =>
      let layout :=
        match rootId (nodes p) with
        | None => Some []
        | Some r =>
            option_map
              (fun t => calculateNodePositions e t 0 (CENTER_X e)
                          (CENTER_Y e) 0)
              (unfold (nodes p) (Engine.layoutFrames e) r)
        end in
      option_map
        (fun writes =>
           wrapInDrawioXML clk "Mindmap"
             (nodeCells (nodePositions writes) 2 (nodes p))
             (Some 2400%Z) (Some 1800%Z))
        layout
  end.

End MindGen.

(* ================================================================== *)
(** ** Diagram type detection *)
(* ================================================================== *)

(** [mermaidCode.trim().split('\n')[0].toLowerCase()] *)
Definition firstLineLower (mermaidCode : string) : string :=
  Js.toLowerCase (hd EmptyString (Js.splitLines (Js.trim mermaidCode))).

Definition detectDiagramType (mermaidCode : string) : string :=
  let firstLine := firstLineLower mermaidCode in
  if Js.includes "gitgraph" firstLine then "gitgraph"
  else if Js.includes "erdiagram" firstLine then "erDiagram"
  else if Js.includes "sequencediagram" firstLine then "sequence"
  else if Js.includes "classdiagram" firstLine then "class"
  else if Js.includes "mindmap" firstLine then "mindmap"
  else if Js.includes "flowchart" firstLine || Js.includes "graph" firstLine
  then "flowchart"
  else "unknown".

(** A line feed, for writing inputs of several lines. *)
Definition nl : string := String Js.LF EmptyString.

(** A reading of the clock, for running a generator on an example. *)
Definition someClock : Xml.clock :=
  {| Xml.isoNow := "1970-01-01T00:00:01.000Z"; Xml.msNow := 1000 |}.

(* ================================================================== *)
(** ** Markdown generator *)
(* ================================================================== *)

Module Markdown.

(** [arr.join(sep)] on an array of strings *)
Fixpoint join (sep : string) (l : list string) : string :=
  match l with
  | [] => EmptyString
  | [x] => x
  | x :: l' => x ++ sep ++ join sep l'
  end.

(** The lines of a template literal, each ended by its line feed. *)
Fixpoint lines (l : list string) : string :=
  match l with
  | [] => EmptyString
  | x :: l' => x ++ nl ++ lines l'
  end.

(** Template-literal rendering of an integer. *)
Definition ofZ (z : Z) : string :=
  if (z <? 0)%Z then "-" ++ Js.ofNat (Z.to_nat (- z))
  else Js.ofNat (Z.to_nat z).

(** A table row [| a | b | .. |] *)
Definition row (cols : list string) : string :=
  "| " ++ join " | " cols ++ " |".

(** The section every document ends with. *)
Definition original (mermaidCode : string) : list string :=
  [ "## Original Mermaid Code"; EmptyString; "```mermaid"; mermaidCode; "```" ].

Definition flowchartDoc (mermaidCode : string) (p : Flow.parsed) : string :=
  lines
    ([ "# Flowchart Documentation"; EmptyString; "## Overview";
       "This document describes the flowchart diagram with "
       ++ Js.ofNat (List.length (Flow.nodes p)) ++ " nodes and "
       ++ Js.ofNat (List.length (Flow.edges p)) ++ " connections.";
       "Direction: " ++ Flow.direction p; EmptyString;
       "## Nodes"; EmptyString;
       "| ID | Label | Shape |";
       "|----|-------|-------|";
       join nl (map (fun n => row [Flow.id n; Flow.label n; Flow.shape n])
                    (Flow.nodes p));
       EmptyString;
       "## Connections"; EmptyString;
       "| From | To | Label |";
       "|------|----|-------|";
       join nl (map (fun e => row [Flow.source e; Flow.target e;
                                   orElse (Flow.elabel e) "-"])
                    (Flow.edges p));
       EmptyString ] ++ original mermaidCode).

(** The block of one entity, with its final line feed. *)
Definition entityBlock (e : ER.entity) : string :=
  lines
    [ "### " ++ ER.name e;
      "| Type | Attribute | Constraint |";
      "|------|-----------|------------|";
      orElse
        (Some (join nl
                 (map (fun a => row [ER.atype a; ER.aname a;
                                     orElse (ER.constraint a) "-"])
                      (ER.attributes e))))
        "| - | - | - |" ].

Definition erDoc (mermaidCode : string) (p : ER.parsed) : string :=
  lines
    ([ "# ER Diagram Documentation"; EmptyString; "## Overview";
       "This document describes the Entity-Relationship diagram with "
       ++ Js.ofNat (List.length (ER.entities p)) ++ " entities and "
       ++ Js.ofNat (List.length (ER.relationships p)) ++ " relationships.";
       EmptyString;
       "## Entities"; EmptyString;
       join nl (map entityBlock (ER.entities p));
       EmptyString;
       "## Relationships"; EmptyString;
       "| Source | Target | Label | Cardinality |";
       "|--------|--------|-------|-------------|";
       join nl (map (fun r => row [ER.source r; ER.target r; ER.label r;
                                   ER.sourceCardinality r ++ " to "
                                   ++ ER.targetCardinality r])
                    (ER.relationships p));
       EmptyString ] ++ original mermaidCode).

(** The notes section of a sequence document, absent without notes. *)
Definition notesBlock (ns : list Seq.note) : string :=
  match ns with
  | [] => EmptyString
  | _ :: _ =>
      lines
        [ "## Notes"; EmptyString;
          "| Position | Participants | Text |";
          "|----------|--------------|------|";
          join nl (map (fun n => row [Seq.position n;
                                      join ", " (Seq.nparticipants n);
                                      Seq.ntext n]) ns) ]
  end.

Definition sequenceDoc (mermaidCode : string) (p : Seq.parsed) : string :=
  lines
    ([ "# Sequence Diagram Documentation"; EmptyString; "## Overview";
       "This document describes the sequence diagram with "
       ++ Js.ofNat (List.length (Seq.participants p)) ++ " participants and "
       ++ Js.ofNat (List.length (Seq.messages p)) ++ " messages.";
       EmptyString;
       "## Participants"; EmptyString;
       "| ID | Label | Type |";
       "|----|-------|------|";
       join nl (map (fun q => row [Seq.id q; Seq.label q; Seq.ptype q])
                    (Seq.participants p));
       EmptyString;
       "## Messages"; EmptyString;
       "| # | From | To | Message | Type |";
       "|---|------|----|---------|------|";
       join nl (map (fun im : nat * Seq.message =>
                       row [Js.ofNat (fst im + 1); Seq.from (snd im);
                            Seq.to (snd im); Seq.text (snd im);
                            Seq.mtype (snd im)])
                    (Xml.indexed (Seq.messages p)));
       EmptyString;
       notesBlock (Seq.notes p);
       EmptyString ] ++ original mermaidCode).

(** The block of one class, with its final line feed. *)
Definition classBlock (c : Class.class) : string :=
  lines
    [ "### " ++ Class.name c
      ++ (if truthy (Class.stereotype c)
          then " <<" ++ orElse (Class.stereotype c) EmptyString ++ ">>"
          else EmptyString);
      EmptyString;
      "**Attributes:**";
      "| Visibility | Name | Type |";
      "|------------|------|------|";
      (match Class.attributes c with
       | [] => "| - | - | - |"
       | _ :: _ =>
           join nl (map (fun a => row [Class.avisibility a; Class.aname a;
                                       Class.atype a])
                        (Class.attributes c))
       end);
      EmptyString;
      "**Methods:**";
      "| Visibility | Name | Parameters | Return |";
      "|------------|------|------------|--------|";
      (match Class.methods c with
       | [] => "| - | - | - | - |"
       | _ :: _ =>
           join nl (map (fun m => row [Class.visibility m; Class.mname m;
                                       orElse (Some (Class.params m)) "-";
                                       Class.returnType m])
                        (Class.methods c))
       end) ].

Definition classDoc (mermaidCode : string) (p : Class.parsed) : string :=
  lines
    ([ "# Class Diagram Documentation"; EmptyString; "## Overview";
       "This document describes the class diagram with "
       ++ Js.ofNat (List.length (Class.classes p)) ++ " classes and "
       ++ Js.ofNat (List.length (Class.relationships p)) ++ " relationships.";
       EmptyString;
       "## Classes"; EmptyString;
       join nl (map classBlock (Class.classes p));
       EmptyString;
       "## Relationships"; EmptyString;
       "| From | To | Type | Label |";
       "|------|----|------|-------|";
       join nl (map (fun r => row [Class.from r; Class.to r; Class.rtype r;
                                   orElse (Class.label r) "-"])
                    (Class.relationships p));
       EmptyString ] ++ original mermaidCode).

(** [n.parentId === null] *)
Definition isNull (o : option string) : bool :=
  match o with
  | None => true
  | Some _ => false
  end.

(** [nodes.filter(n => n.parentId === node.id)] *)
Definition childrenOf (nodes : list Mindmap.node) (i : string)
  : list Mindmap.node :=
  filter (fun n => match Mindmap.parentId n with
                   | Some p => String.eqb p i
                   | None => false
                   end) nodes.

(** [renderNode(node, indent)] of [generateMindmapTree], with [frames]
    nested calls left on the call stack.  The result is [None] when the
    calls needed do not fit: the nodes below [node] are nested deeper
    than [frames] levels, or their links form a cycle. *)
Fixpoint renderNode (nodes : list Mindmap.node) (frames : nat)
         (node : Mindmap.node) (indent : string) : option string :=
  match frames with
  | O => None
  | S f =>
      fold_left
        (fun result child =>
           match result, renderNode nodes f child (indent ++ "  ") with
           | Some r, Some c => Some (r ++ c)
           | _, _ => None
           end)
        (childrenOf nodes (Mindmap.id node))
        (Some (indent ++ "- **" ++ Mindmap.label node ++ "**" ++ nl))
  end.

(** [generateMindmapTree(nodes)] *)
Definition generateMindmapTree (e : Engine.t) (nodes : list Mindmap.node)
  : option string :=
  option_map (join nl)
    (MindGen.sequence
       (map (fun n => renderNode nodes (Engine.renderFrames e) n EmptyString)
            (filter (fun n => isNull (Mindmap.parentId n)) nodes))).

Definition mindmapDoc (mermaidCode : string) (p : Mindmap.parsed)
           (tree : string) : string :=
  lines
    ([ "# Mindmap Documentation"; EmptyString; "## Overview";
       "This document describes the mindmap with "
       ++ Js.ofNat (List.length (Mindmap.nodes p)) ++ " nodes.";
       EmptyString;
       "## Structure"; EmptyString;
       tree;
       EmptyString;
       "## Nodes"; EmptyString;
       "| ID | Label | Level | Shape |";
       "|----|-------|-------|-------|";
       join nl (map (fun n => row [Mindmap.id n; Mindmap.label n;
                                   ofZ (Mindmap.level n); Mindmap.shape n])
                    (Mindmap.nodes p));
       EmptyString ] ++ original mermaidCode).

Definition gitDoc (mermaidCode : string) (p : Git.parsed) : string :=
  lines
    ([ "# Git Graph Documentation"; EmptyString; "## Overview";
       "This document describes the git graph with "
       ++ Js.ofNat (List.length (Git.commits p)) ++ " commits across "
       ++ Js.ofNat (List.length (Git.branches p)) ++ " branches.";
       EmptyString;
       "## Branches"; EmptyString;
       "| Name | Parent Branch | Commits |";
       "|------|---------------|---------|";
       join nl (map (fun b => row [Git.name b;
                                   orElse (Git.parentBranch b) "-";
                                   Js.ofNat (List.length (Git.bcommits b))])
                    (Git.branches p));
       EmptyString;
       "## Commits"; EmptyString;
       "| ID | Branch | Type | Tag |";
       "|----|--------|------|-----|";
       join nl (map (fun c => row [Git.id c; Git.branch c; Git.ctype c;
                                   orElse (Git.tag c) "-"])
                    (Git.commits p));
       EmptyString ] ++ original mermaidCode).

(** The text returned for a type without a generator. *)
Definition notice (mermaidCode diagramType : string) : string :=
  lines
    ([ "# Diagram Documentation"; EmptyString; "## Notice";
       "Markdown generation is not yet fully supported for diagram type: "
       ++ diagramType;
       EmptyString ] ++ original mermaidCode).

(** What a call does: it returns, or it throws.  A recursion that
    exhausts the call stack throws a [RangeError]. *)
Inductive error := TypeErr | RangeErr.

Inductive outcome (A : Type) : Type :=
| Return (a : A)
| Throw (e : error).
Arguments Return {A} a.
Arguments Throw {A} e.

Definition ofResult {A : Type} (r : result A) : outcome A :=
  match r with
  | Ok a => Return a
  | TypeError => Throw TypeErr
  end.

Definition ofOption {A : Type} (o : option A) : outcome A :=
  match o with
  | Some a => Return a
  | None => Throw RangeErr
  end.

Definition omap {A B : Type} (f : A -> B) (o : outcome A) : outcome B :=
  match o with
  | Return a => Return (f a)
  | Throw e => Throw e
  end.

(** [generateMarkdown(mermaidCode, diagramType)]: [markdown] is the text of
    the branch taken, the empty string when none is. *)
Definition generateMarkdown (e : Engine.t) (mermaidCode diagramType : string)
  : outcome string :=
  let markdown : outcome string :=
    if String.eqb diagramType "flowchart" then
      Return (flowchartDoc mermaidCode (Flow.parseFlowchart mermaidCode))
    else if String.eqb diagramType "erDiagram" then
      omap (erDoc mermaidCode) (ofResult (ER.parseERDiagram mermaidCode))
    else if String.eqb diagramType "sequence" then
      Return (sequenceDoc mermaidCode (Seq.parseSequenceDiagram mermaidCode))
    else if String.eqb diagramType "class" then
      omap (classDoc mermaidCode)
           (ofResult (Class.parseClassDiagram mermaidCode))
    else if String.eqb diagramType "mindmap" then
      let p := Mindmap.parseMindmap mermaidCode in
      omap (mindmapDoc mermaidCode p)
           (ofOption (generateMindmapTree e (Mindmap.nodes p)))
    else if String.eqb diagramType "gitgraph" then
      omap (gitDoc mermaidCode) (ofResult (Git.parseGitGraph mermaidCode))
    else Return EmptyString in
  omap (fun m => if String.eqb m EmptyString
                 then notice mermaidCode diagramType else m)
       markdown.

End Markdown.

(* ================================================================== *)
(** ** Tool handlers *)
(* ================================================================== *)

Module Tools.
Import Markdown.

(** The markup of a conversion: the mindmap generator computes in
    doubles, the others with integers. *)
Inductive markup :=
| Cells (d : Xml.document Z)
| RadialCells (d : Xml.document R).

(** The three texts the [convert_mermaid_to_drawio] tool answers with:
    the markup under the heading of its type, the list of supported types,
    or the message of the exception caught. *)
Inductive response :=
| Converted (diagramType : string) (xml : markup)
| Unsupported (diagramType : string)
| Failed (e : error).

(** The [try] block of the tool: [None] is the [default] case of the
    [switch], which returns from inside the block. *)
Definition tryConvert (e : Engine.t)
           (arrows : string -> option (string * string))
           (inherited : string -> option string)
           (clk : Xml.clock) (mermaidCode diagramType : string)
  : option (outcome markup) :=
  if String.eqb diagramType "flowchart" then
    Some (omap Cells
            (ofResult (FlowGen.generateFlowchartXML clk
                         (Flow.parseFlowchart mermaidCode))))
  else if String.eqb diagramType "erDiagram" then
    Some (omap (fun p => Cells (ERGen.generateERDiagramXML arrows clk p))
               (ofResult (ER.parseERDiagram mermaidCode)))
  else if String.eqb diagramType "sequence" then
    Some (Return (Cells (SeqGen.generateSequenceDiagramXML clk
                           (Seq.parseSequenceDiagram mermaidCode))))
  else if String.eqb diagramType "class" then
    Some (omap (fun p => Cells (ClassGen.generateClassDiagramXML clk p))
               (ofResult (Class.parseClassDiagram mermaidCode)))
  else if String.eqb diagramType "mindmap" then
    Some (omap RadialCells
            (ofOption (MindGen.generateMindmapXML e clk
                         (Mindmap.parseMindmap mermaidCode))))
  else if String.eqb diagramType "gitgraph" then
    Some (match ofResult (Git.parseGitGraph mermaidCode) with
          | Return p =>
              omap Cells
                (ofResult (GitGen.generateGitGraphXML inherited clk p))
          | Throw e => Throw e
          end)
  else None.

(** The [convert_mermaid_to_drawio] case of the tool handler;
    [diagramType] is [args.diagramType], [None] when absent.  [arrows]
    and [inherited] are what the lookups of the ER and of the git
    generator find on [Object.prototype]. *)
Definition convertMermaidToDrawio (e : Engine.t)
           (arrows : string -> option (string * string))
           (inherited : string -> option string)
           (clk : Xml.clock) (mermaidCode : string)
           (diagramType : option string) : response :=
  let requested := orElse diagramType "auto" in
  let diagramType := if String.eqb requested "auto"
                     then detectDiagramType mermaidCode else requested in
  match tryConvert e arrows inherited clk mermaidCode diagramType with
  | None => Unsupported diagramType
  | Some (Throw e) => Failed e
  | Some (Return xml) => Converted diagramType xml
  end.

(** The [convert_mermaid_to_markdown] case: no [try] around it. *)
Definition convertMermaidToMarkdown (e : Engine.t) (mermaidCode : string)
  : outcome string :=
  generateMarkdown e mermaidCode (detectDiagramType mermaidCode).

(** The entries of the [issues] and [suggestions] arrays of
    [validate_mermaid], one constructor per message. *)
Inductive issue :=
| UndetectedType                 (* Could not detect diagram type ... *)
| InvalidNodeId (id : string)    (* Invalid node ID: <id> ... *)
| NoEntities.                    (* No entities found in ER diagram *)

Inductive suggestion :=
| AddStart                       (* Consider adding a Start node ... *)
| AddEnd                         (* Consider adding an End/Stop node ... *)
| Unrelated (name : string).     (* Entity <name> has no relationships *)

Record validation :=
  { vtype : string; issues : list issue; suggestions : list suggestion }.

(** [/^[a-zA-Z_][a-zA-Z0-9_]*$/] *)
Definition nodeIdRe : Re.regex :=
  Re.seq [ Re.Chr (fun c => Js.isLowerAZ c || Js.isUpperAZ c
                            || Nat.eqb (Js.code c) 95);
           Re.Star (Re.Chr (fun c => Js.isLowerAZ c || Js.isUpperAZ c
                                     || Js.isDigit c || Nat.eqb (Js.code c) 95));
           Re.Eol ].

(** [re.test(s)] *)
Definition test (r : Re.regex) (s : string) : bool :=
  match Re.exec r s with
  | Some _ => true
  | None => false
  end.

Definition flowchartChecks (p : Flow.parsed)
  : list issue * list suggestion :=
  let hasStart :=
    existsb (fun n => String.eqb (Js.toLowerCase (Flow.label n)) "start")
            (Flow.nodes p) in
  let hasEnd :=
    existsb (fun n => existsb (String.eqb (Js.toLowerCase (Flow.label n)))
                              ["end"; "stop"])
            (Flow.nodes p) in
  (map InvalidNodeId
       (filter (fun i => negb (test nodeIdRe i)) (map Flow.id (Flow.nodes p))),
   ((if hasStart then [] else [AddStart])
    ++ (if hasEnd then [] else [AddEnd]))%list).

(** [connectedEntities.has(name)] after the loop over the relationships *)
Definition connected (rs : list ER.relationship) (name : string) : bool :=
  existsb (fun r => String.eqb (ER.source r) name
                    || String.eqb (ER.target r) name) rs.

Definition erChecks (p : ER.parsed) : list issue * list suggestion :=
  ((match ER.entities p with [] => [NoEntities] | _ :: _ => [] end),
   map Unrelated
       (filter (fun n => negb (connected (ER.relationships p) n)
                         && Nat.ltb 0 (List.length (ER.relationships p)))
               (map ER.name (ER.entities p)))).

(** The [validate_mermaid] case of the tool handler. *)
Definition validateMermaid (mermaidCode : string) : result validation :=
  let diagramType := detectDiagramType mermaidCode in
  let issues0 := if String.eqb diagramType "unknown"
                 then [UndetectedType] else [] in
  let flow := if String.eqb diagramType "flowchart"
              then flowchartChecks (Flow.parseFlowchart mermaidCode)
              else ([], []) in
  bind (if String.eqb diagramType "erDiagram"
        then bind (ER.parseERDiagram mermaidCode) (fun p => Ok (erChecks p))
        else Ok ([], []))
       (fun er =>
          Ok {| vtype := diagramType;
                issues := (issues0 ++ fst flow ++ fst er)%list;
                suggestions := (snd flow ++ snd er)%list |}).

(** [status]: whether the heading reads Valid. *)
Definition valid (v : validation) : bool :=
  match issues v with
  | [] => true
  | _ :: _ => false
  end.

End Tools.

(* ================================================================== *)
(** * Properties *)
(* ================================================================== *)

#[local] Arguments Ascii.eqb : simpl never.

(** ** Strings *)

Section StringFacts.

Lemma append_nil_r (s : string) : s ++ EmptyString = s.
Proof. induction s; simpl; congruence. Qed.

Lemma append_assoc (a b c : string) : (a ++ b) ++ c = a ++ (b ++ c).
Proof. induction a; simpl; congruence. Qed.

Lemma startsWith_app (p s : string) : Js.startsWith p (p ++ s) = true.
Proof.
  induction p as [|c p IH]; simpl; [reflexivity|].
  now rewrite Ascii.eqb_refl.
Qed.

Lemma replaceChar_app (c : ascii) (r a b : string) :
  Js.replaceChar c r (a ++ b) = Js.replaceChar c r a ++ Js.replaceChar c r b.
Proof.
  induction a as [|d a IH]; simpl; [reflexivity|].
  destruct (Ascii.eqb d c); rewrite IH; simpl.
  - now rewrite append_assoc.
  - reflexivity.
Qed.

Lemma escapeXML_app (a b : string) :
  escapeXML (a ++ b) = escapeXML a ++ escapeXML b.
Proof. unfold escapeXML. now rewrite !replaceChar_app. Qed.

Lemma mem_app (c : ascii) (a b : string) :
  Re.mem c (a ++ b) = Re.mem c a || Re.mem c b.
Proof.
  induction a as [|d a IH]; simpl; [reflexivity|].
  rewrite IH. now rewrite orb_assoc.
Qed.

End StringFacts.

(** ** Escaping and entity decoding *)

(** The five predefined XML entities and the characters they stand for. *)
Definition xmlEntities : list (string * ascii) :=
  [ ("&amp;", "&"%char); ("&lt;", "<"%char); ("&gt;", ">"%char);
    ("&quot;", Js.DQ); ("&apos;", "'"%char) ].

Fixpoint entityAt (es : list (string * ascii)) (s : string)
  : option (ascii * nat) :=
  match es with
  | [] => None
  | (e, c) :: es' =>
      if Js.startsWith e s then Some (c, String.length e) else entityAt es' s
  end.

(** The reader's side of the escaping: one left-to-right pass that replaces
    each of the five entities by its character and copies everything else.
    It is not part of the converter; it stands for the XML parser of the
    application that opens the file.  [skip] counts the characters of an
    entity still to be passed over. *)
Fixpoint decodeFrom (skip : nat) (s : string) : string :=
  match s with
  | EmptyString => EmptyString
  | String c t =>
      match skip with
      | S k => decodeFrom k t
      | O =>
          match entityAt xmlEntities s with
          | Some (ch, n) => String ch (decodeFrom (n - 1) t)
          | None => String c (decodeFrom 0 t)
          end
      end
  end.

Definition decodeEntities (s : string) : string := decodeFrom 0 s.

(** What [escapeXML] writes for one character. *)
Definition escapeChar (c : ascii) : string := escapeXML (String c EmptyString).

Lemma escapeXML_cons (c : ascii) (s : string) :
  escapeXML (String c s) = escapeChar c ++ escapeXML s.
Proof.
  change (String c s) with (String c EmptyString ++ s).
  apply escapeXML_app.
Qed.

Definition isMeta (c : ascii) : bool :=
  Re.mem c ("&<>'" ++ String Js.DQ EmptyString).

Lemma escapeChar_plain (c : ascii) :
  isMeta c = false -> escapeChar c = String c EmptyString.
Proof.
  unfold isMeta, escapeChar, escapeXML. simpl. intros H.
  repeat (apply orb_false_elim in H; destruct H as [? H]).
  repeat match goal with
         | E : Ascii.eqb c ?d = false |- _ =>
             simpl; rewrite E; clear E
         end.
  reflexivity.
Qed.

Lemma decode_plain (c : ascii) (s : string) :
  isMeta c = false ->
  decodeFrom 0 (String c s) = String c (decodeFrom 0 s).
Proof.
  intros H. unfold isMeta in H. simpl in H.
  apply orb_false_elim in H. destruct H as [H _].
  rewrite Ascii.eqb_sym in H.
  simpl. now rewrite H.
Qed.

Lemma decode_escapeChar (c : ascii) (s : string) :
  decodeFrom 0 (escapeChar c ++ s) = String c (decodeFrom 0 s).
Proof.
  destruct (isMeta c) eqn:M.
  - unfold isMeta in M. simpl in M.
    repeat (apply orb_prop in M; destruct M as [M|M]);
      try discriminate M;
      apply Ascii.eqb_eq in M; subst c; reflexivity.
  - rewrite (escapeChar_plain _ M). simpl append. now apply decode_plain.
Qed.

Lemma escapeChar_clean (c d : ascii) :
  Re.mem d ("<>'" ++ String Js.DQ EmptyString) = true ->
  Re.mem d (escapeChar c) = false.
Proof.
  intros D. destruct (isMeta c) eqn:M.
  - unfold isMeta in M. simpl in M, D.
    repeat (apply orb_prop in M; destruct M as [M|M]);
      try discriminate M;
      apply Ascii.eqb_eq in M; subst c;
      repeat (apply orb_prop in D; destruct D as [D|D]);
      try discriminate D;
      apply Ascii.eqb_eq in D; subst d; reflexivity.
  - rewrite (escapeChar_plain _ M). simpl.
    rewrite orb_false_r. apply Ascii.eqb_neq. intros ->.
    unfold isMeta in M. simpl in M, D.
    repeat (apply orb_false_elim in M; destruct M as [? M]).
    repeat (apply orb_prop in D; destruct D as [D|D]);
      try discriminate D; congruence.
Qed.

(** C4.  For every label, the escaped text holds none of the characters
    [<], [>], double quote and apostrophe, and decoding the five entities in
    it gives the label back: every metacharacter, the ampersand included,
    was replaced by its entity. *)
Theorem escapeXML_decode_roundtrip (label : string) :
  decodeEntities (escapeXML label) = label
  /\ forall d, Re.mem d ("<>'" ++ String Js.DQ EmptyString) = true ->
               Re.mem d (escapeXML label) = false.
Proof.
  split.
  - unfold decodeEntities.
    induction label as [|c s IH]; [reflexivity|].
    rewrite escapeXML_cons, decode_escapeChar. now rewrite IH.
  - intros d D. induction label as [|c s IH]; [reflexivity|].
    rewrite escapeXML_cons, mem_app, IH, orb_false_r.
    now apply escapeChar_clean.
Qed.

(** ** The flowchart example *)

Definition flowExample : string :=
  "flowchart TD" ++ nl ++ "A[Start] --> B{Check}" ++ nl ++ "B -->|Yes| C[Done]".

(** C8.  The three-line flowchart parses to the nodes A, B, C, in this
    order, with the shape tags of a rectangle [[]], a diamond [{}] and a
    rectangle, and to the two edges A to B without a label and B to C
    labelled Yes. *)
Theorem parseFlowchart_example :
  Flow.parseFlowchart flowExample =
  {| Flow.nodes :=
       [ {| Flow.id := "A"; Flow.label := "Start"; Flow.shape := "[]" |};
         {| Flow.id := "B"; Flow.label := "Check"; Flow.shape := "{}" |};
         {| Flow.id := "C"; Flow.label := "Done"; Flow.shape := "[]" |} ];
     Flow.edges :=
       [ {| Flow.source := "A"; Flow.target := "B"; Flow.elabel := None |};
         {| Flow.source := "B"; Flow.target := "C";
            Flow.elabel := Some "Yes" |} ];
     Flow.direction := "TD" |}.
Proof. vm_compute. reflexivity. Qed.

(** ** Type detection *)

Section Detect.

Fixpoint noSpace (s : string) : bool :=
  match s with
  | EmptyString => true
  | String c t => negb (Js.isSpace c) && noSpace t
  end.

Lemma toLowerChar_space (c : ascii) :
  Js.isSpace c = true -> Js.toLowerChar c = c.
Proof.
  destruct c as [[] [] [] [] [] [] [] []]; vm_compute; congruence.
Qed.

Lemma isSpace_toLowerChar (c : ascii) :
  Js.isSpace (Js.toLowerChar c) = false -> Js.isSpace c = false.
Proof.
  destruct (Js.isSpace c) eqn:E; [|reflexivity].
  rewrite (toLowerChar_space _ E). congruence.
Qed.

Lemma noSpace_toLowerCase (s : string) :
  noSpace (Js.toLowerCase s) = true -> noSpace s = true.
Proof.
  induction s as [|c s IH]; simpl; [reflexivity|].
  intros H. apply andb_prop in H. destruct H as [H1 H2].
  apply negb_true_iff in H1. rewrite (isSpace_toLowerChar _ H1).
  simpl. now apply IH.
Qed.

Lemma allSpace_toLowerCase (s : string) :
  Js.allSpace s = true -> Js.allSpace (Js.toLowerCase s) = true.
Proof.
  induction s as [|c s IH]; simpl; [reflexivity|].
  intros H. apply andb_prop in H. destruct H as [H1 H2].
  rewrite (toLowerChar_space _ H1), H1. simpl. now apply IH.
Qed.

Lemma toLowerCase_app (a b : string) :
  Js.toLowerCase (a ++ b) = Js.toLowerCase a ++ Js.toLowerCase b.
Proof.
  unfold Js.toLowerCase. induction a as [|c a IH]; simpl; congruence.
Qed.

Lemma trimStart_app_space (pre s : string) :
  Js.allSpace pre = true -> Js.trimStart (pre ++ s) = Js.trimStart s.
Proof.
  induction pre as [|c pre IH]; simpl; [reflexivity|].
  intros H. apply andb_prop in H. destruct H as [H1 H2].
  rewrite H1. now apply IH.
Qed.

Lemma trimStart_noSpace (a s : string) :
  noSpace a = true -> a <> EmptyString ->
  Js.trimStart (a ++ s) = a ++ s.
Proof.
  destruct a as [|c a]; [congruence|]. simpl. intros H _.
  apply andb_prop in H. destruct H as [H _].
  apply negb_true_iff in H. now rewrite H.
Qed.

Lemma trimEnd_noSpace_app (a s : string) :
  noSpace a = true -> Js.trimEnd (a ++ s) = a ++ Js.trimEnd s.
Proof.
  induction a as [|c a IH]; [reflexivity|].
  intros H. simpl in H. apply andb_prop in H. destruct H as [H1 H2].
  apply negb_true_iff in H1.
  change (String c a ++ s) with (String c (a ++ s)).
  cbn [Js.trimEnd Js.allSpace]. rewrite H1. simpl. now rewrite IH.
Qed.

Lemma split_not_nil (sep : ascii) (s : string) : Js.split sep s <> [].
Proof.
  induction s as [|c s IH]; simpl; [discriminate|].
  destruct (Ascii.eqb c sep); [discriminate|].
  destruct (Js.split sep s); [contradiction | discriminate].
Qed.

Lemma hd_split_cons (sep c : ascii) (s : string) :
  hd EmptyString (Js.split sep (String c s)) =
  if Ascii.eqb c sep then EmptyString
  else String c (hd EmptyString (Js.split sep s)).
Proof.
  simpl. destruct (Ascii.eqb c sep); [reflexivity|].
  pose proof (split_not_nil sep s) as N.
  destruct (Js.split sep s); [contradiction | reflexivity].
Qed.

Lemma hd_split_noSpace_app (a s : string) :
  noSpace a = true ->
  hd EmptyString (Js.splitLines (a ++ s)) =
  a ++ hd EmptyString (Js.splitLines s).
Proof.
  unfold Js.splitLines.
  induction a as [|c a IH]; [reflexivity|].
  intros H. simpl in H. apply andb_prop in H. destruct H as [H1 H2].
  change (String c a ++ s) with (String c (a ++ s)).
  rewrite hd_split_cons.
  destruct (Ascii.eqb c Js.LF) eqn:E.
  - apply Ascii.eqb_eq in E. subst c. discriminate H1.
  - simpl. now rewrite IH.
Qed.

(** Trimming the end of a text leaves a first line of white space a line
    of white space. *)
Lemma allSpace_firstLine_trimEnd (t : string) :
  Js.allSpace (hd EmptyString (Js.splitLines t)) = true ->
  Js.allSpace (hd EmptyString (Js.splitLines (Js.trimEnd t))) = true.
Proof.
  unfold Js.splitLines.
  induction t as [|c t IH]; [reflexivity|].
  rewrite hd_split_cons. cbn [Js.trimEnd].
  destruct (Js.allSpace (String c t)); [reflexivity|].
  rewrite hd_split_cons.
  destruct (Ascii.eqb c Js.LF); [reflexivity|].
  simpl. intros H. apply andb_prop in H. destruct H as [H1 H2].
  rewrite H1. simpl. now apply IH.
Qed.

Lemma startsWith_app_space (p a sp : string) :
  noSpace p = true -> Js.allSpace sp = true ->
  Js.startsWith p (a ++ sp) = Js.startsWith p a.
Proof.
  revert a. induction p as [|c p IH]; intros a Hp Hs; [reflexivity|].
  simpl in Hp. apply andb_prop in Hp. destruct Hp as [Hc Hp].
  apply negb_true_iff in Hc.
  destruct a as [|x a]; simpl.
  - destruct sp as [|d sp]; [reflexivity|].
    simpl in Hs. apply andb_prop in Hs. destruct Hs as [Hd _].
    destruct (Ascii.eqb_spec c d) as [->|_]; [congruence | reflexivity].
  - now rewrite IH.
Qed.

Lemma startsWith_nil_r (p : string) :
  p <> EmptyString -> Js.startsWith p EmptyString = false.
Proof. destruct p; [contradiction | reflexivity]. Qed.

Lemma includes_allSpace (p sp : string) :
  noSpace p = true -> p <> EmptyString -> Js.allSpace sp = true ->
  Js.includes p sp = false.
Proof.
  intros Hp Hne. induction sp as [|d sp IH]; intros Hs.
  - simpl. now rewrite startsWith_nil_r.
  - cbn [Js.includes].
    change (String d sp) with (EmptyString ++ String d sp) at 1.
    rewrite (startsWith_app_space p EmptyString _ Hp Hs).
    rewrite (startsWith_nil_r _ Hne).
    simpl in Hs. apply andb_prop in Hs. destruct Hs as [_ Hs].
    now rewrite IH.
Qed.

Lemma includes_app_space (p a sp : string) :
  noSpace p = true -> p <> EmptyString -> Js.allSpace sp = true ->
  Js.includes p (a ++ sp) = Js.includes p a.
Proof.
  intros Hp Hne Hs. induction a as [|x a IH].
  - simpl append. rewrite (includes_allSpace _ _ Hp Hne Hs).
    simpl. now rewrite startsWith_nil_r.
  - change (String x a ++ sp) with (String x (a ++ sp)).
    cbn [Js.includes]. rewrite IH.
    change (String x (a ++ sp)) with (String x a ++ sp).
    now rewrite (startsWith_app_space _ _ _ Hp Hs).
Qed.

End Detect.

(** The dialect keywords as they are compared with the lower-cased first
    line, in the order of the tests, each with the result returned. *)
Definition canonicalKeywords : list (string * string) :=
  [ ("gitgraph", "gitgraph"); ("erdiagram", "erDiagram");
    ("sequencediagram", "sequence"); ("classdiagram", "class");
    ("mindmap", "mindmap"); ("flowchart", "flowchart");
    ("graph", "flowchart") ].

(** The result of the first keyword of a table that occurs in a line. *)
Fixpoint firstMatch (table : list (string * string)) (line : string)
  : string :=
  match table with
  | [] => "unknown"
  | (key, dialect) :: rest =>
      if Js.includes key line then dialect else firstMatch rest line
  end.

Lemma detect_firstMatch (code : string) :
  detectDiagramType code = firstMatch canonicalKeywords (firstLineLower code).
Proof.
  unfold detectDiagramType, canonicalKeywords, firstMatch.
  repeat match goal with
         | |- context [if Js.includes ?k ?l then _ else _] =>
             destruct (Js.includes k l)
         end; reflexivity.
Qed.

Lemma firstLineLower_keyword (pre kw tail : string) :
  Js.allSpace pre = true ->
  noSpace kw = true -> kw <> EmptyString ->
  Js.allSpace (hd EmptyString (Js.splitLines tail)) = true ->
  exists sp, Js.allSpace sp = true
             /\ firstLineLower (pre ++ kw ++ tail) = Js.toLowerCase kw ++ sp.
Proof.
  intros Hpre Hkw Hne Htail.
  exists (Js.toLowerCase (hd EmptyString (Js.splitLines (Js.trimEnd tail)))).
  split.
  - apply allSpace_toLowerCase. now apply allSpace_firstLine_trimEnd.
  - unfold firstLineLower, Js.trim.
    rewrite (trimStart_app_space _ _ Hpre).
    rewrite (trimStart_noSpace _ _ Hkw Hne).
    rewrite (trimEnd_noSpace_app _ _ Hkw).
    rewrite (hd_split_noSpace_app _ _ Hkw).
    apply toLowerCase_app.
Qed.

Lemma firstMatch_app_space (table : list (string * string)) (a sp : string) :
  Forall (fun kd => noSpace (fst kd) = true /\ fst kd <> EmptyString) table ->
  Js.allSpace sp = true ->
  firstMatch table (a ++ sp) = firstMatch table a.
Proof.
  intros Ht Hs. induction Ht as [|[k d] table [H1 H2] _ IH]; [reflexivity|].
  simpl in *. now rewrite (includes_app_space _ _ _ H1 H2 Hs), IH.
Qed.

Lemma canonicalKeywords_plain :
  Forall (fun kd => noSpace (fst kd) = true /\ fst kd <> EmptyString)
         canonicalKeywords.
Proof. repeat constructor; discriminate. Qed.

(** C3.  A canonical keyword on the first non-blank line, in any letter
    case, after any leading white space or blank lines and followed on its
    line by white space only, gives its dialect: [gitGraph] gives the commit
    graph although it contains [graph].  In general the result is that of
    the first keyword, in the order commit graph, ER, sequence, class,
    mindmap, flow, that occurs in the lower-cased first line, and [unknown]
    when none does. *)
Theorem detectDiagramType_keyword
        (pre kw tail key dialect : string) :
  In (key, dialect) canonicalKeywords ->
  Js.allSpace pre = true ->
  Js.toLowerCase kw = key ->
  Js.allSpace (hd EmptyString (Js.splitLines tail)) = true ->
  detectDiagramType (pre ++ kw ++ tail) = dialect
  /\ (forall code,
        detectDiagramType code =
        firstMatch canonicalKeywords (firstLineLower code))
  /\ (forall code,
        (forall k d, In (k, d) canonicalKeywords ->
                     Js.includes k (firstLineLower code) = false) ->
        detectDiagramType code = "unknown").
Proof.
  intros Hin Hpre Hlow Htail.
  split; [|split].
  - assert (Hkey : noSpace key = true /\ key <> EmptyString).
    { pose proof canonicalKeywords_plain as F.
      rewrite Forall_forall in F. exact (F _ Hin). }
    destruct Hkey as [Hns Hne].
    assert (Hkw : noSpace kw = true).
    { apply noSpace_toLowerCase. now rewrite Hlow. }
    assert (Hkwne : kw <> EmptyString).
    { intros ->. now apply Hne. }
    destruct (firstLineLower_keyword pre kw tail Hpre Hkw Hkwne Htail)
      as [sp [Hsp Hfl]].
    rewrite detect_firstMatch, Hfl, Hlow.
    rewrite (firstMatch_app_space _ _ _ canonicalKeywords_plain Hsp).
    simpl in Hin.
    repeat (destruct Hin as [Hin|Hin];
            [injection Hin as <- <-; reflexivity|]).
    contradiction.
  - apply detect_firstMatch.
  - intros code H. rewrite detect_firstMatch.
    assert (G : forall table,
               (forall k d, In (k, d) table ->
                            Js.includes k (firstLineLower code) = false) ->
               firstMatch table (firstLineLower code) = "unknown").
    { induction table as [|[k d] table IH]; intros Ht; [reflexivity|].
      simpl. rewrite (Ht k d (or_introl eq_refl)).
      apply IH. intros k' d' Hk. apply (Ht k' d'). now right. }
    now apply G.
Qed.

(** [GITGRAPH], indented below a blank line and followed by a space, with
    more lines after it. *)
Lemma detectDiagramType_keyword_witness :
  detectDiagramType
    ((nl ++ "  ") ++ "GITGRAPH" ++ (" " ++ nl ++ "commit")) = "gitgraph".
Proof.
  apply (detectDiagramType_keyword (nl ++ "  ") "GITGRAPH"
           (" " ++ nl ++ "commit") "gitgraph" "gitgraph").
  - simpl. now left.
  - reflexivity.
  - reflexivity.
  - reflexivity.
Defined.

(** ** Maps *)

Section MapFacts.
Context {V : Type}.
Implicit Types (m : JsMap.t V) (k : string) (v : V).

Lemma get_set_eq m k v : JsMap.get k (JsMap.set k v m) = Some v.
Proof.
  induction m as [|[k' v'] m IH]; simpl.
  - now rewrite String.eqb_refl.
  - destruct (String.eqb k' k) eqn:E; simpl.
    + now rewrite String.eqb_refl.
    + now rewrite E.
Qed.

Lemma get_set_neq m k k' v :
  k <> k' -> JsMap.get k' (JsMap.set k v m) = JsMap.get k' m.
Proof.
  intros N. induction m as [|[k0 v0] m IH]; simpl.
  - apply String.eqb_neq in N. now rewrite N.
  - destruct (String.eqb_spec k0 k) as [->|N0]; simpl.
    + apply String.eqb_neq in N. now rewrite N.
    + now rewrite IH.
Qed.

Lemma has_In m k : JsMap.has k m = true <-> In k (JsMap.keys m).
Proof.
  unfold JsMap.has. induction m as [|[k' v'] m IH]; simpl.
  - split; [discriminate | contradiction].
  - destruct (String.eqb_spec k' k) as [->|N].
    + split; auto.
    + rewrite IH. split; [now right | intros [E|H]; [contradiction | assumption]].
Qed.

Lemma get_In m k : JsMap.get k m <> None <-> In k (JsMap.keys m).
Proof.
  rewrite <- has_In. unfold JsMap.has.
  destruct (JsMap.get k m); split; congruence.
Qed.

Lemma keys_set m k v :
  JsMap.keys (JsMap.set k v m) =
  if JsMap.has k m then JsMap.keys m else (JsMap.keys m ++ [k])%list.
Proof.
  unfold JsMap.has. induction m as [|[k' v'] m IH]; simpl; [reflexivity|].
  destruct (String.eqb_spec k' k) as [->|N]; simpl; [reflexivity|].
  rewrite IH. now destruct (JsMap.get k m).
Qed.

Lemma In_keys_set m k v k' :
  In k' (JsMap.keys (JsMap.set k v m)) <-> k' = k \/ In k' (JsMap.keys m).
Proof.
  rewrite keys_set. destruct (JsMap.has k m) eqn:H.
  - apply has_In in H. split; [now right | intros [->|?]; assumption].
  - rewrite in_app_iff. simpl. intuition congruence.
Qed.

Lemma NoDup_keys_set m k v :
  NoDup (JsMap.keys m) -> NoDup (JsMap.keys (JsMap.set k v m)).
Proof.
  intros N. rewrite keys_set. destruct (JsMap.has k m) eqn:H; [assumption|].
  apply NoDup_app; [assumption | repeat constructor; intros [] | ].
  intros x Hx [<-|[]]. apply has_In in Hx. congruence.
Qed.

(** Every value carries its key, as read by [name]. *)
Definition keyed (name : V -> string) m : Prop :=
  Forall (fun kv => name (snd kv) = fst kv) m.

Lemma keyed_set name m k v :
  keyed name m -> name v = k -> keyed name (JsMap.set k v m).
Proof.
  intros K E. induction K as [|[k' v'] m H K IH]; simpl.
  - repeat constructor. assumption.
  - destruct (String.eqb k' k); constructor; assumption.
Qed.

Lemma keyed_get name m k v :
  keyed name m -> JsMap.get k m = Some v -> name v = k.
Proof.
  intros K. induction K as [|[k' v'] m H K IH]; simpl; [discriminate|].
  destruct (String.eqb_spec k' k) as [->|N].
  - intros [= <-]. assumption.
  - assumption.
Qed.

Lemma keyed_values name m :
  keyed name m -> map name (JsMap.values m) = JsMap.keys m.
Proof.
  unfold JsMap.values, JsMap.keys.
  induction 1 as [|[k v] m H K IH]; simpl; [reflexivity|].
  simpl in H. now rewrite H, IH.
Qed.

End MapFacts.

Lemma foldM_app {S : Type} (step : S -> string -> result S)
      (a b : list string) (st : S) :
  foldM step (a ++ b) st = bind (foldM step a st) (foldM step b).
Proof.
  revert st. induction a as [|l a IH]; intros st; simpl; [reflexivity|].
  destruct (step st l); simpl; [apply IH | reflexivity].
Qed.

(** ** The branch registry of a git graph *)

Module GitFacts.
Import Git.

(** The line is taken by the [branch] or the [checkout] case of the loop,
    the two that assign [currentBranch]. *)
Definition movesCursor (line : string) : bool :=
  let trimmed := Js.trim line in
  if String.eqb trimmed "gitGraph" || Js.startsWith "gitGraph" trimmed
     || String.eqb trimmed EmptyString
  then false
  else match Re.exec commitRe trimmed with
       | Some _ => false
       | None =>
           match Re.exec branchRe trimmed with
           | Some _ => true
           | None =>
               match Re.exec checkoutRe trimmed with
               | Some _ => true
               | None => false
               end
           end
       end.

(** The registry starts with the entry of [main], and every entry is filed
    under its own name. *)
Definition registryOk (st : state) : Prop :=
  keyed name (st_branches st)
  /\ exists b rest, st_branches st = ("main", b) :: rest.

Definition onMain (c : commit) : Prop := branch c = "main".

Lemma git_init_ok : registryOk init.
Proof.
  split.
  - repeat constructor.
  - now eexists; eexists.
Qed.

Lemma git_set_keeps_head (m : JsMap.t branchRec) (k : string) (v b : branchRec)
      (rest : JsMap.t branchRec) :
  m = ("main", b) :: rest ->
  exists b' rest', JsMap.set k v m = ("main", b') :: rest'.
Proof.
  intros ->. cbn [JsMap.set].
  destruct (String.eqb_spec "main" k) as [<-|N];
    eexists; eexists; reflexivity.
Qed.

Lemma git_record_ok (st st' : state) (c : commit) (n : nat) :
  registryOk st -> record st c n = Ok st' ->
  registryOk st' /\ currentBranch st' = currentBranch st
  /\ st_commits st' = (st_commits st ++ [c])%list.
Proof.
  intros [K [b [rest E]]]. unfold record.
  destruct (JsMap.get (currentBranch st) (st_branches st)) as [b0|] eqn:G;
    [|discriminate].
  intros [= <-]. simpl. split; [|split; reflexivity].
  split; simpl.
  - apply keyed_set; [assumption|]. simpl. now apply (keyed_get name _ _ _ K).
  - now apply (git_set_keeps_head _ _ _ b rest).
Qed.

Lemma git_step_ok (st st' : state) (line : string) :
  registryOk st -> step st line = Ok st' ->
  registryOk st'
  /\ exists cs, st_commits st' = (st_commits st ++ cs)%list
                /\ (movesCursor line = false ->
                    currentBranch st' = currentBranch st
                    /\ Forall (fun c => branch c = currentBranch st) cs).
Proof.
  intros R. unfold step, movesCursor.
  destruct (String.eqb (Js.trim line) "gitGraph"
            || Js.startsWith "gitGraph" (Js.trim line)
            || String.eqb (Js.trim line) EmptyString).
  { intros [= <-]. split; [assumption|]. exists [].
    rewrite List.app_nil_r. repeat split; constructor. }
  destruct (Re.exec commitRe (Js.trim line)) as [cs|].
  { intros H. apply (git_record_ok _ _ _ _ R) in H.
    destruct H as [R' [Hc Hs]]. split; [assumption|].
    eexists. split; [eassumption|]. intros _. split; [assumption|].
    repeat constructor. }
  destruct (Re.exec branchRe (Js.trim line)) as [cs|].
  { intros [= <-]. destruct R as [K [b [rest E]]]. split.
    - split; simpl.
      + now apply keyed_set.
      + now apply (git_set_keeps_head _ _ _ b rest).
    - exists []. simpl. rewrite List.app_nil_r. split; [reflexivity | discriminate]. }
  destruct (Re.exec checkoutRe (Js.trim line)) as [cs|].
  { intros [= <-]. split; [exact R|].
    exists []. simpl. rewrite List.app_nil_r. split; [reflexivity | discriminate]. }
  destruct (Re.exec mergeRe (Js.trim line)) as [cs|].
  { intros H. apply (git_record_ok _ _ _ _ R) in H.
    destruct H as [R' [Hc Hs]]. split; [assumption|].
    eexists. split; [eassumption|]. intros _. split; [assumption|].
    repeat constructor. }
  intros [= <-]. split; [assumption|]. exists [].
  rewrite List.app_nil_r. repeat split; constructor.
Qed.

Lemma git_foldM_ok (lines : list string) (st st' : state) :
  registryOk st -> foldM step lines st = Ok st' ->
  registryOk st' /\ exists cs, st_commits st' = (st_commits st ++ cs)%list.
Proof.
  revert st. induction lines as [|l lines IH]; intros st R; simpl.
  - intros [= <-]. split; [assumption|]. exists []. now rewrite List.app_nil_r.
  - destruct (step st l) as [st1|] eqn:S1; [|discriminate]. simpl. intros H.
    destruct (git_step_ok _ _ _ R S1) as [R1 [cs1 [E1 _]]].
    destruct (IH _ R1 H) as [R' [cs' E']]. split; [assumption|].
    exists (cs1 ++ cs')%list. now rewrite E', E1, List.app_assoc.
Qed.

End GitFacts.

(** ** Git graphs: what is recorded while the cursor is on [main] *)

Module GitMain.
Import Git GitFacts.

(** The line is taken by the [commit] or the [merge] case of the loop,
    the two that record a commit. *)
Definition recordsCommit (line : string) : bool :=
  let trimmed := Js.trim line in
  if String.eqb trimmed "gitGraph" || Js.startsWith "gitGraph" trimmed
     || String.eqb trimmed EmptyString
  then false
  else match Re.exec commitRe trimmed with
       | Some _ => true
       | None =>
           match Re.exec branchRe trimmed with
           | Some _ => false
           | None =>
               match Re.exec checkoutRe trimmed with
               | Some _ => false
               | None =>
                   match Re.exec mergeRe trimmed with
                   | Some _ => true
                   | None => false
                   end
               end
           end
       end.

(** The line is taken by the [branch] case and names [main], which puts
    a new entry with no commits in the place of the one of [main]. *)
Definition recreatesMain (line : string) : bool :=
  let trimmed := Js.trim line in
  if String.eqb trimmed "gitGraph" || Js.startsWith "gitGraph" trimmed
     || String.eqb trimmed EmptyString
  then false
  else match Re.exec commitRe trimmed with
       | Some _ => false
       | None =>
           match Re.exec branchRe trimmed with
           | Some cs => String.eqb (Re.capd 1 cs) "main"
           | None => false
           end
       end.

(** The entry of [main] with the given commit ids. *)
Definition mainWith (ids : list string) : branchRec :=
  {| name := "main"; bcommits := ids; parentBranch := None |}.

(** The cursor is on [main], the only branch, which lists the ids of all
    commits, each recorded as on [main]. *)
Definition allOnMain (st : state) : Prop :=
  currentBranch st = "main"
  /\ st_branches st = [("main", mainWith (map id (st_commits st)))]
  /\ Forall onMain (st_commits st).

Lemma gitmain_init : allOnMain init.
Proof. repeat split. constructor. Qed.

Lemma gitmain_record (st : state) (c : commit) (n : nat) :
  allOnMain st -> branch c = "main" ->
  exists st',
    record st c n = Ok st' /\ allOnMain st'
    /\ st_commits st' = (st_commits st ++ [c])%list.
Proof.
  intros [C [B F]] Hc. unfold record. rewrite C, B.
  cbn [JsMap.get]. change (String.eqb "main" "main") with true. cbv iota.
  eexists. split; [reflexivity|]. split; [|reflexivity].
  split; [reflexivity|]. split.
  - cbn [st_branches st_commits JsMap.set name bcommits parentBranch mainWith].
    change (String.eqb "main" "main") with true. cbv iota.
    rewrite map_app. reflexivity.
  - cbn [st_commits]. apply Forall_app. split; [assumption|].
    repeat constructor. exact Hc.
Qed.

Lemma gitmain_step (st : state) (line : string) :
  allOnMain st -> movesCursor line = false ->
  exists st',
    step st line = Ok st' /\ allOnMain st'
    /\ List.length (st_commits st')
       = (List.length (st_commits st)
          + if recordsCommit line then 1 else 0)%nat.
Proof.
  intros A. pose proof A as [C _]. unfold step, movesCursor, recordsCommit.
  destruct (String.eqb (Js.trim line) "gitGraph"
            || Js.startsWith "gitGraph" (Js.trim line)
            || String.eqb (Js.trim line) EmptyString).
  { intros _. exists st. repeat split; try apply A. lia. }
  destruct (Re.exec commitRe (Js.trim line)) as [cs|].
  { intros _.
    match goal with
    | |- context [record st ?c ?n] =>
        destruct (gitmain_record st c n A C) as [st' [E [A' L]]]
    end.
    exists st'. split; [assumption|]. split; [assumption|].
    rewrite L, length_app. reflexivity. }
  destruct (Re.exec branchRe (Js.trim line)); [discriminate|].
  destruct (Re.exec checkoutRe (Js.trim line)); [discriminate|].
  intros _. destruct (Re.exec mergeRe (Js.trim line)) as [cs|].
  - match goal with
    | |- context [record st ?c ?n] =>
        destruct (gitmain_record st c n A C) as [st' [E [A' L]]]
    end.
    exists st'. split; [assumption|]. split; [assumption|].
    rewrite L, length_app. reflexivity.
  - exists st. repeat split; try apply A. lia.
Qed.

Lemma gitmain_foldM (lines : list string) :
  forall st : state,
    allOnMain st ->
    (forall l, In l lines -> movesCursor l = false) ->
    exists st',
      foldM step lines st = Ok st' /\ allOnMain st'
      /\ List.length (st_commits st')
         = (List.length (st_commits st)
            + List.length (filter recordsCommit lines))%nat.
Proof.
  induction lines as [|l lines IH]; intros st A Hl; cbn [foldM filter].
  - exists st. repeat split; try apply A. cbn [List.length]. lia.
  - destruct (gitmain_step st l A (Hl l (or_introl eq_refl)))
      as [st1 [S1 [A1 L1]]].
    rewrite S1. cbn [bind].
    destruct (IH st1 A1) as [st' [F [A' L']]].
    { intros l' Hl'. apply Hl. now right. }
    exists st'. split; [assumption|]. split; [assumption|].
    rewrite L', L1. destruct (recordsCommit l); cbn [List.length]; lia.
Qed.

(** The list of [main] only grows, unless a [branch main] line puts a
    new entry in its place. *)
Lemma gitmain_record_grows (st st' : state) (c : commit) (n : nat)
      (b : branchRec) :
  record st c n = Ok st' ->
  JsMap.get "main" (st_branches st) = Some b ->
  exists b' more,
    JsMap.get "main" (st_branches st') = Some b'
    /\ bcommits b' = (bcommits b ++ more)%list.
Proof.
  unfold record.
  destruct (JsMap.get (currentBranch st) (st_branches st)) as [b0|] eqn:G;
    [|discriminate].
  intros [= <-] Hm. cbn [st_branches].
  destruct (String.eqb_spec (currentBranch st) "main") as [E|N].
  - rewrite E in *. rewrite get_set_eq. rewrite Hm in G. injection G as <-.
    eexists. eexists. split; [reflexivity|]. reflexivity.
  - rewrite get_set_neq by assumption.
    exists b, []. split; [assumption|]. now rewrite List.app_nil_r.
Qed.

Lemma gitmain_step_grows (st st' : state) (line : string) (b : branchRec) :
  step st line = Ok st' -> recreatesMain line = false ->
  JsMap.get "main" (st_branches st) = Some b ->
  exists b' more,
    JsMap.get "main" (st_branches st') = Some b'
    /\ bcommits b' = (bcommits b ++ more)%list.
Proof.
  unfold step, recreatesMain.
  assert (Same : JsMap.get "main" (st_branches st) = Some b ->
                 exists b' more,
                   JsMap.get "main" (st_branches st) = Some b'
                   /\ bcommits b' = (bcommits b ++ more)%list).
  { intros H. exists b, []. split; [assumption|]. now rewrite List.app_nil_r. }
  destruct (String.eqb (Js.trim line) "gitGraph"
            || Js.startsWith "gitGraph" (Js.trim line)
            || String.eqb (Js.trim line) EmptyString).
  { intros [= <-] _. exact Same. }
  destruct (Re.exec commitRe (Js.trim line)) as [cs|].
  { intros H _. now apply (gitmain_record_grows _ _ _ _ _ H). }
  destruct (Re.exec branchRe (Js.trim line)) as [cs|].
  { intros [= <-] N Hm. cbn [st_branches].
    apply String.eqb_neq in N. rewrite get_set_neq by assumption.
    now apply Same. }
  destruct (Re.exec checkoutRe (Js.trim line)) as [cs|].
  { intros [= <-] _. exact Same. }
  destruct (Re.exec mergeRe (Js.trim line)) as [cs|].
  { intros H _. now apply (gitmain_record_grows _ _ _ _ _ H). }
  intros [= <-] _. exact Same.
Qed.

Lemma gitmain_foldM_grows (lines : list string) :
  forall (st st' : state) (b : branchRec),
    foldM step lines st = Ok st' ->
    (forall l, In l lines -> recreatesMain l = false) ->
    JsMap.get "main" (st_branches st) = Some b ->
    exists b' more,
      JsMap.get "main" (st_branches st') = Some b'
      /\ bcommits b' = (bcommits b ++ more)%list.
Proof.
  induction lines as [|l lines IH]; intros st st' b; cbn [foldM].
  - intros [= <-] _ H. exists b, []. split; [assumption|].
    now rewrite List.app_nil_r.
  - destruct (step st l) as [st1|] eqn:S1; [|discriminate]. cbn [bind].
    intros F Hl Hm.
    destruct (gitmain_step_grows _ _ _ _ S1 (Hl l (or_introl eq_refl)) Hm)
      as [b1 [m1 [G1 E1]]].
    destruct (IH st1 st' b1 F (fun l' H => Hl l' (or_intror H)) G1)
      as [b' [m' [G' E']]].
    exists b', (m1 ++ m')%list. split; [assumption|].
    now rewrite E', E1, List.app_assoc.
Qed.

End GitMain.

(** C10.  Whenever the git-graph parser returns, the branch list starts
    with the branch named [main]; for the empty input it is the only branch
    and there is no commit.  The lines before the first [branch] or
    [checkout] directive are always processed without an exception; each
    [commit] or [merge] line among them records one commit; these
    commits, which are the first commits of the result, are all recorded
    as on [main], and their ids are the list of commits of [main], the
    only branch so far.  In the result the list of [main] still starts
    with these ids, unless a later line creates a branch [main] anew. *)
Theorem parseGitGraph_main_branch
        (mermaidCode : string) (before after : list string) :
  Js.splitLines (Js.trim mermaidCode) = (before ++ after)%list ->
  (forall l, In l before -> GitFacts.movesCursor l = false) ->
  (forall m, Git.parseGitGraph mermaidCode = Ok m ->
             exists b rest,
               Git.branches m = b :: rest /\ Git.name b = "main")
  /\ (exists st,
        foldM Git.step before Git.init = Ok st
        /\ List.length (Git.st_commits st)
           = List.length (filter GitMain.recordsCommit before)
        /\ Forall GitFacts.onMain (Git.st_commits st)
        /\ Git.st_branches st
           = [("main", GitMain.mainWith (map Git.id (Git.st_commits st)))]
        /\ forall m,
             Git.parseGitGraph mermaidCode = Ok m ->
             (exists cs, Git.commits m = (Git.st_commits st ++ cs)%list)
             /\ ((forall l, In l after -> GitMain.recreatesMain l = false) ->
                 exists b rest more,
                   Git.branches m = b :: rest /\ Git.name b = "main"
                   /\ Git.bcommits b
                      = (map Git.id (Git.st_commits st) ++ more)%list))
  /\ Git.parseGitGraph EmptyString =
     Ok {| Git.commits := [];
           Git.branches := [ {| Git.name := "main"; Git.bcommits := [];
                                Git.parentBranch := None |} ] |}.
Proof.
  intros Hsplit Hbefore. split; [|split].
  - intros m. unfold Git.parseGitGraph.
    destruct (foldM Git.step _ Git.init) as [st|] eqn:F; [|discriminate].
    simpl. intros [= <-]. simpl.
    destruct (GitFacts.git_foldM_ok _ _ _ GitFacts.git_init_ok F) as [[K [b [rest E]]] _].
    rewrite E. simpl. exists b, (JsMap.values rest). split; [reflexivity|].
    rewrite E in K. inversion K as [|? ? Hb _]. exact Hb.
  - destruct (GitMain.gitmain_foldM before Git.init GitMain.gitmain_init
                Hbefore) as [st [F [[C [B Fm]] L]]].
    exists st. split; [assumption|]. split; [exact L|].
    split; [assumption|]. split; [assumption|].
    intros m. unfold Git.parseGitGraph. rewrite Hsplit, foldM_app, F.
    cbn [bind].
    destruct (foldM Git.step after st) as [st'|] eqn:F'; [|discriminate].
    cbn [bind]. intros [= <-]. cbn [Git.commits Git.branches].
    assert (R : GitFacts.registryOk st).
    { exact (proj1 (GitFacts.git_foldM_ok _ _ _ GitFacts.git_init_ok F)). }
    destruct (GitFacts.git_foldM_ok _ _ _ R F') as [[K' [b' [rest' E']]] Hcs].
    split; [exact Hcs|]. intros Hafter.
    destruct (GitMain.gitmain_foldM_grows after st st' _ F' Hafter
                ltac:(rewrite B; reflexivity)) as [b2 [more [G2 E2]]].
    rewrite E' in G2. cbn [JsMap.get] in G2.
    change (String.eqb "main" "main") with true in G2. cbv iota in G2.
    injection G2 as <-.
    exists b', (JsMap.values rest'), more. rewrite E'.
    split; [reflexivity|]. split; [|exact E2].
    rewrite E' in K'. inversion K' as [|? ? Hb _]. exact Hb.
  - reflexivity.
Qed.

Definition mainThenDev : string :=
  "gitGraph" ++ nl ++ "commit" ++ nl ++ "merge x" ++ nl ++ "branch dev"
  ++ nl ++ "commit".

(** Two lines recorded on [main], then a branch and a commit on it. *)
Lemma parseGitGraph_main_branch_witness :
  exists st,
    foldM Git.step ["gitGraph"; "commit"; "merge x"] Git.init = Ok st
    /\ List.length (Git.st_commits st) = 2%nat
    /\ Forall GitFacts.onMain (Git.st_commits st)
    /\ Git.st_branches st
       = [("main", GitMain.mainWith (map Git.id (Git.st_commits st)))]
    /\ forall m,
         Git.parseGitGraph mainThenDev = Ok m ->
         (exists cs, Git.commits m = (Git.st_commits st ++ cs)%list)
         /\ exists b rest more,
              Git.branches m = b :: rest /\ Git.name b = "main"
              /\ Git.bcommits b
                 = (map Git.id (Git.st_commits st) ++ more)%list.
Proof.
  destruct (parseGitGraph_main_branch mainThenDev
              ["gitGraph"; "commit"; "merge x"] ["branch dev"; "commit"])
    as [_ [[st [F [L [M [B H]]]]] _]].
  - reflexivity.
  - intros l [<-|[<-|[<-|[]]]]; reflexivity.
  - exists st. split; [exact F|]. split; [exact L|]. split; [exact M|].
    split; [exact B|]. intros m Hm. destruct (H m Hm) as [H1 H2].
    split; [exact H1|]. apply H2.
    intros l [<-|[<-|[]]]; reflexivity.
Defined.

(** ** The parent links of a mindmap *)

Module MindFacts.
Import Mindmap.
Local Open Scope Z_scope.

Definition frameOf (n : node) : frame :=
  {| f_id := id n; f_level := level n |}.

(** The stack without its sentinel, as a function of the nodes read so far,
    the most recent first. *)
Fixpoint popAll (lvl : Z) (stk : list node) : list node :=
  match stk with
  | [] => []
  | t :: rest => if lvl <=? level t then popAll lvl rest else stk
  end.

Fixpoint stackOf (recent : list node) : list node :=
  match recent with
  | [] => []
  | n :: older => n :: popAll (level n) (stackOf older)
  end.

(** The line makes a node: it is neither blank nor the [mindmap] keyword. *)
Definition isNodeLine (line : string) : bool :=
  negb (String.eqb (Js.trim line) "mindmap"
        || String.eqb (Js.trim line) EmptyString).

Definition levelOfLine (line : string) : Z :=
  Z.of_nat (indentOf line / 2).

(** The nearest node before position [i] whose level is below [lvl]. *)
Definition nearestBelow (ns : list node) (i : nat) (lvl : Z) : option node :=
  find (fun m => level m <? lvl) (rev (firstn i ns)).

Lemma mind_popTo_frames (lvl : Z) (stk : list node) :
  popTo lvl (map frameOf stk ++ [sentinel])
  = (map frameOf (popAll lvl stk) ++ [sentinel])%list.
Proof.
  induction stk as [|t stk IH]; [reflexivity|].
  cbn [map popAll List.app].
  assert (E : exists x r, (map frameOf stk ++ [sentinel])%list = x :: r).
  { destruct stk; simpl; eexists; eexists; reflexivity. }
  destruct E as [x [r E]]. rewrite E in *. cbn [popTo].
  change (f_level (frameOf t)) with (level t).
  destruct (lvl <=? level t); [exact IH | now rewrite <- E].
Qed.

Lemma mind_popAll_popAll (l l' : Z) (stk : list node) :
  l <= l' -> popAll l (popAll l' stk) = popAll l stk.
Proof.
  intros L. induction stk as [|t stk IH]; [reflexivity|].
  cbn [popAll]. destruct (Z.leb_spec l' (level t)) as [H|H].
  - rewrite IH. destruct (Z.leb_spec l (level t)); [reflexivity | lia].
  - reflexivity.
Qed.

Lemma mind_hd_popAll_stackOf (recent : list node) (lvl : Z) :
  hd_error (popAll lvl (stackOf recent))
  = find (fun m => level m <? lvl) recent.
Proof.
  induction recent as [|n older IH]; [reflexivity|].
  cbn [stackOf popAll find].
  destruct (Z.leb_spec lvl (level n)) as [H|H];
    destruct (Z.ltb_spec (level n) lvl) as [H'|H']; try lia.
  - now rewrite mind_popAll_popAll.
  - reflexivity.
Qed.

Lemma mind_node_id_not_root (k : nat) : "node" ++ Js.ofNat k <> "root".
Proof. simpl. discriminate. Qed.

(** What holds of the loop state after any number of lines. *)
Record inv (st : state) : Prop :=
  { inv_count : nodeId st = List.length (st_nodes st);
    inv_stack :
      stack st = (map frameOf (stackOf (rev (st_nodes st))) ++ [sentinel])%list;
    inv_nodes :
      forall i n, nth_error (st_nodes st) i = Some n ->
                  id n = "node" ++ Js.ofNat i
                  /\ parentId n
                     = option_map id (nearestBelow (st_nodes st) i (level n)) }.

Lemma mind_init_inv : inv init.
Proof.
  split; [reflexivity | reflexivity |].
  intros [|i] n; discriminate.
Qed.

Lemma mind_nearestBelow_app (ns : list node) (x : node) (i : nat) (lvl : Z) :
  (i <= List.length ns)%nat ->
  nearestBelow (ns ++ [x]) i lvl = nearestBelow ns i lvl.
Proof.
  intros H. unfold nearestBelow. rewrite firstn_app.
  replace (i - List.length ns)%nat with 0%nat by lia.
  simpl. now rewrite List.app_nil_r.
Qed.

Lemma mind_In_ids (st : state) (t : node) :
  inv st -> In t (st_nodes st) -> exists k, id t = "node" ++ Js.ofNat k.
Proof.
  intros I H. apply In_nth_error in H. destruct H as [k H].
  exists k. exact (proj1 (inv_nodes st I k t H)).
Qed.

Lemma mind_step_inv (st : state) (line : string) : inv st -> inv (step st line).
Proof.
  intros I. unfold step.
  destruct (String.eqb (Js.trim line) "mindmap"
            || String.eqb (Js.trim line) EmptyString); [assumption|].
  destruct (shapeOf (Js.trim line)) as [lbl shp].
  set (lvl := Z.of_nat (indentOf line / 2)).
  set (nid := "node" ++ Js.ofNat (nodeId st)).
  pose proof (mind_hd_popAll_stackOf (rev (st_nodes st)) lvl) as Hfind.
  rewrite (inv_stack st I), mind_popTo_frames.
  set (new := {| id := nid; label := lbl; shape := shp; level := lvl;
                 parentId := _ |}).
  assert (Hparent : parentId new
                    = option_map id (find (fun m => level m <? lvl)
                                          (rev (st_nodes st)))).
  { subst new. cbn [parentId]. rewrite <- Hfind.
    destruct (popAll lvl (stackOf (rev (st_nodes st)))) as [|t rest] eqn:E.
    - reflexivity.
    - cbn [map List.app top hd_error option_map frameOf f_id].
      assert (Ht : In t (st_nodes st)).
      { apply in_rev. symmetry in Hfind. cbn [hd_error] in Hfind.
        now apply find_some in Hfind. }
      destruct (mind_In_ids st t I Ht) as [k Hk]. rewrite Hk.
      destruct (String.eqb_spec ("node" ++ Js.ofNat k) "root") as [X|_].
      + now apply mind_node_id_not_root in X.
      + reflexivity. }
  split; cbn [st_nodes nodeId stack].
  - rewrite length_app. simpl. rewrite (inv_count st I). lia.
  - rewrite rev_app_distr. reflexivity.
  - intros i n Hn.
    destruct (Nat.lt_ge_cases i (List.length (st_nodes st))) as [Hi|Hi].
    + rewrite nth_error_app1 in Hn by assumption.
      rewrite mind_nearestBelow_app by lia.
      exact (inv_nodes st I i n Hn).
    + rewrite nth_error_app2 in Hn by assumption.
      destruct (i - List.length (st_nodes st))%nat as [|d] eqn:D;
        [|destruct d; discriminate].
      injection Hn as <-.
      assert (i = List.length (st_nodes st)) as -> by lia.
      split.
      * subst new nid. cbn [id]. now rewrite (inv_count st I).
      * rewrite Hparent. unfold nearestBelow.
        rewrite firstn_app, firstn_all, Nat.sub_diag. simpl.
        now rewrite List.app_nil_r.
Qed.

Lemma mind_fold_inv (lines : list string) (st : state) :
  inv st -> inv (fold_left step lines st).
Proof.
  revert st. induction lines as [|l lines IH]; intros st I; [assumption|].
  simpl. apply IH. now apply mind_step_inv.
Qed.

Lemma mind_fold_levels (lines : list string) (st : state) :
  map level (st_nodes (fold_left step lines st))
  = (map level (st_nodes st)
     ++ map levelOfLine (filter isNodeLine lines))%list.
Proof.
  revert st. induction lines as [|l lines IH]; intros st; simpl.
  - now rewrite List.app_nil_r.
  - rewrite IH. unfold step, isNodeLine.
    destruct (String.eqb (Js.trim l) "mindmap"
              || String.eqb (Js.trim l) EmptyString); simpl; [reflexivity|].
    destruct (shapeOf (Js.trim l)) as [lbl shp]. cbn [st_nodes].
    rewrite map_app. simpl. now rewrite <- List.app_assoc.
Qed.

Lemma mind_nth_error_Some_lt {A : Type} (l : list A) (k : nat) (x : A) :
  nth_error l k = Some x -> (k < List.length l)%nat.
Proof. intros H. apply nth_error_Some. congruence. Qed.

(** The last element that satisfies a test, found from the end. *)
Lemma mind_find_rev {A : Type} (p : A -> bool) (l : list A) :
  match find p (rev l) with
  | Some m =>
      exists j, nth_error l j = Some m /\ p m = true
                /\ forall k x, (j < k)%nat -> nth_error l k = Some x ->
                               p x = false
  | None => forall k x, nth_error l k = Some x -> p x = false
  end.
Proof.
  induction l as [|a l IH] using rev_ind; [intros [|k] x; discriminate|].
  rewrite rev_app_distr. cbn [rev List.app find].
  destruct (p a) eqn:Pa.
  - exists (List.length l). rewrite nth_error_app2, Nat.sub_diag by lia.
    split; [reflexivity|]. split; [assumption|].
    intros k x Hk Hx. apply mind_nth_error_Some_lt in Hx.
    rewrite length_app in Hx. simpl in Hx. lia.
  - destruct (find p (rev l)) as [m|].
    + destruct IH as [j [Hj [Pm Hlast]]]. exists j.
      pose proof (mind_nth_error_Some_lt _ _ _ Hj) as Lj.
      rewrite nth_error_app1 by assumption.
      split; [assumption|]. split; [assumption|].
      intros k x Hk Hx.
      destruct (Nat.lt_ge_cases k (List.length l)) as [L|L].
      * rewrite nth_error_app1 in Hx by assumption. eauto.
      * rewrite nth_error_app2 in Hx by assumption.
        destruct (k - List.length l)%nat as [|d]; [|destruct d; discriminate].
        now injection Hx as <-.
    + intros k x Hx.
      destruct (Nat.lt_ge_cases k (List.length l)) as [L|L].
      * rewrite nth_error_app1 in Hx by assumption. eauto.
      * rewrite nth_error_app2 in Hx by assumption.
        destruct (k - List.length l)%nat as [|d]; [|destruct d; discriminate].
        now injection Hx as <-.
Qed.

End MindFacts.

Module MindRoot.
Import Mindmap MindFacts.

(** The children of the sentinel start with the first node. *)
Definition rootOk (st : state) : Prop :=
  exists l, JsMap.get "root" (st_children st) = Some l
            /\ hd_error l = option_map id (hd_error (st_nodes st)).

Lemma root_init_rootOk : rootOk init.
Proof. exists []. split; reflexivity. Qed.

Lemma root_hd_error_app {A : Type} (l : list A) (x : A) :
  hd_error (l ++ [x]) = match l with [] => Some x | a :: _ => Some a end.
Proof. destruct l; reflexivity. Qed.

Lemma root_step_rootOk (st : state) (line : string) :
  inv st -> rootOk st -> rootOk (step st line).
Proof.
  intros I [l [G H]]. unfold step.
  destruct (String.eqb (Js.trim line) "mindmap"
            || String.eqb (Js.trim line) EmptyString); [now exists l|].
  destruct (shapeOf (Js.trim line)) as [lbl shp].
  set (lvl := Z.of_nat (indentOf line / 2)).
  rewrite (inv_stack st I), mind_popTo_frames.
  unfold rootOk. cbn [st_children st_nodes].
  rewrite get_set_neq by apply mind_node_id_not_root.
  unfold pushChild.
  destruct (popAll lvl (stackOf (rev (st_nodes st)))) as [|t rest] eqn:E.
  - cbn [map List.app top sentinel f_id]. rewrite G, get_set_eq.
    eexists. split; [reflexivity|].
    rewrite !root_hd_error_app.
    destruct l as [|a l]; destruct (st_nodes st) as [|n0 ns];
      simpl in H; try discriminate; [reflexivity | assumption].
  - cbn [map List.app top frameOf f_id].
    assert (Ht : In t (st_nodes st)).
    { pose proof (mind_hd_popAll_stackOf (rev (st_nodes st)) lvl) as F.
      rewrite E in F. cbn [hd_error] in F. symmetry in F.
      apply find_some in F. now apply in_rev. }
    destruct (mind_In_ids st t I Ht) as [k Hk].
    assert (N : id t <> "root").
    { rewrite Hk. apply mind_node_id_not_root. }
    exists l. split.
    + destruct (JsMap.get (id t) (st_children st));
        now rewrite get_set_neq.
    + rewrite root_hd_error_app. destruct (st_nodes st); [contradiction | assumption].
Qed.

Lemma root_fold_rootOk (lines : list string) (st : state) :
  inv st -> rootOk st -> rootOk (fold_left step lines st).
Proof.
  revert st. induction lines as [|x lines IH]; intros st I R; [assumption|].
  simpl. apply IH; [now apply mind_step_inv | now apply root_step_rootOk].
Qed.

(** The links of the parsed nodes, read off the invariants of the loop. *)
Lemma root_parent_links
        (mermaidCode : string) (i : nat) (n : node) :
  let ns := nodes (parseMindmap mermaidCode) in
  nth_error ns i = Some n ->
  id n = "node" ++ Js.ofNat i
  /\ map level ns
     = map levelOfLine
           (filter isNodeLine
                   (Js.splitLines (Js.trim mermaidCode)))
  /\ root (parseMindmap mermaidCode)
     = option_map id (hd_error ns)
  /\ match parentId n with
     | Some p =>
         exists j m,
           (j < i)%nat /\ nth_error ns j = Some m /\ id m = p
           /\ (level m < level n)%Z
           /\ forall k x, (j < k < i)%nat -> nth_error ns k = Some x ->
                          (level n <= level x)%Z
     | None =>
         forall k x, (k < i)%nat -> nth_error ns k = Some x ->
                     (level n <= level x)%Z
     end.
Proof.
  intros ns Hn. subst ns. unfold parseMindmap in *.
  cbn [nodes root] in *.
  set (lines := Js.splitLines (Js.trim mermaidCode)) in *.
  pose proof (mind_fold_inv lines _ mind_init_inv) as I.
  pose proof (root_fold_rootOk lines _ mind_init_inv
                root_init_rootOk) as [l [G H]].
  set (st := fold_left step lines init) in *.
  destruct (inv_nodes st I i n Hn) as [Hid Hpar].
  split; [assumption|]. split; [|split].
  - unfold st. now rewrite mind_fold_levels.
  - rewrite G, <- H. now destruct l.
  - rewrite Hpar. unfold nearestBelow.
    pose proof (mind_nth_error_Some_lt _ _ _ Hn) as Li.
    pose proof (mind_find_rev
                  (fun m => (level m <? level n)%Z)
                  (firstn i (st_nodes st))) as F.
    destruct (find _ (rev (firstn i (st_nodes st)))) as [m|].
    + destruct F as [j [Hj [Pm Hlast]]]. cbn [option_map].
      pose proof (mind_nth_error_Some_lt _ _ _ Hj) as Lj.
      rewrite length_firstn in Lj.
      exists j, m. split; [lia|].
      rewrite nth_error_firstn in Hj.
      destruct (Nat.ltb_spec j i); [|lia].
      split; [assumption|]. split; [reflexivity|].
      split; [now apply Z.ltb_lt|].
      intros k x Hk Hx.
      specialize (Hlast k x (proj1 Hk)).
      rewrite nth_error_firstn in Hlast.
      destruct (Nat.ltb_spec k i); [|lia].
      apply Z.ltb_ge. now apply Hlast.
    + cbn [option_map]. intros k x Hk Hx.
      specialize (F k x). rewrite nth_error_firstn in F.
      destruct (Nat.ltb_spec k i); [|lia].
      apply Z.ltb_ge. now apply F.
Qed.


End MindRoot.

Definition twoRoots : string := "mindmap" ++ nl ++ "A" ++ nl ++ "B".

(** C5, as stated, fails: of two lines at the same indentation the second
    is a node that is not the root and has no parent. *)
Lemma parseMindmap_two_top_level_nodes :
  Mindmap.root (Mindmap.parseMindmap twoRoots) = Some "node0"
  /\ Mindmap.nodes (Mindmap.parseMindmap twoRoots) =
     [ {| Mindmap.id := "node0"; Mindmap.label := "A";
          Mindmap.shape := "default"; Mindmap.level := 0;
          Mindmap.parentId := None |};
       {| Mindmap.id := "node1"; Mindmap.label := "B";
          Mindmap.shape := "default"; Mindmap.level := 0;
          Mindmap.parentId := None |} ]
  /\ ~ (forall n, In n (Mindmap.nodes (Mindmap.parseMindmap twoRoots)) ->
                  Some (Mindmap.id n)
                  <> Mindmap.root (Mindmap.parseMindmap twoRoots) ->
                  Mindmap.parentId n <> None).
Proof.
  split; [reflexivity|]. split; [reflexivity|].
  intros H.
  apply (H {| Mindmap.id := "node1"; Mindmap.label := "B";
              Mindmap.shape := "default"; Mindmap.level := 0;
              Mindmap.parentId := None |}).
  - vm_compute. right. left. reflexivity.
  - vm_compute. discriminate.
  - reflexivity.
Qed.

(** C5, amended.  The [i]-th node line of a mindmap makes the node
    [node<i>], whose level is the number of leading white-space characters
    of the line halved and rounded down.  Its [parentId] is the id of the
    nearest earlier node of strictly smaller level, and [null] when no
    earlier node has a smaller level; so a node has at most one parent, a
    parent comes before its children, and the links form a forest whose
    first tree is rooted at the node returned as [root]. *)
Theorem parseMindmap_parent_links
        (mermaidCode : string) (i : nat) (n : Mindmap.node) :
  let ns := Mindmap.nodes (Mindmap.parseMindmap mermaidCode) in
  nth_error ns i = Some n ->
  Mindmap.id n = "node" ++ Js.ofNat i
  /\ map Mindmap.level ns
     = map MindFacts.levelOfLine
           (filter MindFacts.isNodeLine
                   (Js.splitLines (Js.trim mermaidCode)))
  /\ Mindmap.root (Mindmap.parseMindmap mermaidCode)
     = option_map Mindmap.id (hd_error ns)
  /\ match Mindmap.parentId n with
     | Some p =>
         exists j m,
           (j < i)%nat /\ nth_error ns j = Some m /\ Mindmap.id m = p
           /\ (Mindmap.level m < Mindmap.level n)%Z
           /\ forall k x, (j < k < i)%nat -> nth_error ns k = Some x ->
                          (Mindmap.level n <= Mindmap.level x)%Z
     | None =>
         forall k x, (k < i)%nat -> nth_error ns k = Some x ->
                     (Mindmap.level n <= Mindmap.level x)%Z
     end.
Proof. exact (MindRoot.root_parent_links mermaidCode i n). Qed.

Definition smallTree : string :=
  "mindmap" ++ nl ++ "Root" ++ nl ++ "  Child1" ++ nl ++ "    Leaf"
  ++ nl ++ "  Child2".

(** The fourth node of a small tree: [Child2], whose parent is the root,
    past [Child1] and [Leaf]. *)
Lemma parseMindmap_parent_links_witness :
  exists j m,
    (j < 3)%nat
    /\ nth_error (Mindmap.nodes (Mindmap.parseMindmap smallTree)) j = Some m
    /\ Mindmap.id m = "node0"
    /\ (Mindmap.level m < 1)%Z
    /\ forall k x, (j < k < 3)%nat ->
                   nth_error (Mindmap.nodes (Mindmap.parseMindmap smallTree)) k
                   = Some x ->
                   (1 <= Mindmap.level x)%Z.
Proof.
  exact (proj2 (proj2 (proj2
    (parseMindmap_parent_links smallTree 3
       {| Mindmap.id := "node3"; Mindmap.label := "Child2";
          Mindmap.shape := "default"; Mindmap.level := 1;
          Mindmap.parentId := Some "node0" |} eq_refl)))).
Defined.

(** ** Cells: counting and ids *)

Section CellFacts.
Context {N : Type}.
Implicit Types (cs : list (Xml.cell N)).

Lemma edgeCount_app cs cs' :
  Xml.edgeCount (cs ++ cs') = (Xml.edgeCount cs + Xml.edgeCount cs')%nat.
Proof. unfold Xml.edgeCount. now rewrite filter_app, length_app. Qed.

Lemma vertexIds_app cs cs' :
  Xml.vertexIds (cs ++ cs') = (Xml.vertexIds cs ++ Xml.vertexIds cs')%list.
Proof. unfold Xml.vertexIds. now rewrite filter_app, map_app. Qed.

Lemma edgeCount_vertices cs :
  Forall (fun c => Xml.isVertex c = true) cs -> Xml.edgeCount cs = 0%nat.
Proof.
  unfold Xml.edgeCount, Xml.isVertex, Xml.isEdge.
  induction 1 as [|c cs H _ IH]; [reflexivity|].
  simpl. destruct (Xml.ckind c); [assumption | discriminate].
Qed.

Lemma edgeCount_edges cs :
  Forall (fun c => Xml.isEdge c = true) cs ->
  Xml.edgeCount cs = List.length cs.
Proof.
  unfold Xml.edgeCount.
  induction 1 as [|c cs H _ IH]; [reflexivity|].
  simpl. rewrite H. simpl. now rewrite IH.
Qed.

Lemma vertexIds_edges cs :
  Forall (fun c => Xml.isEdge c = true) cs -> Xml.vertexIds cs = [].
Proof.
  unfold Xml.vertexIds, Xml.isVertex, Xml.isEdge.
  induction 1 as [|c cs H _ IH]; [reflexivity|].
  simpl. destruct (Xml.ckind c); [discriminate | assumption].
Qed.

Lemma vertexIds_vertices cs :
  Forall (fun c => Xml.isVertex c = true) cs ->
  Xml.vertexIds cs = map Xml.cid cs.
Proof.
  unfold Xml.vertexIds.
  induction 1 as [|c cs H _ IH]; [reflexivity|].
  simpl. rewrite H. simpl. now rewrite IH.
Qed.

Lemma edgeCount_flat_map {A : Type} (f : A -> list (Xml.cell N)) (l : list A) :
  (forall a, Forall (fun c => Xml.isVertex c = true) (f a)) ->
  Xml.edgeCount (flat_map f l) = 0%nat.
Proof.
  intros H. apply edgeCount_vertices. induction l as [|a l IH]; simpl.
  - constructor.
  - apply Forall_app. split; [apply H | assumption].
Qed.

End CellFacts.

Lemma indexedFrom_snd {A : Type} (i : nat) (l : list A) :
  map snd (Xml.indexedFrom i l) = l.
Proof.
  revert i. induction l as [|a l IH]; intros i; simpl; [reflexivity|].
  now rewrite IH.
Qed.

(** A map filled by one [set] per element of a list has the key of every
    element. *)
Lemma fold_set_keys {A V : Type} (key : A -> string) (val : A -> V)
      (l : list A) (m : JsMap.t V) (k : string) :
  In k (JsMap.keys (fold_left (fun m a => JsMap.set (key a) (val a) m) l m))
  <-> In k (JsMap.keys m) \/ In k (map key l).
Proof.
  revert m. induction l as [|a l IH]; intros m; simpl.
  - tauto.
  - rewrite IH, In_keys_set. intuition congruence.
Qed.

(** ** Flowcharts: every edge is drawn, node cells have distinct ids *)

Module FlowFacts.
Import Flow FlowGen.

Definition inv (st : state) : Prop :=
  keyed id (st_nodes st) /\ NoDup (JsMap.keys (st_nodes st)).

Lemma flow_addEndpoint_inv (nid : string) (shp : option string) (m : JsMap.t node) :
  keyed id m /\ NoDup (JsMap.keys m) ->
  keyed id (addEndpoint nid shp m) /\ NoDup (JsMap.keys (addEndpoint nid shp m)).
Proof.
  intros [K D]. unfold addEndpoint.
  destruct (JsMap.has nid m); [now split|]. split.
  - now apply keyed_set.
  - now apply NoDup_keys_set.
Qed.

Lemma flow_step_inv (st : state) (line : string) : inv st -> inv (step st line).
Proof.
  intros I. unfold step.
  destruct (Re.exec dirRe (Js.trim line)); [exact I|].
  destruct (Re.exec edgeRe (Js.trim line)).
  { unfold inv. cbn [st_nodes]. now repeat apply flow_addEndpoint_inv. }
  destruct (Re.exec nodeRe (Js.trim line)); [|exact I].
  destruct I as [K D]. split; cbn [st_nodes].
  - now apply keyed_set.
  - now apply NoDup_keys_set.
Qed.

Lemma flow_fold_inv (lines : list string) (st : state) :
  inv st -> inv (fold_left step lines st).
Proof.
  revert st. induction lines as [|l lines IH]; intros st I; [assumption|].
  simpl. apply IH. now apply flow_step_inv.
Qed.

Lemma flow_parse_ids (code : string) :
  NoDup (map id (nodes (parseFlowchart code))).
Proof.
  unfold parseFlowchart. cbn [nodes].
  destruct (flow_fold_inv (Js.splitLines (Js.trim code)) init) as [K D].
  { split; constructor. }
  now rewrite (keyed_values id _ K).
Qed.

Lemma flow_layout_keys (isVertical : bool) (ns : list node)
      (acc : JsMap.t pos * (Z * Z)) (k : string) :
  In k (JsMap.keys (fst (fold_left (layoutStep isVertical) ns acc)))
  <-> In k (JsMap.keys (fst acc)) \/ In k (map id ns).
Proof.
  revert acc. induction ns as [|n ns IH]; intros [m [cx cy]]; simpl.
  - tauto.
  - rewrite IH. cbn [fst]. rewrite In_keys_set. intuition congruence.
Qed.

Lemma flow_nodeCells_ok (positions : JsMap.t pos) (ns : list node) :
  (forall n, In n ns -> In (id n) (JsMap.keys positions)) ->
  exists cs, nodeCells positions ns = Ok cs
             /\ map Xml.cid cs = map id ns
             /\ Forall (fun c => Xml.isVertex c = true) cs.
Proof.
  induction ns as [|n ns IH]; intros H; simpl.
  - exists []. repeat split; constructor.
  - destruct IH as [cs [E [Hid Hv]]]; [intros; apply H; now right|].
    unfold nodeCell.
    assert (G : In (id n) (JsMap.keys positions)) by (apply H; now left).
    apply get_In in G.
    destruct (JsMap.get (id n) positions) as [p|]; [|congruence].
    cbn [bind]. rewrite E. cbn [bind]. eexists. split; [reflexivity|].
    split; [simpl; now rewrite Hid | constructor; [reflexivity | assumption]].
Qed.

Lemma flow_edgeCells_edges (positions : JsMap.t pos) (direction : string)
      (cellId : nat) (es : list edge) :
  Forall (fun c => Xml.isEdge c = true)
         (edgeCells positions direction cellId es)
  /\ List.length (edgeCells positions direction cellId es) = List.length es.
Proof.
  revert cellId. induction es as [|e es IH]; intros cellId; simpl.
  - split; [constructor | reflexivity].
  - destruct (IH (S cellId)) as [F L]. split.
    + constructor; [reflexivity | assumption].
    + now rewrite L.
Qed.

Lemma flow_generate_ok (clk : Xml.clock) (p : parsed) :
  exists doc,
    generateFlowchartXML clk p = Ok doc
    /\ Xml.edgeCount (Xml.cells doc) = List.length (edges p)
    /\ Xml.vertexIds (Xml.cells doc) = map id (nodes p).
Proof.
  unfold generateFlowchartXML.
  set (positions := calculateFlowchartLayout _ _ _).
  destruct (flow_nodeCells_ok positions (nodes p)) as [cs [E [Hid Hv]]].
  { intros n Hn. unfold positions, calculateFlowchartLayout.
    apply flow_layout_keys. right. now apply in_map. }
  rewrite E. cbn [bind]. eexists. split; [reflexivity|].
  cbn [Xml.cells Xml.wrapInDrawioXML].
  destruct (flow_edgeCells_edges positions (direction p) 2 (edges p)) as [F L].
  split.
  - rewrite edgeCount_app, (edgeCount_vertices _ Hv),
      (edgeCount_edges _ F), L. reflexivity.
  - rewrite vertexIds_app, (vertexIds_vertices _ Hv), (vertexIds_edges _ F),
      List.app_nil_r. assumption.
Qed.

End FlowFacts.

Lemma truthy_orElse (o : option string) (d : string) :
  truthy o = true -> o = Some (orElse o d).
Proof.
  destruct o as [s|]; simpl; [|discriminate].
  now destruct (String.eqb s EmptyString).
Qed.

(** ** ER diagrams: no parse error, every relationship is drawn *)

Module ERFacts.
Import ER ERGen.

Definition known (m : JsMap.t entity) (r : relationship) : Prop :=
  In (source r) (JsMap.keys m) /\ In (target r) (JsMap.keys m).

Record inv (st : state) : Prop :=
  { inv_keyed : keyed name (st_entities st);
    inv_nodup : NoDup (JsMap.keys (st_entities st));
    inv_rels : Forall (known (st_entities st)) (st_relationships st);
    inv_cur : forall e, currentEntity st = Some e ->
                        In e (JsMap.keys (st_entities st)) }.

Lemma er_init_inv : inv init.
Proof. split; try constructor. discriminate. Qed.

Lemma er_register_keyed (n : string) (m : JsMap.t entity) :
  keyed name m -> keyed name (register n m).
Proof.
  intros K. unfold register. destruct (JsMap.has n m); [assumption|].
  now apply keyed_set.
Qed.

Lemma er_register_nodup (n : string) (m : JsMap.t entity) :
  NoDup (JsMap.keys m) -> NoDup (JsMap.keys (register n m)).
Proof.
  intros D. unfold register. destruct (JsMap.has n m); [assumption|].
  now apply NoDup_keys_set.
Qed.

Lemma er_register_keys (n : string) (m : JsMap.t entity) (k : string) :
  In k (JsMap.keys (register n m)) <-> k = n \/ In k (JsMap.keys m).
Proof.
  unfold register. destruct (JsMap.has n m) eqn:H.
  - apply has_In in H. split; [now right | intros [->|?]; assumption].
  - apply In_keys_set.
Qed.

Lemma er_known_mono (m m' : JsMap.t entity) (rs : list relationship) :
  (forall k, In k (JsMap.keys m) -> In k (JsMap.keys m')) ->
  Forall (known m) rs -> Forall (known m') rs.
Proof.
  intros H F. eapply Forall_impl; [|exact F].
  intros r [Hs Ht]. split; now apply H.
Qed.

Lemma er_pushAttribute_ok (cur : string) (a : attribute) (m : JsMap.t entity) :
  keyed name m -> In cur (JsMap.keys m) ->
  exists m', pushAttribute cur a m = Ok m'
             /\ keyed name m'
             /\ JsMap.keys m' = JsMap.keys m.
Proof.
  intros K H. unfold pushAttribute.
  pose proof H as G. apply get_In in G.
  destruct (JsMap.get cur m) as [e|] eqn:E; [|congruence].
  eexists. split; [reflexivity|]. split.
  - apply keyed_set; [assumption|]. simpl. now apply (keyed_get name m).
  - rewrite keys_set. apply has_In in H. now rewrite H.
Qed.

Lemma er_step_ok (st : state) (line : string) :
  inv st -> exists st', step st line = Ok st' /\ inv st'.
Proof.
  intros [K D R C]. unfold step.
  destruct (String.eqb (Js.trim line) "erDiagram"
            || String.eqb (Js.trim line) EmptyString).
  { exists st. now split. }
  destruct (Re.exec relRe (Js.trim line)) as [cs|].
  { eexists. split; [reflexivity|]. split; cbn [st_entities st_relationships currentEntity].
    - now repeat apply er_register_keyed.
    - now repeat apply er_register_nodup.
    - apply Forall_app. split.
      + apply (er_known_mono (st_entities st)); [|assumption].
        intros k Hk. rewrite !er_register_keys. auto.
      + repeat constructor; cbn [source target]; rewrite !er_register_keys; auto.
    - intros e He. rewrite !er_register_keys. auto. }
  destruct (Re.exec entityRe (Js.trim line)) as [cs|].
  { eexists. split; [reflexivity|]. split; cbn [st_entities st_relationships currentEntity].
    - now apply er_register_keyed.
    - now apply er_register_nodup.
    - apply (er_known_mono (st_entities st)); [|assumption].
      intros k Hk. rewrite er_register_keys. auto.
    - intros e [= <-]. rewrite er_register_keys. auto. }
  destruct (String.eqb (Js.trim line) "}").
  { eexists. split; [reflexivity|]. split; try assumption. discriminate. }
  destruct (truthy (currentEntity st)) eqn:T; [|exists st; now split].
  destruct (Re.exec attrRe (Js.trim line)) as [cs|]; [|exists st; now split].
  apply (truthy_orElse _ EmptyString) in T.
  destruct (er_pushAttribute_ok (orElse (currentEntity st) EmptyString)
              {| atype := Re.capd 1 cs; aname := Re.capd 2 cs;
                 constraint := Re.cap 3 cs |} (st_entities st) K (C _ T))
    as [m' [E [K' Hk]]].
  rewrite E. cbn [bind]. eexists. split; [reflexivity|].
  split; cbn [st_entities st_relationships currentEntity].
  - assumption.
  - now rewrite Hk.
  - apply (er_known_mono (st_entities st)); [|assumption]. now rewrite Hk.
  - rewrite Hk. assumption.
Qed.

Lemma er_foldM_ok (lines : list string) (st : state) :
  inv st -> exists st', foldM step lines st = Ok st' /\ inv st'.
Proof.
  revert st. induction lines as [|l lines IH]; intros st I; simpl.
  - now exists st.
  - destruct (er_step_ok st l I) as [st1 [E I1]]. rewrite E. simpl.
    now apply IH.
Qed.

(** The parser never throws; entity names are distinct and name both ends
    of every relationship. *)
Lemma er_parse_ok (code : string) :
  exists p,
    parseERDiagram code = Ok p
    /\ NoDup (map name (entities p))
    /\ Forall (fun r => In (source r) (map name (entities p))
                        /\ In (target r) (map name (entities p)))
              (relationships p).
Proof.
  unfold parseERDiagram.
  destruct (er_foldM_ok (Js.splitLines (Js.trim code)) init er_init_inv)
    as [st [E [K D R _]]].
  rewrite E. cbn [bind]. eexists. split; [reflexivity|].
  cbn [entities relationships]. rewrite (keyed_values name _ K).
  split; assumption.
Qed.

Lemma er_entityPositions_keys (es : list entity) (k : string) :
  In k (JsMap.keys (entityPositions es)) <-> In k (map name es).
Proof.
  unfold entityPositions.
  rewrite (fold_set_keys (fun ie : nat * entity => name (snd ie))
             (fun ie => entityPos (fst ie) (snd ie))).
  unfold Xml.indexed.
  rewrite <- (indexedFrom_snd 0 es) at 2. rewrite map_map.
  simpl. tauto.
Qed.

Lemma er_relCells_count (inherited : string -> option (string * string))
      (positions : JsMap.t boxPos) (cellId : nat) (rs : list relationship) :
  Forall (fun r => In (source r) (JsMap.keys positions)
                   /\ In (target r) (JsMap.keys positions)) rs ->
  Forall (fun c => Xml.isEdge c = true)
         (relCells inherited positions cellId rs)
  /\ List.length (relCells inherited positions cellId rs) = List.length rs.
Proof.
  intros F. revert cellId.
  induction F as [|r rs [Hs Ht] _ IH]; intros cellId; simpl.
  - split; [constructor | reflexivity].
  - apply get_In in Hs. apply get_In in Ht.
    destruct (JsMap.get (source r) positions); [|congruence].
    destruct (JsMap.get (target r) positions); [|congruence].
    destruct (IH (S cellId)) as [F' L]. simpl. split.
    + constructor; [reflexivity | assumption].
    + now rewrite L.
Qed.

Lemma er_entityCells_vertices (ie : nat * entity) :
  Forall (fun c => Xml.isVertex c = true) (entityCells ie).
Proof.
  destruct ie as [i e]. unfold entityCells, attrCells.
  constructor; [reflexivity|].
  apply Forall_map. apply Forall_forall. intros [j a] _. reflexivity.
Qed.

Lemma er_generate_count (inherited : string -> option (string * string))
      (clk : Xml.clock) (p : parsed) :
  Forall (fun r => In (source r) (map name (entities p))
                   /\ In (target r) (map name (entities p)))
         (relationships p) ->
  Xml.edgeCount (Xml.cells (generateERDiagramXML inherited clk p))
  = List.length (relationships p).
Proof.
  intros F. unfold generateERDiagramXML. cbn [Xml.cells Xml.wrapInDrawioXML].
  destruct (er_relCells_count inherited (entityPositions (entities p)) 2
              (relationships p)) as [Fe L].
  { eapply Forall_impl; [|exact F]. intros r [Hs Ht].
    now rewrite !er_entityPositions_keys. }
  rewrite edgeCount_app, (edgeCount_flat_map _ _ er_entityCells_vertices),
    (edgeCount_edges _ Fe), L. reflexivity.
Qed.

Lemma er_container_ids (es : list entity) :
  map Xml.cid (map containerCell (Xml.indexed es)) = map name es.
Proof.
  unfold Xml.indexed. generalize 0%nat.
  induction es as [|e es IH]; intros i; simpl; [reflexivity|].
  now rewrite IH.
Qed.

End ERFacts.

(** ** Class diagrams: no parse error, every relationship is drawn *)

Module ClassFacts.
Import Class ClassGen.

Definition known (m : JsMap.t class) (r : relationship) : Prop :=
  In (from r) (JsMap.keys m) /\ In (to r) (JsMap.keys m).

Record inv (st : state) : Prop :=
  { inv_keyed : keyed name (st_classes st);
    inv_nodup : NoDup (JsMap.keys (st_classes st));
    inv_rels : Forall (known (st_classes st)) (st_relationships st);
    inv_cur : forall c, currentClass st = Some c ->
                        In c (JsMap.keys (st_classes st)) }.

Lemma class_init_inv : inv init.
Proof. split; try constructor. discriminate. Qed.

Lemma class_register_keyed (n : string) (m : JsMap.t class) :
  keyed name m -> keyed name (register n m).
Proof.
  intros K. unfold register. destruct (JsMap.has n m); [assumption|].
  now apply keyed_set.
Qed.

Lemma class_register_nodup (n : string) (m : JsMap.t class) :
  NoDup (JsMap.keys m) -> NoDup (JsMap.keys (register n m)).
Proof.
  intros D. unfold register. destruct (JsMap.has n m); [assumption|].
  now apply NoDup_keys_set.
Qed.

Lemma class_register_keys (n : string) (m : JsMap.t class) (k : string) :
  In k (JsMap.keys (register n m)) <-> k = n \/ In k (JsMap.keys m).
Proof.
  unfold register. destruct (JsMap.has n m) eqn:H.
  - apply has_In in H. split; [now right | intros [->|?]; assumption].
  - apply In_keys_set.
Qed.

Lemma class_known_mono (m m' : JsMap.t class) (rs : list relationship) :
  (forall k, In k (JsMap.keys m) -> In k (JsMap.keys m')) ->
  Forall (known m) rs -> Forall (known m') rs.
Proof.
  intros H F. eapply Forall_impl; [|exact F].
  intros r [Hs Ht]. split; now apply H.
Qed.

Lemma class_update_ok (cur : string) (f : class -> class) (m : JsMap.t class) :
  keyed name m -> In cur (JsMap.keys m) ->
  (forall c, name (f c) = name c) ->
  exists m', update cur f m = Ok m'
             /\ keyed name m'
             /\ JsMap.keys m' = JsMap.keys m.
Proof.
  intros K H Hf. unfold update.
  pose proof H as G. apply get_In in G.
  destruct (JsMap.get cur m) as [c|] eqn:E; [|congruence].
  eexists. split; [reflexivity|]. split.
  - apply keyed_set; [assumption|]. rewrite Hf. now apply (keyed_get name m).
  - rewrite keys_set. apply has_In in H. now rewrite H.
Qed.

Lemma class_relStep_inv (st : state) (trimmed : string) :
  inv st -> inv (relStep st trimmed).
Proof.
  intros [K D R C]. unfold relStep.
  destruct (Re.exec relRe trimmed) as [cs|]; [|now split].
  split; cbn [st_classes st_relationships currentClass].
  - now repeat apply class_register_keyed.
  - now repeat apply class_register_nodup.
  - apply Forall_app. split.
    + apply (class_known_mono (st_classes st)); [|assumption].
      intros k Hk. rewrite !class_register_keys. auto.
    + repeat constructor; cbn [from to]; rewrite !class_register_keys; auto.
  - intros e He. rewrite !class_register_keys. auto.
Qed.

Lemma class_withClasses_inv (st : state) (m : JsMap.t class) :
  inv st -> keyed name m -> NoDup (JsMap.keys m) ->
  (forall k, In k (JsMap.keys (st_classes st)) -> In k (JsMap.keys m)) ->
  inv (withClasses st m).
Proof.
  intros [K D R C] K' D' H.
  split; cbn [withClasses st_classes st_relationships currentClass];
    try assumption.
  - now apply (class_known_mono (st_classes st)).
  - intros c Hc. apply H. now apply C.
Qed.

Lemma class_step_ok (st : state) (line : string) :
  inv st -> exists st', step st line = Ok st' /\ inv st'.
Proof.
  intros I. pose proof I as [K D R C]. unfold step.
  destruct (String.eqb (Js.trim line) "classDiagram"
            || String.eqb (Js.trim line) EmptyString).
  { now exists st. }
  destruct (Re.exec classStartRe (Js.trim line)) as [cs|].
  { eexists. split; [reflexivity|].
    split; cbn [st_classes st_relationships currentClass].
    - now apply class_register_keyed.
    - now apply class_register_nodup.
    - apply (class_known_mono (st_classes st)); [|assumption].
      intros k Hk. rewrite class_register_keys. auto.
    - intros e [= <-]. rewrite class_register_keys. auto. }
  destruct (String.eqb (Js.trim line) "}").
  { eexists. split; [reflexivity|]. split; try assumption. discriminate. }
  destruct (Re.exec annotationRe (Js.trim line)) as [cs|].
  { eexists. split; [reflexivity|].
    destruct (JsMap.get (Re.capd 2 cs) (st_classes st)) as [c|] eqn:G.
    - apply class_withClasses_inv; try assumption.
      + apply keyed_set; [assumption|]. simpl.
        now apply (keyed_get name (st_classes st)).
      + now apply NoDup_keys_set.
      + intros k Hk. apply In_keys_set. now right.
    - apply class_withClasses_inv; try assumption.
      + now apply keyed_set.
      + now apply NoDup_keys_set.
      + intros k Hk. apply In_keys_set. now right. }
  destruct (truthy (currentClass st)) eqn:T;
    [|eexists; split; [reflexivity | now apply class_relStep_inv]].
  apply (truthy_orElse _ EmptyString) in T. apply C in T.
  destruct (Re.exec methodRe (Js.trim line)) as [cs|].
  { match goal with
    | |- context [update ?c ?f ?m] =>
        destruct (class_update_ok c f m K T) as [m' [E [K' Hk]]];
          [reflexivity | rewrite E]
    end.
    cbn [bind]. eexists. split; [reflexivity|].
    apply class_withClasses_inv; try assumption; rewrite Hk; auto. }
  destruct (Re.exec attrRe (Js.trim line)) as [cs|].
  { match goal with
    | |- context [update ?c ?f ?m] =>
        destruct (class_update_ok c f m K T) as [m' [E [K' Hk]]];
          [reflexivity | rewrite E]
    end.
    cbn [bind]. eexists. split; [reflexivity|].
    apply class_withClasses_inv; try assumption; rewrite Hk; auto. }
  eexists. split; [reflexivity | now apply class_relStep_inv].
Qed.

Lemma class_foldM_ok (lines : list string) (st : state) :
  inv st -> exists st', foldM step lines st = Ok st' /\ inv st'.
Proof.
  revert st. induction lines as [|l lines IH]; intros st I; simpl.
  - now exists st.
  - destruct (class_step_ok st l I) as [st1 [E I1]]. rewrite E. simpl.
    now apply IH.
Qed.

Lemma class_parse_ok (code : string) :
  exists p,
    parseClassDiagram code = Ok p
    /\ NoDup (map name (classes p))
    /\ Forall (fun r => In (from r) (map name (classes p))
                        /\ In (to r) (map name (classes p)))
              (relationships p).
Proof.
  unfold parseClassDiagram.
  destruct (class_foldM_ok (Js.splitLines (Js.trim code)) init class_init_inv)
    as [st [E [K D R _]]].
  rewrite E. cbn [bind]. eexists. split; [reflexivity|].
  cbn [classes relationships]. rewrite (keyed_values name _ K).
  split; assumption.
Qed.

Lemma class_classPositions_keys (cs : list class) (k : string) :
  In k (JsMap.keys (classPositions cs)) <-> In k (map name cs).
Proof.
  unfold classPositions.
  rewrite (fold_set_keys (fun ic : nat * class => name (snd ic))
             (fun ic => classPos (fst ic) (snd ic))).
  unfold Xml.indexed.
  rewrite <- (indexedFrom_snd 0 cs) at 2. rewrite map_map.
  simpl. tauto.
Qed.

Lemma class_relCells_count (positions : JsMap.t boxPos) (cellId : nat)
      (rs : list relationship) :
  Forall (fun r => In (from r) (JsMap.keys positions)
                   /\ In (to r) (JsMap.keys positions)) rs ->
  Forall (fun c => Xml.isEdge c = true) (relCells positions cellId rs)
  /\ List.length (relCells positions cellId rs) = List.length rs.
Proof.
  intros F. revert cellId.
  induction F as [|r rs [Hs Ht] _ IH]; intros cellId; simpl.
  - split; [constructor | reflexivity].
  - apply get_In in Hs. apply get_In in Ht.
    destruct (JsMap.get (from r) positions); [|congruence].
    destruct (JsMap.get (to r) positions); [|congruence].
    destruct (IH (S cellId)) as [F' L].
    destruct (arrows (rtype r)) as [[a1 a2] a3]. simpl. split.
    + constructor; [reflexivity | assumption].
    + now rewrite L.
Qed.

Lemma class_classCells_vertices (ic : nat * class) :
  Forall (fun c => Xml.isVertex c = true) (classCells ic).
Proof.
  destruct ic as [i c]. unfold classCells, memberCells.
  constructor; [reflexivity|].
  apply Forall_app; split; [|apply Forall_app; split].
  - apply Forall_map. apply Forall_forall. intros [j a] _. reflexivity.
  - destruct (0 <? len (methods c))%Z; repeat constructor.
  - apply Forall_map. apply Forall_forall. intros [j a] _. reflexivity.
Qed.

Lemma class_generate_count (clk : Xml.clock) (p : parsed) :
  Forall (fun r => In (from r) (map name (classes p))
                   /\ In (to r) (map name (classes p)))
         (relationships p) ->
  Xml.edgeCount (Xml.cells (generateClassDiagramXML clk p))
  = List.length (relationships p).
Proof.
  intros F. unfold generateClassDiagramXML. cbn [Xml.cells Xml.wrapInDrawioXML].
  destruct (class_relCells_count (classPositions (classes p)) 2 (relationships p))
    as [Fe L].
  { eapply Forall_impl; [|exact F]. intros r [Hs Ht].
    now rewrite !class_classPositions_keys. }
  rewrite edgeCount_app, (edgeCount_flat_map _ _ class_classCells_vertices),
    (edgeCount_edges _ Fe), L. reflexivity.
Qed.

Lemma class_container_ids (cs : list class) :
  map Xml.cid (map containerCell (Xml.indexed cs)) = map name cs.
Proof.
  unfold Xml.indexed. generalize 0%nat.
  induction cs as [|c cs IH]; intros i; simpl; [reflexivity|].
  now rewrite IH.
Qed.

End ClassFacts.

(** ** Sequence diagrams: every message is drawn *)

Module SeqFacts.
Import Seq SeqGen.

Definition known (m : JsMap.t participant) (msg : message) : Prop :=
  In (from msg) (JsMap.keys m) /\ In (to msg) (JsMap.keys m).

Record inv (st : state) : Prop :=
  { inv_keyed : keyed id (st_participants st);
    inv_nodup : NoDup (JsMap.keys (st_participants st));
    inv_msgs : Forall (known (st_participants st)) (st_messages st) }.

Lemma seq_init_inv : inv init.
Proof. split; constructor. Qed.

Lemma seq_known_mono (m m' : JsMap.t participant) (ms : list message) :
  (forall k, In k (JsMap.keys m) -> In k (JsMap.keys m')) ->
  Forall (known m) ms -> Forall (known m') ms.
Proof.
  intros H F. eapply Forall_impl; [|exact F].
  intros r [Hs Ht]. split; now apply H.
Qed.

Lemma seq_autoAdd_ok (p : string) (m : JsMap.t participant) (o : nat) :
  keyed id m -> NoDup (JsMap.keys m) ->
  keyed id (fst (autoAdd p (m, o)))
  /\ NoDup (JsMap.keys (fst (autoAdd p (m, o))))
  /\ forall k, In k (JsMap.keys (fst (autoAdd p (m, o))))
               <-> k = p \/ In k (JsMap.keys m).
Proof.
  intros K D. unfold autoAdd. destruct (JsMap.has p m) eqn:H; cbn [fst].
  - apply has_In in H. repeat split; try assumption.
    + now right.
    + intros [->|?]; assumption.
  - repeat split.
    + now apply keyed_set.
    + now apply NoDup_keys_set.
    + apply In_keys_set.
    + apply In_keys_set.
Qed.

Lemma seq_step_inv (st : state) (line : string) : inv st -> inv (step st line).
Proof.
  intros I. pose proof I as [K D M]. unfold step.
  destruct (String.eqb (Js.trim line) "sequenceDiagram"
            || String.eqb (Js.trim line) EmptyString); [assumption|].
  destruct (Re.exec participantRe (Js.trim line)) as [cs|].
  { split; cbn [st_participants st_messages].
    - now apply keyed_set.
    - now apply NoDup_keys_set.
    - apply (seq_known_mono (st_participants st)); [|assumption].
      intros k Hk. apply In_keys_set. now right. }
  destruct (Re.exec messageRe (Js.trim line)) as [cs|].
  { destruct (seq_autoAdd_ok (Re.capd 1 cs) (st_participants st)
                (participantOrder st) K D) as [K1 [D1 H1]].
    destruct (autoAdd (Re.capd 1 cs) (st_participants st, participantOrder st))
      as [m1 o1]. cbn [fst] in *.
    destruct (seq_autoAdd_ok (Re.capd 3 cs) m1 o1 K1 D1) as [K2 [D2 H2]].
    split; cbn [st_participants st_messages]; try assumption.
    apply Forall_app. split.
    - apply (seq_known_mono (st_participants st)); [|assumption].
      intros k Hk. apply H2. right. apply H1. now right.
    - repeat constructor; cbn [from to]; apply H2.
      + right. apply H1. now left.
      + now left. }
  destruct (Re.exec noteRe (Js.trim line)) as [cs|]; [now split|].
  destruct (Re.exec activateRe (Js.trim line)) as [cs|]; [now split|].
  assumption.
Qed.

Lemma seq_fold_inv (lines : list string) (st : state) :
  inv st -> inv (fold_left step lines st).
Proof.
  revert st. induction lines as [|l lines IH]; intros st I; [assumption|].
  simpl. apply IH. now apply seq_step_inv.
Qed.

Lemma seq_insertByOrder_perm (p : participant) (l : list participant) :
  Permutation (insertByOrder p l) (p :: l).
Proof.
  induction l as [|q l IH]; simpl; [reflexivity|].
  destruct (Nat.leb (order p) (order q)); [reflexivity|].
  rewrite IH. apply perm_swap.
Qed.

Lemma seq_sortByOrder_perm (l : list participant) :
  Permutation (sortByOrder l) l.
Proof.
  unfold sortByOrder. induction l as [|p l IH]; simpl; [reflexivity|].
  rewrite seq_insertByOrder_perm. now constructor.
Qed.

Lemma seq_parse_ok (code : string) :
  NoDup (map id (participants (parseSequenceDiagram code)))
  /\ Forall (fun msg =>
               In (from msg) (map id (participants (parseSequenceDiagram code)))
               /\ In (to msg) (map id (participants (parseSequenceDiagram code))))
            (messages (parseSequenceDiagram code)).
Proof.
  unfold parseSequenceDiagram. cbn [participants messages].
  destruct (seq_fold_inv (Js.splitLines (Js.trim code)) init seq_init_inv)
    as [K D M].
  set (st := fold_left step _ init) in *.
  assert (P : Permutation (map id (sortByOrder (JsMap.values (st_participants st))))
                          (JsMap.keys (st_participants st))).
  { rewrite <- (keyed_values id _ K). apply Permutation_map.
    apply seq_sortByOrder_perm. }
  split.
  - eapply Permutation_NoDup; [symmetry; exact P | assumption].
  - eapply Forall_impl; [|exact M]. intros msg [Hf Ht].
    split; eapply Permutation_in; try (symmetry; exact P); assumption.
Qed.

Lemma seq_participantPositions_keys (ps : list participant) (k : string) :
  In k (JsMap.keys (participantPositions ps)) <-> In k (map id ps).
Proof.
  unfold participantPositions.
  rewrite (fold_set_keys (fun ip : nat * participant => id (snd ip))
             (fun ip => participantPos (fst ip))).
  unfold Xml.indexed.
  rewrite <- (indexedFrom_snd 0 ps) at 2. rewrite map_map.
  simpl. tauto.
Qed.

Lemma seq_messageCells_count (positions : JsMap.t ppos) (cellId : nat)
      (ims : list (nat * message)) :
  Forall (fun im => In (from (snd im)) (JsMap.keys positions)
                    /\ In (to (snd im)) (JsMap.keys positions)) ims ->
  Forall (fun c => Xml.isEdge c = true) (fst (messageCells positions cellId ims))
  /\ List.length (fst (messageCells positions cellId ims)) = List.length ims.
Proof.
  intros F. revert cellId.
  induction F as [|[i msg] ims [Hf Ht] _ IH]; intros cellId; simpl.
  - split; [constructor | reflexivity].
  - cbn [snd] in Hf, Ht. apply get_In in Hf. apply get_In in Ht.
    destruct (JsMap.get (from msg) positions); [|congruence].
    destruct (JsMap.get (to msg) positions); [|congruence].
    destruct (IH (S cellId)) as [F' L].
    destruct (messageCells positions (S cellId) ims) as [cs n].
    cbn [fst] in *. split.
    + constructor; [reflexivity | assumption].
    + simpl. now rewrite L.
Qed.

Lemma seq_noteCells_vertices (positions : JsMap.t ppos) (cellId : nat)
      (ins : list (nat * note)) :
  Forall (fun c => Xml.isVertex c = true) (noteCells positions cellId ins).
Proof.
  revert cellId. induction ins as [|[i nt] ins IH]; intros cellId; simpl.
  - constructor.
  - destruct (JsMap.get _ positions); [|apply IH].
    constructor; [reflexivity | apply IH].
Qed.

Lemma seq_generate_count (clk : Xml.clock) (p : parsed) :
  Forall (fun msg => In (from msg) (map id (participants p))
                     /\ In (to msg) (map id (participants p)))
         (messages p) ->
  Xml.edgeCount (Xml.cells (generateSequenceDiagramXML clk p))
  = List.length (messages p).
Proof.
  intros F. unfold generateSequenceDiagramXML.
  destruct (seq_messageCells_count (participantPositions (participants p)) 2
              (Xml.indexed (messages p))) as [Fe L].
  { unfold Xml.indexed. generalize 0%nat.
    induction F as [|msg ms [Hf Ht] _ IH]; intros i; simpl; constructor.
    - cbn [snd]. now rewrite !seq_participantPositions_keys.
    - apply IH. }
  destruct (messageCells _ 2 (Xml.indexed (messages p))) as [mcs n].
  cbn [fst] in *. cbn [Xml.cells Xml.wrapInDrawioXML].
  rewrite !edgeCount_app.
  rewrite (edgeCount_flat_map (participantCells _)).
  - rewrite (edgeCount_edges _ Fe), L.
    rewrite (edgeCount_vertices _ (seq_noteCells_vertices _ _ _)).
    unfold Xml.indexed.
    rewrite <- (indexedFrom_snd 0 (messages p)) at 2.
    rewrite length_map. lia.
  - intros [i q]. repeat constructor.
Qed.

End SeqFacts.

(** ** Git graphs with a branch that was never created *)

Definition mergeGhost : string := "gitGraph" ++ nl ++ "merge ghost".

Definition checkoutGhost : string :=
  "gitGraph" ++ nl ++ "checkout ghost" ++ nl ++ "commit".

Definition mergeGhostModel : Git.parsed :=
  {| Git.commits :=
       [ {| Git.id := "merge_0"; Git.tag := None; Git.ctype := "MERGE";
            Git.branch := "main"; Git.mergeFrom := Some "ghost" |} ];
     Git.branches :=
       [ {| Git.name := "main"; Git.bcommits := ["merge_0"];
            Git.parentBranch := None |} ] |}.

(** C1.  The parsers for flowcharts, sequence diagrams and mindmaps contain
    no operation that can throw; the parsers for ER and class diagrams look
    an entity or class up before writing to it and return a model for every
    input.  The git parser accepts the merge of a branch that was never
    created: the commit list gains the one merge commit and no connector is
    written for it.  Checking such a branch out and then committing is not
    accepted: the commit is filed under [branches.get(currentBranch)], which
    is [undefined], and the parser throws. *)
Theorem parseGitGraph_unknown_branch :
  (forall mermaidCode, exists p, ER.parseERDiagram mermaidCode = Ok p)
  /\ (forall mermaidCode, exists p, Class.parseClassDiagram mermaidCode = Ok p)
  /\ Git.parseGitGraph mergeGhost = Ok mergeGhostModel
  /\ (forall inherited clk,
        exists doc,
          GitGen.generateGitGraphXML inherited clk mergeGhostModel = Ok doc
          /\ Xml.edgeCount (Xml.cells doc) = 0)
  /\ Git.parseGitGraph checkoutGhost = TypeError.
Proof.
  split.
  { intros code. destruct (ERFacts.er_parse_ok code) as [p [E _]].
    now exists p. }
  split.
  { intros code. destruct (ClassFacts.class_parse_ok code) as [p [E _]].
    now exists p. }
  split; [vm_compute; reflexivity|].
  split; [|vm_compute; reflexivity].
  intros inherited clk. eexists. split; [reflexivity|].
  reflexivity.
Qed.

(** ** Conservation of relationships *)

Definition strayRoot : string :=
  "mindmap" ++ nl ++ "A" ++ nl ++ "  B" ++ nl ++ "C".

(** C2, as stated, fails for a mindmap with a second top-level line: the
    model links B to its parent A, the layout starts from the last
    top-level node C, A and B get no position, and neither they nor the
    connector between them are written. *)
Lemma mindmap_parent_link_not_drawn :
  map Mindmap.parentId (Mindmap.nodes (Mindmap.parseMindmap strayRoot))
  = [None; Some "node0"; None]
  /\ forall e clk,
       (1 <= Engine.layoutFrames e)%nat ->
       exists doc,
         MindGen.generateMindmapXML e clk (Mindmap.parseMindmap strayRoot)
         = Some doc
         /\ Xml.edgeCount (Xml.cells doc) = 0
         /\ Xml.vertexIds (Xml.cells doc) = ["node2"].
Proof.
  split; [reflexivity|].
  intros e clk L. unfold MindGen.generateMindmapXML.
  destruct (Engine.layoutFrames e) as [|f]; [lia|].
  eexists. split; [lazy; reflexivity|].
  split; lazy; reflexivity.
Qed.

(** C2, amended.  For the four dialects whose model has a list of
    relationships (flow edges, ER relationships, sequence messages, class
    relationships) parsing and serialization never throw, and the markup
    has exactly one edge cell per relationship of the model: each parser
    registers both ends of what it records, so the test that passes over a
    relationship with an unplaced end never fires. *)
Theorem relationship_count_conserved
        (inherited : string -> option (string * string))
        (clk : Xml.clock) (mermaidCode : string) :
  (exists doc,
     FlowGen.generateFlowchartXML clk (Flow.parseFlowchart mermaidCode) = Ok doc
     /\ Xml.edgeCount (Xml.cells doc)
        = List.length (Flow.edges (Flow.parseFlowchart mermaidCode)))
  /\ (exists p,
        ER.parseERDiagram mermaidCode = Ok p
        /\ Xml.edgeCount
             (Xml.cells (ERGen.generateERDiagramXML inherited clk p))
           = List.length (ER.relationships p))
  /\ Xml.edgeCount
       (Xml.cells (SeqGen.generateSequenceDiagramXML clk
                     (Seq.parseSequenceDiagram mermaidCode)))
     = List.length (Seq.messages (Seq.parseSequenceDiagram mermaidCode))
  /\ (exists p,
        Class.parseClassDiagram mermaidCode = Ok p
        /\ Xml.edgeCount (Xml.cells (ClassGen.generateClassDiagramXML clk p))
           = List.length (Class.relationships p)).
Proof.
  split; [|split; [|split]].
  - destruct (FlowFacts.flow_generate_ok clk (Flow.parseFlowchart mermaidCode))
      as [doc [E [C _]]].
    now exists doc.
  - destruct (ERFacts.er_parse_ok mermaidCode) as [p [E [_ F]]].
    exists p. split; [assumption|]. now apply ERFacts.er_generate_count.
  - apply SeqFacts.seq_generate_count. apply SeqFacts.seq_parse_ok.
  - destruct (ClassFacts.class_parse_ok mermaidCode) as [p [E [_ F]]].
    exists p. split; [assumption|]. now apply ClassFacts.class_generate_count.
Qed.

(** ** Generated identifiers *)

Section Identifiers.

Lemma ofNat_inj (i j : nat) : Js.ofNat i = Js.ofNat j -> i = j.
Proof.
  unfold Js.ofNat. intros H.
  assert (E : Some (Nat.to_uint i) = Some (Nat.to_uint j)).
  { rewrite <- !NilEmpty.usu. now rewrite H. }
  injection E as E.
  rewrite <- (DecimalNat.Unsigned.of_to i), <- (DecimalNat.Unsigned.of_to j).
  now rewrite E.
Qed.

Fixpoint allDigits (s : string) : bool :=
  match s with
  | EmptyString => true
  | String c t => Js.isDigit c && allDigits t
  end.

(** The string is not empty and its last character is not a digit. *)
Fixpoint endsNonDigit (s : string) : bool :=
  match s with
  | EmptyString => false
  | String c EmptyString => negb (Js.isDigit c)
  | String _ t => endsNonDigit t
  end.

Lemma allDigits_uint (d : Decimal.uint) :
  allDigits (NilEmpty.string_of_uint d) = true.
Proof. induction d; simpl; try assumption; reflexivity. Qed.

Lemma allDigits_ofNat (n : nat) : allDigits (Js.ofNat n) = true.
Proof. apply allDigits_uint. Qed.

Lemma allDigits_app (a b : string) :
  allDigits (a ++ b) = allDigits a && allDigits b.
Proof.
  induction a as [|c a IH]; simpl; [reflexivity|].
  now rewrite IH, andb_assoc.
Qed.

Lemma allDigits_ends (s : string) :
  allDigits s = true -> endsNonDigit s = false.
Proof.
  induction s as [|c s IH]; [reflexivity|].
  simpl. intros H. apply andb_prop in H. destruct H as [Hc Hs].
  destruct s; [now rewrite Hc | now apply IH].
Qed.

Lemma endsNonDigit_app (a b : string) :
  endsNonDigit b = true -> endsNonDigit (a ++ b) = true.
Proof.
  intros H. induction a as [|c a IH]; [assumption|].
  simpl. destruct (a ++ b) eqn:E; [|assumption].
  destruct a; [|discriminate]. simpl in E. subst b. discriminate.
Qed.

(** A text that ends in a non-digit, followed by digits, splits in one way
    only. *)
Lemma digits_suffix_inj (x y d1 d2 : string) :
  endsNonDigit x = true -> endsNonDigit y = true ->
  allDigits d1 = true -> allDigits d2 = true ->
  x ++ d1 = y ++ d2 -> x = y /\ d1 = d2.
Proof.
  revert y. induction x as [|c x IH]; intros y Hx Hy D1 D2 E;
    [discriminate|].
  destruct y as [|c' y]; [discriminate|].
  simpl in E. injection E as -> E.
  destruct x as [|a x]; destruct y as [|b y].
  - simpl in E. now subst.
  - exfalso. simpl in E. subst d1.
    change (String b (y ++ d2)) with (String b y ++ d2) in D1.
    rewrite allDigits_app in D1. apply andb_prop in D1.
    destruct D1 as [D1 _]. apply allDigits_ends in D1.
    change (endsNonDigit (String b y) = true) in Hy. congruence.
  - exfalso. simpl in E. subst d2.
    change (String a (x ++ d1)) with (String a x ++ d1) in D2.
    rewrite allDigits_app in D2. apply andb_prop in D2.
    destruct D2 as [D2 _]. apply allDigits_ends in D2.
    change (endsNonDigit (String a x) = true) in Hx. congruence.
  - destruct (IH (String b y) Hx Hy D1 D2 E) as [-> ->]. now split.
Qed.

Lemma length_append (a b : string) :
  String.length (a ++ b) = (String.length a + String.length b)%nat.
Proof. induction a as [|c a IH]; simpl; congruence. Qed.

Lemma append_inj_l (p a b : string) : p ++ a = p ++ b -> a = b.
Proof.
  induction p as [|c p IH]; simpl; [trivial|].
  intros [= E]. now apply IH.
Qed.

Lemma append_inj_r (a b s : string) : a ++ s = b ++ s -> a = b.
Proof.
  revert b. induction a as [|c a IH]; intros [|c' b] E.
  - reflexivity.
  - exfalso. apply (f_equal String.length) in E.
    simpl in E. rewrite length_append in E. lia.
  - exfalso. apply (f_equal String.length) in E.
    simpl in E. rewrite length_append in E. lia.
  - simpl in E. injection E as -> E. f_equal. now apply IH.
Qed.

(** [<name>_attr<i>] determines the name and the index. *)
Lemma attr_id_inj (a b : string) (i j : nat) :
  a ++ "_attr" ++ Js.ofNat i = b ++ "_attr" ++ Js.ofNat j -> a = b /\ i = j.
Proof.
  intros E.
  change ("_attr" ++ Js.ofNat i) with ("_attr" ++ (EmptyString ++ Js.ofNat i)) in E.
  change ("_attr" ++ Js.ofNat j) with ("_attr" ++ (EmptyString ++ Js.ofNat j)) in E.
  simpl (EmptyString ++ _) in E.
  assert (E' : (a ++ "_attr") ++ Js.ofNat i = (b ++ "_attr") ++ Js.ofNat j).
  { now rewrite !append_assoc. }
  apply digits_suffix_inj in E';
    try apply allDigits_ofNat; try (apply endsNonDigit_app; reflexivity).
  destruct E' as [E1 E2]. split.
  - now apply append_inj_r in E1.
  - now apply ofNat_inj.
Qed.

End Identifiers.

(** ** Mindmaps: the layout ends, node cells have distinct ids *)

Module MindGenFacts.
Import Mindmap MindGen.

(** Node [i] is named [node<i>] and a parent comes before its child. *)
Definition ordered (ns : list node) : Prop :=
  forall i n, nth_error ns i = Some n ->
              id n = "node" ++ Js.ofNat i
              /\ forall p, parentId n = Some p ->
                           exists j, (j < i)%nat /\ p = "node" ++ Js.ofNat j.

Lemma tree_parse_ordered (code : string) : ordered (nodes (parseMindmap code)).
Proof.
  intros i n Hn.
  pose proof (MindRoot.root_parent_links code i n Hn) as [Hid [_ [_ Hp]]].
  split; [assumption|]. intros p E. rewrite E in Hp.
  destruct Hp as [j [m [Hj [Hm [Hpm _]]]]]. exists j. split; [assumption|].
  pose proof (MindRoot.root_parent_links code j m Hm) as [Hidm _].
  congruence.
Qed.

Lemma tree_node_id_inj (i j : nat) :
  "node" ++ Js.ofNat i = "node" ++ Js.ofNat j -> i = j.
Proof. intros H. apply append_inj_l in H. now apply ofNat_inj. Qed.

Lemma tree_ordered_ids (ns : list node) : ordered ns -> NoDup (map id ns).
Proof.
  intros O. apply NoDup_nth_error. intros i j Hi E.
  rewrite length_map in Hi. rewrite !nth_error_map in E.
  destruct (nth_error ns i) as [n|] eqn:Hn;
    [|apply nth_error_None in Hn; lia].
  destruct (nth_error ns j) as [m|] eqn:Hm; [|discriminate].
  simpl in E. injection E as E.
  rewrite (proj1 (O i n Hn)), (proj1 (O j m Hm)) in E.
  now apply tree_node_id_inj.
Qed.

Lemma tree_sequence_some {A B : Type} (g : A -> option B) (l : list A) :
  (forall a, In a l -> exists b, g a = Some b) ->
  exists bs, sequence (map g l) = Some bs.
Proof.
  induction l as [|a l IH]; intros H; simpl.
  - now eexists.
  - destruct (H a (or_introl eq_refl)) as [b ->].
    destruct IH as [bs ->]; [intros; apply H; now right|].
    now eexists.
Qed.

Lemma tree_childIds_later (ns : list node) (i : nat) (c : string) :
  ordered ns -> In c (childIds ns ("node" ++ Js.ofNat i)) ->
  exists k, (i < k < List.length ns)%nat /\ c = "node" ++ Js.ofNat k.
Proof.
  intros O. unfold childIds.
  destruct (inNodeMap ns _); [|contradiction].
  rewrite in_map_iff. intros [n [<- Hn]].
  apply filter_In in Hn. destruct Hn as [Hin Hp].
  apply andb_prop in Hp. destruct Hp as [T E].
  apply String.eqb_eq in E.
  apply (truthy_orElse _ EmptyString) in T. rewrite E in T.
  apply In_nth_error in Hin. destruct Hin as [k Hk].
  destruct (O k n Hk) as [Hid Hpar].
  destruct (Hpar _ T) as [j [Hj Ej]]. apply tree_node_id_inj in Ej. subst j.
  exists k. split; [|assumption]. split; [assumption|].
  now apply MindFacts.mind_nth_error_Some_lt in Hk.
Qed.

(** With parents before children, unfolding from node [i] needs at most as
    many levels as there are nodes from [i] on. *)
Lemma tree_unfold_some (ns : list node) (fuel i : nat) :
  ordered ns -> (i < List.length ns)%nat -> (List.length ns - i <= fuel)%nat ->
  exists t, unfold ns fuel ("node" ++ Js.ofNat i) = Some t.
Proof.
  intros O. revert i. induction fuel as [|f IH]; intros i Hi Hf; [lia|].
  cbn [unfold].
  destruct (tree_sequence_some (unfold ns f) (childIds ns ("node" ++ Js.ofNat i)))
    as [ks ->]; [|now eexists].
  intros c Hc. destruct (tree_childIds_later ns i c O Hc) as [k [Hk ->]].
  apply IH; lia.
Qed.

Lemma tree_rootId_in (ns : list node) (r : string) :
  rootId ns = Some r -> exists n, In n ns /\ id n = r.
Proof.
  unfold rootId.
  assert (G : forall acc,
             fold_left (fun r n => if truthy (parentId n) then r
                                   else Some (id n)) ns acc = Some r ->
             acc = Some r \/ exists n, In n ns /\ id n = r).
  { induction ns as [|n ns IH]; intros acc; simpl; [now left|].
    intros H. apply IH in H. destruct H as [H|[m [Hm E]]].
    - destruct (truthy (parentId n)); [now left|].
      right. exists n. split; [now left | congruence].
    - right. exists m. split; [now right | assumption]. }
  intros H. apply G in H. destruct H as [H|H]; [discriminate | assumption].
Qed.

Lemma tree_nodeCells_ids (positions : JsMap.t npos) (cellId : nat)
      (ns : list node) :
  Xml.vertexIds (nodeCells positions cellId ns)
  = map id (filter (fun n => JsMap.has (id n) positions) ns).
Proof.
  revert cellId. induction ns as [|n ns IH]; intros cellId; [reflexivity|].
  cbn [nodeCells filter].
  assert (Hh : JsMap.has (id n) positions
               = match JsMap.get (id n) positions with
                 | Some _ => true | None => false end) by reflexivity.
  rewrite Hh.
  destruct (JsMap.get (id n) positions) as [pos|]; [|apply IH].
  set (connected := truthy (parentId n) && _).
  change (?c :: ?a ++ ?b)%list with ([c] ++ a ++ b)%list.
  rewrite !vertexIds_app, IH.
  destruct connected; reflexivity.
Qed.

(** Dropping elements keeps the keys of the others distinct. *)
Lemma tree_kept_ids_distinct (keep : node -> bool) (ns : list node) :
  NoDup (map id ns) -> NoDup (map id (filter keep ns)).
Proof.
  induction ns as [|n ns IH]; cbn [map filter]; intros D; [exact D|].
  apply NoDup_cons_iff in D. destruct D as [Hn D].
  destruct (keep n); [|exact (IH D)].
  cbn [map]. apply NoDup_cons; [|exact (IH D)].
  contradict Hn. apply in_map_iff in Hn. destruct Hn as [m [E Hm]].
  apply filter_In in Hm. apply in_map_iff. exists m. tauto.
Qed.

(** The generator returns unless the call stack is too shallow for the
    tree, which has fewer levels than the model has nodes. *)
Lemma tree_generate_ok (e : Engine.t) (clk : Xml.clock) (p : parsed) :
  ordered (nodes p) ->
  match generateMindmapXML e clk p with
  | Some doc => NoDup (Xml.vertexIds (Xml.cells doc))
  | None => (Engine.layoutFrames e < List.length (nodes p))%nat
  end.
Proof.
  intros O. unfold generateMindmapXML.
  destruct (root p); [|constructor].
  assert (G : forall writes,
             NoDup (Xml.vertexIds
                      (nodeCells (nodePositions writes) 2 (nodes p)))).
  { intros writes. rewrite tree_nodeCells_ids.
    apply tree_kept_ids_distinct. now apply tree_ordered_ids. }
  destruct (rootId (nodes p)) as [r|] eqn:R; [|apply G].
  destruct (tree_rootId_in _ _ R) as [n [Hn <-]].
  apply In_nth_error in Hn. destruct Hn as [i Hi].
  rewrite (proj1 (O i n Hi)).
  pose proof (MindFacts.mind_nth_error_Some_lt _ _ _ Hi) as Li.
  destruct (unfold (nodes p) (Engine.layoutFrames e) ("node" ++ Js.ofNat i))
    as [t|] eqn:U; cbn [option_map]; [apply G|].
  destruct (Nat.lt_ge_cases (Engine.layoutFrames e) (List.length (nodes p)))
    as [L|L]; [assumption|]. exfalso.
  destruct (tree_unfold_some (nodes p) (Engine.layoutFrames e) i O Li)
    as [t U']; [lia | congruence].
Qed.

Lemma tree_generate_some (e : Engine.t) (clk : Xml.clock) (p : parsed) :
  ordered (nodes p) ->
  (List.length (nodes p) <= Engine.layoutFrames e)%nat ->
  exists doc, generateMindmapXML e clk p = Some doc.
Proof.
  intros O L. pose proof (tree_generate_ok e clk p O) as H.
  destruct (generateMindmapXML e clk p) as [doc|]; [now exists doc | lia].
Qed.

End MindGenFacts.

(** ** ER attribute rows *)

Module ERIds.
Import ER ERGen.

Lemma erid_indexedFrom_fst_lt {A : Type} (i : nat) (l : list A) (j : nat) (a : A) :
  In (j, a) (Xml.indexedFrom i l) -> (i <= j)%nat.
Proof.
  revert i. induction l as [|x l IH]; intros i; simpl; [contradiction|].
  intros [[= <- _]|H]; [lia|]. apply IH in H. lia.
Qed.

Lemma erid_attr_ids_nodup (n : string) (i : nat) (l : list attribute) :
  NoDup (map Xml.cid (map (attrCell n) (Xml.indexedFrom i l))).
Proof.
  revert i. induction l as [|a l IH]; intros i; simpl; constructor.
  - rewrite map_map, in_map_iff. intros [[j b] [E H]].
    apply erid_indexedFrom_fst_lt in H. simpl in E.
    apply attr_id_inj in E. lia.
  - apply IH.
Qed.

Lemma erid_attr_ids_name (ie : nat * entity) (c : string) :
  In c (map Xml.cid (attrCells ie)) ->
  exists j, c = name (snd ie) ++ "_attr" ++ Js.ofNat j.
Proof.
  unfold attrCells. rewrite map_map, in_map_iff.
  intros [[j a] [<- _]]. now exists j.
Qed.

Lemma erid_attr_rows_nodup (i : nat) (es : list entity) :
  NoDup (map name es) ->
  NoDup (map Xml.cid (flat_map attrCells (Xml.indexedFrom i es))).
Proof.
  revert i. induction es as [|e es IH]; intros i D; simpl; [constructor|].
  inversion D as [|? ? Hn Hd]; subst.
  rewrite map_app. apply NoDup_app.
  - apply erid_attr_ids_nodup.
  - now apply IH.
  - intros c Hc Hc'. apply erid_attr_ids_name in Hc. destruct Hc as [j ->].
    apply in_map_iff in Hc'. destruct Hc' as [x [Ex Hx]].
    apply in_flat_map in Hx. destruct Hx as [[k e'] [Hk Hx]].
    assert (Hc : In (Xml.cid x) (map Xml.cid (attrCells (k, e')))).
    { now apply in_map. }
    apply erid_attr_ids_name in Hc. destruct Hc as [j' Ej]. cbn [snd] in *.
    rewrite Ex in Ej. apply attr_id_inj in Ej. destruct Ej as [En _].
    apply Hn. rewrite En. apply in_map.
    apply (in_map snd) in Hk. now rewrite indexedFrom_snd in Hk.
Qed.

End ERIds.

(** ** Generated commit ids *)

Module GitIds.
Import Git.

(** The line is a [commit] with an [id:] of its own. *)
Definition suppliesId (line : string) : bool :=
  let trimmed := Js.trim line in
  if String.eqb trimmed "gitGraph" || Js.startsWith "gitGraph" trimmed
     || String.eqb trimmed EmptyString
  then false
  else match Re.exec commitRe trimmed with
       | Some cs => truthy (Re.cap 1 cs)
       | None => false
       end.

(** The id was made from a value of the counter below [n]. *)
Definition generated (n : nat) (c : commit) : Prop :=
  exists k, (k < n)%nat
            /\ (id c = "c" ++ Js.ofNat k \/ id c = "merge_" ++ Js.ofNat k).

Definition inv (st : state) : Prop :=
  Forall (generated (commitId st)) (st_commits st)
  /\ NoDup (map id (st_commits st)).

Lemma gitid_generated_mono (n m : nat) (c : commit) :
  (n <= m)%nat -> generated n c -> generated m c.
Proof. intros L [k [Hk H]]. exists k. split; [lia | assumption]. Qed.

Lemma gitid_generated_fresh (n : nat) (cs : list commit) (c : commit) :
  Forall (generated n) cs ->
  id c = "c" ++ Js.ofNat n \/ id c = "merge_" ++ Js.ofNat n ->
  ~ In (id c) (map id cs).
Proof.
  intros F Hc Hin. apply in_map_iff in Hin. destruct Hin as [x [E Hx]].
  rewrite Forall_forall in F. destruct (F x Hx) as [k [Hk Hxid]].
  rewrite <- E in Hc.
  destruct Hc as [Hc|Hc]; destruct Hxid as [Hx'|Hx']; rewrite Hx' in Hc.
  - apply append_inj_l, ofNat_inj in Hc. lia.
  - discriminate Hc.
  - discriminate Hc.
  - apply append_inj_l, ofNat_inj in Hc. lia.
Qed.

Lemma gitid_record_inv (st st' : state) (c : commit) :
  inv st ->
  id c = "c" ++ Js.ofNat (commitId st)
  \/ id c = "merge_" ++ Js.ofNat (commitId st) ->
  record st c (S (commitId st)) = Ok st' -> inv st'.
Proof.
  intros [F D] Hc. unfold record.
  destruct (JsMap.get (currentBranch st) (st_branches st)); [|discriminate].
  intros [= <-]. split; cbn [st_commits commitId].
  - apply Forall_app. split.
    + eapply Forall_impl; [|exact F]. intros x. apply gitid_generated_mono. lia.
    + repeat constructor. exists (commitId st). split; [lia | assumption].
  - rewrite map_app. apply NoDup_app; [assumption | repeat constructor; intros [] |].
    intros x Hx [<-|[]]. revert Hx. now apply (gitid_generated_fresh (commitId st)).
Qed.

Lemma gitid_step_inv (st st' : state) (line : string) :
  inv st -> suppliesId line = false -> step st line = Ok st' -> inv st'.
Proof.
  intros I. unfold step, suppliesId.
  destruct (String.eqb (Js.trim line) "gitGraph"
            || Js.startsWith "gitGraph" (Js.trim line)
            || String.eqb (Js.trim line) EmptyString).
  { now intros _ [= <-]. }
  destruct (Re.exec commitRe (Js.trim line)) as [cs|].
  { intros ->. apply gitid_record_inv; [assumption | now left]. }
  intros _.
  destruct (Re.exec branchRe (Js.trim line)); [now intros [= <-]|].
  destruct (Re.exec checkoutRe (Js.trim line)); [now intros [= <-]|].
  destruct (Re.exec mergeRe (Js.trim line)); [|now intros [= <-]].
  apply gitid_record_inv; [assumption | now right].
Qed.

Lemma gitid_foldM_inv (lines : list string) (st st' : state) :
  inv st -> (forall l, In l lines -> suppliesId l = false) ->
  foldM step lines st = Ok st' -> inv st'.
Proof.
  revert st. induction lines as [|l lines IH]; intros st I H; simpl.
  - now intros [= <-].
  - destruct (step st l) as [st1|] eqn:E; [|discriminate]. simpl.
    apply IH.
    + apply (gitid_step_inv st st1 l I); [apply H; now left | assumption].
    + intros l' Hl'. apply H. now right.
Qed.

Lemma gitid_parse_ids (code : string) (p : parsed) :
  (forall l, In l (Js.splitLines (Js.trim code)) -> suppliesId l = false) ->
  parseGitGraph code = Ok p -> NoDup (map id (commits p)).
Proof.
  intros H. unfold parseGitGraph.
  destruct (foldM step _ init) as [st|] eqn:F; [|discriminate].
  simpl. intros [= <-]. cbn [commits].
  refine (proj2 (gitid_foldM_inv _ init st _ H F)). split; constructor.
Qed.

Lemma gitid_step_keys (st st' : state) (line : string) :
  NoDup (JsMap.keys (st_branches st)) -> step st line = Ok st' ->
  NoDup (JsMap.keys (st_branches st')).
Proof.
  intros D. unfold step.
  assert (R : forall c n, record st c n = Ok st' ->
                          NoDup (JsMap.keys (st_branches st'))).
  { intros c n. unfold record.
    destruct (JsMap.get (currentBranch st) (st_branches st)); [|discriminate].
    intros [= <-]. now apply NoDup_keys_set. }
  destruct (String.eqb (Js.trim line) "gitGraph"
            || Js.startsWith "gitGraph" (Js.trim line)
            || String.eqb (Js.trim line) EmptyString).
  { now intros [= <-]. }
  destruct (Re.exec commitRe (Js.trim line)); [apply R|].
  destruct (Re.exec branchRe (Js.trim line)).
  { intros [= <-]. now apply NoDup_keys_set. }
  destruct (Re.exec checkoutRe (Js.trim line)); [now intros [= <-]|].
  destruct (Re.exec mergeRe (Js.trim line)); [apply R | now intros [= <-]].
Qed.

Lemma gitid_foldM_keys (lines : list string) (st st' : state) :
  NoDup (JsMap.keys (st_branches st)) -> foldM step lines st = Ok st' ->
  NoDup (JsMap.keys (st_branches st')).
Proof.
  revert st. induction lines as [|l lines IH]; intros st D; simpl.
  - now intros [= <-].
  - destruct (step st l) as [st1|] eqn:E; [|discriminate]. simpl.
    apply IH. now apply (gitid_step_keys st st1 l).
Qed.

(** The ids of the vertex cells written for one commit: the commit cell
    and, when the commit has a tag, its tag label. *)
Definition commitVertexIds (c : commit) : list string :=
  id c :: (if truthy (tag c) then ["tag_" ++ id c] else []).

Section GitGenerator.
Variable inherited : string -> option string.

Lemma gitid_commitLoop_ids (bs : list branchRec)
      (positions : JsMap.t GitGen.cpos) (cs : list commit) :
  forall (prev : option commit) (cellId : nat),
  (forall c, In c cs -> In (id c) (JsMap.keys positions)) ->
  exists out,
    GitGen.commitLoop inherited bs positions prev cellId cs = Ok out
    /\ Xml.vertexIds out = flat_map commitVertexIds cs.
Proof.
  induction cs as [|c cs IH]; intros prev cellId H; simpl.
  - now exists [].
  - assert (Hc : In (id c) (JsMap.keys positions)) by (apply H; now left).
    apply get_In in Hc. unfold GitGen.commitCells.
    destruct (JsMap.get (id c) positions) as [pos|]; [|congruence].
    cbn [bind snd fst].
    match goal with
    | |- context [GitGen.commitLoop _ _ _ (Some c) ?n cs] =>
        destruct (IH (Some c) n) as [rest [E V]]
    end.
    { intros c' Hc'. apply H. now right. }
    rewrite E. cbn [bind]. eexists. split; [reflexivity|].
    rewrite !vertexIds_app, V. unfold commitVertexIds.
    replace (Xml.vertexIds
               match prev with
               | Some prevCommit =>
                   if String.eqb (branch prevCommit) (branch c)
                      || String.eqb (ctype c) "MERGE"
                   then _ else []
               | None => []
               end) with (@nil string).
    2:{ destruct prev as [q|]; [|reflexivity].
        now destruct (String.eqb (branch q) (branch c)
                      || String.eqb (ctype c) "MERGE"). }
    destruct (truthy (tag c)); reflexivity.
Qed.

End GitGenerator.
(** The first character of an id tells the kind of its cell. *)
Definition initial (s : string) : option ascii :=
  match s with
  | EmptyString => None
  | String c _ => Some c
  end.

Lemma gitid_generated_initial (n : nat) (c : commit) :
  generated n c -> initial (id c) = Some "c"%char \/ initial (id c) = Some "m"%char.
Proof. intros [k [_ [E|E]]]; rewrite E; [now left | now right]. Qed.

Lemma gitid_commit_ids_distinct (n : nat) (cs : list commit) :
  Forall (generated n) cs -> NoDup (map id cs) ->
  NoDup (flat_map commitVertexIds cs)
  /\ forall x, In x (flat_map commitVertexIds cs) ->
               exists c, In c cs /\ (x = id c \/ x = "tag_" ++ id c).
Proof.
  induction 1 as [|c cs G F IH]; simpl; intros D.
  - split; [constructor | contradiction].
  - inversion D as [|? ? Nc Dcs]; subst.
    destruct (IH Dcs) as [Drest Hrest].
    assert (Hall : forall x, In x (commitVertexIds c ++ flat_map commitVertexIds cs) ->
              exists c', (c = c' \/ In c' cs) /\ (x = id c' \/ x = "tag_" ++ id c')).
    { intros x Hx. apply in_app_or in Hx. destruct Hx as [Hx|Hx].
      - exists c. split; [now left|]. unfold commitVertexIds in Hx.
        destruct Hx as [<-|Hx]; [now left|].
        destruct (truthy (tag c)); [|contradiction].
        destruct Hx as [<-|[]]. now right.
      - destruct (Hrest x Hx) as [c' [Hc' Hx']]. exists c'. split; [now right | assumption]. }
    split; [|exact Hall].
    assert (Hid : ~ In (id c) (flat_map commitVertexIds cs)).
    { intros Hx. destruct (Hrest _ Hx) as [c' [Hc' [E|E]]].
      - apply Nc. rewrite E. now apply in_map.
      - apply gitid_generated_initial in G. rewrite E in G.
        destruct G as [G|G]; discriminate G. }
    assert (Htag : ~ In ("tag_" ++ id c) (flat_map commitVertexIds cs)).
    { intros Hx. destruct (Hrest _ Hx) as [c' [Hc' [E|E]]].
      - rewrite Forall_forall in F. apply F, gitid_generated_initial in Hc'.
        rewrite <- E in Hc'. destruct Hc' as [Hc'|Hc']; discriminate Hc'.
      - apply append_inj_l in E. apply Nc. rewrite E. now apply in_map. }
    unfold commitVertexIds at 1. cbn [app].
    constructor.
    + intros Hx. apply in_app_or in Hx. destruct Hx as [Hx|Hx]; [|now apply Hid].
      destruct (truthy (tag c)); [|contradiction].
      destruct Hx as [E|[]]. apply gitid_generated_initial in G.
      rewrite <- E in G. destruct G as [G|G]; discriminate G.
    + destruct (truthy (tag c)); [|assumption].
      cbn [app]. constructor; assumption.
Qed.

Lemma gitid_branch_labels_distinct (names : list string) :
  NoDup names -> NoDup (map (append "branch_") names).
Proof.
  induction 1 as [|a l N D IH]; simpl; constructor; [|assumption].
  intros H. apply in_map_iff in H. destruct H as [b [E Hb]].
  apply (append_inj_l "branch_") in E. now subst b.
Qed.

Lemma gitid_generate_ids (inherited : string -> option string)
      (clk : Xml.clock) (code : string) (p : parsed) :
  (forall l, In l (Js.splitLines (Js.trim code)) -> suppliesId l = false) ->
  parseGitGraph code = Ok p ->
  exists doc,
    GitGen.generateGitGraphXML inherited clk p = Ok doc
    /\ NoDup (Xml.vertexIds (Xml.cells doc)).
Proof.
  intros H. unfold parseGitGraph.
  destruct (foldM step _ init) as [st|] eqn:F; [|discriminate].
  simpl. intros [= <-].
  assert (I : inv st).
  { refine (gitid_foldM_inv _ init st _ H F). split; constructor. }
  destruct I as [Gen D].
  destruct (GitFacts.git_foldM_ok _ _ _ GitFacts.git_init_ok F) as [[K _] _].
  assert (DK : NoDup (JsMap.keys (st_branches st))).
  { refine (gitid_foldM_keys _ init st _ F). repeat constructor. intros []. }
  unfold GitGen.generateGitGraphXML. cbn [commits branches].
  match goal with
  | |- context [GitGen.commitLoop _ ?bs ?pos None 2 _] =>
      destruct (gitid_commitLoop_ids inherited bs pos (st_commits st) None 2)
        as [out [E V]]
  end.
  { intros c Hc. unfold GitGen.commitPositions.
    apply (fold_set_keys (fun ic : nat * commit => id (snd ic))).
    right. unfold Xml.indexed.
    rewrite <- (map_map snd id), indexedFrom_snd. now apply in_map. }
  rewrite E. cbn [bind]. eexists. split; [reflexivity|].
  cbn [Xml.cells Xml.wrapInDrawioXML]. rewrite vertexIds_app, V.
  destruct (gitid_commit_ids_distinct _ _ Gen D) as [Dc Hc].
  assert (VB : Xml.vertexIds
                 (map (GitGen.branchLabel inherited
                         (GitGen.branchPositions (JsMap.values (st_branches st))))
                      (JsMap.values (st_branches st)))
               = map (append "branch_") (JsMap.keys (st_branches st))).
  { rewrite <- (keyed_values name _ K), map_map.
    rewrite vertexIds_vertices.
    - rewrite map_map. reflexivity.
    - apply Forall_forall. intros x Hx. apply in_map_iff in Hx.
      destruct Hx as [b [<- _]]. reflexivity. }
  rewrite VB. apply NoDup_app.
  - now apply gitid_branch_labels_distinct.
  - assumption.
  - intros x Hb Hx. apply in_map_iff in Hb. destruct Hb as [k [<- _]].
    destruct (Hc _ Hx) as [c [Hin [E'|E']]].
    + rewrite Forall_forall in Gen. apply Gen, gitid_generated_initial in Hin.
      rewrite <- E' in Hin. destruct Hin as [Hin|Hin]; discriminate Hin.
    + discriminate E'.
Qed.

End GitIds.

(** ** Distinct ids *)

Definition shadowedAttribute : string :=
  "erDiagram" ++ nl ++ "A {" ++ nl ++ "int x" ++ nl ++ "}" ++ nl
  ++ "A_attr0 {" ++ nl ++ "}".

Definition repeatedCommitId : string :=
  "gitGraph" ++ nl ++ "commit id: " ++ String Js.DQ "x" ++ String Js.DQ EmptyString
  ++ nl ++ "commit id: " ++ String Js.DQ "x" ++ String Js.DQ EmptyString.

Definition threeCommits : string :=
  "gitGraph" ++ nl ++ "commit" ++ nl ++ "branch dev" ++ nl ++ "commit"
  ++ nl ++ "checkout main" ++ nl ++ "merge dev".

(** ** The radial layout *)

Module Radial.
Import MindGen.
Local Open Scope R_scope.

(** The number of levels below the root of a tree. *)
Fixpoint depth (t : tree) : nat :=
  match t with
  | Node _ kids => fold_right (fun k m => Nat.max (S (depth k)) m) 0%nat kids
  end.

(** The box of a node lies inside the canvas. *)
Definition inCanvas (p : npos) : Prop :=
  0 <= x p /\ x p + width p <= CANVAS_WIDTH
  /\ 0 <= y p /\ y p + height p <= CANVAS_HEIGHT.

(** The radii and the box sizes are integers. *)
Definition radiusZ (l : nat) : Z :=
  match l with
  | 1%nat => 350%Z
  | 2%nat => 280%Z
  | 3%nat => 220%Z
  | 4%nat => 180%Z
  | _ => 150%Z
  end.

Definition sizeZ (l : nat) : Z * Z :=
  match l with
  | 0%nat => (180, 90)%Z
  | 1%nat => (160, 70)%Z
  | 2%nat => (140, 55)%Z
  | _ => (120, 45)%Z
  end.

(** The sum of the radii of the levels [l], .., [l + d]. *)
Fixpoint reach (l d : nat) : Z :=
  match d with
  | O => radiusZ l
  | S d' => (radiusZ l + reach (S l) d')%Z
  end.

(** The centre is within [D] of (1200, 900) on both axes, the corner is
    within [D] of where the centre puts it, and the box is one of the
    four sizes. *)
Definition near (D : Z) (p : npos) : Prop :=
  1200 - IZR D <= centerX p <= 1200 + IZR D
  /\ 900 - IZR D <= centerY p <= 900 + IZR D
  /\ 1200 - IZR D - width p / 2 <= x p <= 1200 + IZR D - width p / 2
  /\ 900 - IZR D - height p / 2 <= y p <= 900 + IZR D - height p / 2
  /\ 0 < width p <= 180 /\ 0 < height p <= 90.

Lemma radial_radiusOf (l : nat) : radiusOf l = IZR (radiusZ l).
Proof. destruct l as [|[|[|[|[|l]]]]]; reflexivity. Qed.

Lemma radial_sizeOf (l : nat) :
  sizeOf l = (IZR (fst (sizeZ l)), IZR (snd (sizeZ l))).
Proof. destruct l as [|[|[|l]]]; reflexivity. Qed.

Lemma radial_radiusZ_bounds (l : nat) : (150 <= radiusZ l <= 350)%Z.
Proof. destruct l as [|[|[|[|[|l]]]]]; simpl; lia. Qed.

Lemma radial_sizeZ_bounds (l : nat) :
  (120 <= fst (sizeZ l) <= 180 /\ 45 <= snd (sizeZ l) <= 90)%Z.
Proof. destruct l as [|[|[|l]]]; simpl; lia. Qed.

Lemma radial_reach_bounds (l d : nat) :
  (0 < reach l d <= 350 * Z.of_nat (S d))%Z.
Proof.
  revert l. induction d as [|d IH]; intros l; cbn [reach].
  - pose proof (radial_radiusZ_bounds l). lia.
  - pose proof (radial_radiusZ_bounds l). pose proof (IH (S l)). lia.
Qed.

Lemma radial_reach_mono (l d d' : nat) :
  (d <= d')%nat -> (reach l d <= reach l d')%Z.
Proof.
  revert l d'. induction d as [|d IH]; intros l d' L.
  - destruct d' as [|d']; cbn [reach]; [lia|].
    pose proof (radial_reach_bounds (S l) d'). lia.
  - destruct d' as [|d']; [lia|]. cbn [reach].
    pose proof (IH (S l) d' ltac:(lia)). lia.
Qed.

Lemma radial_near_mono (D D' : Z) (p : npos) :
  (D <= D')%Z -> near D p -> near D' p.
Proof.
  unfold near. intros L N. apply IZR_le in L. repeat split; lra.
Qed.

Lemma radial_depth_child (nid : string) (kids : list tree) (k : tree) :
  In k kids -> (S (depth k) <= depth (Node nid kids))%nat.
Proof.
  cbn [depth]. induction kids as [|c kids IH]; cbn [fold_right In];
    [contradiction|].
  intros [->|H]; [apply Nat.le_max_l|].
  apply IH in H. etransitivity; [exact H | apply Nat.le_max_r].
Qed.

Lemma radial_eachChild_Forall (P : string * npos -> Prop)
      (rec : tree -> R -> list (string * npos)) (angleOf : nat -> R)
      (cs : list tree) (index : nat) :
  (forall c a, In c cs -> Forall P (rec c a)) ->
  Forall P (eachChild rec angleOf cs index).
Proof.
  revert index. induction cs as [|c cs IH]; intros index H; simpl.
  - constructor.
  - apply Forall_app. split.
    + apply H. now left.
    + apply IH. intros c' a Hc. apply H. now right.
Qed.

Lemma radial_scaled_bound (c r : R) : -1 <= c <= 1 -> 0 < r -> - r <= c * r <= r.
Proof. intros [H1 H2] Hr. split; nra. Qed.

Lemma radial_near_inCanvas (p : npos) : near 850 p -> inCanvas p.
Proof.
  unfold near, inCanvas, CANVAS_WIDTH, CANVAS_HEIGHT.
  intros N. repeat split; lra.
Qed.

Section WithEngine.
Variable e : Engine.t.
Hypothesis ieee : Engine.ieee e.

(** Rounding does nothing to the half of a small integer, and does not
    cross one. *)
Lemma radial_exact (z : Z) (v : R) :
  v = IZR z / 2 -> (Z.abs z <= 2 ^ 53)%Z -> Engine.rnd e v = v.
Proof. intros -> L. now apply Engine.rnd_half. Qed.

Lemma radial_rnd_le (z : Z) (v : R) :
  v <= IZR z / 2 -> (Z.abs z <= 2 ^ 53)%Z -> Engine.rnd e v <= IZR z / 2.
Proof.
  intros L B. rewrite <- (Engine.rnd_half e ieee z B).
  now apply Engine.rnd_mono.
Qed.

Lemma radial_rnd_ge (z : Z) (v : R) :
  IZR z / 2 <= v -> (Z.abs z <= 2 ^ 53)%Z -> IZR z / 2 <= Engine.rnd e v.
Proof.
  intros L B. rewrite <- (Engine.rnd_half e ieee z B).
  now apply Engine.rnd_mono.
Qed.

(** Rounding keeps a number between two integers that are not large. *)
Lemma radial_rnd_between (lo hi : Z) (v : R) :
  (Z.abs lo <= 2 ^ 52)%Z -> (Z.abs hi <= 2 ^ 52)%Z ->
  IZR lo / 2 <= v <= IZR hi / 2 ->
  IZR lo / 2 <= Engine.rnd e v <= IZR hi / 2.
Proof.
  intros Bl Bh [L U].
  change (2 ^ 52)%Z with 4503599627370496%Z in *.
  split; [apply radial_rnd_ge | apply radial_rnd_le]; try assumption;
    change (2 ^ 53)%Z with 9007199254740992%Z; lia.
Qed.

Lemma radial_centre : CENTER_X e = 1200 /\ CENTER_Y e = 900.
Proof.
  unfold CENTER_X, CENTER_Y, CANVAS_WIDTH, CANVAS_HEIGHT, Engine.div.
  split.
  - rewrite (radial_exact 2400); [lra | reflexivity|].
    change (2 ^ 53)%Z with 9007199254740992%Z. simpl. lia.
  - rewrite (radial_exact 1800); [lra | reflexivity|].
    change (2 ^ 53)%Z with 9007199254740992%Z. simpl. lia.
Qed.

(** The root: centred on (1200, 900), whatever angle and parent are
    passed. *)
Lemma radial_root (angle px py : R) :
  placeOf e angle px py 0
  = {| x := 1110; y := 855; centerX := 1200; centerY := 900;
       width := 180; height := 90 |}.
Proof.
  unfold placeOf. cbn [sizeOf].
  destruct radial_centre as [-> ->].
  unfold Engine.sub, Engine.add, Engine.div.
  assert (B : forall z, (Z.abs z <= 4000)%Z -> (Z.abs z <= 2 ^ 53)%Z).
  { intros z L. change (2 ^ 53)%Z with 9007199254740992%Z. lia. }
  rewrite (radial_exact 180 (180 / 2)) by (try reflexivity; apply B; simpl; lia).
  rewrite (radial_exact 90 (90 / 2)) by (try reflexivity; apply B; simpl; lia).
  rewrite (radial_exact 2220 (1200 - 180 / 2))
    by (try lra; apply B; simpl; lia).
  rewrite (radial_exact 1710 (900 - 90 / 2))
    by (try lra; apply B; simpl; lia).
  rewrite (radial_exact 2400 (1200 - 180 / 2 + 180 / 2))
    by (try lra; apply B; simpl; lia).
  rewrite (radial_exact 1800 (900 - 90 / 2 + 90 / 2))
    by (try lra; apply B; simpl; lia).
  f_equal; lra.
Qed.

(** Below the root: a node hung at level [S l] from a parent within [b]
    of the centre is within [b] plus the radius of its level. *)
Lemma radial_place_near (angle px py : R) (l : nat) (b : Z) :
  (0 <= b <= 2 ^ 40)%Z ->
  1200 - IZR b <= px <= 1200 + IZR b ->
  900 - IZR b <= py <= 900 + IZR b ->
  near (b + radiusZ (S l)) (placeOf e angle px py (S l)).
Proof.
  intros Hb Hx Hy. change (2 ^ 40)%Z with 1099511627776%Z in Hb.
  unfold placeOf. rewrite radial_sizeOf, radial_radiusOf.
  pose proof (radial_radiusZ_bounds (S l)) as Hr.
  pose proof (radial_sizeZ_bounds (S l)) as [Hw Hh].
  set (rz := radiusZ (S l)) in *.
  set (wz := fst (sizeZ (S l))) in *.
  set (hz := snd (sizeZ (S l))) in *.
  assert (Rr : 150 <= IZR rz <= 350).
  { split; apply IZR_le; lia. }
  assert (Rw : 120 <= IZR wz <= 180).
  { split; apply IZR_le; lia. }
  assert (Rh : 45 <= IZR hz <= 90).
  { split; apply IZR_le; lia. }
  assert (Rb : 0 <= IZR b).
  { apply IZR_le; lia. }
  assert (S52 : forall z, (Z.abs z <= 3000000000000)%Z
                          -> (Z.abs z <= 2 ^ 52)%Z).
  { intros z L. change (2 ^ 52)%Z with 4503599627370496%Z. lia. }
  unfold Engine.sub, Engine.add, Engine.mul, Engine.div.
  rewrite (radial_exact wz (IZR wz / 2))
    by (try reflexivity; change (2 ^ 53)%Z with 9007199254740992%Z; lia).
  rewrite (radial_exact hz (IZR hz / 2))
    by (try reflexivity; change (2 ^ 53)%Z with 9007199254740992%Z; lia).
  assert (Pc : - IZR rz <= Engine.mcos e angle * IZR rz <= IZR rz).
  { apply radial_scaled_bound; [apply (Engine.cos_range e ieee) | lra]. }
  assert (Ps : - IZR rz <= Engine.msin e angle * IZR rz <= IZR rz).
  { apply radial_scaled_bound; [apply (Engine.sin_range e ieee) | lra]. }
  pose proof (radial_rnd_between (- 2 * rz) (2 * rz)
                (Engine.mcos e angle * IZR rz)
                ltac:(apply S52; lia) ltac:(apply S52; lia)) as Mc.
  pose proof (radial_rnd_between (- 2 * rz) (2 * rz)
                (Engine.msin e angle * IZR rz)
                ltac:(apply S52; lia) ltac:(apply S52; lia)) as Ms.
  rewrite !mult_IZR in Mc, Ms.
  specialize (Mc ltac:(lra)). specialize (Ms ltac:(lra)).
  set (mc := Engine.rnd e (Engine.mcos e angle * IZR rz)) in *.
  set (ms := Engine.rnd e (Engine.msin e angle * IZR rz)) in *.
  pose proof (radial_rnd_between (2 * (1200 - b - rz)) (2 * (1200 + b + rz))
                (px + mc) ltac:(apply S52; lia) ltac:(apply S52; lia)) as Ax.
  pose proof (radial_rnd_between (2 * (900 - b - rz)) (2 * (900 + b + rz))
                (py + ms) ltac:(apply S52; lia) ltac:(apply S52; lia)) as Ay.
  rewrite !mult_IZR, !minus_IZR, !plus_IZR in Ax, Ay.
  specialize (Ax ltac:(lra)). specialize (Ay ltac:(lra)).
  set (ax := Engine.rnd e (px + mc)) in *.
  set (ay := Engine.rnd e (py + ms)) in *.
  pose proof (radial_rnd_between (2 * (1200 - b - rz) - wz)
                (2 * (1200 + b + rz) - wz) (ax - IZR wz / 2)
                ltac:(apply S52; lia) ltac:(apply S52; lia)) as Xx.
  pose proof (radial_rnd_between (2 * (900 - b - rz) - hz)
                (2 * (900 + b + rz) - hz) (ay - IZR hz / 2)
                ltac:(apply S52; lia) ltac:(apply S52; lia)) as Xy.
  rewrite !minus_IZR, !mult_IZR, !minus_IZR, !plus_IZR in Xx, Xy.
  specialize (Xx ltac:(lra)). specialize (Xy ltac:(lra)).
  set (x0 := Engine.rnd e (ax - IZR wz / 2)) in *.
  set (y0 := Engine.rnd e (ay - IZR hz / 2)) in *.
  pose proof (radial_rnd_between (2 * (1200 - b - rz)) (2 * (1200 + b + rz))
                (x0 + IZR wz / 2)
                ltac:(apply S52; lia) ltac:(apply S52; lia)) as Cx.
  pose proof (radial_rnd_between (2 * (900 - b - rz)) (2 * (900 + b + rz))
                (y0 + IZR hz / 2)
                ltac:(apply S52; lia) ltac:(apply S52; lia)) as Cy.
  rewrite !mult_IZR, !minus_IZR, !plus_IZR in Cx, Cy.
  specialize (Cx ltac:(lra)). specialize (Cy ltac:(lra)).
  unfold near. cbn [x y centerX centerY width height].
  rewrite plus_IZR. repeat split; lra.
Qed.

(** A subtree of depth at most [n] hung at level [S l] from a parent
    within [b] of the centre stays within [b] plus the radii of the
    levels it spans. *)
Lemma radial_subtree_near (n : nat) :
  forall (t : tree) (angle px py : R) (l : nat) (b : Z),
    (depth t <= n)%nat ->
    (0 <= b)%Z -> (b + 350 * Z.of_nat (S n) <= 2 ^ 40)%Z ->
    1200 - IZR b <= px <= 1200 + IZR b ->
    900 - IZR b <= py <= 900 + IZR b ->
    Forall (fun w => near (b + reach (S l) n) (snd w))
           (calculateNodePositions e t angle px py (S l)).
Proof.
  induction n as [|n IH]; intros [nid kids] angle px py l b Hd Hb Hm Hx Hy;
    cbn [calculateNodePositions];
    change (2 ^ 40)%Z with 1099511627776%Z in Hm;
    assert (Hb' : (0 <= b <= 2 ^ 40)%Z)
      by (change (2 ^ 40)%Z with 1099511627776%Z; lia);
    pose proof (radial_place_near angle px py l b Hb' Hx Hy) as N.
  - destruct kids as [|k kids];
      [|pose proof (radial_depth_child nid (k :: kids) k (or_introl eq_refl));
        lia].
    constructor; [exact N | constructor].
  - pose proof (radial_radiusZ_bounds (S l)) as Hr.
    pose proof (radial_reach_bounds (S (S l)) n) as Hq.
    constructor.
    + cbn [snd]. revert N. apply radial_near_mono. cbn [reach]. lia.
    + apply radial_eachChild_Forall. intros c a Hc.
      assert (Hdc : (depth c <= n)%nat).
      { apply (radial_depth_child nid) in Hc. lia. }
      destruct N as [Ncx [Ncy _]].
      eapply Forall_impl;
        [|apply (IH c a _ _ (S l) (b + radiusZ (S l))%Z Hdc);
          [lia | change (2 ^ 40)%Z with 1099511627776%Z; lia
           | exact Ncx | exact Ncy]].
      intros wr. apply radial_near_mono. cbn [reach]. lia.
Qed.

(** A node hung along the angle 0 from a parent centred on integers:
    all of its coordinates are exact. *)
Lemma radial_place_zero (cx cy : Z) (l : nat) :
  (Z.abs cx <= 2 ^ 40)%Z -> (Z.abs cy <= 2 ^ 40)%Z ->
  placeOf e 0 (IZR cx) (IZR cy) (S l)
  = {| x := IZR (2 * (cx + radiusZ (S l)) - fst (sizeZ (S l))) / 2;
       y := IZR (2 * cy - snd (sizeZ (S l))) / 2;
       centerX := IZR (cx + radiusZ (S l));
       centerY := IZR cy;
       width := IZR (fst (sizeZ (S l)));
       height := IZR (snd (sizeZ (S l))) |}.
Proof.
  intros Hx Hy. change (2 ^ 40)%Z with 1099511627776%Z in *.
  unfold placeOf. rewrite radial_sizeOf, radial_radiusOf.
  pose proof (radial_radiusZ_bounds (S l)) as Hr.
  pose proof (radial_sizeZ_bounds (S l)) as [Hw Hh].
  set (rz := radiusZ (S l)) in *.
  set (wz := fst (sizeZ (S l))) in *.
  set (hz := snd (sizeZ (S l))) in *.
  rewrite (Engine.cos_zero e ieee), (Engine.sin_zero e ieee).
  unfold Engine.sub, Engine.add, Engine.mul, Engine.div.
  assert (B : forall z, (Z.abs z <= 3000000000000)%Z
                        -> (Z.abs z <= 2 ^ 53)%Z).
  { intros z L. change (2 ^ 53)%Z with 9007199254740992%Z. lia. }
  rewrite (radial_exact wz (IZR wz / 2)) by (try reflexivity; apply B; lia).
  rewrite (radial_exact hz (IZR hz / 2)) by (try reflexivity; apply B; lia).
  rewrite (radial_exact (2 * rz) (1 * IZR rz))
    by (try (rewrite mult_IZR; lra); apply B; lia).
  rewrite (radial_exact 0 (0 * IZR rz)) by (try lra; apply B; lia).
  rewrite (radial_exact (2 * (cx + rz)) (IZR cx + 1 * IZR rz))
    by (try (rewrite mult_IZR, plus_IZR; lra); apply B; lia).
  rewrite (radial_exact (2 * cy) (IZR cy + 0 * IZR rz))
    by (try (rewrite mult_IZR; lra); apply B; lia).
  rewrite (radial_exact (2 * (cx + rz) - wz) (IZR cx + 1 * IZR rz - IZR wz / 2))
    by (try (rewrite minus_IZR, mult_IZR, plus_IZR; lra); apply B; lia).
  rewrite (radial_exact (2 * cy - hz) (IZR cy + 0 * IZR rz - IZR hz / 2))
    by (try (rewrite minus_IZR, mult_IZR; lra); apply B; lia).
  rewrite (radial_exact (2 * (cx + rz))
             (IZR cx + 1 * IZR rz - IZR wz / 2 + IZR wz / 2))
    by (try (rewrite mult_IZR, plus_IZR; lra); apply B; lia).
  rewrite (radial_exact (2 * cy)
             (IZR cy + 0 * IZR rz - IZR hz / 2 + IZR hz / 2))
    by (try (rewrite mult_IZR; lra); apply B; lia).
  f_equal; rewrite ?minus_IZR, ?mult_IZR, ?plus_IZR; lra.
Qed.

End WithEngine.

Lemma radial_exact_ieee (frames : nat) : Engine.ieee (Engine.exact frames).
Proof.
  constructor; cbn [Engine.rnd Engine.mcos Engine.msin Engine.exact].
  - intros a b L. exact L.
  - reflexivity.
  - intros a. apply COS_bound.
  - intros a. apply SIN_bound.
  - exact cos_0.
  - exact sin_0.
Qed.

End Radial.

(** The escaped form of a label with all five metacharacters has none of
    the four that would end an attribute or start a tag. *)
Lemma escapeXML_decode_roundtrip_witness :
  Re.mem "<" (escapeXML ("a<b>&'" ++ String Js.DQ EmptyString)) = false.
Proof.
  apply (proj2 (escapeXML_decode_roundtrip
                  ("a<b>&'" ++ String Js.DQ EmptyString)) "<"%char).
  reflexivity.
Defined.

(** * Further properties *)

(** ** Soundness of the matcher *)

Module ReFacts.
Import Re.

(** The texts an expression matches, captures and position aside. *)
Inductive matches : regex -> string -> Prop :=
| m_eps : matches Eps EmptyString
| m_chr p c : p c = true -> matches (Chr p) (String c EmptyString)
| m_cat r1 r2 v1 v2 :
    matches r1 v1 -> matches r2 v2 -> matches (Cat r1 r2) (v1 ++ v2)
| m_alt_l r1 r2 v : matches r1 v -> matches (Alt r1 r2) v
| m_alt_r r1 r2 v : matches r2 v -> matches (Alt r1 r2) v
| m_star_nil r : matches (Star r) EmptyString
| m_star_cons r v1 v2 :
    matches r v1 -> matches (Star r) v2 -> matches (Star r) (v1 ++ v2)
| m_lazy_nil r : matches (StarLazy r) EmptyString
| m_lazy_cons r v1 v2 :
    matches r v1 -> matches (StarLazy r) v2 -> matches (StarLazy r) (v1 ++ v2)
| m_grp n r v : matches r v -> matches (Grp n r) v
| m_eol : matches Eol EmptyString.

(** The capturing groups of an expression, each with its body. *)
Fixpoint groups (r : regex) : list (nat * regex) :=
  match r with
  | Cat r1 r2 | Alt r1 r2 => groups r1 ++ groups r2
  | Star r1 | StarLazy r1 => groups r1
  | Grp n r1 => (n, r1) :: groups r1
  | _ => []
  end.

(** The groups every match of the expression sets. *)
Fixpoint always (r : regex) : list nat :=
  match r with
  | Cat r1 r2 => always r1 ++ always r2
  | Alt r1 r2 => filter (fun n => existsb (Nat.eqb n) (always r2)) (always r1)
  | Grp n r1 => n :: always r1
  | _ => []
  end.

(** A capture holds a text its group's body matches. *)
Definition captured (r : regex) (nv : nat * string) : Prop :=
  exists body, In (fst nv, body) (groups r) /\ matches body (snd nv).

Lemma captured_mono (r r' : regex) (nv : nat * string) :
  (forall g, In g (groups r) -> In g (groups r')) ->
  captured r nv -> captured r' nv.
Proof. intros H [b [Hb M]]. exists b. split; [now apply H | assumption]. Qed.

Lemma taken_app (v s : string) : taken (v ++ s) s = v.
Proof.
  unfold taken. rewrite length_append.
  replace (String.length v + String.length s - String.length s)%nat
    with (String.length v) by lia.
  induction v as [|c v IH]; simpl.
  - now destruct s.
  - now rewrite IH.
Qed.

(** What a successful run has done when it calls its continuation. *)
Definition ran {A : Type} (r : regex) (s : string) (cs : caps)
           (k : string -> caps -> option A) (a : A) : Prop :=
  exists v s' new,
    s = v ++ s' /\ matches r v /\ k s' (new ++ cs)%list = Some a
    /\ Forall (captured r) new
    /\ forall n, In n (always r) -> In n (map fst new).

Lemma run_sound (r : regex) :
  forall (A : Type) (s : string) (cs : caps)
         (k : string -> caps -> option A) (a : A),
    run r s cs k = Some a -> ran r s cs k a.
Proof.
  induction r as [|p|r1 IH1 r2 IH2|r1 IH1 r2 IH2|r1 IH1|r1 IH1|n r1 IH1|];
    intros A s cs k a; simpl.
  - intros H. exists EmptyString, s, []. repeat split; try constructor; try assumption.
    intros n [].
  - destruct s as [|c t]; [discriminate|].
    destruct (p c) eqn:P; [|discriminate]. intros H.
    exists (String c EmptyString), t, [].
    repeat split; try constructor; try assumption. intros n [].
  - intros H. apply IH1 in H. destruct H as [v1 [s1 [new1 [E1 [M1 [H [C1 S1]]]]]]].
    apply IH2 in H. destruct H as [v2 [s2 [new2 [E2 [M2 [H [C2 S2]]]]]]].
    exists (v1 ++ v2), s2, (new2 ++ new1)%list. split; [|split; [|split; [|split]]].
    + now rewrite E1, E2, append_assoc.
    + now constructor.
    + now rewrite <- List.app_assoc.
    + apply Forall_app. split.
      * eapply Forall_impl; [|exact C2]. intros nv. apply captured_mono.
        intros g Hg. simpl. apply in_or_app. now right.
      * eapply Forall_impl; [|exact C1]. intros nv. apply captured_mono.
        intros g Hg. simpl. apply in_or_app. now left.
    + intros n Hn. rewrite map_app. apply in_or_app.
      apply in_app_or in Hn. destruct Hn as [Hn|Hn]; [right; now apply S1 | left; now apply S2].
  - destruct (run r1 s cs k) as [a'|] eqn:R1.
    + intros [= ->]. apply IH1 in R1.
      destruct R1 as [v [s' [new [E [M [H [C S]]]]]]].
      exists v, s', new. split; [assumption|]. split; [now apply m_alt_l|].
      split; [assumption|]. split.
      * eapply Forall_impl; [|exact C]. intros nv. apply captured_mono.
        intros g Hg. simpl. apply in_or_app. now left.
      * intros n Hn. apply filter_In in Hn. apply S. tauto.
    + intros R2. apply IH2 in R2.
      destruct R2 as [v [s' [new [E [M [H [C S]]]]]]].
      exists v, s', new. split; [assumption|]. split; [now apply m_alt_r|].
      split; [assumption|]. split.
      * eapply Forall_impl; [|exact C]. intros nv. apply captured_mono.
        intros g Hg. simpl. apply in_or_app. now right.
      * intros n Hn. apply filter_In in Hn. destruct Hn as [_ Hn].
        apply existsb_exists in Hn. destruct Hn as [m [Hm E']].
        apply Nat.eqb_eq in E'. subst m. now apply S.
  - generalize (String.length s) as fuel. intros fuel. revert s cs.
    induction fuel as [|f IHf]; intros s cs.
    + intros H. exists EmptyString, s, [].
      repeat split; try constructor; try assumption. intros n [].
    + destruct (run r1 s cs _) as [a'|] eqn:R1.
      * intros [= ->]. apply IH1 in R1.
        destruct R1 as [v1 [s1 [new1 [E1 [M1 [H [C1 _]]]]]]].
        destruct (shorter s1 s); [|discriminate].
        apply IHf in H. destruct H as [v2 [s2 [new2 [E2 [M2 [H [C2 _]]]]]]].
        exists (v1 ++ v2), s2, (new2 ++ new1)%list. split; [|split; [|split; [|split]]].
        -- now rewrite E1, E2, append_assoc.
        -- now constructor.
        -- now rewrite <- List.app_assoc.
        -- apply Forall_app. split; [assumption|].
           eapply Forall_impl; [|exact C1]. intros nv. now apply captured_mono.
        -- intros n [].
      * intros H. exists EmptyString, s, [].
        repeat split; try constructor; try assumption. intros n [].
  - generalize (String.length s) as fuel. intros fuel. revert s cs.
    induction fuel as [|f IHf]; intros s cs.
    + intros H. exists EmptyString, s, [].
      repeat split; try constructor; try assumption. intros n [].
    + destruct (k s cs) as [a'|] eqn:K.
      * intros [= ->]. exists EmptyString, s, [].
        repeat split; try constructor; try assumption. intros n [].
      * intros R1. apply IH1 in R1.
        destruct R1 as [v1 [s1 [new1 [E1 [M1 [H [C1 _]]]]]]].
        destruct (shorter s1 s); [|discriminate].
        apply IHf in H. destruct H as [v2 [s2 [new2 [E2 [M2 [H [C2 _]]]]]]].
        exists (v1 ++ v2), s2, (new2 ++ new1)%list. split; [|split; [|split; [|split]]].
        -- now rewrite E1, E2, append_assoc.
        -- now constructor.
        -- now rewrite <- List.app_assoc.
        -- apply Forall_app. split; [assumption|].
           eapply Forall_impl; [|exact C1]. intros nv. now apply captured_mono.
        -- intros n [].
  - intros H. apply IH1 in H.
    destruct H as [v [s1 [new [E [M [H [C S]]]]]]].
    exists v, s1, ((n, v) :: new). split; [assumption|].
    split; [now constructor|]. split.
    + simpl. rewrite E, taken_app in H. exact H.
    + split.
      * constructor.
        -- exists r1. split; [now left | assumption].
        -- eapply Forall_impl; [|exact C]. intros nv. apply captured_mono.
           intros g Hg. simpl. now right.
      * intros m [<-|Hm]; [now left | right; now apply S].
  - destruct s; [|discriminate]. intros H.
    exists EmptyString, EmptyString, [].
    repeat split; try constructor; try assumption. intros n [].
Qed.

Lemma cap_In (n : nat) (cs : caps) (v : string) :
  cap n cs = Some v -> In (n, v) cs.
Proof.
  induction cs as [|[m w] cs IH]; simpl; [discriminate|].
  destruct (Nat.eqb_spec m n) as [->|N].
  - intros [= ->]. now left.
  - intros H. right. now apply IH.
Qed.

Lemma cap_set (n : nat) (cs : caps) :
  In n (map fst cs) -> cap n cs <> None.
Proof.
  induction cs as [|[m w] cs IH]; simpl; [contradiction|].
  destruct (Nat.eqb_spec m n) as [->|N]; [discriminate|].
  intros [E|H]; [contradiction | now apply IH].
Qed.

(** A match at index 0 consumes a text the expression matches; each
    capture holds a text its group matches; the groups outside every
    alternation and star are set. *)
Lemma exec_sound (r : regex) (s : string) (cs : caps) :
  exec r s = Some cs ->
  (exists v s', s = v ++ s' /\ matches r v)
  /\ (forall n v, cap n cs = Some v ->
                  exists body, In (n, body) (groups r) /\ matches body v)
  /\ (forall n, In n (always r) -> cap n cs <> None).
Proof.
  unfold exec. intros H. apply run_sound in H.
  destruct H as [v [s' [new [E [M [H [C S]]]]]]].
  injection H as <-. rewrite List.app_nil_r. split; [|split].
  - now exists v, s'.
  - intros n w Hc. apply cap_In in Hc. rewrite Forall_forall in C.
    exact (C _ Hc).
  - intros n Hn. apply cap_set. now apply S.
Qed.

(** The value of a group that is always set. *)
Lemma exec_capd (r : regex) (s : string) (cs : caps) (n : nat) :
  exec r s = Some cs -> In n (always r) ->
  cap n cs = Some (capd n cs)
  /\ exists body, In (n, body) (groups r) /\ matches body (capd n cs).
Proof.
  intros H Hn. destruct (exec_sound r s cs H) as [_ [C S]].
  unfold capd. destruct (cap n cs) as [v|] eqn:E.
  - split; [reflexivity | now apply C].
  - now apply S in Hn.
Qed.

(** Every character of the string satisfies [p]. *)
Fixpoint sall (p : ascii -> bool) (s : string) : bool :=
  match s with
  | EmptyString => true
  | String c t => p c && sall p t
  end.

Lemma sall_app (p : ascii -> bool) (a b : string) :
  sall p (a ++ b) = sall p a && sall p b.
Proof.
  induction a as [|c a IH]; simpl; [reflexivity|].
  now rewrite IH, andb_assoc.
Qed.

Lemma matches_star_chr (p : ascii -> bool) (v : string) :
  matches (Star (Chr p)) v -> sall p v = true.
Proof.
  intros M. remember (Star (Chr p)) as r eqn:E.
  induction M; try discriminate; [reflexivity|].
  injection E as ->. rewrite sall_app, IHM2 by reflexivity.
  inversion M1; subst. simpl. now rewrite H0.
Qed.

Lemma matches_lazy_chr (p : ascii -> bool) (v : string) :
  matches (StarLazy (Chr p)) v -> sall p v = true.
Proof.
  intros M. remember (StarLazy (Chr p)) as r eqn:E.
  induction M; try discriminate; [reflexivity|].
  injection E as ->. rewrite sall_app, IHM2 by reflexivity.
  inversion M1; subst. simpl. now rewrite H0.
Qed.

(** [p+] matches non-empty runs of [p]. *)
Lemma matches_plus_chr (p : ascii -> bool) (v : string) :
  matches (plus (Chr p)) v -> sall p v = true /\ v <> EmptyString.
Proof.
  unfold plus. intros M. inversion M as [| |? ? v1 v2 M1 M2| | | | | | | |]; subst.
  inversion M1; subst. apply matches_star_chr in M2. simpl.
  split; [now rewrite H0, M2 | discriminate].
Qed.

Lemma matches_lit (s v : string) : matches (lit s) v -> v = s.
Proof.
  revert v. induction s as [|c s IH]; intros v M; simpl in M.
  - now inversion M.
  - inversion M as [| |? ? v1 v2 M1 M2| | | | | | | |]; subst.
    inversion M1 as [|? d P| | | | | | | | |]; subst. apply IH in M2. subst v2.
    unfold chr in *. apply Ascii.eqb_eq in P. now subst d.
Qed.

Lemma matches_alts (rs : list regex) (v : string) :
  matches (alts rs) v -> exists r, In r rs /\ matches r v.
Proof.
  induction rs as [|r rs IH]; simpl.
  - intros M. inversion M; subst. discriminate.
  - destruct rs as [|r' rs'].
    + intros M. exists r. split; [now left | assumption].
    + intros M. inversion M as [| | |? ? ? Ml|? ? ? Mr| | | | | |]; subst.
      * exists r. split; [now left | assumption].
      * destruct (IH Mr) as [x [Hx Mx]]. exists x. split; [now right | assumption].
Qed.

(** One of several literals matches exactly these. *)
Lemma matches_alts_lit (ls : list string) (v : string) :
  matches (alts (map lit ls)) v -> In v ls.
Proof.
  intros M. apply matches_alts in M. destruct M as [r [Hr M]].
  apply in_map_iff in Hr. destruct Hr as [l [<- Hl]].
  apply matches_lit in M. now subst.
Qed.

(** A literal under the [i] flag matches the ASCII texts that lower-case
    to the same text. *)
Lemma matches_litI (s v : string) :
  matches (litI s) v ->
  Js.toLowerCase v = Js.toLowerCase s
  /\ sall (fun d => Nat.ltb (Js.code d) 128) v = true.
Proof.
  revert v. induction s as [|c s IH]; intros v M; simpl in M.
  - inversion M. now split.
  - inversion M as [| |? ? v1 v2 M1 M2| | | | | | | |]; subst.
    inversion M1 as [|? d P| | | | | | | | |]; subst. apply IH in M2.
    destruct M2 as [E A]. apply andb_prop in P. destruct P as [P1 P2].
    apply Ascii.eqb_eq in P1.
    change (String d EmptyString ++ v2) with (String d v2).
    unfold Js.toLowerCase in *. cbn [Js.smap sall].
    split; [now rewrite P1, E | now rewrite P2, A].
Qed.

End ReFacts.

(** ** Words *)

Module Words.
Import Re ReFacts.

(** A non-empty string of [\w] characters. *)
Definition word (s : string) : Prop :=
  sall Js.isWord s = true /\ s <> EmptyString.

(** The body of group [n], when the expression has exactly one such
    group. *)
Definition bodyOf (n : nat) (r : regex) : option regex :=
  match filter (fun g => Nat.eqb (fst g) n) (groups r) with
  | [g] => Some (snd g)
  | _ => None
  end.

Lemma groups_bodyOf (n : nat) (r body b : regex) :
  bodyOf n r = Some b -> In (n, body) (groups r) -> body = b.
Proof.
  unfold bodyOf. intros H Hin.
  assert (F : In (n, body) (filter (fun g => Nat.eqb (fst g) n) (groups r))).
  { apply filter_In. split; [assumption | apply Nat.eqb_refl]. }
  destruct (filter _ (groups r)) as [|g [|g' l]]; try discriminate.
  injection H as <-. destruct F as [->|[]]. reflexivity.
Qed.

(** The value of a group that is always set and has one body. *)
Lemma exec_group (r : regex) (s : string) (cs : caps) (n : nat) (b : regex) :
  exec r s = Some cs -> In n (always r) -> bodyOf n r = Some b ->
  cap n cs = Some (capd n cs) /\ matches b (capd n cs).
Proof.
  intros H Hn Hb. destruct (exec_capd r s cs n H Hn) as [E [body [Hin M]]].
  split; [assumption|]. now rewrite <- (groups_bodyOf n r body b Hb Hin).
Qed.

(** The value of an optional group with one body. *)
Lemma exec_group_opt (r : regex) (s : string) (cs : caps) (n : nat)
      (b : regex) (v : string) :
  exec r s = Some cs -> bodyOf n r = Some b -> cap n cs = Some v ->
  matches b v.
Proof.
  intros H Hb Hc. destruct (exec_sound r s cs H) as [_ [C _]].
  destruct (C n v Hc) as [body [Hin M]].
  now rewrite <- (groups_bodyOf n r body b Hb Hin).
Qed.

Lemma exec_word (r : regex) (s : string) (cs : caps) (n : nat) :
  exec r s = Some cs -> In n (always r) ->
  bodyOf n r = Some (plus Re.word) -> word (capd n cs).
Proof.
  intros H Hn Hb. destruct (exec_group r s cs n _ H Hn Hb) as [_ M].
  now apply matches_plus_chr in M.
Qed.

End Words.

(** ** Flowcharts: the shape of the model *)

Module FlowWf.
Import Re ReFacts Words Flow.

Definition plain (s : string) : Prop :=
  sall (fun c => negb (isBracket c)) s = true.

Definition directions : list string := ["TD"; "TB"; "LR"; "RL"; "BT"].

Record wf (st : state) : Prop :=
  { wf_ids : Forall word (JsMap.keys (st_nodes st));
    wf_labels : Forall (fun n => plain (label n)) (JsMap.values (st_nodes st));
    wf_edges : Forall (fun e => In (source e) (JsMap.keys (st_nodes st))
                                /\ In (target e) (JsMap.keys (st_nodes st)))
                      (st_edges st);
    wf_dir : In (st_direction st) directions }.

Lemma flowwf_word_plain (s : string) : word s -> plain s.
Proof.
  intros [W _]. unfold plain. induction s as [|c s IH]; [reflexivity|].
  simpl in *. apply andb_prop in W. destruct W as [Wc Ws].
  rewrite (IH Ws), andb_true_r.
  destruct c as [[] [] [] [] [] [] [] []]; vm_compute in Wc |- *; congruence.
Qed.

Lemma flowwf_strip_plain (s : string) : plain (stripBrackets s).
Proof.
  unfold plain, stripBrackets. induction s as [|c s IH]; [reflexivity|].
  simpl. destruct (negb (isBracket c)) eqn:E; [|assumption].
  simpl. now rewrite E.
Qed.

Lemma flowwf_values_set {V : Type} (P : V -> Prop) (m : JsMap.t V)
      (k : string) (v : V) :
  Forall P (JsMap.values m) -> P v -> Forall P (JsMap.values (JsMap.set k v m)).
Proof.
  unfold JsMap.values. intros F Pv.
  induction m as [|[k' v'] m IH]; simpl.
  - now repeat constructor.
  - inversion F; subst. destruct (String.eqb k' k); simpl.
    + now constructor.
    + constructor; [assumption | now apply IH].
Qed.

Lemma flowwf_keys_set (P : string -> Prop) {V : Type} (m : JsMap.t V)
      (k : string) (v : V) :
  Forall P (JsMap.keys m) -> P k -> Forall P (JsMap.keys (JsMap.set k v m)).
Proof.
  intros F Pk. apply Forall_forall. intros x Hx.
  apply In_keys_set in Hx. destruct Hx as [->|Hx]; [assumption|].
  rewrite Forall_forall in F. now apply F.
Qed.

Lemma flowwf_addEndpoint (nid : string) (shp : option string)
      (m : JsMap.t node) :
  word nid ->
  Forall word (JsMap.keys m) ->
  Forall (fun n => plain (label n)) (JsMap.values m) ->
  Forall word (JsMap.keys (addEndpoint nid shp m))
  /\ Forall (fun n => plain (label n)) (JsMap.values (addEndpoint nid shp m))
  /\ In nid (JsMap.keys (addEndpoint nid shp m))
  /\ forall k, In k (JsMap.keys m) -> In k (JsMap.keys (addEndpoint nid shp m)).
Proof.
  intros W K L. unfold addEndpoint. destruct (JsMap.has nid m) eqn:H.
  - apply has_In in H. now repeat split.
  - split; [|split; [|split]].
    + now apply flowwf_keys_set.
    + apply flowwf_values_set; [assumption|]. cbn [label].
      destruct (truthy shp); [apply flowwf_strip_plain | now apply flowwf_word_plain].
    + apply In_keys_set. now left.
    + intros k Hk. apply In_keys_set. now right.
Qed.

(** Under the [i] flag the direction is matched in either case; its
    upper-case form is one of the five. *)
Lemma flowwf_upper_lower (v : string) :
  sall (fun d => Nat.ltb (Js.code d) 128) v = true ->
  Js.toUpperCase v = Js.toUpperCase (Js.toLowerCase v).
Proof.
  unfold Js.toUpperCase, Js.toLowerCase.
  induction v as [|c v IH]; [reflexivity|]. cbn [sall Js.smap].
  intros H. apply andb_prop in H. destruct H as [Hc Hv].
  rewrite <- (IH Hv). f_equal.
  destruct c as [[] [] [] [] [] [] [] []]; vm_compute in Hc |- *; congruence.
Qed.

Lemma flowwf_direction (s : string) (cs : caps) :
  exec dirRe s = Some cs -> In (Js.toUpperCase (capd 1 cs)) directions.
Proof.
  intros H.
  destruct (exec_group dirRe s cs 1
              (alts [litI "TD"; litI "TB"; litI "LR"; litI "RL"; litI "BT"]) H)
    as [_ M]; [now left | reflexivity |].
  apply matches_alts in M. destruct M as [r [Hr M]].
  assert (G : forall l, matches (litI l) (capd 1 cs) ->
                        Js.toUpperCase (capd 1 cs)
                        = Js.toUpperCase (Js.toLowerCase l)).
  { intros l Ml. apply matches_litI in Ml. destruct Ml as [E A].
    now rewrite (flowwf_upper_lower _ A), E. }
  unfold directions.
  destruct Hr as [<-|[<-|[<-|[<-|[<-|[]]]]]]; rewrite (G _ M); simpl; tauto.
Qed.

Lemma flowwf_init : wf init.
Proof. split; try constructor. reflexivity. Qed.

Lemma flowwf_step (st : state) (line : string) : wf st -> wf (step st line).
Proof.
  intros [I L E D]. unfold step.
  destruct (exec dirRe (Js.trim line)) as [cs|] eqn:Hd.
  { split; cbn [st_nodes st_edges st_direction]; try assumption.
    now apply (flowwf_direction (Js.trim line)). }
  destruct (exec edgeRe (Js.trim line)) as [cs|] eqn:He.
  { assert (W1 : word (capd 1 cs)).
    { apply (exec_word edgeRe (Js.trim line)); [assumption | now left | reflexivity]. }
    assert (W7 : word (capd 7 cs)).
    { apply (exec_word edgeRe (Js.trim line)); [assumption | | reflexivity].
      vm_compute. tauto. }
    destruct (flowwf_addEndpoint (capd 1 cs) (cap 2 cs) (st_nodes st) W1 I L)
      as [I1 [L1 [In1 M1]]].
    destruct (flowwf_addEndpoint (capd 7 cs) (cap 8 cs) _ W7 I1 L1)
      as [I2 [L2 [In2 M2]]].
    split; cbn [st_nodes st_edges st_direction]; try assumption.
    apply Forall_app. split.
    - eapply Forall_impl; [|exact E]. intros e [Hs Ht]. split; auto.
    - repeat constructor; cbn [source target]; auto. }
  destruct (exec nodeRe (Js.trim line)) as [cs|] eqn:Hn.
  { assert (W1 : word (capd 1 cs)).
    { apply (exec_word nodeRe (Js.trim line)); [assumption | now left | reflexivity]. }
    split; cbn [st_nodes st_edges st_direction]; try assumption.
    - now apply flowwf_keys_set.
    - apply flowwf_values_set; [assumption|]. cbn [label].
      unfold extractLabel. destruct (String.eqb (capd 2 cs) EmptyString);
        [reflexivity | apply flowwf_strip_plain].
    - eapply Forall_impl; [|exact E]. intros e [Hs Ht].
      split; apply In_keys_set; now right. }
  now split.
Qed.

Lemma flowwf_fold (lines : list string) (st : state) :
  wf st -> wf (fold_left step lines st).
Proof.
  revert st. induction lines as [|l lines IH]; intros st W; simpl.
  - assumption.
  - apply IH. now apply flowwf_step.
Qed.

Lemma flowwf_parse (code : string) :
  let p := parseFlowchart code in
  NoDup (map id (nodes p))
  /\ Forall word (map id (nodes p))
  /\ Forall (fun n => plain (label n)) (nodes p)
  /\ Forall (fun e => In (source e) (map id (nodes p))
                      /\ In (target e) (map id (nodes p))) (edges p)
  /\ In (direction p) directions.
Proof.
  intros p. split; [apply FlowFacts.flow_parse_ids|].
  pose proof (flowwf_fold (Js.splitLines (Js.trim code)) init flowwf_init)
    as [I L E D].
  pose proof (FlowFacts.flow_fold_inv (Js.splitLines (Js.trim code)) init) as K.
  assert (Ki : FlowFacts.inv init) by (split; constructor).
  specialize (K Ki). destruct K as [K _].
  subst p. unfold parseFlowchart. cbn [nodes edges direction].
  rewrite (keyed_values id _ K). now repeat split.
Qed.

End FlowWf.

(** ** Boxes on the page *)

Section Boxes.
Local Open Scope Z_scope.

(** The rectangle of a cell whose geometry gives all four numbers:
    left, top, width, height. *)
Definition boxOf (c : Xml.cell Z) : option (Z * Z * Z * Z) :=
  match Xml.gx (Xml.geom c), Xml.gy (Xml.geom c),
        Xml.gwidth (Xml.geom c), Xml.gheight (Xml.geom c) with
  | Some x, Some y, Some w, Some h => Some (x, y, w, h)
  | _, _, _, _ => None
  end.

(** Two rectangles share no interior point. *)
Definition apart (a b : Z * Z * Z * Z) : Prop :=
  let '(x1, y1, w1, h1) := a in
  let '(x2, y2, w2, h2) := b in
  x1 + w1 <= x2 \/ x2 + w2 <= x1 \/ y1 + h1 <= y2 \/ y2 + h2 <= y1.

(** The rectangle lies on a page of the given size. *)
Definition onPage (width height : Z) (a : Z * Z * Z * Z) : Prop :=
  let '(x, y, w, h) := a in
  0 <= x /\ x + w <= width /\ 0 <= y /\ y + h <= height.

End Boxes.

Module FlowLayout.
Import Flow FlowGen.
Local Open Scope Z_scope.

Definition isVertical (direction : string) : bool :=
  String.eqb direction "TD" || String.eqb direction "TB"
  || String.eqb direction "BT".

(** Where [calculateFlowchartLayout] puts the node at [index]. *)
Definition slot (vertical : bool) (index : nat) : pos :=
  if vertical then {| x := 340; y := 40 + 120 * Z.of_nat index |}
  else {| x := 340 + 200 * Z.of_nat index; y := 40 |}.

Lemma flowlay_fold_other (v : bool) (ns : list node)
      (acc : JsMap.t pos * (Z * Z)) (k : string) :
  ~ In k (map id ns) ->
  JsMap.get k (fst (fold_left (layoutStep v) ns acc)) = JsMap.get k (fst acc).
Proof.
  revert acc. induction ns as [|n ns IH]; intros [m [cx cy]] H; simpl.
  - reflexivity.
  - rewrite IH by (intros Hk; apply H; now right).
    cbn [fst]. apply get_set_neq. intros E. apply H. now left.
Qed.

Lemma flowlay_fold_nth (v : bool) (ns : list node) :
  forall (m : JsMap.t pos) (cx cy : Z) (i : nat) (n : node),
    NoDup (map id ns) -> nth_error ns i = Some n ->
    JsMap.get (id n) (fst (fold_left (layoutStep v) ns (m, (cx, cy))))
    = Some (if v then {| x := cx; y := cy + 120 * Z.of_nat i |}
            else {| x := cx + 200 * Z.of_nat i; y := cy |}).
Proof.
  induction ns as [|a ns IH]; intros m cx cy i n D Hn.
  - now destruct i.
  - inversion D as [|? ? Na Dn]; subst. destruct i as [|i]; simpl in Hn |- *.
    + injection Hn as ->. rewrite flowlay_fold_other by assumption.
      cbn [fst]. rewrite get_set_eq. destruct v; do 2 f_equal; lia.
    + destruct v.
      * rewrite (IH _ _ _ i n Dn Hn). do 2 f_equal. lia.
      * rewrite (IH _ _ _ i n Dn Hn). do 2 f_equal. lia.
Qed.

Lemma flowlay_position (p : parsed) (i : nat) (n : node) :
  NoDup (map id (nodes p)) -> nth_error (nodes p) i = Some n ->
  JsMap.get (id n)
    (calculateFlowchartLayout (nodes p) (edges p) (isVertical (direction p)))
  = Some (slot (isVertical (direction p)) i).
Proof.
  intros D Hn. unfold calculateFlowchartLayout, slot.
  rewrite (flowlay_fold_nth _ _ _ _ _ i n D Hn).
  destruct (isVertical (direction p)); reflexivity.
Qed.

Lemma flowlay_nodeCells_nth (positions : JsMap.t pos) (ns : list node) :
  forall (cs : list (Xml.cell Z)) (i : nat) (n : node),
    nodeCells positions ns = Ok cs -> nth_error ns i = Some n ->
    exists c, nodeCell positions n = Ok c /\ nth_error cs i = Some c.
Proof.
  induction ns as [|a ns IH]; intros cs i n H Hn.
  - now destruct i.
  - simpl in H. destruct (nodeCell positions a) as [c|] eqn:Ca; [|discriminate].
    cbn [bind] in H.
    destruct (nodeCells positions ns) as [cs'|] eqn:Cs; [|discriminate].
    cbn [bind] in H. injection H as <-. destruct i as [|i]; simpl in Hn.
    + injection Hn as <-. now exists c.
    + destruct (IH cs' i n eq_refl Hn) as [c' [E N]]. now exists c'.
Qed.

(** The cell of a placed node: its rectangle starts at the position and is
    between 120 and 200 wide and between 60 and 120 high. *)
Lemma flowlay_nodeCell_box (positions : JsMap.t pos) (n : node)
      (p : pos) (c : Xml.cell Z) :
  JsMap.get (id n) positions = Some p -> nodeCell positions n = Ok c ->
  Xml.cid c = id n
  /\ exists w h, boxOf c = Some (x p, y p, w, h)
                 /\ 120 <= w <= 200 /\ 60 <= h <= 120.
Proof.
  unfold nodeCell. intros ->. intros [= <-]. split; [reflexivity|].
  unfold boxOf. cbn.
  destruct (String.eqb (shape n) "{}").
  - destruct (Z.of_nat (String.length (label n)) <=? 15);
      [|destruct (Z.of_nat (String.length (label n)) <=? 30)];
      eexists; eexists; (split; [reflexivity | lia]).
  - eexists; eexists; (split; [reflexivity | lia]).
Qed.

Lemma flowlay_slots_apart (v : bool) (i j : nat) (w1 h1 w2 h2 : Z) :
  (i < j)%nat -> w1 <= 200 -> h1 <= 120 ->
  apart (x (slot v i), y (slot v i), w1, h1)
        (x (slot v j), y (slot v j), w2, h2).
Proof.
  intros L W H. unfold apart, slot. destruct v; cbn [x y]; lia.
Qed.

Lemma flowlay_generate (clk : Xml.clock) (p : parsed) :
  NoDup (map id (nodes p)) ->
  exists doc,
    generateFlowchartXML clk p = Ok doc
    /\ forall i n,
         nth_error (nodes p) i = Some n ->
         exists c w h,
           nth_error (Xml.cells doc) i = Some c
           /\ Xml.cid c = id n
           /\ boxOf c = Some (x (slot (isVertical (direction p)) i),
                              y (slot (isVertical (direction p)) i), w, h)
           /\ 120 <= w <= 200 /\ 60 <= h <= 120.
Proof.
  intros D.
  destruct (FlowFacts.flow_generate_ok clk p) as [doc [E _]].
  exists doc. split; [assumption|].
  unfold generateFlowchartXML in E.
  change (String.eqb (direction p) "TD" || String.eqb (direction p) "TB"
          || String.eqb (direction p) "BT")
    with (isVertical (direction p)) in E.
  set (positions := calculateFlowchartLayout _ _ _) in E.
  destruct (nodeCells positions (nodes p)) as [ncs|] eqn:N; [|discriminate].
  cbn [bind] in E. injection E as <-. cbn [Xml.cells Xml.wrapInDrawioXML].
  intros i n Hn.
  destruct (flowlay_nodeCells_nth positions _ ncs i n N Hn) as [c [Ec Nc]].
  pose proof (flowlay_position p i n D Hn) as G. fold positions in G.
  destruct (flowlay_nodeCell_box positions n _ c G Ec) as [Hid [w [h [B [W H]]]]].
  exists c, w, h. split.
  - rewrite nth_error_app1; [assumption|].
    apply nth_error_Some. congruence.
  - now repeat split.
Qed.

End FlowLayout.

(** X1.  Whatever the input, the flowchart model has pairwise distinct node
    ids, each a non-empty run of word characters; no label holds a bracket
    character; both ends of every edge are ids of nodes of the model; and
    the direction is one of TD, TB, LR, RL, BT, in upper case. *)
Theorem parseFlowchart_model (mermaidCode : string) :
  let p := Flow.parseFlowchart mermaidCode in
  NoDup (map Flow.id (Flow.nodes p))
  /\ Forall Words.word (map Flow.id (Flow.nodes p))
  /\ Forall (fun n => FlowWf.plain (Flow.label n)) (Flow.nodes p)
  /\ Forall (fun e => In (Flow.source e) (map Flow.id (Flow.nodes p))
                      /\ In (Flow.target e) (map Flow.id (Flow.nodes p)))
            (Flow.edges p)
  /\ In (Flow.direction p) ["TD"; "TB"; "LR"; "RL"; "BT"].
Proof. exact (FlowWf.flowwf_parse mermaidCode). Qed.

(** X2.  The flowchart layout is a single line of nodes in model order:
    node [i] is at (340, 40 + 120 i) for the directions TD, TB and BT, and
    at (340 + 200 i, 40) for LR and RL, so BT is laid out top-down and RL
    left to right.  Boxes are at most 200 by 120, and no two node boxes
    overlap. *)
Theorem generateFlowchartXML_layout (clk : Xml.clock) (mermaidCode : string) :
  let p := Flow.parseFlowchart mermaidCode in
  let vertical := FlowLayout.isVertical (Flow.direction p) in
  exists doc,
    FlowGen.generateFlowchartXML clk p = Ok doc
    /\ (forall i n,
          nth_error (Flow.nodes p) i = Some n ->
          exists c w h,
            nth_error (Xml.cells doc) i = Some c
            /\ Xml.cid c = Flow.id n
            /\ boxOf c
               = Some (if vertical then 340 else 340 + 200 * Z.of_nat i,
                       if vertical then 40 + 120 * Z.of_nat i else 40,
                       w, h)%Z)
    /\ (forall i j ci cj,
          (i < j < List.length (Flow.nodes p))%nat ->
          nth_error (Xml.cells doc) i = Some ci ->
          nth_error (Xml.cells doc) j = Some cj ->
          exists a b, boxOf ci = Some a /\ boxOf cj = Some b /\ apart a b).
Proof.
  intros p vertical.
  destruct (FlowLayout.flowlay_generate clk p) as [doc [E H]].
  { apply FlowFacts.flow_parse_ids. }
  exists doc. split; [assumption|]. split.
  - intros i n Hn. destruct (H i n Hn) as [c [w [h [Nc [Hid [B _]]]]]].
    exists c, w, h. split; [assumption|]. split; [assumption|].
    rewrite B. unfold FlowLayout.slot. fold vertical.
    destruct vertical; reflexivity.
  - intros i j ci cj [Lij Lj] Hi Hj.
    destruct (nth_error (Flow.nodes p) i) as [ni|] eqn:Ni;
      [|apply nth_error_None in Ni; lia].
    destruct (nth_error (Flow.nodes p) j) as [nj|] eqn:Nj;
      [|apply nth_error_None in Nj; lia].
    destruct (H i ni Ni) as [ci' [wi [hi [Ci [_ [Bi [Wi Hi']]]]]]].
    destruct (H j nj Nj) as [cj' [wj [hj [Cj [_ [Bj _]]]]]].
    rewrite Hi in Ci. injection Ci as <-. rewrite Hj in Cj. injection Cj as <-.
    eexists. eexists. split; [exact Bi|]. split; [exact Bj|].
    apply FlowLayout.flowlay_slots_apart; lia.
Qed.

(** The anchors [getExitPoints] gives for each direction. *)
Definition flowAnchors : list (string * string) :=
  [ ("TD", "exitX=0.5;exitY=1;entryX=0.5;entryY=0;");
    ("TB", "exitX=0.5;exitY=1;entryX=0.5;entryY=0;");
    ("BT", "exitX=0.5;exitY=0;entryX=0.5;entryY=1;");
    ("LR", "exitX=1;exitY=0.5;entryX=0;entryY=0.5;");
    ("RL", "exitX=0;exitY=0.5;entryX=1;entryY=0.5;") ].

Lemma flow_edgeCells_In (positions : JsMap.t FlowGen.pos) (direction : string)
      (es : list Flow.edge) :
  forall (cellId : nat) (c : Xml.cell Z),
    In c (FlowGen.edgeCells positions direction cellId es) ->
    exists e, In e es
              /\ Xml.csource c = Some (Flow.source e)
              /\ Xml.ctarget c = Some (Flow.target e)
              /\ Xml.style c
                 = FlowGen.styleEdge
                   ++ FlowGen.getExitPoints (Flow.source e) (Flow.target e)
                        positions direction.
Proof.
  induction es as [|e es IH]; intros cellId c; simpl; [contradiction|].
  intros [<-|H].
  - exists e. split; [now left|]. now repeat split.
  - destruct (IH _ _ H) as [e' [He' R]]. exists e'. split; [now right | exact R].
Qed.

Lemma flow_anchors_known (positions : JsMap.t FlowGen.pos)
      (s t direction : string) :
  JsMap.get s positions <> None -> JsMap.get t positions <> None ->
  In direction FlowWf.directions ->
  In (direction, FlowGen.getExitPoints s t positions direction) flowAnchors.
Proof.
  intros Hs Ht Hd. unfold FlowGen.getExitPoints.
  destruct (JsMap.get s positions); [|congruence].
  destruct (JsMap.get t positions); [|congruence].
  destruct Hd as [<-|[<-|[<-|[<-|[<-|[]]]]]]; vm_compute; tauto.
Qed.

(** X3.  In the markup of a flowchart every edge cell names as source and
    target the ids of two node cells of the same markup, and its style
    ends with the anchors of the chart's direction: no edge dangles and
    none is left without exit and entry points. *)
Theorem generateFlowchartXML_edges (clk : Xml.clock) (mermaidCode : string) :
  let p := Flow.parseFlowchart mermaidCode in
  exists doc,
    FlowGen.generateFlowchartXML clk p = Ok doc
    /\ forall c,
         In c (Xml.cells doc) -> Xml.isEdge c = true ->
         exists s t anchors,
           Xml.csource c = Some s /\ Xml.ctarget c = Some t
           /\ In s (Xml.vertexIds (Xml.cells doc))
           /\ In t (Xml.vertexIds (Xml.cells doc))
           /\ In (Flow.direction p, anchors) flowAnchors
           /\ Xml.style c = FlowGen.styleEdge ++ anchors.
Proof.
  intros p.
  destruct (FlowFacts.flow_generate_ok clk p) as [doc [E [_ V]]].
  exists doc. split; [assumption|]. rewrite V.
  unfold FlowGen.generateFlowchartXML in E.
  set (positions := FlowGen.calculateFlowchartLayout _ _ _) in E.
  destruct (FlowFacts.flow_nodeCells_ok positions (Flow.nodes p))
    as [ncs [N [_ Hv]]].
  { intros n Hn. unfold positions, FlowGen.calculateFlowchartLayout.
    apply FlowFacts.flow_layout_keys. right. now apply in_map. }
  rewrite N in E. cbn [bind] in E. injection E as <-.
  cbn [Xml.cells Xml.wrapInDrawioXML].
  intros c Hc He. apply in_app_or in Hc. destruct Hc as [Hc|Hc].
  { rewrite Forall_forall in Hv. apply Hv in Hc.
    unfold Xml.isVertex, Xml.isEdge in *. destruct (Xml.ckind c); discriminate. }
  destruct (flow_edgeCells_In _ _ _ _ _ Hc) as [e [Hin [Hs [Ht Hst]]]].
  destruct (FlowWf.flowwf_parse mermaidCode) as [_ [_ [_ [Hed Hd]]]].
  fold p in Hed, Hd. rewrite Forall_forall in Hed.
  destruct (Hed e Hin) as [Is It].
  assert (Ks : JsMap.get (Flow.source e) positions <> None).
  { apply get_In. unfold positions, FlowGen.calculateFlowchartLayout.
    apply FlowFacts.flow_layout_keys. now right. }
  assert (Kt : JsMap.get (Flow.target e) positions <> None).
  { apply get_In. unfold positions, FlowGen.calculateFlowchartLayout.
    apply FlowFacts.flow_layout_keys. now right. }
  exists (Flow.source e), (Flow.target e),
    (FlowGen.getExitPoints (Flow.source e) (Flow.target e) positions
       (Flow.direction p)).
  repeat (split; [assumption|]). split; [|assumption].
  now apply flow_anchors_known.
Qed.

(** ** ER diagrams: the shape of the model *)

Module ERWf.
Import Re ReFacts Words ER.

Definition cardinalities : list string :=
  ["||"; "o|"; "|o"; "}o"; "o{"; "}|"; "|{"].

Definition attributeOk (a : attribute) : Prop :=
  word (atype a) /\ word (aname a)
  /\ In (constraint a) [None; Some "PK"; Some "FK"; Some "UK"].

Definition relationshipOk (r : relationship) : Prop :=
  In (sourceCardinality r) cardinalities
  /\ In (targetCardinality r) cardinalities.

Record wf (st : state) : Prop :=
  { wf_names : Forall word (JsMap.keys (st_entities st));
    wf_attrs : Forall (fun e => Forall attributeOk (attributes e))
                      (JsMap.values (st_entities st));
    wf_rels : Forall relationshipOk (st_relationships st) }.

Lemma erwf_values_get {V : Type} (P : V -> Prop) (m : JsMap.t V)
      (k : string) (v : V) :
  Forall P (JsMap.values m) -> JsMap.get k m = Some v -> P v.
Proof.
  unfold JsMap.values. induction m as [|[k' v'] m IH]; simpl; [discriminate|].
  intros F. inversion F; subst. destruct (String.eqb k' k).
  - now intros [= <-].
  - now apply IH.
Qed.

Lemma erwf_register (n : string) (m : JsMap.t entity) :
  word n -> Forall word (JsMap.keys m) ->
  Forall (fun e => Forall attributeOk (attributes e)) (JsMap.values m) ->
  Forall word (JsMap.keys (register n m))
  /\ Forall (fun e => Forall attributeOk (attributes e))
            (JsMap.values (register n m)).
Proof.
  intros W K A. unfold register. destruct (JsMap.has n m); [now split|].
  split.
  - now apply FlowWf.flowwf_keys_set.
  - apply FlowWf.flowwf_values_set; [assumption | constructor].
Qed.

Lemma erwf_cardinality (r : regex) (s : string) (cs : caps) (n : nat) :
  exec r s = Some cs -> In n (always r) -> bodyOf n r = Some card ->
  In (capd n cs) cardinalities.
Proof.
  intros H Hn Hb. destruct (exec_group r s cs n _ H Hn Hb) as [_ M].
  now apply (matches_alts_lit cardinalities).
Qed.

Lemma erwf_init : wf init.
Proof. split; constructor. Qed.

Lemma erwf_step (st st' : state) (line : string) :
  wf st -> step st line = Ok st' -> wf st'.
Proof.
  intros [N A R]. unfold step.
  destruct (String.eqb (Js.trim line) "erDiagram"
            || String.eqb (Js.trim line) EmptyString).
  { now intros [= <-]. }
  destruct (exec relRe (Js.trim line)) as [cs|] eqn:Hr.
  { intros [= <-].
    assert (W1 : word (capd 1 cs)).
    { apply (exec_word relRe (Js.trim line)); [assumption | now left | reflexivity]. }
    assert (W4 : word (capd 4 cs)).
    { apply (exec_word relRe (Js.trim line)); [assumption | | reflexivity].
      vm_compute. tauto. }
    destruct (erwf_register _ _ W1 N A) as [N1 A1].
    destruct (erwf_register _ _ W4 N1 A1) as [N2 A2].
    split; cbn [st_entities st_relationships]; try assumption.
    apply Forall_app. split; [assumption|]. constructor; [|constructor].
    split; cbn [sourceCardinality targetCardinality].
    - apply (erwf_cardinality relRe (Js.trim line));
        [assumption | vm_compute; tauto | reflexivity].
    - apply (erwf_cardinality relRe (Js.trim line));
        [assumption | vm_compute; tauto | reflexivity]. }
  destruct (exec entityRe (Js.trim line)) as [cs|] eqn:He.
  { intros [= <-].
    assert (W1 : word (capd 1 cs)).
    { apply (exec_word entityRe (Js.trim line)); [assumption | now left | reflexivity]. }
    destruct (erwf_register _ _ W1 N A) as [N1 A1].
    now split. }
  destruct (String.eqb (Js.trim line) "}"); [now intros [= <-]|].
  destruct (truthy (currentEntity st)); [|now intros [= <-]].
  destruct (exec attrRe (Js.trim line)) as [cs|] eqn:Ha; [|now intros [= <-]].
  unfold pushAttribute.
  destruct (JsMap.get _ (st_entities st)) as [e|] eqn:G; [|discriminate].
  cbn [bind]. intros [= <-]. split; cbn [st_entities st_relationships];
    [|  |assumption].
  - apply Forall_forall. intros k Hk. apply In_keys_set in Hk.
    rewrite Forall_forall in N. destruct Hk as [->|Hk]; [|now apply N].
    apply N. apply get_In. congruence.
  - apply FlowWf.flowwf_values_set; [assumption|]. cbn [attributes].
    apply Forall_app. split; [exact (erwf_values_get _ _ _ _ A G)|].
    constructor; [|constructor]. split; [|split]; cbn [atype aname constraint].
    + apply (exec_word attrRe (Js.trim line)); [assumption | now left | reflexivity].
    + apply (exec_word attrRe (Js.trim line));
        [assumption | vm_compute; tauto | reflexivity].
    + destruct (cap 3 cs) as [v|] eqn:C3; [|now left].
      apply (exec_group_opt attrRe (Js.trim line) cs 3
               (alts (map lit ["PK"; "FK"; "UK"]))) in C3;
        [|assumption | reflexivity].
      apply matches_alts_lit in C3. simpl in C3 |- *.
      intuition (subst; auto).
Qed.

Lemma erwf_foldM (lines : list string) (st st' : state) :
  wf st -> foldM step lines st = Ok st' -> wf st'.
Proof.
  revert st. induction lines as [|l lines IH]; intros st W; simpl.
  - now intros [= <-].
  - destruct (step st l) as [st1|] eqn:E; [|discriminate]. cbn [bind].
    apply IH. now apply (erwf_step st st1 l).
Qed.

Lemma erwf_parse (code : string) :
  exists p,
    parseERDiagram code = Ok p
    /\ NoDup (map name (entities p))
    /\ Forall word (map name (entities p))
    /\ Forall (fun e => Forall attributeOk (attributes e)) (entities p)
    /\ Forall (fun r => In (source r) (map name (entities p))
                        /\ In (target r) (map name (entities p))
                        /\ relationshipOk r)
              (relationships p).
Proof.
  unfold parseERDiagram.
  destruct (ERFacts.er_foldM_ok (Js.splitLines (Js.trim code)) init
              ERFacts.er_init_inv) as [st [E [K D R _]]].
  pose proof (erwf_foldM _ _ _ erwf_init E) as [N A Rk].
  rewrite E. cbn [bind]. eexists. split; [reflexivity|].
  cbn [entities relationships]. rewrite (keyed_values name _ K).
  repeat split; try assumption.
  apply Forall_forall. intros r Hr. rewrite Forall_forall in R, Rk.
  destruct (R r Hr) as [Hs Ht]. repeat split; try assumption; now apply Rk.
Qed.

End ERWf.

Module ERLayout.
Import ER ERGen.
Local Open Scope Z_scope.

(** The table of grid coordinates and the formula used past its end
    agree. *)
Lemma erlay_entityPos (index : nat) (e : entity) :
  entityPos index e
  = {| bx := 40 + 400 * Z.of_nat (index mod 4);
       by_ := 40 + 350 * Z.of_nat (index / 4);
       bwidth := 200;
       bheight := 30 + 22 * Z.of_nat (List.length (attributes e)) |}.
Proof.
  unfold entityPos.
  assert (C : (index mod 4 < 4)%nat) by (apply Nat.mod_upper_bound; lia).
  f_equal.
  - destruct (index mod 4)%nat as [|[|[|[|c]]]]; try reflexivity. lia.
  - destruct (index / 4)%nat as [|[|[|[|r]]]]; try reflexivity.
    unfold gridOr, GRID_Y. cbn [nth_error]. destruct r; cbn [nth_error]; lia.
  - destruct (30 + Z.of_nat (List.length (attributes e)) * 22 =? 0) eqn:E; lia.
Qed.

Lemma erlay_container_box (index : nat) (e : entity) :
  boxOf (containerCell (index, e))
  = Some (40 + 400 * Z.of_nat (index mod 4), 40 + 350 * Z.of_nat (index / 4),
          200, 30 + 22 * Z.of_nat (List.length (attributes e))).
Proof.
  unfold containerCell. rewrite erlay_entityPos. reflexivity.
Qed.

Lemma erlay_indexedFrom_nth {A : Type} (l : list A) :
  forall (k i : nat) (a : A),
    nth_error l i = Some a -> In ((k + i)%nat, a) (Xml.indexedFrom k l).
Proof.
  induction l as [|x l IH]; intros k i a H; [now destruct i|].
  destruct i as [|i]; simpl in H |- *.
  - injection H as ->. left. f_equal. lia.
  - right. replace (k + S i)%nat with (S k + i)%nat by lia. now apply IH.
Qed.

Lemma erlay_indexed_nth {A : Type} (l : list A) (i : nat) (a : A) :
  nth_error l i = Some a -> In (i, a) (Xml.indexed l).
Proof. intros H. exact (erlay_indexedFrom_nth l 0 i a H). Qed.

Lemma erlay_container_in (inherited : string -> option (string * string))
      (clk : Xml.clock) (p : parsed) (i : nat) (e : entity) :
  nth_error (entities p) i = Some e ->
  In (containerCell (i, e)) (Xml.cells (generateERDiagramXML inherited clk p))
  /\ forall j a,
       nth_error (attributes e) j = Some a ->
       In (attrCell (name e) (j, a)) (Xml.cells (generateERDiagramXML inherited clk p)).
Proof.
  intros H. apply erlay_indexed_nth in H.
  unfold generateERDiagramXML. cbn [Xml.cells Xml.wrapInDrawioXML]. split.
  - apply in_or_app. left. apply in_flat_map. exists (i, e).
    split; [assumption | now left].
  - intros j a Ha. apply in_or_app. left. apply in_flat_map. exists (i, e).
    split; [assumption|]. right. unfold attrCells. cbn [snd].
    apply in_map. now apply erlay_indexed_nth.
Qed.

Lemma erlay_apart (i j : nat) (hi hj : Z) :
  i <> j -> hi <= 350 -> hj <= 350 ->
  apart (40 + 400 * Z.of_nat (i mod 4), 40 + 350 * Z.of_nat (i / 4), 200, hi)
        (40 + 400 * Z.of_nat (j mod 4), 40 + 350 * Z.of_nat (j / 4), 200, hj).
Proof.
  intros N Hi Hj. unfold apart.
  pose proof (Nat.div_mod_eq i 4) as Di. pose proof (Nat.div_mod_eq j 4) as Dj.
  destruct (Nat.lt_trichotomy (i / 4) (j / 4)) as [L|[E|L]].
  - right. right. left. lia.
  - destruct (Nat.lt_trichotomy (i mod 4) (j mod 4)) as [L|[E'|L]].
    + left. lia.
    + exfalso. apply N. lia.
    + right. left. lia.
  - right. right. right. lia.
Qed.

End ERLayout.

(** X4.  An ER model parsed from any text has pairwise distinct entity
    names, each a non-empty run of word characters; every attribute has a
    word for its type and its name and no constraint or one of PK, FK, UK;
    both ends of every relationship are entities of the model and both its
    cardinalities are among the seven tokens the converter has arrows
    for.  The parser never throws. *)
Theorem parseERDiagram_model (mermaidCode : string) :
  exists p,
    ER.parseERDiagram mermaidCode = Ok p
    /\ NoDup (map ER.name (ER.entities p))
    /\ Forall Words.word (map ER.name (ER.entities p))
    /\ Forall (fun e => Forall ERWf.attributeOk (ER.attributes e))
              (ER.entities p)
    /\ Forall (fun r =>
                 In (ER.source r) (map ER.name (ER.entities p))
                 /\ In (ER.target r) (map ER.name (ER.entities p))
                 /\ In (ER.sourceCardinality r)
                       ["||"; "o|"; "|o"; "}o"; "o{"; "}|"; "|{"]
                 /\ In (ER.targetCardinality r)
                       ["||"; "o|"; "|o"; "}o"; "o{"; "}|"; "|{"])
              (ER.relationships p).
Proof. exact (ERWf.erwf_parse mermaidCode). Qed.

(** X5.  The ER layout is a grid of four columns: entity [i] of any model
    has its container at (40 + 400 (i mod 4), 40 + 350 (i div 4)), 200 wide
    and 30 + 22 n high for its n attributes, and attribute [j] is the row
    of height 22 at offset 30 + 22 j inside it, so the rows fill the
    container below its header.  Containers of entities with at most 14
    attributes do not overlap; the page is 1600 by 1200 whatever the
    model, so the container of every entity from the seventeenth on lies
    below the page. *)
Theorem generateERDiagramXML_layout
        (inherited : string -> option (string * string))
        (clk : Xml.clock) (p : ER.parsed) (i : nat) (e : ER.entity) :
  nth_error (ER.entities p) i = Some e ->
  let doc := ERGen.generateERDiagramXML inherited clk p in
  let n := Z.of_nat (List.length (ER.attributes e)) in
  In (ERGen.containerCell (i, e)) (Xml.cells doc)
  /\ boxOf (ERGen.containerCell (i, e))
     = Some (40 + 400 * Z.of_nat (i mod 4), 40 + 350 * Z.of_nat (i / 4),
             200, 30 + 22 * n)%Z
  /\ (forall j a,
        nth_error (ER.attributes e) j = Some a ->
        exists r,
          In r (Xml.cells doc)
          /\ Xml.parent r = ER.name e
          /\ Xml.geom r = Xml.row (30 + 22 * Z.of_nat j)%Z 200%Z 22%Z
          /\ (30 + 22 * Z.of_nat j + 22 <= 30 + 22 * n)%Z)
  /\ (forall i' e',
        nth_error (ER.entities p) i' = Some e' -> i <> i' ->
        (List.length (ER.attributes e) <= 14)%nat ->
        (List.length (ER.attributes e') <= 14)%nat ->
        exists a b,
          boxOf (ERGen.containerCell (i, e)) = Some a
          /\ boxOf (ERGen.containerCell (i', e')) = Some b
          /\ apart a b)
  /\ (Xml.pageWidth doc = 1600%Z /\ Xml.pageHeight doc = 1200%Z)
  /\ ((16 <= i)%nat ->
      exists a, boxOf (ERGen.containerCell (i, e)) = Some a
                /\ ~ onPage 1600 1200 a).
Proof.
  intros H doc n.
  destruct (ERLayout.erlay_container_in inherited clk p i e H) as [Hc Ha].
  split; [assumption|]. split; [apply ERLayout.erlay_container_box|].
  split; [|split; [|split; [now split|]]].
  - intros j a Hj. exists (ERGen.attrCell (ER.name e) (j, a)).
    split; [now apply Ha|]. split; [reflexivity|]. split.
    + unfold ERGen.attrCell, ERGen.ENTITY_WIDTH. cbn [Xml.geom].
      f_equal. lia.
    + assert (L : (j < List.length (ER.attributes e))%nat).
      { apply nth_error_Some. congruence. }
      subst n. lia.
  - intros i' e' H' N L L'. eexists. eexists.
    split; [apply ERLayout.erlay_container_box|].
    split; [apply ERLayout.erlay_container_box|].
    apply ERLayout.erlay_apart; [assumption | lia | lia].
  - intros L. eexists. split; [apply ERLayout.erlay_container_box|].
    unfold onPage. intros [_ [_ [_ Hy]]].
    assert (4 <= i / 4)%nat by (apply Nat.div_le_lower_bound; lia).
    lia.
Qed.

Definition twoEntities : ER.parsed :=
  {| ER.entities :=
       [ {| ER.name := "A";
            ER.attributes :=
              [ {| ER.atype := "int"; ER.aname := "x";
                   ER.constraint := Some "PK" |} ] |};
         {| ER.name := "B"; ER.attributes := [] |} ];
     ER.relationships := [] |}.

(** The second of two entities: at (440, 40), 30 high. *)
Lemma generateERDiagramXML_layout_witness :
  boxOf (ERGen.containerCell
           (1%nat, {| ER.name := "B"; ER.attributes := [] |}))
  = Some (440, 40, 200, 30)%Z.
Proof.
  exact (proj1 (proj2
    (generateERDiagramXML_layout (fun _ => None) someClock twoEntities 1
       {| ER.name := "B"; ER.attributes := [] |} eq_refl))).
Defined.

(** ** Edges between containers *)

Module EREdges.
Import ER ERGen.

Lemma eredge_relCells_In (inherited : string -> option (string * string))
      (positions : JsMap.t boxPos) (rs : list relationship) :
  forall (cellId : nat) (c : Xml.cell Z),
    In c (relCells inherited positions cellId rs) ->
    exists r, In r rs
              /\ Xml.csource c = Some (source r)
              /\ Xml.ctarget c = Some (target r)
              /\ Xml.value c = Some (escapeXML (label r)).
Proof.
  induction rs as [|r rs IH]; intros cellId c; simpl; [contradiction|].
  intros H. apply in_app_or in H. destruct H as [H|H].
  - destruct (JsMap.get (source r) positions); [|contradiction].
    destruct (JsMap.get (target r) positions); [|contradiction].
    destruct H as [<-|[]]. exists r. split; [now left|]. now repeat split.
  - destruct (IH _ _ H) as [r' [Hr' R]]. exists r'. split; [now right | exact R].
Qed.

Lemma eredge_container_drawn (inherited : string -> option (string * string))
      (clk : Xml.clock) (p : parsed) (n : string) :
  In n (map name (entities p)) ->
  In n (Xml.vertexIds (Xml.cells (generateERDiagramXML inherited clk p))).
Proof.
  intros H. unfold generateERDiagramXML. cbn [Xml.cells Xml.wrapInDrawioXML].
  rewrite vertexIds_app. apply in_or_app. left.
  rewrite vertexIds_vertices.
  - apply in_map_iff in H. destruct H as [e [<- He]].
    destruct (In_nth_error _ _ He) as [i Hi].
    apply ERLayout.erlay_indexed_nth in Hi.
    apply in_map_iff. exists (containerCell (i, e)). split; [reflexivity|].
    apply in_flat_map. exists (i, e). split; [assumption | now left].
  - induction (Xml.indexed (entities p)) as [|ie l IH]; [constructor|].
    cbn [flat_map]. apply Forall_app.
    split; [apply ERFacts.er_entityCells_vertices | exact IH].
Qed.

End EREdges.

(** X6.  In the markup of an ER diagram parsed from any text, every edge
    cell belongs to a relationship of the model: its source and target are
    the relationship's entities, each the id of a vertex cell of the same
    markup (the container of the entity), and its value is the escaped
    label. *)
Theorem generateERDiagramXML_edges
        (inherited : string -> option (string * string))
        (clk : Xml.clock) (mermaidCode : string) :
  exists p,
    ER.parseERDiagram mermaidCode = Ok p
    /\ forall c,
         In c (Xml.cells (ERGen.generateERDiagramXML inherited clk p)) ->
         Xml.isEdge c = true ->
         exists r,
           In r (ER.relationships p)
           /\ Xml.csource c = Some (ER.source r)
           /\ Xml.ctarget c = Some (ER.target r)
           /\ Xml.value c = Some (escapeXML (ER.label r))
           /\ In (ER.source r)
                 (Xml.vertexIds (Xml.cells (ERGen.generateERDiagramXML inherited clk p)))
           /\ In (ER.target r)
                 (Xml.vertexIds (Xml.cells (ERGen.generateERDiagramXML inherited clk p))).
Proof.
  destruct (ERFacts.er_parse_ok mermaidCode) as [p [E [_ F]]].
  exists p. split; [assumption|]. intros c Hc He.
  assert (Hr : In c (ERGen.relCells inherited (ERGen.entityPositions (ER.entities p)) 2
                       (ER.relationships p))).
  { unfold ERGen.generateERDiagramXML in Hc.
    cbn [Xml.cells Xml.wrapInDrawioXML] in Hc.
    apply in_app_or in Hc. destruct Hc as [Hc|Hc]; [|assumption].
    apply in_flat_map in Hc. destruct Hc as [ie [_ Hc]].
    pose proof (ERFacts.er_entityCells_vertices ie) as V.
    rewrite Forall_forall in V. apply V in Hc.
    unfold Xml.isVertex, Xml.isEdge in *. destruct (Xml.ckind c); discriminate. }
  destruct (EREdges.eredge_relCells_In _ _ _ _ _ Hr) as [r [Hin [Hs [Ht Hv]]]].
  rewrite Forall_forall in F. destruct (F r Hin) as [Is It].
  exists r. repeat (split; [assumption|]).
  split; now apply EREdges.eredge_container_drawn.
Qed.

(** ** Class diagrams: the shape of the model *)

Module ClassWf.
Import Re ReFacts Words Class.

Definition visibilities : list string := ["+"; "-"; "#"; "~"].

Definition arrowTokens : list string :=
  ["<|--"; "<|-"; "<--"; "*--"; "o--"; "-->"; "--*"; "--o"; "..>"; "<..";
   ".."; "--"].

Definition attributeOk (a : attribute) : Prop :=
  In (avisibility a) visibilities /\ word (aname a) /\ word (atype a).

Definition methodOk (m : method) : Prop :=
  In (visibility m) visibilities /\ word (mname m) /\ word (returnType m).

Definition classOk (c : class) : Prop :=
  Forall attributeOk (attributes c) /\ Forall methodOk (methods c).

Record wf (st : state) : Prop :=
  { wf_names : Forall word (JsMap.keys (st_classes st));
    wf_classes : Forall classOk (JsMap.values (st_classes st));
    wf_rels : Forall (fun r => In (arrow r) arrowTokens)
                     (st_relationships st) }.

Lemma classwf_register (n : string) (m : JsMap.t class) :
  word n -> Forall word (JsMap.keys m) -> Forall classOk (JsMap.values m) ->
  Forall word (JsMap.keys (register n m))
  /\ Forall classOk (JsMap.values (register n m)).
Proof.
  intros W K A. unfold register. destruct (JsMap.has n m); [now split|].
  split.
  - now apply FlowWf.flowwf_keys_set.
  - apply FlowWf.flowwf_values_set; [assumption | split; constructor].
Qed.

(** The optional visibility sign, [+] when absent. *)
Lemma classwf_visibility (r : regex) (s : string) (cs : caps) :
  exec r s = Some cs -> bodyOf 1 r = Some (oneOf "+-#~") ->
  In (orElse (cap 1 cs) "+") visibilities.
Proof.
  intros H Hb. destruct (cap 1 cs) as [v|] eqn:C; [|now left].
  apply (exec_group_opt r s cs 1 _ v H Hb) in C.
  inversion C as [|p c P| | | | | | | | |]; subst. cbn [orElse].
  unfold visibilities.
  destruct c as [[] [] [] [] [] [] [] []]; vm_compute in P; try discriminate;
    vm_compute; tauto.
Qed.

Lemma classwf_update (cur : string) (f : class -> class) (m m' : JsMap.t class) :
  Forall word (JsMap.keys m) -> Forall classOk (JsMap.values m) ->
  (forall c, classOk c -> classOk (f c)) ->
  update cur f m = Ok m' ->
  Forall word (JsMap.keys m') /\ Forall classOk (JsMap.values m').
Proof.
  intros K A Hf. unfold update.
  destruct (JsMap.get cur m) as [c|] eqn:G; [|discriminate].
  intros [= <-]. split.
  - apply Forall_forall. intros k Hk. apply In_keys_set in Hk.
    rewrite Forall_forall in K. destruct Hk as [->|Hk]; [|now apply K].
    apply K. apply get_In. congruence.
  - apply FlowWf.flowwf_values_set; [assumption|]. apply Hf.
    exact (ERWf.erwf_values_get _ _ _ _ A G).
Qed.

Lemma classwf_relStep (st : state) (trimmed : string) :
  wf st -> wf (relStep st trimmed).
Proof.
  intros [N A R]. unfold relStep.
  destruct (exec relRe trimmed) as [cs|] eqn:H; [|now split].
  assert (W1 : word (capd 1 cs)).
  { apply (exec_word relRe trimmed); [assumption | now left | reflexivity]. }
  assert (W3 : word (capd 3 cs)).
  { apply (exec_word relRe trimmed); [assumption | vm_compute; tauto | reflexivity]. }
  destruct (classwf_register _ _ W1 N A) as [N1 A1].
  destruct (classwf_register _ _ W3 N1 A1) as [N2 A2].
  split; cbn [st_classes st_relationships]; try assumption.
  apply Forall_app. split; [assumption|]. constructor; [|constructor].
  cbn [arrow].
  destruct (exec_group relRe trimmed cs 2 (alts (map lit arrowTokens)) H)
    as [_ M]; [vm_compute; tauto | reflexivity |].
  now apply matches_alts_lit.
Qed.

Lemma classwf_init : wf init.
Proof. split; constructor. Qed.

Lemma classwf_step (st st' : state) (line : string) :
  wf st -> step st line = Ok st' -> wf st'.
Proof.
  intros W. pose proof W as [N A R]. unfold step.
  destruct (String.eqb (Js.trim line) "classDiagram"
            || String.eqb (Js.trim line) EmptyString).
  { now intros [= <-]. }
  destruct (exec classStartRe (Js.trim line)) as [cs|] eqn:Hc.
  { intros [= <-].
    assert (W1 : word (capd 1 cs)).
    { apply (exec_word classStartRe (Js.trim line));
        [assumption | vm_compute; tauto | reflexivity]. }
    destruct (classwf_register _ _ W1 N A) as [N1 A1]. now split. }
  destruct (String.eqb (Js.trim line) "}"); [now intros [= <-]|].
  destruct (exec annotationRe (Js.trim line)) as [cs|] eqn:Ha.
  { intros [= <-].
    assert (W2 : word (capd 2 cs)).
    { apply (exec_word annotationRe (Js.trim line));
        [assumption | vm_compute; tauto | reflexivity]. }
    unfold withClasses. split; cbn [st_classes st_relationships];
      [| |assumption].
    - destruct (JsMap.get (capd 2 cs) (st_classes st));
        now apply FlowWf.flowwf_keys_set.
    - destruct (JsMap.get (capd 2 cs) (st_classes st)) as [c|] eqn:G.
      + apply FlowWf.flowwf_values_set; [assumption|].
        exact (ERWf.erwf_values_get _ _ _ _ A G).
      + apply FlowWf.flowwf_values_set; [assumption | split; constructor]. }
  destruct (truthy (currentClass st)); [|intros [= <-]; now apply classwf_relStep].
  destruct (exec methodRe (Js.trim line)) as [cs|] eqn:Hm.
  { destruct (update _ _ (st_classes st)) as [m'|] eqn:U; [|discriminate].
    cbn [bind]. intros [= <-].
    apply classwf_update in U; try assumption.
    - destruct U as [N' A']. now split.
    - intros c [Ca Cm]. split; cbn [attributes methods]; [assumption|].
      apply Forall_app. split; [assumption|]. constructor; [|constructor].
      split; [|split]; cbn [visibility mname returnType].
      + apply (classwf_visibility methodRe (Js.trim line));
          [assumption | reflexivity].
      + apply (exec_word methodRe (Js.trim line));
          [assumption | vm_compute; tauto | reflexivity].
      + destruct (cap 4 cs) as [v|] eqn:C4; [|split; [reflexivity | discriminate]].
        apply (exec_group_opt methodRe (Js.trim line) cs 4 (plus Re.word)) in C4;
          [|assumption | reflexivity].
        apply matches_plus_chr in C4. destruct C4 as [C4 Ne].
        cbn [orElse]. destruct (String.eqb_spec v EmptyString); [contradiction|].
        now split. }
  destruct (exec attrRe (Js.trim line)) as [cs|] eqn:Hat.
  { destruct (update _ _ (st_classes st)) as [m'|] eqn:U; [|discriminate].
    cbn [bind]. intros [= <-].
    apply classwf_update in U; try assumption.
    - destruct U as [N' A']. now split.
    - intros c [Ca Cm]. split; cbn [attributes methods]; [|assumption].
      apply Forall_app. split; [assumption|]. constructor; [|constructor].
      split; [|split]; cbn [avisibility aname atype].
      + apply (classwf_visibility attrRe (Js.trim line));
          [assumption | reflexivity].
      + apply (exec_word attrRe (Js.trim line));
          [assumption | vm_compute; tauto | reflexivity].
      + apply (exec_word attrRe (Js.trim line));
          [assumption | vm_compute; tauto | reflexivity]. }
  intros [= <-]. now apply classwf_relStep.
Qed.

Lemma classwf_foldM (lines : list string) (st st' : state) :
  wf st -> foldM step lines st = Ok st' -> wf st'.
Proof.
  revert st. induction lines as [|l lines IH]; intros st W; simpl.
  - now intros [= <-].
  - destruct (step st l) as [st1|] eqn:E; [|discriminate]. cbn [bind].
    apply IH. now apply (classwf_step st st1 l).
Qed.

Lemma classwf_parse (code : string) :
  exists p,
    parseClassDiagram code = Ok p
    /\ NoDup (map name (classes p))
    /\ Forall word (map name (classes p))
    /\ Forall classOk (classes p)
    /\ Forall (fun r => In (from r) (map name (classes p))
                        /\ In (to r) (map name (classes p))
                        /\ In (arrow r) arrowTokens)
              (relationships p).
Proof.
  unfold parseClassDiagram.
  destruct (ClassFacts.class_foldM_ok (Js.splitLines (Js.trim code)) init
              ClassFacts.class_init_inv) as [st [E [K D R _]]].
  pose proof (classwf_foldM _ _ _ classwf_init E) as [N A Rk].
  rewrite E. cbn [bind]. eexists. split; [reflexivity|].
  cbn [classes relationships]. rewrite (keyed_values name _ K).
  repeat split; try assumption.
  apply Forall_forall. intros r Hr. rewrite Forall_forall in R, Rk.
  destruct (R r Hr) as [Hs Ht]. repeat split; try assumption; now apply Rk.
Qed.

End ClassWf.

Module ClassLayout.
Import Class ClassGen.
Local Open Scope Z_scope.

(** The height of a class container: the header, one row per attribute,
    one row's worth for the separator when there are methods, one row per
    method, and 10. *)
Definition heightOf (c : class) : Z :=
  30 + 22 * len (attributes c)
  + (if 0 <? len (methods c) then 22 else 0)
  + 22 * len (methods c) + 10.

Lemma box_eq (x y w h x' y' w' h' : Z) :
  x = x' -> y = y' -> w = w' -> h = h' ->
  Some (x, y, w, h) = Some (x', y', w', h').
Proof. congruence. Qed.

Lemma classlay_container_box (index : nat) (c : class) :
  boxOf (containerCell (index, c))
  = Some (60 + 250 * Z.of_nat (index mod 3), 60 + 200 * Z.of_nat (index / 3),
          180, heightOf c).
Proof.
  unfold containerCell, boxOf, classPos, heightOf.
  cbn [Xml.geom Xml.box Xml.gx Xml.gy Xml.gwidth Xml.gheight
       bx by_ bwidth bheight].
  unfold CLASS_SPACING_X, CLASS_SPACING_Y, CLASS_WIDTH, headerHeight,
    memberHeight.
  apply box_eq; lia.
Qed.

Lemma classlay_indexed_In {A : Type} (l : list A) :
  forall (k i : nat) (a : A),
    In (i, a) (Xml.indexedFrom k l) ->
    (k <= i)%nat /\ nth_error l (i - k) = Some a.
Proof.
  induction l as [|x l IH]; intros k i a; simpl; [contradiction|].
  intros [[= <- <-]|H].
  - split; [lia|]. now rewrite Nat.sub_diag.
  - apply IH in H. destruct H as [L N]. split; [lia|].
    replace (i - k)%nat with (S (i - S k)) by lia. exact N.
Qed.

(** Every member row of a class lies below the header and inside the
    container. *)
Lemma classlay_member_rows (index : nat) (c : class) (r : Xml.cell Z) :
  In r (memberCells (index, c)) ->
  Xml.parent r = name c
  /\ exists y h, Xml.geom r = Xml.row y 180 h
                 /\ 30 <= y /\ 0 < h /\ y + h <= heightOf c.
Proof.
  unfold memberCells, heightOf. intros H.
  apply in_app_or in H. destruct H as [H|H];
    [|apply in_app_or in H; destruct H as [H|H]].
  - apply in_map_iff in H. destruct H as [[j a] [<- Hj]].
    apply classlay_indexed_In in Hj. destruct Hj as [_ Hj].
    assert (L : (j - 0 < List.length (attributes c))%nat).
    { apply nth_error_Some. congruence. }
    split; [reflexivity|]. eexists. eexists. split; [reflexivity|].
    unfold headerHeight, memberHeight, len.
    destruct (0 <? Z.of_nat (List.length (methods c))); lia.
  - destruct (0 <? len (methods c)) eqn:M; [|contradiction].
    destruct H as [<-|[]]. split; [reflexivity|].
    eexists. eexists. split; [reflexivity|].
    unfold headerHeight, memberHeight, len in *. lia.
  - apply in_map_iff in H. destruct H as [[j m] [<- Hj]].
    apply classlay_indexed_In in Hj. destruct Hj as [_ Hj].
    assert (L : (j - 0 < List.length (methods c))%nat).
    { apply nth_error_Some. congruence. }
    split; [reflexivity|]. eexists. eexists. split; [reflexivity|].
    unfold headerHeight, memberHeight, len.
    destruct (0 <? Z.of_nat (List.length (methods c))) eqn:M; lia.
Qed.

Lemma classlay_cells_in (clk : Xml.clock) (p : parsed) (i : nat) (c : class) :
  nth_error (classes p) i = Some c ->
  forall r, In r (classCells (i, c)) ->
            In r (Xml.cells (generateClassDiagramXML clk p)).
Proof.
  intros H r Hr. apply ERLayout.erlay_indexed_nth in H.
  unfold generateClassDiagramXML. cbn [Xml.cells Xml.wrapInDrawioXML].
  apply in_or_app. left. apply in_flat_map. now exists (i, c).
Qed.

Lemma classlay_apart (i j : nat) (hi hj : Z) :
  i <> j -> hi <= 200 -> hj <= 200 ->
  apart (60 + 250 * Z.of_nat (i mod 3), 60 + 200 * Z.of_nat (i / 3), 180, hi)
        (60 + 250 * Z.of_nat (j mod 3), 60 + 200 * Z.of_nat (j / 3), 180, hj).
Proof.
  intros N Hi Hj. unfold apart.
  pose proof (Nat.div_mod_eq i 3) as Di. pose proof (Nat.div_mod_eq j 3) as Dj.
  destruct (Nat.lt_trichotomy (i / 3) (j / 3)) as [L|[E|L]].
  - right. right. left. lia.
  - destruct (Nat.lt_trichotomy (i mod 3) (j mod 3)) as [L|[E'|L]].
    + left. lia.
    + exfalso. apply N. lia.
    + right. left. lia.
  - right. right. right. lia.
Qed.

Lemma classlay_on_page (clk : Xml.clock) (p : parsed) (i : nat) (h : Z) :
  (i < List.length (classes p))%nat -> 0 <= h <= 200 ->
  onPage (Xml.pageWidth (generateClassDiagramXML clk p))
         (Xml.pageHeight (generateClassDiagramXML clk p))
         (60 + 250 * Z.of_nat (i mod 3), 60 + 200 * Z.of_nat (i / 3), 180, h).
Proof.
  intros L H. unfold generateClassDiagramXML, onPage.
  cbn [Xml.pageWidth Xml.pageHeight Xml.wrapInDrawioXML].
  unfold ceilThird, len, CLASS_SPACING_X, CLASS_SPACING_Y.
  assert (M : (i mod 3 < 3)%nat) by (apply Nat.mod_upper_bound; lia).
  pose proof (Nat.div_mod_eq i 3) as Di.
  assert (Q : Z.of_nat (i / 3) + 1 <= (Z.of_nat (List.length (classes p)) + 2) / 3).
  { apply Z.div_le_lower_bound; lia. }
  lia.
Qed.

End ClassLayout.

(** X7.  A class model parsed from any text has pairwise distinct class
    names, each a non-empty run of word characters; every attribute and
    method carries one of the visibility signs [+], [-], [#], [~] and has
    words for its name and its type; both ends of every relationship are
    classes of the model, and its arrow is one of the twelve tokens the
    parser knows.  The parser never throws. *)
Theorem parseClassDiagram_model (mermaidCode : string) :
  exists p,
    Class.parseClassDiagram mermaidCode = Ok p
    /\ NoDup (map Class.name (Class.classes p))
    /\ Forall Words.word (map Class.name (Class.classes p))
    /\ Forall (fun c =>
                 Forall (fun a =>
                           In (Class.avisibility a) ["+"; "-"; "#"; "~"]
                           /\ Words.word (Class.aname a)
                           /\ Words.word (Class.atype a))
                        (Class.attributes c)
                 /\ Forall (fun m =>
                              In (Class.visibility m) ["+"; "-"; "#"; "~"]
                              /\ Words.word (Class.mname m)
                              /\ Words.word (Class.returnType m))
                           (Class.methods c))
              (Class.classes p)
    /\ Forall (fun r =>
                 In (Class.from r) (map Class.name (Class.classes p))
                 /\ In (Class.to r) (map Class.name (Class.classes p))
                 /\ In (Class.arrow r) ClassWf.arrowTokens)
              (Class.relationships p).
Proof. exact (ClassWf.classwf_parse mermaidCode). Qed.

(** X8.  The class layout is a grid of three columns: class [i] of any
    model has its container at (60 + 250 (i mod 3), 60 + 200 (i div 3)),
    180 wide, and every attribute row, the separator and every method row
    lie below the 30 pixel header and inside the container.  Containers
    of height at most 200 do not overlap and lie on the page. *)
Theorem generateClassDiagramXML_layout
        (clk : Xml.clock) (p : Class.parsed) (i : nat) (c : Class.class) :
  nth_error (Class.classes p) i = Some c ->
  let doc := ClassGen.generateClassDiagramXML clk p in
  let h := ClassLayout.heightOf c in
  In (ClassGen.containerCell (i, c)) (Xml.cells doc)
  /\ boxOf (ClassGen.containerCell (i, c))
     = Some (60 + 250 * Z.of_nat (i mod 3), 60 + 200 * Z.of_nat (i / 3),
             180, h)%Z
  /\ (forall r,
        In r (ClassGen.memberCells (i, c)) ->
        In r (Xml.cells doc)
        /\ Xml.parent r = Class.name c
        /\ exists y rh, Xml.geom r = Xml.row y 180%Z rh
                        /\ (30 <= y /\ 0 < rh /\ y + rh <= h)%Z)
  /\ (forall i' c',
        nth_error (Class.classes p) i' = Some c' -> i <> i' ->
        (h <= 200)%Z -> (ClassLayout.heightOf c' <= 200)%Z ->
        exists a b,
          boxOf (ClassGen.containerCell (i, c)) = Some a
          /\ boxOf (ClassGen.containerCell (i', c')) = Some b
          /\ apart a b)
  /\ ((h <= 200)%Z ->
      exists a, boxOf (ClassGen.containerCell (i, c)) = Some a
                /\ onPage (Xml.pageWidth doc) (Xml.pageHeight doc) a).
Proof.
  intros H doc h.
  pose proof (ClassLayout.classlay_cells_in clk p i c H) as Hin.
  split; [apply Hin; now left|].
  split; [apply ClassLayout.classlay_container_box|].
  split; [|split].
  - intros r Hr. split; [apply Hin; now right|].
    now apply ClassLayout.classlay_member_rows with (index := i).
  - intros i' c' H' N L L'. eexists. eexists.
    split; [apply ClassLayout.classlay_container_box|].
    split; [apply ClassLayout.classlay_container_box|].
    now apply ClassLayout.classlay_apart.
  - intros L. eexists. split; [apply ClassLayout.classlay_container_box|].
    apply ClassLayout.classlay_on_page.
    + apply nth_error_Some. congruence.
    + split; [|assumption]. subst h. unfold ClassLayout.heightOf, ClassGen.len.
      destruct (0 <? Z.of_nat (List.length (Class.methods c)))%Z; lia.
Qed.

Definition animal : Class.class :=
  {| Class.name := "Animal";
     Class.attributes :=
       [ {| Class.avisibility := "+"; Class.aname := "name";
            Class.atype := "String" |} ];
     Class.methods :=
       [ {| Class.visibility := "+"; Class.mname := "speak";
            Class.params := EmptyString; Class.returnType := "void" |} ];
     Class.stereotype := None |}.

Definition oneClass : Class.parsed :=
  {| Class.classes := [animal]; Class.relationships := [] |}.

(** A class with one attribute and one method: 106 high, at (60, 60). *)
Lemma generateClassDiagramXML_layout_witness :
  boxOf (ClassGen.containerCell (0%nat, animal))
  = Some (60, 60, 180, 106)%Z.
Proof.
  exact (proj1 (proj2
    (generateClassDiagramXML_layout someClock oneClass 0
       (animal) eq_refl))).
Defined.

Module ClassEdges.
Import Class ClassGen.

Lemma cedge_relCells_In (positions : JsMap.t boxPos) (rs : list relationship) :
  forall (cellId : nat) (c : Xml.cell Z),
    In c (relCells positions cellId rs) ->
    exists r, In r rs
              /\ Xml.csource c = Some (from r)
              /\ Xml.ctarget c = Some (to r).
Proof.
  induction rs as [|r rs IH]; intros cellId c; simpl; [contradiction|].
  intros H. apply in_app_or in H. destruct H as [H|H].
  - destruct (JsMap.get (from r) positions); [|contradiction].
    destruct (JsMap.get (to r) positions); [|contradiction].
    destruct (arrows (rtype r)) as [[startArrow endArrow] dashed].
    destruct H as [<-|[]]. exists r. split; [now left|]. now split.
  - destruct (IH _ _ H) as [r' [Hr' R]]. exists r'. split; [now right | exact R].
Qed.

Lemma cedge_container_drawn (clk : Xml.clock) (p : parsed) (n : string) :
  In n (map name (classes p)) ->
  In n (Xml.vertexIds (Xml.cells (generateClassDiagramXML clk p))).
Proof.
  intros H. unfold generateClassDiagramXML. cbn [Xml.cells Xml.wrapInDrawioXML].
  rewrite vertexIds_app. apply in_or_app. left.
  rewrite vertexIds_vertices.
  - apply in_map_iff in H. destruct H as [e [<- He]].
    destruct (In_nth_error _ _ He) as [i Hi].
    apply ERLayout.erlay_indexed_nth in Hi.
    apply in_map_iff. exists (containerCell (i, e)). split; [reflexivity|].
    apply in_flat_map. exists (i, e). split; [assumption | now left].
  - induction (Xml.indexed (classes p)) as [|ie l IH]; [constructor|].
    cbn [flat_map]. apply Forall_app.
    split; [apply ClassFacts.class_classCells_vertices | exact IH].
Qed.

End ClassEdges.

(** X9.  In the markup of a class diagram parsed from any text, every edge
    cell belongs to a relationship of the model, and its source and target
    are the relationship's classes, each the id of a vertex cell of the
    same markup (the container of the class). *)
Theorem generateClassDiagramXML_edges (clk : Xml.clock) (mermaidCode : string) :
  exists p,
    Class.parseClassDiagram mermaidCode = Ok p
    /\ forall c,
         In c (Xml.cells (ClassGen.generateClassDiagramXML clk p)) ->
         Xml.isEdge c = true ->
         exists r,
           In r (Class.relationships p)
           /\ Xml.csource c = Some (Class.from r)
           /\ Xml.ctarget c = Some (Class.to r)
           /\ In (Class.from r)
                 (Xml.vertexIds
                    (Xml.cells (ClassGen.generateClassDiagramXML clk p)))
           /\ In (Class.to r)
                 (Xml.vertexIds
                    (Xml.cells (ClassGen.generateClassDiagramXML clk p))).
Proof.
  destruct (ClassFacts.class_parse_ok mermaidCode) as [p [E [_ F]]].
  exists p. split; [assumption|]. intros c Hc He.
  assert (Hr : In c (ClassGen.relCells
                       (ClassGen.classPositions (Class.classes p)) 2
                       (Class.relationships p))).
  { unfold ClassGen.generateClassDiagramXML in Hc.
    cbn [Xml.cells Xml.wrapInDrawioXML] in Hc.
    apply in_app_or in Hc. destruct Hc as [Hc|Hc]; [|assumption].
    apply in_flat_map in Hc. destruct Hc as [ie [_ Hc]].
    pose proof (ClassFacts.class_classCells_vertices ie) as V.
    rewrite Forall_forall in V. apply V in Hc.
    unfold Xml.isVertex, Xml.isEdge in *. destruct (Xml.ckind c); discriminate. }
  destruct (ClassEdges.cedge_relCells_In _ _ _ _ Hr) as [r [Hin [Hs Ht]]].
  rewrite Forall_forall in F. destruct (F r Hin) as [Is It].
  exists r. repeat (split; [assumption|]).
  split; now apply ClassEdges.cedge_container_drawn.
Qed.

(** ** Sequence diagrams: the shape of the model *)

Module SeqWf.
Import Re ReFacts Words Seq.

(** Each participant has a smaller [order] than all that follow. *)
Fixpoint ascending (l : list participant) : Prop :=
  match l with
  | [] => True
  | a :: l' => Forall (fun b => (order a < order b)%nat) l' /\ ascending l'
  end.

Fixpoint nondescending (l : list participant) : Prop :=
  match l with
  | [] => True
  | a :: l' => Forall (fun b => (order a <= order b)%nat) l' /\ nondescending l'
  end.

Lemma seqwf_insert_sorted (p : participant) (l : list participant) :
  nondescending l -> nondescending (insertByOrder p l).
Proof.
  induction l as [|q l IH]; simpl.
  - intros _. split; [constructor | exact I].
  - intros [F S]. destruct (Nat.leb_spec (order p) (order q)) as [L|L].
    + split; [|now split]. constructor; [assumption|].
      eapply Forall_impl; [|exact F]. simpl. intros b Hb. lia.
    + split; [|now apply IH].
      apply (Permutation_Forall (x := p :: l)).
      * symmetry. apply SeqFacts.seq_insertByOrder_perm.
      * constructor; [lia | assumption].
Qed.

Lemma seqwf_sort_sorted (l : list participant) :
  nondescending (sortByOrder l).
Proof.
  unfold sortByOrder. induction l as [|p l IH]; simpl; [exact I|].
  now apply seqwf_insert_sorted.
Qed.

Lemma seqwf_strict (l : list participant) :
  nondescending l -> NoDup (map order l) -> ascending l.
Proof.
  induction l as [|a l IH]; simpl; [trivial|].
  intros [F S] D. inversion D as [|? ? Na Dl]; subst.
  split; [|now apply IH].
  apply Forall_forall. intros b Hb. rewrite Forall_forall in F.
  specialize (F b Hb).
  assert (order a <> order b).
  { intros E. apply Na. rewrite E. now apply in_map. }
  lia.
Qed.

Definition kinds : list string := ["participant"; "actor"].

Record wf (st : state) : Prop :=
  { wf_ids : Forall word (JsMap.keys (st_participants st));
    wf_kinds : Forall (fun p => In (ptype p) kinds)
                      (JsMap.values (st_participants st));
    wf_below : Forall (fun p => (order p < participantOrder st)%nat)
                      (JsMap.values (st_participants st));
    wf_orders : NoDup (map order (JsMap.values (st_participants st))) }.

Lemma seqwf_set_orders (m : JsMap.t participant) (k : string)
      (v : participant) (c : nat) :
  Forall (fun p => (order p < c)%nat) (JsMap.values m) ->
  NoDup (map order (JsMap.values m)) -> order v = c ->
  Forall (fun p => (order p < S c)%nat) (JsMap.values (JsMap.set k v m))
  /\ NoDup (map order (JsMap.values (JsMap.set k v m))).
Proof.
  unfold JsMap.values. intros F D E.
  induction m as [|[k' v'] m IH]; simpl.
  - split.
    + constructor; [lia | constructor].
    + constructor; [intros [] | constructor].
  - inversion F as [|? ? Fv Fm]; subst. simpl in D.
    inversion D as [|? ? Nv Dm]; subst.
    destruct (String.eqb k' k); simpl.
    + split.
      * constructor; [lia|]. eapply Forall_impl; [|exact Fm]. simpl. lia.
      * constructor; [|assumption]. intros H. apply in_map_iff in H.
        destruct H as [x [Ex Hx]]. rewrite Forall_forall in Fm.
        specialize (Fm x Hx). lia.
    + destruct (IH Fm Dm) as [F' D']. split.
      * constructor; [simpl in Fv; lia | assumption].
      * constructor; [|assumption]. intros H. apply in_map_iff in H.
        destruct H as [x [Ex Hx]].
        assert (Hin : In x (map snd m) \/ x = v).
        { clear - Hx. induction m as [|[k0 v0] m IH]; simpl in Hx.
          - destruct Hx as [<-|[]]. now right.
          - destruct (String.eqb k0 k); simpl in Hx.
            + destruct Hx as [<-|Hx]; [now right | left; now right].
            + destruct Hx as [<-|Hx]; [left; now left|].
              destruct (IH Hx) as [H|H]; [left; now right | now right]. }
        destruct Hin as [Hin| ->].
        -- apply Nv. rewrite <- Ex. now apply in_map.
        -- simpl in Fv. lia.
Qed.

Lemma seqwf_autoAdd (p : string) (m : JsMap.t participant) (o : nat) :
  word p ->
  Forall word (JsMap.keys m) ->
  Forall (fun q => In (ptype q) kinds) (JsMap.values m) ->
  Forall (fun q => (order q < o)%nat) (JsMap.values m) ->
  NoDup (map order (JsMap.values m)) ->
  let r := autoAdd p (m, o) in
  Forall word (JsMap.keys (fst r))
  /\ Forall (fun q => In (ptype q) kinds) (JsMap.values (fst r))
  /\ Forall (fun q => (order q < snd r)%nat) (JsMap.values (fst r))
  /\ NoDup (map order (JsMap.values (fst r))).
Proof.
  intros W K T B D. unfold autoAdd. destruct (JsMap.has p m); cbn [fst snd].
  - now repeat split.
  - destruct (seqwf_set_orders m p
                {| id := p; label := p; ptype := "participant"; order := o |}
                o B D eq_refl) as [B' D'].
    repeat split; try assumption.
    + now apply FlowWf.flowwf_keys_set.
    + apply FlowWf.flowwf_values_set; [assumption | now left].
Qed.

Lemma seqwf_init : wf init.
Proof. split; constructor. Qed.

Lemma seqwf_step (st : state) (line : string) : wf st -> wf (step st line).
Proof.
  intros W. pose proof W as [K T B D]. unfold step.
  destruct (String.eqb (Js.trim line) "sequenceDiagram"
            || String.eqb (Js.trim line) EmptyString); [assumption|].
  destruct (exec participantRe (Js.trim line)) as [cs|] eqn:Hp.
  { destruct (seqwf_set_orders (st_participants st) (capd 2 cs)
                {| id := capd 2 cs; label := orElse (cap 3 cs) (capd 2 cs);
                   ptype := Js.toLowerCase (capd 1 cs);
                   order := participantOrder st |}
                (participantOrder st) B D eq_refl) as [B' D'].
    split; cbn [st_participants participantOrder]; try assumption.
    - apply FlowWf.flowwf_keys_set; [assumption|].
      apply (exec_word participantRe (Js.trim line));
        [assumption | vm_compute; tauto | reflexivity].
    - apply FlowWf.flowwf_values_set; [assumption|]. cbn [ptype].
      destruct (exec_group participantRe (Js.trim line) cs 1
                  (Alt (litI "participant") (litI "actor")) Hp)
        as [_ M]; [now left | reflexivity |].
      unfold kinds.
      inversion M as [| | |? ? ? Ml|? ? ? Mr| | | | | |]; subst.
      + apply (matches_litI "participant") in Ml. destruct Ml as [-> _].
        now left.
      + apply (matches_litI "actor") in Mr. destruct Mr as [-> _].
        right. now left. }
  destruct (exec messageRe (Js.trim line)) as [cs|] eqn:Hm.
  { assert (W1 : word (capd 1 cs)).
    { apply (exec_word messageRe (Js.trim line));
        [assumption | now left | reflexivity]. }
    assert (W3 : word (capd 3 cs)).
    { apply (exec_word messageRe (Js.trim line));
        [assumption | vm_compute; tauto | reflexivity]. }
    destruct (seqwf_autoAdd (capd 1 cs) _ _ W1 K T B D) as [K1 [T1 [B1 D1]]].
    destruct (autoAdd (capd 1 cs) (st_participants st, participantOrder st))
      as [m1 o1]. cbn [fst snd] in *.
    destruct (seqwf_autoAdd (capd 3 cs) _ _ W3 K1 T1 B1 D1) as [K2 [T2 [B2 D2]]].
    now split. }
  destruct (exec noteRe (Js.trim line)) as [cs|]; [now split|].
  destruct (exec activateRe (Js.trim line)) as [cs|]; [now split|].
  assumption.
Qed.

Lemma seqwf_fold (lines : list string) (st : state) :
  wf st -> wf (fold_left step lines st).
Proof.
  revert st. induction lines as [|l lines IH]; intros st W; simpl.
  - assumption.
  - apply IH. now apply seqwf_step.
Qed.

Lemma seqwf_parse (code : string) :
  let p := parseSequenceDiagram code in
  NoDup (map id (participants p))
  /\ Forall word (map id (participants p))
  /\ Forall (fun q => In (ptype q) kinds) (participants p)
  /\ ascending (participants p)
  /\ Forall (fun msg => In (from msg) (map id (participants p))
                        /\ In (to msg) (map id (participants p)))
            (messages p).
Proof.
  intros p. destruct (SeqFacts.seq_parse_ok code) as [D M].
  split; [assumption|].
  pose proof (seqwf_fold (Js.splitLines (Js.trim code)) init seqwf_init)
    as [K T B O].
  pose proof (SeqFacts.seq_fold_inv (Js.splitLines (Js.trim code)) init
                SeqFacts.seq_init_inv) as [Ky _ _].
  subst p. unfold parseSequenceDiagram in *. cbn [participants messages] in *.
  set (st := fold_left step _ init) in *.
  pose proof (SeqFacts.seq_sortByOrder_perm (JsMap.values (st_participants st)))
    as P.
  split; [|split; [|split; [|assumption]]].
  - rewrite <- (keyed_values id _ Ky) in K.
    apply (Permutation_Forall (x := map id (JsMap.values (st_participants st))));
      [|assumption].
    apply Permutation_map. now symmetry.
  - apply (Permutation_Forall (x := JsMap.values (st_participants st)));
      [now symmetry | assumption].
  - apply seqwf_strict; [apply seqwf_sort_sorted|].
    apply (Permutation_NoDup (l := map order (JsMap.values (st_participants st))));
      [|assumption].
    apply Permutation_map. now symmetry.
Qed.

End SeqWf.

(** ** Position tables *)

Section PositionTables.
Context {A V : Type}.
Variable key : A -> string.
Variable val : nat -> A -> V.

(** A table filled from a list with distinct keys, one [set] per element
    with its index, holds for each element the value made at its index. *)
Lemma table_other (l : list A) :
  forall (k : nat) (m : JsMap.t V) (x : string),
    ~ In x (map key l) ->
    JsMap.get x
      (fold_left (fun m (ia : nat * A) =>
                    JsMap.set (key (snd ia)) (val (fst ia) (snd ia)) m)
                 (Xml.indexedFrom k l) m)
    = JsMap.get x m.
Proof.
  induction l as [|a l IH]; intros k m x H; simpl; [reflexivity|].
  rewrite IH by (intros Hx; apply H; now right).
  apply get_set_neq. intros E. apply H. now left.
Qed.

Lemma table_nth (l : list A) :
  forall (k : nat) (m : JsMap.t V) (i : nat) (a : A),
    NoDup (map key l) -> nth_error l i = Some a ->
    JsMap.get (key a)
      (fold_left (fun m (ia : nat * A) =>
                    JsMap.set (key (snd ia)) (val (fst ia) (snd ia)) m)
                 (Xml.indexedFrom k l) m)
    = Some (val (k + i)%nat a).
Proof.
  induction l as [|x l IH]; intros k m i a D H; [now destruct i|].
  inversion D as [|? ? Nx Dl]; subst. destruct i as [|i]; simpl in H |- *.
  - injection H as ->. rewrite table_other by assumption.
    cbn [fst snd]. rewrite get_set_eq. now rewrite Nat.add_0_r.
  - rewrite (IH (S k) _ i a Dl H). f_equal. f_equal. lia.
Qed.

End PositionTables.

Module SeqLayout.
Import Seq SeqGen.
Local Open Scope Z_scope.

Lemma seqlay_position (ps : list participant) (i : nat) (q : participant) :
  NoDup (map id ps) -> nth_error ps i = Some q ->
  JsMap.get (id q) (participantPositions ps) = Some (participantPos i).
Proof.
  intros D H. unfold participantPositions, Xml.indexed.
  exact (table_nth id (fun i _ => participantPos i) ps 0 JsMap.empty i q D H).
Qed.

(** The cell of a message whose two ends are placed. *)
Definition messageCell (cellId : nat) (index : nat) (msg : message)
           (fromPos toPos : ppos) : Xml.cell Z :=
  let yy := 110 + 60 * Z.of_nat index in
  {| Xml.cid := "msg" ++ Js.ofNat cellId;
     Xml.value := Some (escapeXML (text msg));
     Xml.style := if String.eqb (mtype msg) "async"
                  then styleMessageAsync else styleMessage;
     Xml.ckind := Xml.Edge; Xml.parent := "1";
     Xml.csource := None; Xml.ctarget := None;
     Xml.geom := Xml.rel [ {| Xml.pas := "sourcePoint";
                              Xml.px := centerX fromPos; Xml.py := yy |};
                           {| Xml.pas := "targetPoint";
                              Xml.px := centerX toPos; Xml.py := yy |} ] |}.

Lemma seqlay_message_In (positions : JsMap.t ppos)
      (ims : list (nat * message)) :
  forall (cellId : nat) (k : nat) (msg : message) (fromPos toPos : ppos),
    In (k, msg) ims ->
    JsMap.get (from msg) positions = Some fromPos ->
    JsMap.get (to msg) positions = Some toPos ->
    exists n, In (messageCell n k msg fromPos toPos)
                 (fst (messageCells positions cellId ims)).
Proof.
  induction ims as [|[j x] ims IH]; intros cellId k msg fromPos toPos H Gf Gt;
    [contradiction|].
  cbn [messageCells]. destruct H as [[= -> ->]|H].
  - rewrite Gf, Gt.
    destruct (messageCells positions (S cellId) ims) as [cs n] eqn:E.
    exists cellId. cbn [fst]. left. unfold messageCell.
    unfold LIFELINE_START_Y, MESSAGE_SPACING.
    replace (80 + 30 + Z.of_nat k * 60) with (110 + 60 * Z.of_nat k) by lia.
    reflexivity.
  - destruct (JsMap.get (from x) positions) as [fp|];
      [destruct (JsMap.get (to x) positions) as [tp|]|].
    + destruct (IH (S cellId) k msg fromPos toPos H Gf Gt) as [n Hn].
      destruct (messageCells positions (S cellId) ims) as [cs n'].
      exists n. cbn [fst] in *. now right.
    + now apply IH.
    + now apply IH.
Qed.

End SeqLayout.

(** X10.  The participants of a sequence model parsed from any text have
    pairwise distinct ids, each a non-empty run of word characters, and
    the type participant or actor; they are listed by strictly increasing
    [order], the rank of their last declaration; and both ends of every
    message are participants of the model. *)
Theorem parseSequenceDiagram_model (mermaidCode : string) :
  let p := Seq.parseSequenceDiagram mermaidCode in
  NoDup (map Seq.id (Seq.participants p))
  /\ Forall Words.word (map Seq.id (Seq.participants p))
  /\ Forall (fun q => In (Seq.ptype q) ["participant"; "actor"])
            (Seq.participants p)
  /\ SeqWf.ascending (Seq.participants p)
  /\ Forall (fun msg =>
               In (Seq.from msg) (map Seq.id (Seq.participants p))
               /\ In (Seq.to msg) (map Seq.id (Seq.participants p)))
            (Seq.messages p).
Proof. exact (SeqWf.seqwf_parse mermaidCode). Qed.

(** X11.  In the markup of a sequence diagram parsed from any text,
    participant [i] has its box at (80 + 180 i, 20), 100 by 50, and a
    lifeline two pixels wide about x = 130 + 180 i that runs from y = 80
    for 180 + 60 m pixels, m being the number of messages; both lie on the
    page.  Message [k] is drawn as a horizontal arrow at y = 110 + 60 k
    from the centre line of its sender's lifeline to that of its
    receiver's, within the span of the lifelines. *)
Theorem generateSequenceDiagramXML_layout
        (clk : Xml.clock) (mermaidCode : string) :
  let p := Seq.parseSequenceDiagram mermaidCode in
  let doc := SeqGen.generateSequenceDiagramXML clk p in
  let m := Z.of_nat (List.length (Seq.messages p)) in
  (forall i q,
     nth_error (Seq.participants p) i = Some q ->
     exists b l,
       In b (Xml.cells doc) /\ In l (Xml.cells doc)
       /\ Xml.cid b = Seq.id q
       /\ boxOf b = Some (80 + 180 * Z.of_nat i, 20, 100, 50)%Z
       /\ Xml.cid l = Seq.id q ++ "_lifeline"
       /\ boxOf l = Some (129 + 180 * Z.of_nat i, 80, 2, 180 + 60 * m)%Z
       /\ onPage (Xml.pageWidth doc) (Xml.pageHeight doc)
                 (80 + 180 * Z.of_nat i, 20, 100, 50)%Z
       /\ onPage (Xml.pageWidth doc) (Xml.pageHeight doc)
                 (129 + 180 * Z.of_nat i, 80, 2, 180 + 60 * m)%Z)
  /\ (forall k msg,
        nth_error (Seq.messages p) k = Some msg ->
        exists i j qi qj c,
          nth_error (Seq.participants p) i = Some qi
          /\ Seq.id qi = Seq.from msg
          /\ nth_error (Seq.participants p) j = Some qj
          /\ Seq.id qj = Seq.to msg
          /\ In c (Xml.cells doc)
          /\ Xml.isEdge c = true
          /\ Xml.value c = Some (escapeXML (Seq.text msg))
          /\ Xml.geom c
             = Xml.rel [ {| Xml.pas := "sourcePoint";
                            Xml.px := (130 + 180 * Z.of_nat i)%Z;
                            Xml.py := (110 + 60 * Z.of_nat k)%Z |};
                         {| Xml.pas := "targetPoint";
                            Xml.px := (130 + 180 * Z.of_nat j)%Z;
                            Xml.py := (110 + 60 * Z.of_nat k)%Z |} ]
          /\ (80 <= 110 + 60 * Z.of_nat k <= 80 + (180 + 60 * m))%Z).
Proof.
  intros p doc m.
  destruct (SeqFacts.seq_parse_ok mermaidCode) as [D M]. fold p in D, M.
  split.
  - intros i q H.
    assert (L : (i < List.length (Seq.participants p))%nat).
    { apply nth_error_Some. congruence. }
    pose proof (ERLayout.erlay_indexed_nth _ _ _ H) as Hin.
    assert (Hc : forall c,
               In c (SeqGen.participantCells (List.length (Seq.messages p)) (i, q)) ->
               In c (Xml.cells doc)).
    { intros c Hc. unfold doc, SeqGen.generateSequenceDiagramXML.
      destruct (SeqGen.messageCells _ 2 _) as [mcs cellId].
      cbn [Xml.cells Xml.wrapInDrawioXML]. apply in_or_app. left.
      apply in_flat_map. now exists (i, q). }
    eexists. eexists.
    split; [apply Hc; left; reflexivity|].
    split; [apply Hc; right; left; reflexivity|].
    split; [reflexivity|]. split.
    { unfold boxOf, SeqGen.participantPos.
      cbn [Xml.geom Xml.box Xml.gx Xml.gy Xml.gwidth Xml.gheight SeqGen.x].
      unfold SeqGen.PARTICIPANT_SPACING, SeqGen.PARTICIPANT_WIDTH,
        SeqGen.PARTICIPANT_HEIGHT.
      apply ClassLayout.box_eq; lia. }
    split; [reflexivity|]. split.
    { unfold boxOf, SeqGen.participantPos.
      cbn [Xml.geom Xml.box Xml.gx Xml.gy Xml.gwidth Xml.gheight SeqGen.x].
      unfold SeqGen.PARTICIPANT_SPACING, SeqGen.PARTICIPANT_WIDTH,
        SeqGen.LIFELINE_START_Y, SeqGen.MESSAGE_SPACING.
      change (100 / 2)%Z with 50%Z.
      apply ClassLayout.box_eq; subst m; lia. }
    unfold doc, SeqGen.generateSequenceDiagramXML.
    destruct (SeqGen.messageCells _ 2 _) as [mcs cellId].
    cbn [Xml.pageWidth Xml.pageHeight Xml.wrapInDrawioXML].
    unfold onPage, SeqGen.PARTICIPANT_SPACING, SeqGen.LIFELINE_START_Y,
      SeqGen.MESSAGE_SPACING.
    subst m. split; lia.
  - intros k msg H. rewrite Forall_forall in M.
    destruct (M msg (nth_error_In _ _ H)) as [Hf Ht].
    apply in_map_iff in Hf. destruct Hf as [qi [Ei Hi]].
    apply in_map_iff in Ht. destruct Ht as [qj [Ej Hj]].
    destruct (In_nth_error _ _ Hi) as [i Ni].
    destruct (In_nth_error _ _ Hj) as [j Nj].
    pose proof (SeqLayout.seqlay_position _ i qi D Ni) as Gi.
    pose proof (SeqLayout.seqlay_position _ j qj D Nj) as Gj.
    rewrite Ei in Gi. rewrite Ej in Gj.
    destruct (SeqLayout.seqlay_message_In
                (SeqGen.participantPositions (Seq.participants p))
                (Xml.indexed (Seq.messages p)) 2 k msg _ _
                (ERLayout.erlay_indexed_nth _ _ _ H) Gi Gj) as [n Hn].
    exists i, j, qi, qj. eexists.
    split; [assumption|]. split; [assumption|].
    split; [assumption|]. split; [assumption|]. split.
    { unfold doc, SeqGen.generateSequenceDiagramXML.
      destruct (SeqGen.messageCells _ 2 _) as [mcs cellId].
      cbn [Xml.cells Xml.wrapInDrawioXML]. cbn [fst] in Hn.
      apply in_or_app. right. apply in_or_app. left. exact Hn. }
    split; [reflexivity|]. split; [reflexivity|]. split.
    { unfold SeqLayout.messageCell, SeqGen.participantPos.
      cbn [Xml.geom SeqGen.centerX].
      unfold SeqGen.PARTICIPANT_SPACING, SeqGen.PARTICIPANT_WIDTH.
      replace (80 + Z.of_nat i * 180 + 100 / 2)%Z
        with (130 + 180 * Z.of_nat i)%Z by (change (100 / 2)%Z with 50%Z; lia).
      replace (80 + Z.of_nat j * 180 + 100 / 2)%Z
        with (130 + 180 * Z.of_nat j)%Z by (change (100 / 2)%Z with 50%Z; lia).
      reflexivity. }
    assert (L : (k < List.length (Seq.messages p))%nat).
    { apply nth_error_Some. congruence. }
    subst m. lia.
Qed.

(** ** Git graphs: the shape of the model *)

Module GitWf.
Import Re ReFacts Words Git.

(** The id is listed under a branch that a commit with this id is on. *)
Definition filed (cs : list commit) (b : branchRec) : Prop :=
  Forall (fun i => exists c, In c cs /\ id c = i /\ branch c = name b)
         (bcommits b).

Record wf (st : state) : Prop :=
  { wf_keyed : keyed name (st_branches st);
    wf_distinct : NoDup (JsMap.keys (st_branches st));
    wf_names : Forall word (JsMap.keys (st_branches st));
    wf_branch : Forall (fun c => In (branch c) (JsMap.keys (st_branches st)))
                       (st_commits st);
    wf_filed : Forall (filed (st_commits st)) (JsMap.values (st_branches st)) }.

Lemma gitwf_filed_mono (cs cs' : list commit) (b : branchRec) :
  (forall c, In c cs -> In c cs') -> filed cs b -> filed cs' b.
Proof.
  intros H F. unfold filed in *. eapply Forall_impl; [|exact F].
  intros i [c [Hc E]]. exists c. split; [now apply H | assumption].
Qed.

Lemma gitwf_init : wf init.
Proof.
  split; cbn.
  - repeat constructor.
  - repeat constructor. intros [].
  - repeat constructor. discriminate.
  - constructor.
  - repeat constructor.
Qed.

Lemma gitwf_record (st st' : state) (c : commit) (n : nat) :
  wf st -> branch c = currentBranch st -> record st c n = Ok st' -> wf st'.
Proof.
  intros [K D N B F] Hb. unfold record.
  destruct (JsMap.get (currentBranch st) (st_branches st)) as [b|] eqn:G;
    [|discriminate].
  intros [= <-].
  assert (Hn : name b = currentBranch st) by exact (keyed_get name _ _ _ K G).
  assert (Hk : In (currentBranch st) (JsMap.keys (st_branches st))).
  { apply get_In. congruence. }
  split; cbn [st_branches st_commits].
  - apply keyed_set; assumption.
  - now apply NoDup_keys_set.
  - apply FlowWf.flowwf_keys_set; [assumption|].
    rewrite Forall_forall in N. now apply N.
  - apply Forall_app. split.
    + eapply Forall_impl; [|exact B]. intros x Hx. apply In_keys_set. now right.
    + constructor; [|constructor]. apply In_keys_set. left. assumption.
  - apply FlowWf.flowwf_values_set.
    + eapply Forall_impl; [|exact F]. intros x. apply gitwf_filed_mono.
      intros y Hy. apply in_or_app. now left.
    + unfold filed. cbn [bcommits name]. apply Forall_app. split.
      * pose proof (ERWf.erwf_values_get _ _ _ _ F G) as Fb.
        eapply Forall_impl; [|exact Fb]. intros i [x [Hx E]].
        exists x. split; [apply in_or_app; now left | assumption].
      * constructor; [|constructor]. exists c.
        split; [apply in_or_app; right; now left|]. split; [reflexivity|].
        congruence.
Qed.

Lemma gitwf_step (st st' : state) (line : string) :
  wf st -> step st line = Ok st' -> wf st'.
Proof.
  intros W. pose proof W as [K D N B F]. unfold step.
  destruct (String.eqb (Js.trim line) "gitGraph"
            || Js.startsWith "gitGraph" (Js.trim line)
            || String.eqb (Js.trim line) EmptyString).
  { now intros [= <-]. }
  destruct (exec commitRe (Js.trim line)) as [cs|].
  { now apply gitwf_record. }
  destruct (exec branchRe (Js.trim line)) as [cs|] eqn:Hb.
  { intros [= <-]. split; cbn [st_branches st_commits].
    - now apply keyed_set.
    - now apply NoDup_keys_set.
    - apply FlowWf.flowwf_keys_set; [assumption|].
      apply (exec_word branchRe (Js.trim line));
        [assumption | vm_compute; tauto | reflexivity].
    - eapply Forall_impl; [|exact B]. intros x Hx. apply In_keys_set. now right.
    - apply FlowWf.flowwf_values_set; [assumption | constructor]. }
  destruct (exec checkoutRe (Js.trim line)) as [cs|].
  { intros [= <-]. now split. }
  destruct (exec mergeRe (Js.trim line)) as [cs|].
  { now apply gitwf_record. }
  now intros [= <-].
Qed.

Lemma gitwf_foldM (lines : list string) (st st' : state) :
  wf st -> foldM step lines st = Ok st' -> wf st'.
Proof.
  revert st. induction lines as [|l lines IH]; intros st W; simpl.
  - now intros [= <-].
  - destruct (step st l) as [st1|] eqn:E; [|discriminate]. cbn [bind].
    apply IH. now apply (gitwf_step st st1 l).
Qed.

Lemma gitwf_parse (code : string) (p : parsed) :
  parseGitGraph code = Ok p ->
  NoDup (map name (branches p))
  /\ Forall word (map name (branches p))
  /\ Forall (fun c => In (branch c) (map name (branches p))) (commits p)
  /\ Forall (filed (commits p)) (branches p).
Proof.
  unfold parseGitGraph.
  destruct (foldM step _ init) as [st|] eqn:E; [|discriminate].
  cbn [bind]. intros [= <-]. cbn [commits branches].
  destruct (gitwf_foldM _ _ _ gitwf_init E) as [K D N B F].
  rewrite (keyed_values name _ K). now repeat split.
Qed.

End GitWf.

(** X12.  Whenever the git-graph parser returns, the branches of the model
    have pairwise distinct names, each a non-empty run of word characters;
    every commit is on a branch of the model; and every id listed under a
    branch is the id of a commit made on that branch. *)
Theorem parseGitGraph_model (mermaidCode : string) (p : Git.parsed) :
  Git.parseGitGraph mermaidCode = Ok p ->
  NoDup (map Git.name (Git.branches p))
  /\ Forall Words.word (map Git.name (Git.branches p))
  /\ Forall (fun c => In (Git.branch c) (map Git.name (Git.branches p)))
            (Git.commits p)
  /\ Forall (fun b =>
               Forall (fun i => exists c,
                                  In c (Git.commits p) /\ Git.id c = i
                                  /\ Git.branch c = Git.name b)
                      (Git.bcommits b))
            (Git.branches p).
Proof. exact (GitWf.gitwf_parse mermaidCode p). Qed.

(** The three-commit graph: its merge commit is on [main]. *)
Lemma parseGitGraph_model_witness :
  exists p,
    Git.parseGitGraph threeCommits = Ok p
    /\ map Git.name (Git.branches p) = ["main"; "dev"]
    /\ Forall (fun c => In (Git.branch c) (map Git.name (Git.branches p)))
              (Git.commits p).
Proof.
  eexists. split; [vm_compute; reflexivity|]. split; [reflexivity|].
  exact (proj1 (proj2 (proj2
    (parseGitGraph_model threeCommits _ ltac:(vm_compute; reflexivity))))).
Defined.

Module GitEdges.
Import Git GitGen.

Section WithPrototype.
Variable inherited : string -> option string.

Lemma gitedge_last (l : list string) (d : string) :
  orElse (last (map Some l) None) d = d
  \/ In (orElse (last (map Some l) None) d) l.
Proof.
  induction l as [|a l IH]; [now left|].
  destruct l as [|b l].
  - simpl. destruct (String.eqb a EmptyString); [now left | right; now left].
  - change (last (map Some (a :: b :: l)) None)
      with (last (map Some (b :: l)) None).
    destruct IH as [E|H]; [now left | right; now right].
Qed.

Lemma gitedge_mergeSource (bs : list branchRec) (from prevId : string)
      (ids : list string) :
  (forall b i, In b bs -> In i (bcommits b) -> In i ids) ->
  In prevId ids -> In (mergeSource bs from prevId) ids.
Proof.
  intros H Hp. unfold mergeSource, findBranch.
  destruct (find _ bs) as [b|] eqn:F; [|assumption].
  apply find_some in F. destruct F as [Hb _].
  destruct (gitedge_last (bcommits b) prevId) as [E|E].
  - now rewrite E.
  - exact (H b _ Hb E).
Qed.

(** [sourceId]: where the connector of commit [c] starts, [prevCommit]
    being the commit before it. *)
Definition sourceId (bs : list branchRec) (prevCommit c : commit) : string :=
  if String.eqb (ctype c) "MERGE" && truthy (mergeFrom c)
  then mergeSource bs (orElse (mergeFrom c) EmptyString) (id prevCommit)
  else id prevCommit.

(** [commits[index - 1]] in front of the commits still to come. *)
Definition front (prev : option commit) : list commit :=
  match prev with
  | Some q => [q]
  | None => []
  end.

(** The connectors are those of the consecutive commits that are on the
    same branch or of which the second is a merge, each from [sourceId]
    to the second commit. *)
Lemma gitedge_loop_pairs (bs : list branchRec) (positions : JsMap.t cpos) :
  forall (cs : list commit) (prev : option commit) (cellId : nat)
         (out : list (Xml.cell Z)),
    commitLoop inherited bs positions prev cellId cs = Ok out ->
    (forall e, In e out -> Xml.isEdge e = true ->
       exists i q c,
         nth_error (front prev ++ cs) i = Some q
         /\ nth_error (front prev ++ cs) (S i) = Some c
         /\ (branch q = branch c \/ ctype c = "MERGE")
         /\ Xml.ctarget e = Some (id c)
         /\ Xml.csource e = Some (sourceId bs q c))
    /\ (forall i q c,
          nth_error (front prev ++ cs) i = Some q ->
          nth_error (front prev ++ cs) (S i) = Some c ->
          branch q = branch c \/ ctype c = "MERGE" ->
          exists e, In e out /\ Xml.isEdge e = true
                    /\ Xml.ctarget e = Some (id c)
                    /\ Xml.csource e = Some (sourceId bs q c)).
Proof.
  induction cs as [|c cs IH]; intros prev cellId out.
  - intros [= <-]. split; [intros e []|].
    intros i q c _ H. destruct prev; destruct i; discriminate H.
  - cbn [commitLoop]. unfold commitCells.
    destruct (JsMap.get (id c) positions) as [pos|]; [|discriminate].
    cbn [bind fst snd].
    match goal with
    | |- bind (commitLoop _ _ _ (Some c) ?n cs) _ = _ -> _ =>
        destruct (commitLoop inherited bs positions (Some c) n cs)
          as [rest|] eqn:R; [|discriminate]
    end.
    cbn [bind]. intros [= <-].
    destruct (IH (Some c) _ rest R) as [IH1 IH2]. cbn [front] in IH1, IH2.
    split.
    + intros e He Hedge.
      destruct He as [<-|He]; [discriminate Hedge|].
      apply in_app_or in He. destruct He as [He|He].
      * apply in_app_or in He. destruct He as [He|He].
        -- destruct prev as [q|]; [|contradiction].
           destruct (String.eqb (branch q) (branch c)
                     || String.eqb (ctype c) "MERGE") eqn:Cond;
             [|contradiction].
           destruct He as [<-|[]].
           exists 0%nat, q, c. split; [reflexivity|]. split; [reflexivity|].
           split; [|split; reflexivity].
           apply orb_prop in Cond.
           destruct Cond as [E|E]; apply String.eqb_eq in E; tauto.
        -- destruct (truthy (tag c)); [|contradiction].
           destruct He as [<-|[]]. discriminate Hedge.
      * destruct (IH1 e He Hedge) as [i [q [c' [H1 [H2 H3]]]]].
        destruct prev as [q0|]; cbn [front].
        -- exists (S i), q, c'. split; [exact H1|]. split; [exact H2|].
           exact H3.
        -- exists i, q, c'. split; [exact H1|]. split; [exact H2|].
           exact H3.
    + intros i q c' H1 H2 Cond.
      assert (Rest : forall j, nth_error ([c] ++ cs) j = Some q ->
                               nth_error ([c] ++ cs) (S j) = Some c' ->
                               exists e,
                                 In e rest
                                 /\ Xml.isEdge e = true
                                 /\ Xml.ctarget e = Some (id c')
                                 /\ Xml.csource e = Some (sourceId bs q c')).
      { intros j J1 J2. exact (IH2 j q c' J1 J2 Cond). }
      destruct prev as [q0|]; cbn [front] in H1, H2.
      * destruct i as [|i].
        -- cbn [app nth_error] in H1, H2.
           injection H1 as ->. injection H2 as ->.
           assert (B : String.eqb (branch q) (branch c')
                       || String.eqb (ctype c') "MERGE" = true).
           { apply orb_true_intro.
             destruct Cond as [E|E]; [left|right]; now apply String.eqb_eq. }
           rewrite B. eexists.
           split; [cbn [app In]; right; left; reflexivity|].
           split; [reflexivity|]. split; reflexivity.
        -- destruct (Rest i H1 H2) as [e [He R']].
           exists e. split; [|exact R']. right. apply in_or_app. now right.
      * destruct (Rest i H1 H2) as [e [He R']].
        exists e. split; [|exact R']. right. apply in_or_app. now right.
Qed.

End WithPrototype.
End GitEdges.

(** X13.  Whenever the git-graph parser returns, the generator returns as
    well, and the connectors of its markup are those of the consecutive
    commits that are on the same branch or of which the second is a
    merge: each such pair has its connector, every connector belongs to
    such a pair and ends at its second commit, and it starts at the first
    commit of the pair or, when the second is a merge that names a branch
    of the model, at the last commit filed under that branch.  Both ends
    are ids of commits of the model and of commit cells of the markup. *)
Theorem generateGitGraphXML_edges
        (inherited : string -> option string) (clk : Xml.clock)
        (mermaidCode : string) (p : Git.parsed) :
  Git.parseGitGraph mermaidCode = Ok p ->
  exists doc,
    GitGen.generateGitGraphXML inherited clk p = Ok doc
    /\ (forall e,
          In e (Xml.cells doc) -> Xml.isEdge e = true ->
          exists i prev c s,
            nth_error (Git.commits p) i = Some prev
            /\ nth_error (Git.commits p) (S i) = Some c
            /\ (Git.branch prev = Git.branch c \/ Git.ctype c = "MERGE")
            /\ Xml.ctarget e = Some (Git.id c)
            /\ Xml.csource e = Some s
            /\ (if String.eqb (Git.ctype c) "MERGE"
                   && truthy (Git.mergeFrom c)
                then
                  match GitGen.findBranch
                          (orElse (Git.mergeFrom c) EmptyString)
                          (Git.branches p) with
                  | Some b =>
                      s = orElse (last (map Some (Git.bcommits b)) None)
                                 (Git.id prev)
                  | None => s = Git.id prev
                  end
                else s = Git.id prev)
            /\ In s (map Git.id (Git.commits p))
            /\ In s (Xml.vertexIds (Xml.cells doc))
            /\ In (Git.id c) (Xml.vertexIds (Xml.cells doc)))
    /\ (forall i prev c,
          nth_error (Git.commits p) i = Some prev ->
          nth_error (Git.commits p) (S i) = Some c ->
          Git.branch prev = Git.branch c \/ Git.ctype c = "MERGE" ->
          exists e,
            In e (Xml.cells doc) /\ Xml.isEdge e = true
            /\ Xml.ctarget e = Some (Git.id c)
            /\ Xml.csource e
               = Some (GitEdges.sourceId (Git.branches p) prev c)).
Proof.
  intros H.
  destruct (GitWf.gitwf_parse mermaidCode p H) as [_ [_ [_ F]]].
  unfold GitGen.generateGitGraphXML.
  set (bpos := GitGen.branchPositions (Git.branches p)).
  set (cpos := GitGen.commitPositions bpos (Git.commits p)).
  destruct (GitIds.gitid_commitLoop_ids inherited (Git.branches p) cpos
              (Git.commits p) None 2) as [out [E V]].
  { intros c Hc. unfold cpos, GitGen.commitPositions.
    apply (fold_set_keys (fun ic : nat * Git.commit => Git.id (snd ic))).
    right. unfold Xml.indexed.
    rewrite <- (map_map snd Git.id), indexedFrom_snd. now apply in_map. }
  rewrite E. cbn [bind]. eexists. split; [reflexivity|].
  cbn [Xml.cells Xml.wrapInDrawioXML].
  destruct (GitEdges.gitedge_loop_pairs inherited (Git.branches p) cpos
              (Git.commits p) None 2 out E) as [P1 P2].
  cbn [GitEdges.front app] in P1, P2.
  assert (G : forall x, In x (map Git.id (Git.commits p)) ->
                        In x (Xml.vertexIds
                                (map (GitGen.branchLabel inherited bpos)
                                     (Git.branches p) ++ out))).
  { intros x Hx. rewrite vertexIds_app. apply in_or_app. right.
    rewrite V. apply in_map_iff in Hx. destruct Hx as [c [<- Hc]].
    apply in_flat_map. exists c. split; [assumption | now left]. }
  split.
  - intros e He Hedge.
    apply in_app_or in He. destruct He as [He|He].
    { apply in_map_iff in He. destruct He as [b [<- _]]. discriminate Hedge. }
    destruct (P1 e He Hedge) as [i [q [c [H1 [H2 [Cond [Ht Hs]]]]]]].
    assert (Iq : In (Git.id q) (map Git.id (Git.commits p))).
    { apply in_map. now apply nth_error_In in H1. }
    assert (Ic : In (Git.id c) (map Git.id (Git.commits p))).
    { apply in_map. now apply nth_error_In in H2. }
    assert (Is : In (GitEdges.sourceId (Git.branches p) q c)
                    (map Git.id (Git.commits p))).
    { unfold GitEdges.sourceId.
      destruct (String.eqb (Git.ctype c) "MERGE" && truthy (Git.mergeFrom c));
        [|assumption].
      apply GitEdges.gitedge_mergeSource; [|assumption].
      intros b k Hb Hk. rewrite Forall_forall in F. specialize (F b Hb).
      unfold GitWf.filed in F. rewrite Forall_forall in F.
      destruct (F k Hk) as [c0 [Hc0 [<- _]]]. now apply in_map. }
    exists i, q, c, (GitEdges.sourceId (Git.branches p) q c).
    split; [exact H1|]. split; [exact H2|]. split; [exact Cond|].
    split; [exact Ht|]. split; [exact Hs|].
    split; [|split; [exact Is|split; now apply G]].
    unfold GitEdges.sourceId, GitGen.mergeSource.
    destruct (String.eqb (Git.ctype c) "MERGE" && truthy (Git.mergeFrom c));
      [|reflexivity].
    destruct (GitGen.findBranch _ _); reflexivity.
  - intros i q c H1 H2 Cond.
    destruct (P2 i q c H1 H2 Cond) as [e [He R]].
    exists e. split; [|exact R]. apply in_or_app. now right.
Qed.

(** The connector of the merge in the three-commit graph runs from the
    commit on [dev] to the merge. *)
Lemma generateGitGraphXML_edges_witness :
  exists p doc e,
    Git.parseGitGraph threeCommits = Ok p
    /\ GitGen.generateGitGraphXML (fun _ => None) someClock p = Ok doc
    /\ In e (Xml.cells doc) /\ Xml.isEdge e = true
    /\ Xml.ctarget e = Some "merge_2" /\ Xml.csource e = Some "c1".
Proof.
  destruct (Git.parseGitGraph threeCommits) as [p|] eqn:P;
    [|vm_compute in P; discriminate].
  destruct (generateGitGraphXML_edges (fun _ => None) someClock threeCommits
              p P) as [doc [E [_ G]]].
  assert (Hp : Ok p = Git.parseGitGraph threeCommits) by now symmetry.
  vm_compute in Hp. injection Hp as ->.
  destruct (G 1%nat _ _ eq_refl eq_refl (or_intror eq_refl))
    as [e [He [Ee [Te Se]]]].
  eexists. exists doc, e. split; [reflexivity|].
  split; [exact E|]. split; [exact He|]. split; [exact Ee|].
  split; [exact Te | exact Se].
Defined.

Section TableValues.
Context {A V : Type}.
Variable key : A -> string.
Variable val : nat -> A -> V.
Variable P : V -> Prop.

(** Every value of a table filled from a list was made from an element of
    the list at its index, or was there before. *)
Lemma table_values (l : list A) :
  forall (k : nat) (m : JsMap.t V),
    Forall P (JsMap.values m) ->
    (forall i a, In (i, a) (Xml.indexedFrom k l) -> P (val i a)) ->
    Forall P
      (JsMap.values
         (fold_left (fun m (ia : nat * A) =>
                       JsMap.set (key (snd ia)) (val (fst ia) (snd ia)) m)
                    (Xml.indexedFrom k l) m)).
Proof.
  induction l as [|a l IH]; intros k m F H; simpl; [assumption|].
  apply IH.
  - apply FlowWf.flowwf_values_set; [assumption|]. apply H. now left.
  - intros i x Hi. apply H. now right.
Qed.

End TableValues.

Module GitLayout.
Import Git GitGen.
Local Open Scope Z_scope.

Section WithPrototype.
Variable inherited : string -> option string.

(** The columns of the branches run from 100 to 100 times their number. *)
Definition column (nb : nat) (v : Z) : Prop :=
  100 <= v <= 100 * Z.of_nat nb.

(** A commit sits in a column, or at 100 when its branch has none, and in
    one of the rows 50, 110, 170, ... *)
Definition placed (nb n : nat) (pos : cpos) : Prop :=
  100 <= x pos <= Z.max 100 (100 * Z.of_nat nb)
  /\ exists k, (k < n)%nat /\ y pos = 50 + 60 * Z.of_nat k.

Lemma gitlay_indexed_lt {A : Type} (l : list A) (i : nat) (a : A) :
  In (i, a) (Xml.indexed l) -> (i < List.length l)%nat.
Proof.
  intros H. apply ClassLayout.classlay_indexed_In in H.
  destruct H as [_ H]. rewrite Nat.sub_0_r in H.
  apply nth_error_Some. congruence.
Qed.

Lemma gitlay_columns (bs : list branchRec) :
  Forall (column (List.length bs)) (JsMap.values (branchPositions bs)).
Proof.
  unfold branchPositions.
  apply (table_values name (fun i _ => START_X + Z.of_nat i * BRANCH_SPACING_X)).
  - constructor.
  - intros i b H. apply gitlay_indexed_lt in H.
    unfold column, START_X, BRANCH_SPACING_X. lia.
Qed.

Lemma gitlay_rows (bs : list branchRec) (cs : list commit) :
  Forall (placed (List.length bs) (List.length cs))
         (JsMap.values (commitPositions (branchPositions bs) cs)).
Proof.
  unfold commitPositions.
  apply (table_values id
           (fun i c =>
              {| x := match JsMap.get (branch c) (branchPositions bs) with
                      | Some v => if v =? 0 then START_X else v
                      | None => START_X
                      end;
                 y := START_Y + Z.of_nat i * COMMIT_SPACING_Y |})).
  - constructor.
  - intros i c H. apply gitlay_indexed_lt in H. split; cbn [x y].
    + destruct (JsMap.get (branch c) (branchPositions bs)) as [v|] eqn:G;
        [|unfold START_X; lia].
      pose proof (ERWf.erwf_values_get _ _ _ _ (gitlay_columns bs) G) as C.
      unfold column in C. destruct (v =? 0); unfold START_X; lia.
    + exists i. split; [assumption|]. unfold START_Y, COMMIT_SPACING_Y. lia.
Qed.

(** The vertex cells written for a commit: the commit itself, 30 by 30
    about its position, and its tag label to the right. *)
Lemma gitlay_commitCells (bs : list branchRec) (positions : JsMap.t cpos)
      (prev : option commit) (cellId : nat) (k : commit)
      (out : list (Xml.cell Z) * nat) :
  commitCells inherited bs positions prev cellId k = Ok out ->
  exists pos,
    JsMap.get (id k) positions = Some pos
    /\ forall c, In c (fst out) -> Xml.isVertex c = true ->
                 boxOf c = Some (x pos - 15, y pos - 15, 30, 30)
                 \/ boxOf c = Some (x pos + 30, y pos - 10, 60, 20).
Proof.
  unfold commitCells.
  destruct (JsMap.get (id k) positions) as [pos|]; [|discriminate].
  match goal with
  | |- Ok ?v = Ok out -> _ =>
      intros E; assert (E' : v = out) by congruence; clear E
  end.
  exists pos. split; [reflexivity|]. subst out. cbn [fst].
  intros c Hc Hv.
  apply in_app_or in Hc. destruct Hc as [[<-|[]]|Hc]; [now left|].
  apply in_app_or in Hc. destruct Hc as [Hc|Hc].
  - destruct prev as [q|]; [|contradiction].
    destruct (String.eqb (branch q) (branch k)
              || String.eqb (ctype k) "MERGE"); [|contradiction].
    destruct Hc as [<-|[]]. discriminate Hv.
  - destruct (truthy (tag k)); [|contradiction].
    destruct Hc as [<-|[]]. now right.
Qed.

(** The rectangles of the cells written for placed commits lie on a page
    wide enough for the columns and high enough for the rows. *)
Lemma gitlay_commit_cells (bs : list branchRec) (positions : JsMap.t cpos)
      (nb n : nat) (W H : Z) :
  100 * Z.of_nat nb + 200 <= W -> 600 <= W -> 60 * Z.of_nat n + 100 <= H ->
  Forall (placed nb n) (JsMap.values positions) ->
  forall (cs : list commit) (prev : option commit) (cellId : nat)
         (out : list (Xml.cell Z)),
    commitLoop inherited bs positions prev cellId cs = Ok out ->
    forall c, In c out -> Xml.isVertex c = true ->
              exists a, boxOf c = Some a /\ onPage W H a.
Proof.
  intros HW HW' HH F. induction cs as [|k cs IH]; intros prev cellId out.
  - intros [= <-] c [].
  - cbn [commitLoop].
    destruct (commitCells inherited bs positions prev cellId k)
      as [o|] eqn:C; [|discriminate].
    cbn [bind].
    destruct (commitLoop inherited bs positions (Some k) (snd o) cs)
      as [rest|] eqn:R; [|discriminate].
    cbn [bind]. intros E c Hc Hv.
    assert (E' : (fst o ++ rest)%list = out) by congruence. subst out.
    apply in_app_or in Hc. destruct Hc as [Hc|Hc];
      [|exact (IH _ _ _ R c Hc Hv)].
    destruct (gitlay_commitCells _ _ _ _ _ _ C) as [pos [G B]].
    pose proof (ERWf.erwf_values_get _ _ _ _ F G) as [Px [r [Lr Py]]].
    destruct (B c Hc Hv) as [Bc|Bc]; rewrite Bc; eexists;
      (split; [reflexivity|]); unfold onPage; lia.
Qed.

Lemma gitlay_generate (clk : Xml.clock) (p : parsed) :
  exists doc,
    generateGitGraphXML inherited clk p = Ok doc
    /\ forall c, In c (Xml.cells doc) -> Xml.isVertex c = true ->
                 exists a, boxOf c = Some a
                           /\ onPage (Xml.pageWidth doc) (Xml.pageHeight doc) a.
Proof.
  unfold generateGitGraphXML.
  set (bpos := branchPositions (branches p)).
  set (cposs := commitPositions bpos (commits p)).
  destruct (GitIds.gitid_commitLoop_ids inherited (branches p) cposs
              (commits p) None 2) as [out [E _]].
  { intros c Hc. unfold cposs, commitPositions.
    apply (fold_set_keys (fun ic : nat * commit => id (snd ic))).
    right. unfold Xml.indexed.
    rewrite <- (map_map snd id), indexedFrom_snd. now apply in_map. }
  rewrite E. cbn [bind]. eexists. split; [reflexivity|].
  cbn [Xml.cells Xml.pageWidth Xml.pageHeight Xml.wrapInDrawioXML].
  unfold BRANCH_SPACING_X, COMMIT_SPACING_Y.
  intros c Hc Hv. apply in_app_or in Hc. destruct Hc as [Hc|Hc].
  - apply in_map_iff in Hc. destruct Hc as [b [<- Hb]].
    unfold branchLabel, boxOf.
    cbn [Xml.geom Xml.box Xml.gx Xml.gy Xml.gwidth Xml.gheight].
    eexists. split; [reflexivity|]. unfold onPage.
    destruct (JsMap.get (name b) bpos) as [v|] eqn:G.
    + pose proof (ERWf.erwf_values_get _ _ _ _ (gitlay_columns (branches p)) G)
        as C. unfold column in C. lia.
    + unfold START_X. lia.
  - apply (gitlay_commit_cells (branches p) cposs
             (List.length (branches p)) (List.length (commits p)))
      with (cs := commits p) (prev := @None commit) (cellId := 2%nat)
           (out := out); try assumption; try lia.
    apply gitlay_rows.
Qed.

End WithPrototype.
End GitLayout.

(** X14.  For every git-graph model the generator returns, and every
    vertex cell of its markup, branch label, commit or tag label, lies on
    the page, whose size grows with the numbers of branches and of
    commits. *)
Theorem generateGitGraphXML_on_page
        (inherited : string -> option string) (clk : Xml.clock)
        (p : Git.parsed) :
  exists doc,
    GitGen.generateGitGraphXML inherited clk p = Ok doc
    /\ forall c,
         In c (Xml.cells doc) -> Xml.isVertex c = true ->
         exists a, boxOf c = Some a
                   /\ onPage (Xml.pageWidth doc) (Xml.pageHeight doc) a.
Proof. exact (GitLayout.gitlay_generate inherited clk p). Qed.

(** ** Mindmaps: what is drawn is a tree *)

Module MindDrawn.
Import Mindmap MindGen MindGenFacts.

(** The ids of a tree, parent first. *)
Fixpoint treeIds (t : tree) : list string :=
  match t with
  | Node nid kids => nid :: flat_map treeIds kids
  end.

Lemma drawn_eachChild_ids (rec : tree -> R -> list (string * npos))
      (angleOf : nat -> R) (cs : list tree) :
  (forall c a, In c cs -> map fst (rec c a) = treeIds c) ->
  forall index,
    map fst (eachChild rec angleOf cs index) = flat_map treeIds cs.
Proof.
  induction cs as [|c cs IH]; intros H index; cbn [eachChild flat_map];
    [reflexivity|].
  rewrite map_app, (H c _ (or_introl eq_refl)), IH; [reflexivity|].
  intros c' a Hc. apply H. now right.
Qed.

(** The positions are written for the ids of the tree, whatever the
    engine, the angle, the parent's centre and the level. *)
Lemma drawn_ids (e : Engine.t) (n : nat) :
  forall (t : tree) (angle px py : R) (l : nat),
    (Radial.depth t <= n)%nat ->
    map fst (calculateNodePositions e t angle px py l) = treeIds t.
Proof.
  induction n as [|n IH]; intros [nid kids] angle px py l Hd;
    cbn [calculateNodePositions treeIds map fst]; f_equal.
  - destruct kids as [|k kids]; [reflexivity|].
    pose proof (Radial.radial_depth_child nid (k :: kids) k (or_introl eq_refl)).
    lia.
  - apply drawn_eachChild_ids. intros c a Hc. apply IH.
    apply (Radial.radial_depth_child nid) in Hc. lia.
Qed.

Lemma drawn_sequence {A B : Type} (g : A -> option B) (l : list A)
      (bs : list B) :
  sequence (map g l) = Some bs ->
  forall b, In b bs -> exists a, In a l /\ g a = Some b.
Proof.
  revert bs. induction l as [|a l IH]; intros bs; cbn [map sequence].
  - intros [= <-] b [].
  - destruct (g a) as [x|] eqn:G; [|discriminate].
    destruct (sequence (map g l)) as [r|]; [|discriminate].
    intros [= <-] b [<-|Hb].
    + exists a. split; [now left | assumption].
    + destruct (IH r eq_refl b Hb) as [a' [Ha' E]].
      exists a'. split; [now right | assumption].
Qed.

(** The tree unfolded from [i] holds [i], and every other id in it is, in
    the node list, a child of one that it holds. *)
Lemma drawn_closure (ns : list node) (fuel : nat) :
  forall (i : string) (t : tree),
    unfold ns fuel i = Some t ->
    In i (treeIds t)
    /\ forall w, In w (treeIds t) ->
                 w = i \/ exists q, In q (treeIds t) /\ In w (childIds ns q).
Proof.
  induction fuel as [|f IH]; intros i t; [discriminate|].
  cbn [unfold].
  destruct (sequence (map (unfold ns f) (childIds ns i))) as [ks|] eqn:Sq;
    [|discriminate].
  intros [= <-]. cbn [treeIds].
  split; [now left|]. intros w [<-|Hw]; [now left|]. right.
  apply in_flat_map in Hw. destruct Hw as [k [Hk Hw]].
  destruct (drawn_sequence _ _ _ Sq k Hk) as [ci [Hci U]].
  destruct (IH ci k U) as [_ Hcl].
  destruct (Hcl w Hw) as [->|[q [Hq Hwq]]].
  - exists i. split; [now left | assumption].
  - exists q. split; [|assumption]. right.
    apply in_flat_map. exists k. split; assumption.
Qed.

Lemma drawn_childIds (ns : list node) (q w : string) :
  In w (childIds ns q) ->
  exists n, In n ns /\ id n = w /\ parentId n = Some q.
Proof.
  unfold childIds. destruct (inNodeMap ns q); [|contradiction].
  rewrite in_map_iff. intros [n [<- Hn]].
  apply filter_In in Hn. destruct Hn as [Hin Hp].
  apply andb_prop in Hp. destruct Hp as [T E].
  apply String.eqb_eq in E.
  apply (truthy_orElse _ EmptyString) in T. rewrite E in T.
  exists n. repeat split; assumption.
Qed.

(** [rootNode] is the object of a node whose [parentId] is falsy. *)
Lemma drawn_rootId (ns : list node) (r : string) :
  rootId ns = Some r ->
  exists n, In n ns /\ id n = r /\ truthy (parentId n) = false.
Proof.
  unfold rootId.
  assert (G : forall acc,
             fold_left (fun r n => if truthy (parentId n) then r
                                   else Some (id n)) ns acc = Some r ->
             acc = Some r
             \/ exists n, In n ns /\ id n = r /\ truthy (parentId n) = false).
  { induction ns as [|n ns IH]; intros acc; cbn [fold_left]; [now left|].
    intros H. apply IH in H. destruct H as [H|[m [Hm E]]].
    - destruct (truthy (parentId n)) eqn:T; [now left|].
      right. exists n. repeat split; [now left | congruence | assumption].
    - right. exists m. split; [now right | assumption]. }
  intros H. apply G in H. destruct H as [H|H]; [discriminate | assumption].
Qed.

Lemma drawn_id_inj (ns : list node) (a b : node) :
  NoDup (map id ns) -> In a ns -> In b ns -> id a = id b -> a = b.
Proof.
  induction ns as [|n ns IH]; cbn [map]; intros D Ha Hb E; [contradiction|].
  apply NoDup_cons_iff in D. destruct D as [Hn D].
  destruct Ha as [<-|Ha], Hb as [<-|Hb]; try reflexivity.
  - exfalso. apply Hn. rewrite E. now apply in_map.
  - exfalso. apply Hn. rewrite <- E. now apply in_map.
  - now apply IH.
Qed.

(** Among nodes with distinct ids, of which [nr] is kept, the kept ones
    are one more than the kept ones other than [nr]. *)
Lemma drawn_count (keep : node -> bool) (nr : node) (ns : list node) :
  NoDup (map id ns) -> In nr ns -> keep nr = true ->
  List.length (filter keep ns)
  = S (List.length
         (filter (fun n => keep n && negb (String.eqb (id n) (id nr))) ns)).
Proof.
  induction ns as [|n ns IH]; cbn [map]; intros D Hin K; [contradiction|].
  apply NoDup_cons_iff in D. destruct D as [Hn D]. cbn [filter].
  destruct Hin as [->|Hin].
  - rewrite K, String.eqb_refl. cbn [andb negb List.length]. f_equal. f_equal.
    apply filter_ext_in. intros m Hm.
    destruct (String.eqb (id m) (id nr)) eqn:E;
      [|now rewrite andb_true_r].
    apply String.eqb_eq in E. exfalso. apply Hn. rewrite <- E.
    now apply in_map.
  - assert (E : String.eqb (id n) (id nr) = false).
    { apply String.eqb_neq. intros E. apply Hn. rewrite E. now apply in_map. }
    rewrite E, andb_true_r. destruct (keep n); cbn [List.length];
      now rewrite (IH D Hin K).
Qed.

Lemma drawn_edgeCount (positions : JsMap.t npos) (ns : list node) :
  forall cellId,
    Xml.edgeCount (nodeCells positions cellId ns)
    = List.length
        (filter (fun n => JsMap.has (id n) positions
                          && (truthy (parentId n)
                              && JsMap.has (orElse (parentId n) EmptyString)
                                           positions)) ns).
Proof.
  unfold Xml.edgeCount.
  induction ns as [|n ns IH]; intros cellId; [reflexivity|].
  cbn [nodeCells filter].
  assert (Hh : JsMap.has (id n) positions
               = match JsMap.get (id n) positions with
                 | Some _ => true | None => false end) by reflexivity.
  rewrite Hh.
  destruct (JsMap.get (id n) positions) as [pos|]; [|apply IH].
  cbn [andb].
  destruct (truthy (parentId n)
            && JsMap.has (orElse (parentId n) EmptyString) positions);
    cbn [filter Xml.isEdge Xml.ckind app List.length]; now rewrite IH.
Qed.

(** A connector is written for a positioned node with a positioned
    parent, from the parent to the node. *)
Lemma drawn_edge_In (positions : JsMap.t npos) (ns : list node)
      (e : Xml.cell R) :
  forall cellId,
    In e (nodeCells positions cellId ns) -> Xml.isEdge e = true ->
    exists n p,
      In n ns /\ parentId n = Some p
      /\ JsMap.has (id n) positions = true
      /\ JsMap.has p positions = true
      /\ Xml.csource e = Some p /\ Xml.ctarget e = Some (id n).
Proof.
  induction ns as [|n ns IH]; intros cellId; cbn [nodeCells];
    [contradiction|].
  assert (Next : forall c,
             In e (nodeCells positions c ns) -> Xml.isEdge e = true ->
             exists m p,
               In m (n :: ns) /\ parentId m = Some p
               /\ JsMap.has (id m) positions = true
               /\ JsMap.has p positions = true
               /\ Xml.csource e = Some p /\ Xml.ctarget e = Some (id m)).
  { intros c Hc He. destruct (IH c Hc He) as [m [p [Hm H]]].
    exists m, p. split; [now right | assumption]. }
  destruct (JsMap.get (id n) positions) as [pos|] eqn:G; [|apply Next].
  intros [<-|Hin] He; [discriminate He|].
  apply in_app_or in Hin. destruct Hin as [Hin|Hin].
  - destruct (truthy (parentId n)) eqn:T; cbn [andb] in Hin;
      [|contradiction].
    destruct (JsMap.has (orElse (parentId n) EmptyString) positions) eqn:Hp;
      [|contradiction].
    destruct Hin as [<-|[]].
    apply (truthy_orElse _ EmptyString) in T.
    exists n, (orElse (parentId n) EmptyString).
    unfold JsMap.has. rewrite G.
    repeat split; try assumption; try reflexivity. now left.
  - exact (Next _ Hin He).
Qed.

Lemma drawn_nothing (ns : list node) :
  forall cellId, nodeCells JsMap.empty cellId ns = [].
Proof. induction ns as [|n ns IH]; intros cellId; [reflexivity | apply IH]. Qed.

Lemma drawn_sequence_all {A B : Type} (g : A -> option B) (l : list A)
      (bs : list B) :
  sequence (map g l) = Some bs ->
  forall a, In a l -> exists b, In b bs /\ g a = Some b.
Proof.
  revert bs. induction l as [|x l IH]; intros bs; cbn [map sequence].
  - intros _ a [].
  - destruct (g x) as [y|] eqn:G; [|discriminate].
    destruct (sequence (map g l)) as [r|]; [|discriminate].
    intros [= <-] a [<-|Ha].
    + exists y. split; [now left | assumption].
    + destruct (IH r eq_refl a Ha) as [b [Hb E]].
      exists b. split; [now right | assumption].
Qed.

(** The tree unfolded from a node holds every child of every node it
    holds. *)
Lemma drawn_children_in (ns : list node) (fuel : nat) :
  forall (i : string) (t : tree),
    unfold ns fuel i = Some t ->
    forall q, In q (treeIds t) ->
              forall w, In w (childIds ns q) -> In w (treeIds t).
Proof.
  induction fuel as [|f IH]; intros i t; [discriminate|].
  cbn [unfold].
  destruct (sequence (map (unfold ns f) (childIds ns i))) as [ks|] eqn:Sq;
    [|discriminate].
  intros [= <-] q Hq w Hw. cbn [treeIds] in *. right.
  apply in_flat_map. destruct Hq as [<-|Hq].
  - destruct (drawn_sequence_all _ _ _ Sq w Hw) as [k [Hk U]].
    exists k. split; [assumption|]. exact (proj1 (drawn_closure _ _ _ _ U)).
  - apply in_flat_map in Hq. destruct Hq as [k [Hk Hq]].
    destruct (drawn_sequence _ _ _ Sq k Hk) as [ci [_ U]].
    exists k. split; [assumption|]. exact (IH ci k U q Hq w Hw).
Qed.

(** [below ns a d w]: [d] links of [children] lead from the object with
    id [a] down to the one with id [w]. *)
Inductive below (ns : list node) (a : string) : nat -> string -> Prop :=
| below_self : below ns a 0 a
| below_child (d : nat) (q w : string) :
    below ns a d q -> In w (childIds ns q) -> below ns a (S d) w.

Lemma drawn_below_trans (ns : list node) (a b c : string) (d d' : nat) :
  below ns a d b -> below ns b d' c -> below ns a (d + d') c.
Proof.
  intros Hab Hbc. induction Hbc as [|d' q w Hq IH Hw].
  - now rewrite Nat.add_0_r.
  - rewrite Nat.add_succ_r. now apply (below_child ns a _ q).
Qed.

(** Every id of the tree unfolded from [i] hangs below [i], and what hangs
    below [i] is in the tree. *)
Lemma drawn_below_tree (ns : list node) (fuel : nat) :
  forall (i : string) (t : tree),
    unfold ns fuel i = Some t ->
    forall w, In w (treeIds t) -> exists d, below ns i d w.
Proof.
  induction fuel as [|f IH]; intros i t; [discriminate|].
  cbn [unfold].
  destruct (sequence (map (unfold ns f) (childIds ns i))) as [ks|] eqn:Sq;
    [|discriminate].
  intros [= <-] w. cbn [treeIds]. intros [<-|Hw].
  - exists 0%nat. constructor.
  - apply in_flat_map in Hw. destruct Hw as [k [Hk Hw]].
    destruct (drawn_sequence _ _ _ Sq k Hk) as [ci [Hci U]].
    destruct (IH ci k U w Hw) as [d Hd].
    exists (1 + d)%nat. apply (drawn_below_trans ns i ci w); [|assumption].
    apply (below_child ns i 0 i); [constructor | assumption].
Qed.

Lemma drawn_tree_below (ns : list node) (fuel : nat) (i : string) (t : tree) :
  unfold ns fuel i = Some t ->
  forall d w, below ns i d w -> In w (treeIds t).
Proof.
  intros U d w H. induction H as [|d q w Hq IH Hw].
  - exact (proj1 (drawn_closure _ _ _ _ U)).
  - exact (drawn_children_in _ _ _ _ U q IH w Hw).
Qed.

(** With parents before children, what hangs below node [i] comes no
    earlier than node [i]. *)
Lemma drawn_below_index (ns : list node) (a w : string) (d : nat) :
  ordered ns -> below ns a d w ->
  forall j, w = "node" ++ Js.ofNat j ->
            exists i, a = "node" ++ Js.ofNat i /\ (i + d <= j)%nat.
Proof.
  intros O H. induction H as [|d q w Hq IH Hw]; intros j E.
  - exists j. split; [assumption | lia].
  - destruct (drawn_childIds _ _ _ Hw) as [n [Hn [En Pn]]].
    destruct (In_nth_error _ _ Hn) as [k Hk].
    destruct (O k n Hk) as [Ek Hp].
    rewrite En, E in Ek. apply tree_node_id_inj in Ek. subst k.
    destruct (Hp q Pn) as [p [Lp Eq]].
    destruct (IH p Eq) as [i [Ei Li]].
    exists i. split; [assumption | lia].
Qed.

(** An object is pushed to the [children] of one parent only. *)
Lemma drawn_one_parent (ns : list node) (w q q' : string) :
  NoDup (map id ns) ->
  In w (childIds ns q) -> In w (childIds ns q') -> q = q'.
Proof.
  intros D H H'.
  destruct (drawn_childIds _ _ _ H) as [n [Hn [En Pn]]].
  destruct (drawn_childIds _ _ _ H') as [n' [Hn' [En' Pn']]].
  assert (n' = n) by (apply (drawn_id_inj ns); congruence).
  congruence.
Qed.

(** Two objects above the same one lie on one chain. *)
Lemma drawn_below_chain (ns : list node) (c c' w : string) (d d' : nat) :
  NoDup (map id ns) ->
  below ns c d w -> below ns c' d' w ->
  (exists k, below ns c k c') \/ (exists k, below ns c' k c).
Proof.
  intros D H. revert c' d'. induction H as [|d q w Hq IH Hw]; intros c' d' H'.
  - right. now exists d'.
  - inversion H' as [|d0 q' w' Hq' Hw']; subst.
    + left. exists (S d). now apply (below_child ns c d q).
    + rewrite <- (drawn_one_parent ns w q q' D Hw Hw') in Hq'.
      exact (IH c' d0 Hq').
Qed.

(** A child of node [i] is not above node [i], nor above another child of
    node [i]. *)
Lemma drawn_child_not_above (ns : list node) (i : nat) (c : string) (d : nat) :
  ordered ns ->
  In c (childIds ns ("node" ++ Js.ofNat i)) ->
  below ns c d ("node" ++ Js.ofNat i) -> False.
Proof.
  intros O Hc H.
  destruct (tree_childIds_later ns i c O Hc) as [k [Lk Ek]].
  destruct (drawn_below_index ns c _ d O H i eq_refl) as [m [Em Lm]].
  rewrite Ek in Em. apply tree_node_id_inj in Em. lia.
Qed.

Lemma drawn_siblings_apart (ns : list node) (i : nat) (c c' w : string)
      (d d' : nat) :
  ordered ns ->
  In c (childIds ns ("node" ++ Js.ofNat i)) ->
  In c' (childIds ns ("node" ++ Js.ofNat i)) ->
  c <> c' ->
  below ns c d w -> below ns c' d' w -> False.
Proof.
  intros O Hc Hc' Ne H H'.
  pose proof (tree_ordered_ids _ O) as D.
  assert (G : forall a b k,
             In a (childIds ns ("node" ++ Js.ofNat i)) ->
             In b (childIds ns ("node" ++ Js.ofNat i)) ->
             a <> b -> below ns a k b -> False).
  { intros a b k Ha Hb Nab Hk.
    inversion Hk as [|k0 q b' Hq Hb']; subst; [congruence|].
    rewrite (drawn_one_parent ns b q _ D Hb' Hb) in Hq.
    exact (drawn_child_not_above ns i a k0 O Ha Hq). }
  destruct (drawn_below_chain ns c c' w d d' D H H') as [[k Hk]|[k Hk]].
  - exact (G c c' k Hc Hc' Ne Hk).
  - apply (G c' c k Hc' Hc); [congruence | assumption].
Qed.

Lemma drawn_flat_NoDup (ns : list node) (g : string -> option tree) :
  forall (cs : list string) (ks : list tree),
    sequence (map g cs) = Some ks ->
    NoDup cs ->
    (forall c k, In c cs -> g c = Some k ->
                 NoDup (treeIds k)
                 /\ forall w, In w (treeIds k) -> exists d, below ns c d w) ->
    (forall c c' w d d', In c cs -> In c' cs -> c <> c' ->
                         below ns c d w -> below ns c' d' w -> False) ->
    NoDup (flat_map treeIds ks).
Proof.
  induction cs as [|c cs IH]; intros ks; cbn [map sequence].
  - intros [= <-] _ _ _. constructor.
  - destruct (g c) as [k|] eqn:G; [|discriminate].
    destruct (sequence (map g cs)) as [r|] eqn:Sq; [|discriminate].
    intros [= <-] D Sub Apart. apply NoDup_cons_iff in D.
    destruct D as [Nc D]. cbn [flat_map].
    destruct (Sub c k (or_introl eq_refl) G) as [Dk Bk].
    apply NoDup_app.
    + exact Dk.
    + apply (IH r eq_refl D).
      * intros c' k' Hc'. apply Sub. now right.
      * intros a b w d d' Ha Hb. apply Apart; now right.
    + intros w Hw Hr. apply in_flat_map in Hr. destruct Hr as [k' [Hk' Hw']].
      destruct (drawn_sequence _ _ _ Sq k' Hk') as [c' [Hc' G']].
      destruct (Bk w Hw) as [d Hd].
      destruct (Sub c' k' (or_intror Hc') G') as [_ Bk'].
      destruct (Bk' w Hw') as [d' Hd'].
      apply (Apart c c' w d d'); try assumption.
      * now left.
      * now right.
      * intros ->. contradiction.
Qed.

Lemma drawn_childIds_NoDup (ns : list node) (q : string) :
  NoDup (map id ns) -> NoDup (childIds ns q).
Proof.
  intros D. unfold childIds. destruct (inNodeMap ns q); [|constructor].
  now apply tree_kept_ids_distinct.
Qed.

(** With parents before children, no object is reached twice. *)
Lemma drawn_treeIds_NoDup (ns : list node) (fuel : nat) :
  ordered ns ->
  forall (i : nat) (t : tree),
    unfold ns fuel ("node" ++ Js.ofNat i) = Some t -> NoDup (treeIds t).
Proof.
  intros O. pose proof (tree_ordered_ids _ O) as D.
  induction fuel as [|f IH]; intros i t; [discriminate|].
  cbn [unfold].
  destruct (sequence (map (unfold ns f) (childIds ns ("node" ++ Js.ofNat i))))
    as [ks|] eqn:Sq; [|discriminate].
  intros [= <-]. cbn [treeIds]. apply NoDup_cons.
  - intros Hin. apply in_flat_map in Hin. destruct Hin as [k [Hk Hw]].
    destruct (drawn_sequence _ _ _ Sq k Hk) as [c [Hc U]].
    destruct (drawn_below_tree _ _ _ _ U _ Hw) as [d Hd].
    exact (drawn_child_not_above ns i c d O Hc Hd).
  - apply (drawn_flat_NoDup ns _ _ _ Sq).
    + now apply drawn_childIds_NoDup.
    + intros c k Hc U.
      destruct (tree_childIds_later ns i c O Hc) as [j [_ ->]].
      split; [exact (IH j k U) | exact (drawn_below_tree _ _ _ _ U)].
    + intros c c' w d d'. now apply drawn_siblings_apart.
Qed.

(** A positioned node with a positioned parent has its connector, from
    the parent to the node. *)
Lemma drawn_edge_exists (positions : JsMap.t npos) (ns : list node)
      (n : node) (q : string) :
  In n ns -> parentId n = Some q -> truthy (Some q) = true ->
  JsMap.has (id n) positions = true -> JsMap.has q positions = true ->
  forall cellId,
  exists c, In c (nodeCells positions cellId ns) /\ Xml.isEdge c = true
            /\ Xml.csource c = Some q /\ Xml.ctarget c = Some (id n).
Proof.
  intros Hn Pn Tq Kn Kq.
  assert (Eq : orElse (Some q) EmptyString = q).
  { pose proof (truthy_orElse _ EmptyString Tq). congruence. }
  induction ns as [|m ns IH]; intros cellId; [contradiction|].
  cbn [nodeCells].
  assert (Next : forall c', In n ns ->
             exists c, (match JsMap.get (id m) positions with
                        | None => In c (nodeCells positions c' ns)
                        | Some _ => In c (nodeCells positions c' ns)
                        end)
                       /\ Xml.isEdge c = true
                       /\ Xml.csource c = Some q
                       /\ Xml.ctarget c = Some (id n)).
  { intros c' H. destruct (IH H c') as [c [Hc R]]. exists c.
    split; [now destruct (JsMap.get (id m) positions) | assumption]. }
  destruct Hn as [->|Hn].
  - unfold JsMap.has in Kn.
    destruct (JsMap.get (id n) positions) as [pos|]; [|discriminate].
    rewrite Pn, Tq, Eq, Kq. cbn [andb].
    eexists. split; [right; left; reflexivity|].
    repeat split; reflexivity.
  - destruct (JsMap.get (id m) positions) as [pos|].
    + destruct (IH Hn (if truthy (parentId m)
                          && JsMap.has (orElse (parentId m) EmptyString)
                                       positions
                       then S cellId else cellId)) as [c [Hc R]].
      exists c. split; [|assumption]. right. apply in_or_app. now right.
    + exact (IH Hn cellId).
Qed.

(** A drawn node is reached from [r] along connectors. *)
Inductive reaches (cells : list (Xml.cell R)) (r : string) : string -> Prop :=
| reaches_self : reaches cells r r
| reaches_next (s t : string) (c : Xml.cell R) :
    reaches cells r s -> In c cells -> Xml.isEdge c = true ->
    Xml.csource c = Some s -> Xml.ctarget c = Some t ->
    reaches cells r t.

(** What is drawn of a model with parents before children, once the
    positions of the tree [t] below its root [r] are written. *)
Section Drawn.
Variables (e : Engine.t) (ns : list node) (r : string) (t : tree)
          (frames : nat).
Hypothesis O : ordered ns.
Hypothesis Rt : rootId ns = Some r.
Hypothesis U : unfold ns frames r = Some t.

Let positions : JsMap.t npos :=
  nodePositions (calculateNodePositions e t 0 (CENTER_X e) (CENTER_Y e) 0).

Lemma drawn_keys (k : string) :
  JsMap.has k positions = true <-> In k (treeIds t).
Proof.
  rewrite has_In. unfold positions, nodePositions.
  rewrite (fold_set_keys fst snd).
  rewrite (drawn_ids e (Radial.depth t)) by lia.
  unfold JsMap.keys, JsMap.empty. cbn [map In]. tauto.
Qed.

Lemma drawn_child_truthy (q w : string) :
  In w (childIds ns q) -> truthy (Some q) = true.
Proof.
  intros Hc. destruct (drawn_childIds _ _ _ Hc) as [m [Hm [Em Pm]]].
  destruct (truthy (Some q)) eqn:T; [reflexivity|]. exfalso.
  unfold childIds in Hc. destruct (inNodeMap ns q); [|contradiction].
  apply in_map_iff in Hc. destruct Hc as [m' [Em' Hm']].
  apply filter_In in Hm'. destruct Hm' as [Hm' B].
  apply andb_prop in B. destruct B as [B _].
  rewrite <- Em in Em'.
  rewrite (drawn_id_inj _ _ _ (tree_ordered_ids _ O) Hm' Hm Em'), Pm in B.
  congruence.
Qed.

Lemma drawn_vertex (w : string) :
  In w (treeIds t) -> In w (Xml.vertexIds (nodeCells positions 2 ns)).
Proof.
  intros Hw. rewrite tree_nodeCells_ids.
  assert (N : exists n, In n ns /\ id n = w).
  { destruct (proj2 (drawn_closure _ _ _ _ U) w Hw) as [->|[q [_ Hq]]].
    - destruct (drawn_rootId _ _ Rt) as [nr [Hnr [Er _]]]. now exists nr.
    - destruct (drawn_childIds _ _ _ Hq) as [n [Hn [E _]]]. now exists n. }
  destruct N as [n [Hn <-]].
  apply in_map, filter_In. split; [assumption|]. now apply drawn_keys.
Qed.

Lemma drawn_reaches (w : string) :
  In w (treeIds t) -> reaches (nodeCells positions 2 ns) r w.
Proof.
  intros Hw. destruct (drawn_below_tree _ _ _ _ U w Hw) as [d Hd].
  clear Hw. induction Hd as [|d q w Hq IH Hw]; [constructor|].
  pose proof (drawn_tree_below _ _ _ _ U _ _ Hq) as Tq.
  pose proof (drawn_children_in _ _ _ _ U q Tq w Hw) as Tw.
  destruct (drawn_childIds _ _ _ Hw) as [n [Hn [En Pn]]].
  destruct (drawn_edge_exists positions ns n q Hn Pn
              (drawn_child_truthy q w Hw)
              ltac:(rewrite En; now apply drawn_keys)
              ltac:(now apply drawn_keys) 2%nat)
    as [c [Hc [Ec [Sc Tc]]]].
  rewrite En in Tc. exact (reaches_next _ r q w c IH Hc Ec Sc Tc).
Qed.

Lemma drawn_edges (c : Xml.cell R) :
  In c (nodeCells positions 2 ns) -> Xml.isEdge c = true ->
  exists s d,
    Xml.csource c = Some s /\ Xml.ctarget c = Some d /\ s <> d
    /\ In s (Xml.vertexIds (nodeCells positions 2 ns))
    /\ In d (Xml.vertexIds (nodeCells positions 2 ns)).
Proof.
  intros He Ee.
  destruct (drawn_edge_In _ _ _ _ He Ee) as [n [q [Hn [Hq [Kn [Kq [Es Et]]]]]]].
  exists q, (id n). repeat split; try assumption.
  - destruct (In_nth_error _ _ Hn) as [k Hk].
    destruct (O k n Hk) as [-> Hp]. destruct (Hp q Hq) as [j [Hj ->]].
    intros E. apply tree_node_id_inj in E. lia.
  - apply drawn_vertex. now apply drawn_keys.
  - apply drawn_vertex. now apply drawn_keys.
Qed.

Lemma drawn_one_less :
  List.length (Xml.vertexIds (nodeCells positions 2 ns))
  = S (Xml.edgeCount (nodeCells positions 2 ns)).
Proof.
  destruct (drawn_rootId _ _ Rt) as [nr [Hnr [Er Tr]]].
  pose proof (tree_ordered_ids _ O) as D.
  destruct (drawn_closure _ _ _ _ U) as [Hroot Hcl].
  rewrite tree_nodeCells_ids, length_map, drawn_edgeCount.
  rewrite (drawn_count _ nr)
    by (try assumption; apply drawn_keys; now rewrite Er).
  f_equal. f_equal. apply filter_ext_in. intros n Hn.
  destruct (JsMap.has (id n) positions) eqn:Kn; [|reflexivity].
  cbn [andb]. apply drawn_keys in Kn.
  destruct (String.eqb (id n) (id nr)) eqn:E.
  - apply String.eqb_eq in E.
    rewrite (drawn_id_inj _ _ _ D Hn Hnr E), Tr. reflexivity.
  - apply String.eqb_neq in E.
    destruct (Hcl _ Kn) as [E'|[q [Hq Hc]]]; [congruence|].
    destruct (drawn_childIds _ _ _ Hc) as [m [Hm [Em Pm]]].
    rewrite <- (drawn_id_inj _ _ _ D Hm Hn Em), Pm.
    pose proof (drawn_child_truthy q _ Hc) as Tq.
    rewrite Tq. cbn [andb negb].
    assert (Eq : orElse (Some q) EmptyString = q).
    { pose proof (truthy_orElse _ EmptyString Tq). congruence. }
    rewrite Eq. symmetry. now apply drawn_keys.
Qed.

End Drawn.

(** The shape of what is drawn: the connectors join different drawn
    nodes, the drawn nodes have different ids, and unless nothing is
    drawn there is one connector less than there are nodes, all of which
    are reached from one of them along connectors. *)
Definition isTree (cells : list (Xml.cell R)) : Prop :=
  (forall c, In c cells -> Xml.isEdge c = true ->
     exists s d,
       Xml.csource c = Some s /\ Xml.ctarget c = Some d /\ s <> d
       /\ In s (Xml.vertexIds cells) /\ In d (Xml.vertexIds cells))
  /\ NoDup (Xml.vertexIds cells)
  /\ (cells = []
      \/ (List.length (Xml.vertexIds cells) = S (Xml.edgeCount cells)
          /\ exists r, In r (Xml.vertexIds cells)
                       /\ forall v, In v (Xml.vertexIds cells) ->
                                    reaches cells r v)).

(** What is drawn for parents-first nodes is a tree, unless the call
    stack is too shallow for the model. *)
Lemma drawn_tree (e : Engine.t) (clk : Xml.clock) (p : parsed) :
  ordered (nodes p) ->
  match generateMindmapXML e clk p with
  | Some doc => isTree (Xml.cells doc)
  | None => (Engine.layoutFrames e < List.length (nodes p))%nat
  end.
Proof.
  intros O. pose proof (tree_generate_ok e clk p O) as G.
  unfold generateMindmapXML in *.
  destruct (root p);
    [|split; [intros c []|split; [constructor | now left]]].
  destruct (rootId (nodes p)) as [r|] eqn:Rt.
  2:{ cbn [option_map Xml.cells Xml.wrapInDrawioXML].
      change (nodePositions []) with (@JsMap.empty npos).
      rewrite drawn_nothing.
      split; [intros c []|split; [constructor | now left]]. }
  destruct (unfold (nodes p) (Engine.layoutFrames e) r) as [t|] eqn:U;
    cbn [option_map] in *; [|exact G].
  cbn [Xml.cells Xml.wrapInDrawioXML] in *.
  split; [intros c; eapply drawn_edges; eassumption|].
  split; [exact G|]. right.
  split; [eapply drawn_one_less; eassumption|].
  exists r. split.
  - eapply drawn_vertex; try eassumption.
    exact (proj1 (drawn_closure _ _ _ _ U)).
  - intros v Hv. eapply drawn_reaches; try eassumption.
    apply (proj1 (drawn_keys e t v)).
    rewrite tree_nodeCells_ids in Hv. apply in_map_iff in Hv.
    destruct Hv as [n [<- Hn]]. apply filter_In in Hn. tauto.
Qed.

End MindDrawn.

(** X16.  What the mind-map generator draws for any input text is a tree:
    every connector runs between two different drawn nodes, from [source]
    to [target], the drawn nodes have different ids, and unless nothing
    is drawn there is exactly one connector less than there are nodes and
    every node is reached from one of them along connectors.  The
    generator returns unless the recursion over the tree exhausts the
    call stack, which takes a stack that holds fewer calls than the model
    has nodes. *)
Theorem generateMindmapXML_tree
        (e : Engine.t) (clk : Xml.clock) (mermaidCode : string) :
  match MindGen.generateMindmapXML e clk (Mindmap.parseMindmap mermaidCode)
  with
  | Some doc => MindDrawn.isTree (Xml.cells doc)
  | None =>
      (Engine.layoutFrames e
       < List.length (Mindmap.nodes (Mindmap.parseMindmap mermaidCode)))%nat
  end.
Proof.
  exact (MindDrawn.drawn_tree e clk _
           (MindGenFacts.tree_parse_ordered mermaidCode)).
Qed.

(** ** Mindmaps: which nodes are drawn *)

Module MindKept.
Import Mindmap MindGen MindGenFacts MindDrawn.

(** Node [i] is named [node<i>]; its parent is the nearest earlier node of
    a lower level, and it has none when no earlier node has a lower
    level. *)
Definition nested (ns : list node) : Prop :=
  forall i n,
    nth_error ns i = Some n ->
    id n = "node" ++ Js.ofNat i
    /\ match parentId n with
       | Some p =>
           exists j m,
             (j < i)%nat /\ nth_error ns j = Some m /\ id m = p
             /\ (level m < level n)%Z
             /\ forall k x, (j < k < i)%nat -> nth_error ns k = Some x ->
                            (level n <= level x)%Z
       | None =>
           forall k x, (k < i)%nat -> nth_error ns k = Some x ->
                       (level n <= level x)%Z
       end.

Lemma kept_parse_nested (code : string) : nested (nodes (parseMindmap code)).
Proof.
  intros i n Hn.
  pose proof (MindRoot.root_parent_links code i n Hn) as [Hid [_ [_ Hp]]].
  split; assumption.
Qed.

Lemma kept_nested_ordered (ns : list node) : nested ns -> ordered ns.
Proof.
  intros N i n Hn. destruct (N i n Hn) as [Hid Hp].
  split; [assumption|]. intros p E. rewrite E in Hp.
  destruct Hp as [j [m [Hj [Hm [Hpm _]]]]]. exists j. split; [assumption|].
  destruct (N j m Hm) as [Hidm _]. congruence.
Qed.

Lemma kept_childIds_intro (ns : list node) (n : node) (q : string) :
  In n ns -> parentId n = Some q -> q <> EmptyString -> In q (map id ns) ->
  In (id n) (childIds ns q).
Proof.
  intros Hn Hp Hq Hin. unfold childIds, inNodeMap.
  assert (E : existsb (fun m => String.eqb (id m) q) ns = true).
  { apply existsb_exists. apply in_map_iff in Hin.
    destruct Hin as [m [Em Hm]]. exists m. split; [assumption|].
    now apply String.eqb_eq. }
  rewrite E. apply in_map, filter_In. split; [assumption|].
  rewrite Hp. cbn [truthy orElse].
  apply String.eqb_neq in Hq. rewrite Hq. cbn [negb andb].
  apply String.eqb_refl.
Qed.

(** [rootNode] is the last node whose [parentId] is falsy. *)
Lemma kept_rootId (a b : list node) (r : node) :
  truthy (parentId r) = false ->
  Forall (fun x => truthy (parentId x) = true) b ->
  rootId (a ++ r :: b) = Some (id r).
Proof.
  intros Tr F. unfold rootId. rewrite fold_left_app. cbn [fold_left].
  rewrite Tr. generalize (Some (id r)) as acc.
  induction F as [|x b Tx F IH]; intros acc; cbn [fold_left]; [reflexivity|].
  rewrite Tx. apply IH.
Qed.

Lemma kept_filter_skipn {A : Type} (f : A -> bool) (l : list A) :
  forall i,
    (forall k a, nth_error l k = Some a -> f a = Nat.leb i k) ->
    filter f l = skipn i l.
Proof.
  induction l as [|a l IH]; intros i H; [now destruct i|].
  cbn [filter]. rewrite (H 0%nat a eq_refl). destruct i as [|i].
  - cbn [Nat.leb skipn]. f_equal. rewrite (IH 0%nat); [reflexivity|].
    intros k x Hk. rewrite (H (S k) x Hk). reflexivity.
  - cbn [Nat.leb skipn]. apply IH.
    intros k x Hk. rewrite (H (S k) x Hk). reflexivity.
Qed.

Lemma kept_id_truthy (i : nat) : truthy (Some ("node" ++ Js.ofNat i)) = true.
Proof. reflexivity. Qed.

(** With several nodes without a parent, the cells are those of the last
    one and of the nodes after it. *)
Lemma kept_from_last_root (e : Engine.t) (clk : Xml.clock) (p : parsed)
      (ir : nat) (r : node) :
  nested (nodes p) ->
  root p = option_map id (hd_error (nodes p)) ->
  nth_error (nodes p) ir = Some r ->
  parentId r = None ->
  (forall k x, (ir < k)%nat -> nth_error (nodes p) k = Some x ->
               parentId x <> None) ->
  match generateMindmapXML e clk p with
  | Some doc => Xml.vertexIds (Xml.cells doc) = map id (skipn ir (nodes p))
  | None => (Engine.layoutFrames e < List.length (nodes p) - ir)%nat
  end.
Proof.
  intros N Hroot Hr Pr Last.
  pose proof (kept_nested_ordered _ N) as O.
  unfold generateMindmapXML. rewrite Hroot.
  destruct (nodes p) as [|n0 ns0] eqn:Ens; [now destruct ir|].
  cbn [hd_error option_map]. rewrite <- Ens in *. clear n0 ns0 Ens.
  assert (Rt : rootId (nodes p) = Some (id r)).
  { destruct (nth_error_split _ _ Hr) as [a [b [E La]]].
    rewrite E. apply kept_rootId; [now rewrite Pr|].
    apply Forall_forall. intros x Hx.
    destruct (In_nth_error _ _ Hx) as [k Hk].
    assert (Hk' : nth_error (nodes p) (S (ir + k)) = Some x).
    { rewrite E, nth_error_app2 by lia.
      replace (S (ir + k) - List.length a)%nat with (S k) by lia.
      exact Hk. }
    pose proof (Last (S (ir + k)) x ltac:(lia) Hk') as Px.
    destruct (N _ _ Hk') as [_ Hp].
    destruct (parentId x) as [q|]; [|contradiction].
    destruct Hp as [j [m [_ [Hm [<- _]]]]].
    destruct (N _ _ Hm) as [-> _]. reflexivity. }
  rewrite Rt.
  pose proof (proj1 (N ir r Hr)) as Er.
  pose proof (MindFacts.mind_nth_error_Some_lt _ _ _ Hr) as Li.
  rewrite Er.
  destruct (unfold (nodes p) (Engine.layoutFrames e) ("node" ++ Js.ofNat ir))
    as [t|] eqn:U; cbn [option_map].
  2:{ destruct (Nat.lt_ge_cases (Engine.layoutFrames e)
                                (List.length (nodes p) - ir)) as [L|L];
        [assumption|]. exfalso.
      destruct (tree_unfold_some (nodes p) (Engine.layoutFrames e) ir O Li L)
        as [t U']. congruence. }
  cbn [Xml.cells Xml.wrapInDrawioXML].
  set (positions := nodePositions _).
  rewrite <- Er in U. destruct (drawn_closure _ _ _ _ U) as [Hin Hcl].
  assert (Keys : forall k, JsMap.has k positions = true <-> In k (treeIds t)).
  { intros k. exact (drawn_keys e t k). }
  pose proof (tree_ordered_ids _ O) as D.
  assert (Down : forall k, (ir <= k)%nat ->
                           forall n, nth_error (nodes p) k = Some n ->
                                     In (id n) (treeIds t)).
  { intros k. induction k as [k IHk] using lt_wf_ind. intros Lk n Hn.
    destruct (Nat.eq_dec k ir) as [->|Ne].
    - rewrite Hr in Hn. injection Hn as <-. exact Hin.
    - pose proof (Last k n ltac:(lia) Hn) as Pn.
      destruct (N k n Hn) as [_ Hp].
      destruct (parentId n) as [q|] eqn:Eq; [|contradiction].
      destruct Hp as [j [m [Hj [Hm [Em [Lm Btw]]]]]].
      assert (Lj : (ir <= j)%nat).
      { destruct (Nat.le_gt_cases ir j) as [|G]; [assumption|]. exfalso.
        pose proof (Btw ir r ltac:(lia) Hr) as B1.
        destruct (N ir r Hr) as [_ Hpr]. rewrite Pr in Hpr.
        pose proof (Hpr j m G Hm) as B2. lia. }
      pose proof (IHk j Hj Lj m Hm) as Hq. rewrite Em in Hq.
      apply (drawn_children_in _ _ _ _ U q Hq).
      apply kept_childIds_intro.
      + now apply nth_error_In in Hn.
      + assumption.
      + rewrite <- Em, (proj1 (N j m Hm)). discriminate.
      + rewrite <- Em. apply in_map. now apply nth_error_In in Hm. }
  assert (Up : forall k n, nth_error (nodes p) k = Some n ->
                           In (id n) (treeIds t) -> (ir <= k)%nat).
  { intros k. induction k as [k IHk] using lt_wf_ind. intros n Hn Hd.
    destruct (Hcl _ Hd) as [E|[q [Hq Hc]]].
    - rewrite Er, (proj1 (N k n Hn)) in E. apply tree_node_id_inj in E. lia.
    - destruct (drawn_childIds _ _ _ Hc) as [n' [Hn' [En' Pn']]].
      assert (n' = n).
      { apply (drawn_id_inj _ _ _ D); try assumption.
        now apply nth_error_In in Hn. }
      subst n'. destruct (N k n Hn) as [_ Hp]. rewrite Pn' in Hp.
      destruct Hp as [j [m [Hj [Hm [Em _]]]]]. rewrite <- Em in Hq.
      pose proof (IHk j Hj m Hm Hq). lia. }
  rewrite tree_nodeCells_ids. f_equal. apply kept_filter_skipn.
  intros k n Hn. destruct (Nat.leb_spec ir k) as [L|G].
  - apply Keys. now apply (Down k L).
  - destruct (JsMap.has (id n) positions) eqn:H; [|reflexivity].
    apply Keys in H. pose proof (Up k n Hn H). lia.
Qed.

End MindKept.

(** Two top-level lines, each with a child. *)
Definition twoTrees : string :=
  "mindmap" ++ nl ++ "A" ++ nl ++ "  a" ++ nl ++ "B" ++ nl ++ "  b".

(** X17.  When the text of a mind map has several top-level lines, only
    the last of them and the nodes after it are drawn: the vertex cells
    are the nodes of the model from the last node without a parent on,
    whatever comes before it is left out of the markup.  The generator
    returns unless the call stack holds fewer calls than there are nodes
    from the last top-level one on. *)
Theorem generateMindmapXML_last_root
        (e : Engine.t) (clk : Xml.clock) (mermaidCode : string) (ir : nat)
        (r : Mindmap.node) :
  let ns := Mindmap.nodes (Mindmap.parseMindmap mermaidCode) in
  nth_error ns ir = Some r ->
  Mindmap.parentId r = None ->
  (forall k x, (ir < k)%nat -> nth_error ns k = Some x ->
               Mindmap.parentId x <> None) ->
  match MindGen.generateMindmapXML e clk (Mindmap.parseMindmap mermaidCode)
  with
  | Some doc => Xml.vertexIds (Xml.cells doc) = map Mindmap.id (skipn ir ns)
  | None => (Engine.layoutFrames e < List.length ns - ir)%nat
  end.
Proof.
  intros ns Hr Pr Last.
  apply (MindKept.kept_from_last_root e clk _ ir r); try assumption.
  - apply MindKept.kept_parse_nested.
  - pose proof (MindRoot.root_parent_links mermaidCode ir r Hr)
      as [_ [_ [H _]]]. exact H.
Qed.

(** Of two trees only the second is drawn, by an engine whose stack holds
    two calls. *)
Lemma generateMindmapXML_last_root_witness :
  exists doc,
    MindGen.generateMindmapXML (Engine.exact 2) someClock
      (Mindmap.parseMindmap twoTrees)
    = Some doc
    /\ Xml.vertexIds (Xml.cells doc) = ["node2"; "node3"].
Proof.
  assert (T := generateMindmapXML_last_root (Engine.exact 2) someClock
                 twoTrees 2
                 {| Mindmap.id := "node2"; Mindmap.label := "B";
                    Mindmap.shape := "default"; Mindmap.level := 0;
                    Mindmap.parentId := None |}).
  cbv zeta in T.
  assert (H1 : nth_error (Mindmap.nodes (Mindmap.parseMindmap twoTrees)) 2
               = Some {| Mindmap.id := "node2"; Mindmap.label := "B";
                         Mindmap.shape := "default"; Mindmap.level := 0;
                         Mindmap.parentId := None |})
    by (vm_compute; reflexivity).
  specialize (T H1 eq_refl).
  assert (H3 : forall k x, (2 < k)%nat ->
                 nth_error (Mindmap.nodes (Mindmap.parseMindmap twoTrees)) k
                 = Some x -> Mindmap.parentId x <> None).
  { intros k x Hk.
    destruct k as [|[|[|[|k]]]]; try lia.
    - vm_compute. intros [= <-]. discriminate.
    - vm_compute. destruct k; discriminate. }
  specialize (T H3).
  destruct (MindGen.generateMindmapXML (Engine.exact 2) someClock
              (Mindmap.parseMindmap twoTrees)) as [doc|].
  - exists doc. split; [reflexivity | exact T].
  - exfalso. vm_compute in T. lia.
Defined.

(** ** Tool handlers *)

Module ToolFacts.
Import Markdown Tools.

Definition supported : list string :=
  ["flowchart"; "erDiagram"; "sequence"; "class"; "mindmap"; "gitgraph"].

(** [args.diagramType || 'auto'], detected when it is [auto]. *)
Definition resolved (mermaidCode : string) (diagramType : option string)
  : string :=
  if String.eqb (orElse diagramType "auto") "auto"
  then detectDiagramType mermaidCode
  else orElse diagramType "auto".

Lemma tool_flowchart (clk : Xml.clock) (code : string) :
  exists doc,
    FlowGen.generateFlowchartXML clk (Flow.parseFlowchart code) = Ok doc.
Proof.
  destruct (FlowWf.flowwf_parse code) as [D _].
  destruct (FlowLayout.flowlay_generate clk _ D) as [doc [E _]].
  now exists doc.
Qed.

Lemma tool_convert (e : Engine.t)
      (arrows : string -> option (string * string))
      (inherited : string -> option string) (clk : Xml.clock)
      (code ty : string) :
  match tryConvert e arrows inherited clk code ty with
  | Some (Return _) =>
      In ty supported
      /\ (ty = "gitgraph" -> exists p, Git.parseGitGraph code = Ok p)
  | Some (Throw err) =>
      (err = TypeErr /\ ty = "gitgraph"
       /\ Git.parseGitGraph code = TypeError)
      \/ (err = RangeErr /\ ty = "mindmap"
          /\ (Engine.layoutFrames e
              < List.length (Mindmap.nodes (Mindmap.parseMindmap code)))%nat)
  | None => ~ In ty supported
  end.
Proof.
  unfold tryConvert, supported.
  destruct (String.eqb ty "flowchart") eqn:E1.
  { apply String.eqb_eq in E1. subst ty.
    destruct (tool_flowchart clk code) as [doc ->]. cbn [ofResult omap].
    split; [now left | discriminate]. }
  destruct (String.eqb ty "erDiagram") eqn:E2.
  { apply String.eqb_eq in E2. subst ty.
    destruct (ERFacts.er_parse_ok code) as [p [-> _]]. cbn [ofResult omap].
    split; [right; now left | discriminate]. }
  destruct (String.eqb ty "sequence") eqn:E3.
  { apply String.eqb_eq in E3. subst ty.
    split; [do 2 right; now left | discriminate]. }
  destruct (String.eqb ty "class") eqn:E4.
  { apply String.eqb_eq in E4. subst ty.
    destruct (ClassFacts.class_parse_ok code) as [p [-> _]].
    cbn [ofResult omap]. split; [do 3 right; now left | discriminate]. }
  destruct (String.eqb ty "mindmap") eqn:E5.
  { apply String.eqb_eq in E5. subst ty.
    pose proof (MindGenFacts.tree_generate_ok e clk _
                  (MindGenFacts.tree_parse_ordered code)) as G.
    destruct (MindGen.generateMindmapXML e clk (Mindmap.parseMindmap code))
      as [doc|]; cbn [ofOption omap].
    - split; [do 4 right; now left | discriminate].
    - right. repeat split. exact G. }
  destruct (String.eqb ty "gitgraph") eqn:E6.
  { apply String.eqb_eq in E6. subst ty.
    destruct (Git.parseGitGraph code) as [p|] eqn:P; cbn [ofResult].
    - destruct (GitLayout.gitlay_generate inherited clk p) as [doc [-> _]].
      cbn [ofResult omap]. split; [do 5 right; now left|].
      intros _. now exists p.
    - left. repeat split. }
  apply String.eqb_neq in E1, E2, E3, E4, E5, E6.
  intros [H|[H|[H|[H|[H|[H|[]]]]]]]; congruence.
Qed.

(** [/^[a-zA-Z_][a-zA-Z0-9_]*$/] fails on a word exactly when it starts
    with a digit. *)
Definition startsWithDigit (s : string) : bool :=
  match s with
  | String c _ => Js.isDigit c
  | EmptyString => false
  end.

Lemma tool_star_eol (p : ascii -> bool) (s : string) (cs : Re.caps) :
  Re.run (Re.Star (Re.Chr p)) s cs
         (fun s1 cs1 => match s1 with
                        | EmptyString => Some cs1
                        | String _ _ => None
                        end)
  = if ReFacts.sall p s then Some cs else None.
Proof.
  cbn [Re.run].
  remember (String.length s) as fuel eqn:F.
  assert (L : (String.length s <= fuel)%nat) by lia. clear F.
  revert s L. induction fuel as [|f IH]; intros s L.
  - destruct s; [reflexivity | cbn [String.length] in L; lia].
  - destruct s as [|c t]; [reflexivity|].
    cbn [ReFacts.sall]. cbn [String.length] in L.
    destruct (p c); cbn [andb]; [|reflexivity].
    assert (Sh : Re.shorter t (String c t) = true).
    { unfold Re.shorter. cbn [String.length]. apply Nat.ltb_lt. lia. }
    rewrite Sh, IH by lia. now destruct (ReFacts.sall p t).
Qed.

Lemma tool_sall_ext (p q : ascii -> bool) (s : string) :
  (forall c, p c = true -> q c = true) ->
  ReFacts.sall p s = true -> ReFacts.sall q s = true.
Proof.
  intros H. induction s as [|c s IH]; cbn [ReFacts.sall]; [reflexivity|].
  intros A. apply andb_prop in A. destruct A as [A B].
  now rewrite (H c A), (IH B).
Qed.

Lemma tool_nodeId (s : string) :
  Words.word s -> test nodeIdRe s = negb (startsWithDigit s).
Proof.
  intros [W N]. destruct s as [|c t]; [contradiction|].
  cbn [ReFacts.sall] in W. apply andb_prop in W. destruct W as [Wc Wt].
  unfold test, Re.exec, nodeIdRe. cbn [Re.seq]. cbn [Re.run startsWithDigit].
  assert (Hc : (Js.isLowerAZ c || Js.isUpperAZ c || Nat.eqb (Js.code c) 95)
               = negb (Js.isDigit c)).
  { unfold Js.isWord in Wc.
    unfold Js.isLowerAZ, Js.isUpperAZ, Js.isDigit in *.
    destruct (Nat.leb_spec 48 (Js.code c)), (Nat.leb_spec (Js.code c) 57),
      (Nat.leb_spec 65 (Js.code c)), (Nat.leb_spec (Js.code c) 90),
      (Nat.leb_spec 97 (Js.code c)), (Nat.leb_spec (Js.code c) 122),
      (Nat.eqb_spec (Js.code c) 95); cbn in Wc |- *;
      try reflexivity; try discriminate; lia. }
  rewrite Hc. destruct (Js.isDigit c); cbn [negb]; [reflexivity|].
  pose proof (tool_star_eol
                (fun c => Js.isLowerAZ c || Js.isUpperAZ c || Js.isDigit c
                          || Nat.eqb (Js.code c) 95) t []) as S.
  cbn [Re.run] in S. rewrite S.
  rewrite (tool_sall_ext Js.isWord _ t); [reflexivity| |assumption].
  intros d. unfold Js.isWord.
  destruct (Js.isUpperAZ d), (Js.isLowerAZ d), (Js.isDigit d); auto.
Qed.

End ToolFacts.

(** X18.  What the [convert_mermaid_to_drawio] tool answers, for every
    text and every requested type: the markup, when the type is one of
    the six supported ones; the list of supported types otherwise, which
    with automatic detection means the type [unknown]; and an error
    message in two cases only: for a git graph whose text the parser
    throws on, and for a mind map whose tree the call stack cannot hold,
    which takes a stack of fewer calls than the model has nodes.
    Flowcharts, ER, sequence and class diagrams are always converted. *)
Theorem convertMermaidToDrawio_answers
        (e : Engine.t) (arrows : string -> option (string * string))
        (inherited : string -> option string) (clk : Xml.clock)
        (mermaidCode : string) (diagramType : option string) :
  let ty := ToolFacts.resolved mermaidCode diagramType in
  match Tools.convertMermaidToDrawio e arrows inherited clk mermaidCode
          diagramType with
  | Tools.Converted t _ =>
      t = ty /\ In ty ToolFacts.supported
      /\ (ty = "gitgraph" -> exists p, Git.parseGitGraph mermaidCode = Ok p)
  | Tools.Unsupported t =>
      t = ty /\ ~ In ty ToolFacts.supported
      /\ (orElse diagramType "auto" = "auto" -> ty = "unknown")
  | Tools.Failed err =>
      (err = Markdown.TypeErr /\ ty = "gitgraph"
       /\ Git.parseGitGraph mermaidCode = TypeError)
      \/ (err = Markdown.RangeErr /\ ty = "mindmap"
          /\ (Engine.layoutFrames e
              < List.length
                  (Mindmap.nodes (Mindmap.parseMindmap mermaidCode)))%nat)
  end.
Proof.
  intros ty. unfold Tools.convertMermaidToDrawio.
  fold (ToolFacts.resolved mermaidCode diagramType). fold ty.
  pose proof (ToolFacts.tool_convert e arrows inherited clk mermaidCode ty)
    as H.
  destruct (Tools.tryConvert e arrows inherited clk mermaidCode ty)
    as [[xml|err]|].
  - destruct H as [H1 H2]. repeat split; assumption.
  - assumption.
  - split; [reflexivity|]. split; [assumption|]. intros A.
    unfold ty, ToolFacts.resolved in *. rewrite A in *.
    rewrite String.eqb_refl in *.
    unfold ToolFacts.supported, detectDiagramType in *.
    repeat match goal with
           | |- context [if ?b then _ else _] => destruct b
           end; try reflexivity; exfalso; apply H; cbn [In]; tauto.
Qed.

(** X19.  The [validate_mermaid] tool never throws.  For a flowchart its
    issues are exactly the node ids that start with a digit, in model
    order; and a text detected as a sequence diagram, class diagram, mind
    map or git graph is never examined: it is reported valid with no
    issue and no suggestion, whatever it holds. *)
Theorem validateMermaid_report (mermaidCode : string) :
  let ty := detectDiagramType mermaidCode in
  exists v,
    Tools.validateMermaid mermaidCode = Ok v
    /\ Tools.vtype v = ty
    /\ (ty = "flowchart" ->
        Tools.issues v
        = map Tools.InvalidNodeId
              (filter ToolFacts.startsWithDigit
                      (map Flow.id
                           (Flow.nodes (Flow.parseFlowchart mermaidCode)))))
    /\ (In ty ["sequence"; "class"; "mindmap"; "gitgraph"] ->
        Tools.issues v = [] /\ Tools.suggestions v = []
        /\ Tools.valid v = true).
Proof.
  intros ty. unfold Tools.validateMermaid. fold ty.
  destruct (ERFacts.er_parse_ok mermaidCode) as [p [E _]]. rewrite E.
  cbn [bind]. destruct (String.eqb ty "erDiagram") eqn:Eer; cbn [bind];
    (eexists; split; [reflexivity|]); cbn [Tools.vtype Tools.issues
                                             Tools.suggestions];
    (split; [reflexivity|]).
  - apply String.eqb_eq in Eer. rewrite Eer. split; [discriminate|].
    intros [H|[H|[H|[H|[]]]]]; discriminate.
  - split.
    + intros ->. change (String.eqb "flowchart" "unknown") with false.
      change (String.eqb "flowchart" "flowchart") with true. cbn [fst snd].
      unfold Tools.flowchartChecks. cbn [fst app]. rewrite List.app_nil_r.
      f_equal. apply filter_ext_in. intros i Hi.
      destruct (FlowWf.flowwf_parse mermaidCode) as [_ [W _]].
      rewrite Forall_forall in W.
      rewrite (ToolFacts.tool_nodeId i (W i Hi)). apply negb_involutive.
    + intros [<-|[<-|[<-|[<-|[]]]]]; repeat split.
Qed.

(** ** Markdown documents *)

Module MarkdownFacts.
Import Markdown.

Lemma md_lines_app (a b : list string) : lines (a ++ b) = lines a ++ lines b.
Proof.
  induction a as [|x a IH]; cbn [lines List.app]; [reflexivity|].
  now rewrite IH, !append_assoc.
Qed.

(** A document with a heading is not the empty string, so it is what
    [markdown || ..] selects. *)
Lemma md_selected (c : ascii) (h : string) (rest more : list string)
      (other : string) :
  (if String.eqb (lines ((String c h :: rest) ++ more)) EmptyString
   then other else lines ((String c h :: rest) ++ more))
  = lines ((String c h :: rest) ++ more).
Proof. reflexivity. Qed.

Lemma md_fold_some {A : Type} (g : A -> option string) (l : list A) :
  (forall a, In a l -> exists c, g a = Some c) ->
  forall acc,
    exists r,
      fold_left (fun result child =>
                   match result, g child with
                   | Some r, Some c => Some (r ++ c)
                   | _, _ => None
                   end) l (Some acc) = Some r.
Proof.
  induction l as [|a l IH]; intros H acc; cbn [fold_left]; [now eexists|].
  destruct (H a (or_introl eq_refl)) as [c ->].
  apply IH. intros x Hx. apply H. now right.
Qed.

(** With parents before children, rendering node [i] nests at most as
    many calls as there are nodes from [i] on. *)
Lemma md_render_some (ns : list Mindmap.node) (fuel : nat) :
  MindGenFacts.ordered ns ->
  forall i n indent,
    nth_error ns i = Some n -> (List.length ns - i <= fuel)%nat ->
    exists s, renderNode ns fuel n indent = Some s.
Proof.
  intros O. induction fuel as [|f IH]; intros i n indent Hn Hf.
  - apply MindFacts.mind_nth_error_Some_lt in Hn. lia.
  - cbn [renderNode].
    apply (md_fold_some
             (fun child => renderNode ns f child (indent ++ "  "))).
    intros child Hc. apply filter_In in Hc. destruct Hc as [Hin Hp].
    destruct (In_nth_error _ _ Hin) as [k Hk].
    destruct (Mindmap.parentId child) as [q|] eqn:Pq; [|discriminate].
    apply String.eqb_eq in Hp. subst q.
    destruct (O k child Hk) as [_ Hpar].
    destruct (Hpar _ Pq) as [j [Hj Ej]].
    rewrite (proj1 (O i n Hn)) in Ej.
    apply MindGenFacts.tree_node_id_inj in Ej. subst j.
    apply (IH k); [assumption|].
    apply MindFacts.mind_nth_error_Some_lt in Hk. lia.
Qed.

(** The tree is rendered unless the call stack is too shallow for it. *)
Lemma md_tree_ok (e : Engine.t) (code : string) :
  generateMindmapTree e (Mindmap.nodes (Mindmap.parseMindmap code)) = None ->
  (Engine.renderFrames e
   < List.length (Mindmap.nodes (Mindmap.parseMindmap code)))%nat.
Proof.
  unfold generateMindmapTree.
  set (ns := Mindmap.nodes (Mindmap.parseMindmap code)).
  intros H.
  destruct (Nat.lt_ge_cases (Engine.renderFrames e) (List.length ns))
    as [L|L]; [assumption|]. exfalso.
  destruct (MindGenFacts.tree_sequence_some
              (fun n => renderNode ns (Engine.renderFrames e) n EmptyString)
              (filter (fun n => isNull (Mindmap.parentId n)) ns)) as [l E].
  - intros n Hn. apply filter_In in Hn. destruct Hn as [Hn _].
    destruct (In_nth_error _ _ Hn) as [i Hi].
    apply (md_render_some ns _ (MindGenFacts.tree_parse_ordered code) i);
      [assumption | lia].
  - rewrite E in H. discriminate.
Qed.

Lemma md_outcomes (e : Engine.t) (code ty : string) :
  match generateMarkdown e code ty with
  | Return md =>
      (exists before, md = before ++ lines (original code))
      /\ (ty = "gitgraph" -> exists p, Git.parseGitGraph code = Ok p)
      /\ (~ In ty ToolFacts.supported -> md = notice code ty)
  | Throw err =>
      (err = TypeErr /\ ty = "gitgraph"
       /\ Git.parseGitGraph code = TypeError)
      \/ (err = RangeErr /\ ty = "mindmap"
          /\ (Engine.renderFrames e
              < List.length (Mindmap.nodes (Mindmap.parseMindmap code)))%nat)
  end.
Proof.
  unfold generateMarkdown, ToolFacts.supported.
  destruct (String.eqb ty "flowchart") eqn:E1.
  { apply String.eqb_eq in E1. subst ty. cbn [omap].
    unfold flowchartDoc. rewrite md_selected, md_lines_app.
    split; [now eexists|]. split; [discriminate|].
    intros H. exfalso. apply H. now left. }
  destruct (String.eqb ty "erDiagram") eqn:E2.
  { apply String.eqb_eq in E2. subst ty.
    destruct (ERFacts.er_parse_ok code) as [p [-> _]]. cbn [ofResult omap].
    unfold erDoc. rewrite md_selected, md_lines_app.
    split; [now eexists|]. split; [discriminate|].
    intros H. exfalso. apply H. right. now left. }
  destruct (String.eqb ty "sequence") eqn:E3.
  { apply String.eqb_eq in E3. subst ty. cbn [omap].
    unfold sequenceDoc. rewrite md_selected, md_lines_app.
    split; [now eexists|]. split; [discriminate|].
    intros H. exfalso. apply H. do 2 right. now left. }
  destruct (String.eqb ty "class") eqn:E4.
  { apply String.eqb_eq in E4. subst ty.
    destruct (ClassFacts.class_parse_ok code) as [p [-> _]].
    cbn [ofResult omap].
    unfold classDoc. rewrite md_selected, md_lines_app.
    split; [now eexists|]. split; [discriminate|].
    intros H. exfalso. apply H. do 3 right. now left. }
  destruct (String.eqb ty "mindmap") eqn:E5.
  { apply String.eqb_eq in E5. subst ty.
    cbv zeta. pose proof (md_tree_ok e code) as G.
    destruct (generateMindmapTree e (Mindmap.nodes (Mindmap.parseMindmap code)))
      as [s|]; cbn [ofOption omap].
    - unfold mindmapDoc. rewrite md_selected, md_lines_app.
      split; [now eexists|]. split; [discriminate|].
      intros H. exfalso. apply H. do 4 right. now left.
    - right. repeat split. now apply G. }
  destruct (String.eqb ty "gitgraph") eqn:E6.
  { apply String.eqb_eq in E6. subst ty.
    destruct (Git.parseGitGraph code) as [p|] eqn:P; cbn [ofResult omap].
    - unfold gitDoc. rewrite md_selected, md_lines_app.
      split; [now eexists|]. split; [intros _; now exists p|].
      intros H. exfalso. apply H. do 5 right. now left.
    - left. repeat split. }
  cbn [omap]. change (String.eqb EmptyString EmptyString) with true.
  cbv iota. unfold notice. rewrite md_lines_app.
  split; [now eexists|]. split; [|reflexivity].
  apply String.eqb_neq in E6. intros E. contradiction.
Qed.

End MarkdownFacts.

(** X20.  Whenever [generateMarkdown] returns, the document ends with the
    section that quotes the input text verbatim in a fenced block; for a
    type other than the six supported ones the document is the notice
    naming that type.  It throws in two cases only: for a git graph on
    whose text the parser throws, and for a mind map whose nesting the
    call stack cannot hold, which takes a stack of fewer calls than the
    model has nodes.  The [convert_mermaid_to_markdown] tool, which calls
    it outside any [try], lets these exceptions through. *)
Theorem generateMarkdown_outcomes
        (e : Engine.t) (mermaidCode diagramType : string) :
  (match Markdown.generateMarkdown e mermaidCode diagramType with
   | Markdown.Return md =>
       (exists before,
           md = before ++ Markdown.lines (Markdown.original mermaidCode))
       /\ (diagramType = "gitgraph" ->
           exists p, Git.parseGitGraph mermaidCode = Ok p)
       /\ (~ In diagramType ToolFacts.supported ->
           md = Markdown.notice mermaidCode diagramType)
   | Markdown.Throw err =>
       (err = Markdown.TypeErr /\ diagramType = "gitgraph"
        /\ Git.parseGitGraph mermaidCode = TypeError)
       \/ (err = Markdown.RangeErr /\ diagramType = "mindmap"
           /\ (Engine.renderFrames e
               < List.length
                   (Mindmap.nodes (Mindmap.parseMindmap mermaidCode)))%nat)
   end)
  /\ Tools.convertMermaidToMarkdown e mermaidCode
     = Markdown.generateMarkdown e mermaidCode
         (detectDiagramType mermaidCode).
Proof.
  split; [exact (MarkdownFacts.md_outcomes e mermaidCode diagramType)|].
  reflexivity.
Qed.

(** ** Attribute texts *)

Module Attr.
Import Xml.

(** A text that can stand between the double quotes of an attribute: it
    holds no [<] and no double quote. *)
Definition safe (s : string) : Prop :=
  Re.mem "<" s = false /\ Re.mem Js.DQ s = false.

Definition safeOpt (o : option string) : Prop :=
  match o with
  | Some s => safe s
  | None => True
  end.

(** Every text the cell template interpolates. *)
Definition cellSafe {N : Type} (c : cell N) : Prop :=
  safe (cid c) /\ safeOpt (value c) /\ safe (style c) /\ safe (parent c)
  /\ safeOpt (csource c) /\ safeOpt (ctarget c).

Lemma attr_app (a b : string) : safe a -> safe b -> safe (a ++ b).
Proof.
  intros [A1 A2] [B1 B2]. split; rewrite mem_app; [rewrite A1, B1|rewrite A2, B2];
    reflexivity.
Qed.

Lemma attr_word_chars (s : string) :
  ReFacts.sall Js.isWord s = true -> safe s.
Proof.
  induction s as [|c s IH]; cbn [ReFacts.sall]; [now split|].
  intros H. apply andb_prop in H. destruct H as [Hc Hs].
  destruct (IH Hs) as [I1 I2]. split; cbn [Re.mem].
  - rewrite I1, orb_false_r. apply Ascii.eqb_neq. intros <-. discriminate Hc.
  - rewrite I2, orb_false_r. apply Ascii.eqb_neq. intros <-. discriminate Hc.
Qed.

Lemma attr_word (s : string) : Words.word s -> safe s.
Proof. intros [W _]. now apply attr_word_chars. Qed.

Lemma attr_uint (d : Decimal.uint) : safe (NilEmpty.string_of_uint d).
Proof.
  induction d as [|d [I1 I2]|d [I1 I2]|d [I1 I2]|d [I1 I2]|d [I1 I2]
                  |d [I1 I2]|d [I1 I2]|d [I1 I2]|d [I1 I2]|d [I1 I2]];
    [now split|..]; split; cbn [NilEmpty.string_of_uint Re.mem];
    [rewrite I1|rewrite I2|rewrite I1|rewrite I2|rewrite I1|rewrite I2
     |rewrite I1|rewrite I2|rewrite I1|rewrite I2|rewrite I1|rewrite I2
     |rewrite I1|rewrite I2|rewrite I1|rewrite I2|rewrite I1|rewrite I2
     |rewrite I1|rewrite I2]; reflexivity.
Qed.

Lemma attr_ofNat (n : nat) : safe (Js.ofNat n).
Proof. apply attr_uint. Qed.

Lemma attr_escape (s : string) : safe (escapeXML s).
Proof.
  induction s as [|c s [I1 I2]]; [now split|].
  split; rewrite escapeXML_cons, mem_app.
  - rewrite I1, orb_false_r. now apply escapeChar_clean.
  - rewrite I2, orb_false_r. now apply escapeChar_clean.
Qed.

Lemma attr_In_words (ws : list string) (s : string) :
  Forall Words.word ws -> In s ws -> safe s.
Proof.
  intros F H. rewrite Forall_forall in F. apply attr_word. now apply F.
Qed.

End Attr.

Module FlowAttr.
Import Xml Flow FlowGen Attr.

Lemma flowattr_shapeStyle (shape : string) : safe (shapeStyle shape).
Proof.
  unfold shapeStyle, shapeTable. cbn [JsMap.get].
  repeat match goal with
         | |- context [String.eqb ?a shape] =>
             destruct (String.eqb a shape); [now split|]
         end.
  now split.
Qed.

Lemma flowattr_exit (s t : string) (positions : JsMap.t pos)
      (direction : string) :
  safe (getExitPoints s t positions direction).
Proof.
  unfold getExitPoints.
  destruct (JsMap.get s positions); [|now split].
  destruct (JsMap.get t positions); [|now split].
  repeat match goal with
         | |- context [if ?b then _ else _] => destruct b
         end; now split.
Qed.

Lemma flowattr_nodeCell (positions : JsMap.t pos) (n : node) (c : cell Z) :
  Words.word (id n) -> nodeCell positions n = Ok c -> cellSafe c.
Proof.
  intros W. unfold nodeCell.
  destruct (JsMap.get (id n) positions) as [p|]; [|discriminate].
  match goal with
  | |- Ok ?v = Ok c -> _ =>
      intros E; assert (E' : v = c) by congruence; clear E
  end.
  subst c. unfold cellSafe.
  cbn [cid value style parent csource ctarget safeOpt].
  split; [now apply attr_word|]. split; [apply attr_escape|].
  split; [|repeat split].
  destruct (String.eqb (Js.toLowerCase (label n)) "start"); [now split|].
  destruct (String.eqb (Js.toLowerCase (label n)) "end"
            || String.eqb (Js.toLowerCase (label n)) "stop"); [now split|].
  apply flowattr_shapeStyle.
Qed.

Lemma flowattr_nodeCells (positions : JsMap.t pos) (ns : list node) :
  Forall Words.word (map id ns) ->
  forall cs, nodeCells positions ns = Ok cs -> Forall cellSafe cs.
Proof.
  induction ns as [|n ns IH]; cbn [map nodeCells]; intros F cs.
  - intros [= <-]. constructor.
  - inversion F as [|? ? Wn Ws]; subst.
    destruct (nodeCell positions n) as [c|] eqn:C; [|discriminate].
    cbn [bind].
    destruct (nodeCells positions ns) as [cs'|]; [|discriminate].
    cbn [bind]. intros [= <-]. constructor.
    + exact (flowattr_nodeCell _ _ _ Wn C).
    + now apply IH.
Qed.

Lemma flowattr_edgeCells (positions : JsMap.t pos) (direction : string)
      (es : list edge) :
  Forall (fun e => safe (source e) /\ safe (target e)) es ->
  forall cellId, Forall cellSafe (edgeCells positions direction cellId es).
Proof.
  induction 1 as [|e es [Hs Ht] F IH]; intros cellId; cbn [edgeCells];
    constructor; [|apply IH].
  unfold cellSafe. cbn [cid value style parent csource ctarget safeOpt].
  split; [apply (attr_app "e"); [now split | apply attr_ofNat]|].
  split.
  { destruct (truthy (elabel e)); [|exact I].
    destruct (elabel e); cbn [option_map]; [apply attr_escape | exact I]. }
  split; [apply attr_app; [now split | apply flowattr_exit]|].
  split; [now split|]. split; assumption.
Qed.

Lemma flowattr_generate (clk : clock) (code : string) :
  exists doc,
    generateFlowchartXML clk (parseFlowchart code) = Ok doc
    /\ Forall cellSafe (cells doc).
Proof.
  destruct (FlowWf.flowwf_parse code) as [D [W [_ [E _]]]].
  destruct (FlowLayout.flowlay_generate clk _ D) as [doc [G _]].
  exists doc. split; [assumption|].
  unfold generateFlowchartXML in G.
  destruct (nodeCells _ (nodes (parseFlowchart code))) as [ncs|] eqn:Nc;
    [|discriminate].
  cbn [bind] in G. injection G as <-.
  cbn [cells wrapInDrawioXML]. apply Forall_app. split.
  - exact (flowattr_nodeCells _ _ W _ Nc).
  - apply flowattr_edgeCells. eapply Forall_impl; [|exact E].
    intros e [Hs Ht]. split; eapply attr_In_words; eassumption.
Qed.

End FlowAttr.

(** X21.  In the markup of a flowchart parsed from any text, no text written
    between the double quotes of a cell attribute, id, value, style,
    parent, source or target, holds a [<] or a double quote: labels are
    escaped, and ids are runs of word characters. *)
Theorem generateFlowchartXML_attributes (clk : Xml.clock)
        (mermaidCode : string) :
  exists doc,
    FlowGen.generateFlowchartXML clk (Flow.parseFlowchart mermaidCode) = Ok doc
    /\ Forall Attr.cellSafe (Xml.cells doc).
Proof. exact (FlowAttr.flowattr_generate clk mermaidCode). Qed.

Module ERAttr.
Import Xml ER ERGen Attr.

Lemma erattr_arrow (inherited : string -> option (string * string))
      (c : string) :
  In c ERWf.cardinalities ->
  safe (fst (cardinalityArrow inherited c))
  /\ safe (snd (cardinalityArrow inherited c)).
Proof.
  unfold ERWf.cardinalities.
  intros [<-|[<-|[<-|[<-|[<-|[<-|[<-|[]]]]]]]]; split; now split.
Qed.

Lemma erattr_exit (a b : boxPos) : safe (calculateERExitEntry a b).
Proof.
  unfold calculateERExitEntry.
  repeat match goal with
         | |- context [if ?b then _ else _] => destruct b
         end; now split.
Qed.

Lemma erattr_attrCell (ename : string) (ia : nat * attribute) :
  safe ename -> cellSafe (attrCell ename ia).
Proof.
  intros S. destruct ia as [i a]. unfold attrCell, cellSafe.
  cbn [cid value style parent csource ctarget safeOpt].
  split; [apply attr_app; [assumption|];
          apply (attr_app "_attr"); [now split | apply attr_ofNat]|].
  split; [apply attr_escape|].
  split; [|repeat split; apply S].
  apply (attr_app styleAttribute); [now split|].
  apply attr_app.
  - destruct (String.eqb (orElse (constraint a) EmptyString) "PK"); now split.
  - destruct (String.eqb (orElse (constraint a) EmptyString) "FK"); now split.
Qed.

Lemma erattr_entityCells (ie : nat * entity) :
  safe (name (snd ie)) -> Forall cellSafe (entityCells ie).
Proof.
  intros S. unfold entityCells. constructor.
  - destruct ie as [i e]. unfold containerCell, cellSafe.
    cbn [cid value style parent csource ctarget safeOpt snd] in *.
    split; [assumption|]. split; [apply attr_escape|]. repeat split.
  - unfold attrCells. apply Forall_forall. intros c Hc.
    apply in_map_iff in Hc. destruct Hc as [ia [<- _]].
    now apply erattr_attrCell.
Qed.

Lemma erattr_relCells (inherited : string -> option (string * string))
      (positions : JsMap.t boxPos) (rs : list relationship) :
  Forall (fun r => safe (source r) /\ safe (target r)
                   /\ ERWf.relationshipOk r) rs ->
  forall cellId, Forall cellSafe (relCells inherited positions cellId rs).
Proof.
  induction 1 as [|r rs [Hs [Ht [Cs Ct]]] F IH]; intros cellId;
    cbn [relCells]; [constructor|].
  apply Forall_app. split; [|apply IH].
  destruct (JsMap.get (source r) positions) as [a|]; [|constructor].
  destruct (JsMap.get (target r) positions) as [b|]; constructor;
    [|constructor].
  destruct (erattr_arrow inherited _ Cs) as [S1 S2].
  destruct (erattr_arrow inherited _ Ct) as [T1 T2].
  unfold cellSafe. cbn [cid value style parent csource ctarget safeOpt].
  split; [apply (attr_app "rel"); [now split | apply attr_ofNat]|].
  split; [apply attr_escape|].
  split; [|split; [now split|]; split; assumption].
  apply attr_app; [now split|].
  apply attr_app; [exact S1|].
  apply attr_app; [now split|].
  apply attr_app; [exact S2|].
  apply attr_app; [now split|].
  apply attr_app; [exact T1|].
  apply attr_app; [now split|].
  apply attr_app; [exact T2|].
  apply attr_app; [now split | apply erattr_exit].
Qed.

Lemma erattr_generate (inherited : string -> option (string * string))
      (clk : clock) (code : string) :
  exists p,
    parseERDiagram code = Ok p
    /\ Forall cellSafe (cells (generateERDiagramXML inherited clk p)).
Proof.
  destruct (ERWf.erwf_parse code) as [p [E [_ [W [_ R]]]]].
  exists p. split; [assumption|].
  unfold generateERDiagramXML. cbn [cells wrapInDrawioXML].
  apply Forall_app. split.
  - apply Forall_flat_map. apply Forall_forall. intros [i e] Hie.
    apply erattr_entityCells. cbn [snd].
    apply (attr_In_words _ _ W). apply in_map.
    apply ClassLayout.classlay_indexed_In in Hie. destruct Hie as [_ Hie].
    now apply nth_error_In in Hie.
  - apply erattr_relCells. eapply Forall_impl; [|exact R].
    intros r [Hs [Ht Ok]].
    split; [|split; [|exact Ok]]; eapply attr_In_words; eassumption.
Qed.

End ERAttr.

(** X22.  The same holds for the markup of an ER diagram parsed from any
    text: no attribute text of a cell holds a [<] or a double quote,
    whatever properties [Object.prototype] has. *)
Theorem generateERDiagramXML_attributes
        (inherited : string -> option (string * string)) (clk : Xml.clock)
        (mermaidCode : string) :
  exists p,
    ER.parseERDiagram mermaidCode = Ok p
    /\ Forall Attr.cellSafe
              (Xml.cells (ERGen.generateERDiagramXML inherited clk p)).
Proof. exact (ERAttr.erattr_generate inherited clk mermaidCode). Qed.

Module ClassAttr.
Import Xml Class ClassGen Attr.

(** The stereotype of a class, when it has one, is safe as attribute
    text. *)
Definition tagged (m : JsMap.t class) : Prop :=
  Forall (fun c => safeOpt (stereotype c)) (JsMap.values m).

Lemma classattr_lower (s : string) :
  ReFacts.sall Js.isWord s = true -> safe (Js.toLowerCase s).
Proof.
  unfold Js.toLowerCase.
  induction s as [|c s IH]; cbn [ReFacts.sall Js.smap]; [now split|].
  intros H. apply andb_prop in H. destruct H as [Hc Hs].
  destruct (IH Hs) as [I1 I2]. split; cbn [Re.mem].
  - rewrite I1, orb_false_r.
    destruct c as [[] [] [] [] [] [] [] []]; vm_compute in Hc |- *;
      congruence.
  - rewrite I2, orb_false_r.
    destruct c as [[] [] [] [] [] [] [] []]; vm_compute in Hc |- *;
      congruence.
Qed.

Lemma classattr_register (n : string) (m : JsMap.t class) :
  tagged m -> tagged (register n m).
Proof.
  intros T. unfold register. destruct (JsMap.has n m); [assumption|].
  apply FlowWf.flowwf_values_set; [assumption | exact I].
Qed.

Lemma classattr_update (cur : string) (f : class -> class)
      (m m' : JsMap.t class) :
  tagged m -> (forall c, stereotype (f c) = stereotype c) ->
  update cur f m = Ok m' -> tagged m'.
Proof.
  intros T Hf. unfold update.
  destruct (JsMap.get cur m) as [c|] eqn:G; [|discriminate].
  intros [= <-]. apply FlowWf.flowwf_values_set; [assumption|].
  rewrite Hf. exact (ERWf.erwf_values_get _ _ _ _ T G).
Qed.

Lemma classattr_relStep (st : state) (trimmed : string) :
  tagged (st_classes st) -> tagged (st_classes (relStep st trimmed)).
Proof.
  intros T. unfold relStep.
  destruct (Re.exec relRe trimmed) as [cs|]; [|assumption].
  cbn [st_classes]. now do 2 apply classattr_register.
Qed.

Lemma classattr_step (st st' : state) (line : string) :
  tagged (st_classes st) -> step st line = Ok st' -> tagged (st_classes st').
Proof.
  intros T. unfold step.
  destruct (String.eqb (Js.trim line) "classDiagram"
            || String.eqb (Js.trim line) EmptyString).
  { now intros [= <-]. }
  destruct (Re.exec classStartRe (Js.trim line)) as [cs|].
  { intros [= <-]. cbn [st_classes]. now apply classattr_register. }
  destruct (String.eqb (Js.trim line) "}"); [now intros [= <-]|].
  destruct (Re.exec annotationRe (Js.trim line)) as [cs|] eqn:Ha.
  { intros [= <-].
    assert (W1 : Words.word (Re.capd 1 cs)).
    { apply (Words.exec_word annotationRe (Js.trim line));
        [assumption | vm_compute; tauto | reflexivity]. }
    destruct W1 as [W1 _]. apply classattr_lower in W1.
    unfold withClasses. cbn [st_classes].
    destruct (JsMap.get (Re.capd 2 cs) (st_classes st));
      apply FlowWf.flowwf_values_set; assumption. }
  destruct (truthy (currentClass st));
    [|intros [= <-]; now apply classattr_relStep].
  destruct (Re.exec methodRe (Js.trim line)) as [cs|].
  { destruct (update _ _ (st_classes st)) as [m'|] eqn:U; [|discriminate].
    cbn [bind]. intros [= <-]. cbn [withClasses st_classes].
    now apply classattr_update in U. }
  destruct (Re.exec attrRe (Js.trim line)) as [cs|].
  { destruct (update _ _ (st_classes st)) as [m'|] eqn:U; [|discriminate].
    cbn [bind]. intros [= <-]. cbn [withClasses st_classes].
    now apply classattr_update in U. }
  intros [= <-]. now apply classattr_relStep.
Qed.

Lemma classattr_foldM (lines : list string) (st st' : state) :
  tagged (st_classes st) -> foldM step lines st = Ok st' ->
  tagged (st_classes st').
Proof.
  revert st. induction lines as [|l lines IH]; intros st T; cbn [foldM].
  - now intros [= <-].
  - destruct (step st l) as [st1|] eqn:E; [|discriminate]. cbn [bind].
    apply IH. now apply (classattr_step st st1 l).
Qed.

Lemma classattr_exit (a b : boxPos) : safe (calculateERExitEntry a b).
Proof.
  unfold calculateERExitEntry.
  repeat match goal with
         | |- context [if ?b then _ else _] => destruct b
         end; now split.
Qed.

Lemma classattr_member (cname suffix : string) (i : nat) (text : string)
      (memberY : Z) :
  safe cname -> safe suffix -> cellSafe (member cname suffix i text memberY).
Proof.
  intros S1 S2. unfold member, cellSafe.
  cbn [cid value style parent csource ctarget safeOpt].
  split; [apply attr_app; [assumption|];
          apply attr_app; [assumption | apply attr_ofNat]|].
  split; [apply attr_escape|]. repeat split; apply S1.
Qed.

Lemma classattr_classCells (ic : nat * class) :
  safe (name (snd ic)) -> safeOpt (stereotype (snd ic)) ->
  Forall cellSafe (classCells ic).
Proof.
  destruct ic as [i cls]. cbn [snd]. intros S T. unfold classCells.
  constructor.
  - unfold containerCell, cellSafe.
    cbn [cid value style parent csource ctarget safeOpt].
    split; [assumption|]. split; [|split; [|repeat split]].
    + destruct (stereotype cls) as [st|]; cbn [truthy orElse];
        [|assumption].
      destruct (String.eqb st EmptyString); cbn [negb]; [assumption|].
      apply (attr_app "&lt;&lt;"); [now split|].
      apply attr_app; [assumption|].
      apply attr_app; [now split | assumption].
    + destruct (String.eqb _ "abstract"); [now split|].
      destruct (String.eqb _ "interface"); now split.
  - unfold memberCells. apply Forall_app. split; [|apply Forall_app; split].
    + apply Forall_forall. intros c Hc. apply in_map_iff in Hc.
      destruct Hc as [[k a] [<- _]].
      apply classattr_member; [assumption | now split].
    + destruct (0 <? len (methods cls))%Z; constructor; [|constructor].
      unfold cellSafe. cbn [cid value style parent csource ctarget safeOpt].
      split; [apply attr_app; [assumption | now split]|].
      repeat split; apply S.
    + apply Forall_forall. intros c Hc. apply in_map_iff in Hc.
      destruct Hc as [[k m] [<- _]].
      apply classattr_member; [assumption | now split].
Qed.

Lemma classattr_relCells (positions : JsMap.t boxPos)
      (rs : list relationship) :
  Forall (fun r => safe (from r) /\ safe (to r)) rs ->
  forall cellId, Forall cellSafe (relCells positions cellId rs).
Proof.
  induction 1 as [|r rs [Hs Ht] F IH]; intros cellId; cbn [relCells];
    [constructor|].
  apply Forall_app. split; [|apply IH].
  destruct (JsMap.get (from r) positions) as [a|]; [|constructor].
  destruct (JsMap.get (to r) positions) as [b|]; [|constructor].
  assert (A : safe (fst (fst (arrows (rtype r))))
              /\ safe (snd (fst (arrows (rtype r))))
              /\ safe (snd (arrows (rtype r)))).
  { unfold arrows.
    repeat match goal with
           | |- context [if ?b then _ else _] => destruct b
           end; repeat split. }
  destruct (arrows (rtype r)) as [[startArrow endArrow] dashed].
  cbn [fst snd] in A. destruct A as [A1 [A2 A3]].
  constructor; [|constructor].
  unfold cellSafe. cbn [cid value style parent csource ctarget safeOpt].
  split; [apply (attr_app "rel"); [now split | apply attr_ofNat]|].
  split; [destruct (truthy (label r)); [apply attr_escape | now split]|].
  split; [|split; [now split|]; split; assumption].
  apply attr_app; [now split|].
  apply attr_app; [assumption|].
  apply attr_app; [now split|].
  apply attr_app; [assumption|].
  apply attr_app; [now split|].
  apply attr_app; [assumption | apply classattr_exit].
Qed.

Lemma classattr_generate (clk : clock) (code : string) :
  exists p,
    parseClassDiagram code = Ok p
    /\ Forall cellSafe (cells (generateClassDiagramXML clk p)).
Proof.
  destruct (ClassWf.classwf_parse code) as [p [E [_ [W [_ R]]]]].
  exists p. split; [assumption|].
  assert (T : Forall (fun c => safeOpt (stereotype c)) (classes p)).
  { unfold parseClassDiagram in E.
    destruct (foldM step (Js.splitLines (Js.trim code)) init) as [st|] eqn:F;
      [|discriminate].
    cbn [bind] in E. injection E as <-. cbn [classes].
    refine (classattr_foldM _ init st _ F). constructor. }
  unfold generateClassDiagramXML. cbn [cells wrapInDrawioXML].
  apply Forall_app. split.
  - apply Forall_flat_map. apply Forall_forall. intros [i c] Hic.
    apply ClassLayout.classlay_indexed_In in Hic. destruct Hic as [_ Hic].
    apply nth_error_In in Hic. cbn [snd].
    apply classattr_classCells; cbn [snd].
    + apply (attr_In_words _ _ W). now apply in_map.
    + rewrite Forall_forall in T. now apply T.
  - apply classattr_relCells. eapply Forall_impl; [|exact R].
    intros r [Hs [Ht _]]. split; eapply attr_In_words; eassumption.
Qed.

End ClassAttr.

(** X23.  The same holds for the markup of a class diagram parsed from any
    text, whose class headers are written without escaping: names and
    stereotypes are runs of word characters, so no attribute text of a
    cell holds a [<] or a double quote. *)
Theorem generateClassDiagramXML_attributes (clk : Xml.clock)
        (mermaidCode : string) :
  exists p,
    Class.parseClassDiagram mermaidCode = Ok p
    /\ Forall Attr.cellSafe
              (Xml.cells (ClassGen.generateClassDiagramXML clk p)).
Proof. exact (ClassAttr.classattr_generate clk mermaidCode). Qed.

Module SeqAttr.
Import Xml Seq SeqGen Attr.

Lemma seqattr_messageCells (positions : JsMap.t ppos)
      (ims : list (nat * message)) :
  forall cellId, Forall cellSafe (fst (messageCells positions cellId ims)).
Proof.
  induction ims as [|[index msg] ims IH]; intros cellId; cbn [messageCells];
    [constructor|].
  destruct (JsMap.get (from msg) positions) as [a|]; [|apply IH].
  destruct (JsMap.get (to msg) positions) as [b|]; [|apply IH].
  specialize (IH (S cellId)).
  destruct (messageCells positions (S cellId) ims) as [cs n].
  cbn [fst] in *. constructor; [|assumption].
  unfold cellSafe. cbn [cid value style parent csource ctarget safeOpt].
  split; [apply (attr_app "msg"); [now split | apply attr_ofNat]|].
  split; [apply attr_escape|].
  split; [destruct (String.eqb (mtype msg) "async"); now split|].
  repeat split.
Qed.

Lemma seqattr_noteCells (positions : JsMap.t ppos) (ins : list (nat * note)) :
  forall cellId, Forall cellSafe (noteCells positions cellId ins).
Proof.
  induction ins as [|[index nt] ins IH]; intros cellId; cbn [noteCells];
    [constructor|].
  destruct (JsMap.get (hd EmptyString (nparticipants nt)) positions) as [p|];
    [|apply IH].
  constructor; [|apply IH].
  unfold cellSafe. cbn [cid value style parent csource ctarget safeOpt].
  split; [apply (attr_app "note"); [now split | apply attr_ofNat]|].
  split; [apply attr_escape|]. repeat split.
Qed.

(** A cell is safe, or it is the lifeline of a participant. *)
Definition safeOrLifeline (ps : list participant) (c : cell Z) : Prop :=
  cellSafe c
  \/ exists q, In q ps /\ cid c = id q ++ "_lifeline"
               /\ style c = styleLifeline.

Lemma seqattr_generate (clk : clock) (code : string) :
  let p := parseSequenceDiagram code in
  let doc := generateSequenceDiagramXML clk p in
  Forall (safeOrLifeline (participants p)) (cells doc)
  /\ (forall q, In q (participants p) ->
                exists c, In c (cells doc)
                          /\ cid c = id q ++ "_lifeline"
                          /\ style c = styleLifeline)
  /\ Re.mem Js.DQ styleLifeline = true.
Proof.
  intros p doc. subst doc. unfold generateSequenceDiagramXML.
  pose proof (seqattr_messageCells (participantPositions (participants p))
                (indexed (messages p)) 2) as M.
  destruct (messageCells _ 2 (indexed (messages p))) as [mcs cellId].
  cbn [fst] in M. cbn [cells wrapInDrawioXML].
  destruct (SeqWf.seqwf_parse code) as [_ [W _]]. fold p in W.
  split; [|split; [|reflexivity]].
  - apply Forall_app. split; [|apply Forall_app; split].
    + apply Forall_flat_map. apply Forall_forall. intros [i q] Hiq.
      apply ClassLayout.classlay_indexed_In in Hiq. destruct Hiq as [_ Hiq].
      apply nth_error_In in Hiq. cbn [participantCells].
      constructor; [|constructor; [|constructor]].
      * left. unfold cellSafe.
        cbn [cid value style parent csource ctarget safeOpt].
        split; [apply (attr_In_words _ _ W); now apply in_map|].
        split; [apply attr_escape|].
        split; [destruct (String.eqb (ptype q) "actor"); now split|].
        repeat split.
      * right. exists q. repeat split. assumption.
    + eapply Forall_impl; [|exact M]. intros c Hc. now left.
    + eapply Forall_impl; [|apply seqattr_noteCells]. intros c Hc. now left.
  - intros q Hq. apply In_nth_error in Hq. destruct Hq as [i Hi].
    apply ERLayout.erlay_indexed_nth in Hi.
    eexists. split.
    { apply in_or_app. left. apply in_flat_map. exists (i, q).
      split; [assumption|]. right. left. reflexivity. }
    split; reflexivity.
Qed.

End SeqAttr.

(** X24.  In the markup of a sequence diagram parsed from any text every
    attribute text is free of [<] and of double quotes, except the style
    of the lifelines: a lifeline is written for each participant, and its
    style holds double quotes, written as they are between the double
    quotes of the attribute. *)
Theorem generateSequenceDiagramXML_attributes (clk : Xml.clock)
        (mermaidCode : string) :
  let p := Seq.parseSequenceDiagram mermaidCode in
  let doc := SeqGen.generateSequenceDiagramXML clk p in
  Forall (SeqAttr.safeOrLifeline (Seq.participants p)) (Xml.cells doc)
  /\ (forall q, In q (Seq.participants p) ->
                exists c, In c (Xml.cells doc)
                          /\ Xml.cid c = Seq.id q ++ "_lifeline"
                          /\ Xml.style c = SeqGen.styleLifeline)
  /\ Re.mem Js.DQ SeqGen.styleLifeline = true.
Proof. exact (SeqAttr.seqattr_generate clk mermaidCode). Qed.

Module MindAttr.
Import Xml Mindmap MindGen Attr.

Lemma mindattr_nodeCells (positions : JsMap.t npos) (ns : list node) :
  Forall (fun n => safe (id n) /\ safeOpt (parentId n)) ns ->
  forall cellId, Forall cellSafe (nodeCells positions cellId ns).
Proof.
  induction 1 as [|n ns [Hi Hp] F IH]; intros cellId; cbn [nodeCells];
    [constructor|].
  destruct (JsMap.get (id n) positions) as [pos|]; [|apply IH].
  constructor; [|apply Forall_app; split; [|apply IH]].
  - unfold cellSafe. cbn [cid value style parent csource ctarget safeOpt].
    split; [assumption|]. split; [apply attr_escape|].
    split; [|repeat split]. unfold nodeStyle.
    repeat match goal with
           | |- context [if ?b then _ else _] => destruct b
           end; now split.
  - destruct (truthy (parentId n)
              && JsMap.has (orElse (parentId n) EmptyString) positions);
      constructor; [|constructor].
    unfold cellSafe. cbn [cid value style parent csource ctarget safeOpt].
    split; [apply (attr_app "conn"); [now split | apply attr_ofNat]|].
    repeat split; try apply Hp; try apply Hi.
Qed.

Lemma mindattr_ordered (ns : list node) :
  MindGenFacts.ordered ns ->
  Forall (fun n => safe (id n) /\ safeOpt (parentId n)) ns.
Proof.
  intros O. apply Forall_forall. intros n Hn.
  destruct (In_nth_error _ _ Hn) as [i Hi].
  destruct (O i n Hi) as [-> Hp].
  assert (S : forall k, safe ("node" ++ Js.ofNat k)).
  { intros k. apply (attr_app "node"); [now split | apply attr_ofNat]. }
  split; [apply S|].
  destruct (parentId n) as [q|]; [|exact I].
  destruct (Hp q eq_refl) as [j [_ ->]]. apply S.
Qed.

Lemma mindattr_generate (e : Engine.t) (clk : clock) (code : string) :
  match generateMindmapXML e clk (parseMindmap code) with
  | Some doc => Forall cellSafe (cells doc)
  | None =>
      (Engine.layoutFrames e < List.length (nodes (parseMindmap code)))%nat
  end.
Proof.
  pose proof (MindGenFacts.tree_parse_ordered code) as O.
  pose proof (MindGenFacts.tree_generate_ok e clk _ O) as G.
  pose proof (mindattr_nodeCells) as L.
  pose proof (mindattr_ordered _ O) as F.
  unfold generateMindmapXML in *.
  destruct (root (parseMindmap code)); [|constructor].
  destruct (rootId (nodes (parseMindmap code))).
  - destruct (unfold _ _ _); cbn [option_map] in *; [|exact G].
    cbn [cells wrapInDrawioXML]. now apply L.
  - cbn [option_map cells wrapInDrawioXML]. now apply L.
Qed.

End MindAttr.

(** X25.  The same holds for the markup of a mind map parsed from any
    text: no attribute text of a cell holds a [<] or a double quote.  The
    generator returns unless the call stack holds fewer calls than the
    model has nodes. *)
Theorem generateMindmapXML_attributes
        (e : Engine.t) (clk : Xml.clock) (mermaidCode : string) :
  match MindGen.generateMindmapXML e clk (Mindmap.parseMindmap mermaidCode)
  with
  | Some doc => Forall Attr.cellSafe (Xml.cells doc)
  | None =>
      (Engine.layoutFrames e
       < List.length (Mindmap.nodes (Mindmap.parseMindmap mermaidCode)))%nat
  end.
Proof. exact (MindAttr.mindattr_generate e clk mermaidCode). Qed.

(** ** Mindmaps: where the nodes are placed *)

Module MindPlaced.
Import Mindmap MindGen MindGenFacts MindDrawn.
Local Open Scope R_scope.

(** The sum of the radii of the levels 1 to [d]. *)
Fixpoint span (d : nat) : Z :=
  match d with
  | O => 0
  | S d' => span d' + Radial.radiusZ d
  end.

(** The box of a cell lies inside the canvas. *)
Definition boxInCanvas (g : Xml.geometry R) : Prop :=
  exists bx by' bw bh,
    g = Xml.box bx by' bw bh
    /\ 0 <= bx /\ bx + bw <= CANVAS_WIDTH
    /\ 0 <= by' /\ by' + bh <= CANVAS_HEIGHT.

Lemma placed_span_bounds (d : nat) :
  (0 <= span d <= 350 * Z.of_nat d)%Z.
Proof.
  induction d as [|d IH]; [cbn [span]; lia|].
  pose proof (Radial.radial_radiusZ_bounds (S d)).
  change (span (S d)) with (span d + Radial.radiusZ (S d))%Z. lia.
Qed.

Lemma placed_eachChild_nth (rec : tree -> R -> list (string * npos))
      (angleOf : nat -> R) (cs : list tree) :
  forall (idx index : nat) (k : tree),
    nth_error cs idx = Some k ->
    incl (rec k (angleOf (index + idx)%nat))
         (eachChild rec angleOf cs index).
Proof.
  induction cs as [|c cs IH]; intros idx index k H; [now destruct idx|].
  cbn [eachChild]. destruct idx as [|idx]; cbn [nth_error] in H.
  - injection H as ->. rewrite Nat.add_0_r. now apply incl_appl.
  - apply incl_appr. replace (index + S idx)%nat with (S index + idx)%nat
      by lia. now apply IH.
Qed.

Lemma placed_sequence_nth {A B : Type} (g : A -> option B) (l : list A) :
  forall (bs : list B),
    sequence (map g l) = Some bs ->
    List.length bs = List.length l
    /\ forall i a, nth_error l i = Some a ->
                   exists b, nth_error bs i = Some b /\ g a = Some b.
Proof.
  induction l as [|x l IH]; intros bs; cbn [map sequence].
  - intros [= <-]. split; [reflexivity|]. intros i a H. now destruct i.
  - destruct (g x) as [y|] eqn:G; [|discriminate].
    destruct (sequence (map g l)) as [r|]; [|discriminate].
    intros [= <-]. destruct (IH r eq_refl) as [L H]. split.
    + cbn [List.length]. now rewrite L.
    + intros [|i] a Ha; cbn [nth_error] in *.
      * injection Ha as <-. now exists y.
      * exact (H i a Ha).
Qed.

Section WithEngine.
Variable e : Engine.t.

(** [hangs ns i l a0 d w a]: when the layout is called for the object
    [i] at level [l] with the angle [a0], it reaches the object [w] by
    [d] links of [children], and calls it with the angle [a]: the angle
    of a child is the one its index is assigned in the fan of its
    parent. *)
Inductive hangs (ns : list node) (i : string) (l : nat) (a0 : R)
  : nat -> string -> R -> Prop :=
| hangs_self : hangs ns i l a0 0 i a0
| hangs_child (d : nat) (q w : string) (a : R) (index : nat) :
    hangs ns i l a0 d q a ->
    nth_error (childIds ns q) index = Some w ->
    hangs ns i l a0 (S d) w
          (childAngleOf e (l + d) (List.length (childIds ns q)) a index).

Lemma placed_hangs_below (ns : list node) (i : string) (l : nat) (a0 : R)
      (d : nat) (w : string) (a : R) :
  hangs ns i l a0 d w a -> below ns i d w.
Proof.
  induction 1 as [|d q w a index H IH Hw]; [constructor|].
  apply (below_child ns i d q); [assumption|].
  now apply nth_error_In in Hw.
Qed.

Lemma placed_below_hangs (ns : list node) (i : string) (l : nat) (a0 : R)
      (d : nat) (w : string) :
  below ns i d w -> exists a, hangs ns i l a0 d w a.
Proof.
  induction 1 as [|d q w H [a IH] Hw]; [exists a0; constructor|].
  destruct (In_nth_error _ _ Hw) as [index Hi].
  eexists. exact (hangs_child ns i l a0 d q w a index IH Hi).
Qed.

(** A chain of links that starts at a child of [i]. *)
Lemma placed_hangs_cons (ns : list node) (i c : string) (l : nat) (a0 : R)
      (index : nat) :
  nth_error (childIds ns i) index = Some c ->
  forall d w a,
    hangs ns c (S l)
          (childAngleOf e l (List.length (childIds ns i)) a0 index) d w a ->
    hangs ns i l a0 (S d) w a.
Proof.
  intros Hc d w a H.
  induction H as [|d q w a idx H IH Hw].
  - pose proof (hangs_child ns i l a0 0 i c a0 index
                  (hangs_self ns i l a0) Hc) as G.
    now rewrite Nat.add_0_r in G.
  - pose proof (hangs_child ns i l a0 (S d) q w a idx IH Hw) as G.
    replace (l + S d)%nat with (S l + d)%nat in G by lia. exact G.
Qed.

(** The first link of a chain of links. *)
Lemma placed_hangs_first (ns : list node) (i : string) (l : nat) (a0 : R)
      (d : nat) (w : string) (a : R) :
  hangs ns i l a0 (S d) w a ->
  exists c index,
    nth_error (childIds ns i) index = Some c
    /\ hangs ns c (S l)
             (childAngleOf e l (List.length (childIds ns i)) a0 index)
             d w a.
Proof.
  remember (S d) as n eqn:E. intros H. revert d E.
  induction H as [|n q w a idx H IH Hw]; intros d E; [discriminate|].
  injection E as ->. destruct d as [|d].
  - inversion H; subst. exists w, idx. split; [assumption|].
    rewrite Nat.add_0_r. constructor.
  - destruct (IH d eq_refl) as [c [index [Hc Hb]]].
    exists c, index. split; [assumption|].
    pose proof (hangs_child ns c (S l) _ d q w a idx Hb Hw) as G.
    replace (S l + d)%nat with (l + S d)%nat in G by lia. exact G.
Qed.

(** Every stored centre is [x + width / 2] and [y + height / 2]. *)
Definition centred (p : npos) : Prop :=
  centerX p = Engine.add e (x p) (Engine.div e (width p) 2)
  /\ centerY p = Engine.add e (y p) (Engine.div e (height p) 2).

Lemma placed_centred (angle px py : R) (l : nat) :
  centred (placeOf e angle px py l).
Proof.
  unfold placeOf, centred. destruct (sizeOf l) as [w h].
  split; reflexivity.
Qed.

(** The position stored for the object [d] links below the one a call is
    made for: that of the call itself when [d] is 0, and otherwise the
    one computed at level [l + d] from the centre stored for its parent,
    along the angle assigned to it. *)
Lemma placed_levels (ns : list node) (f : nat) :
  forall (i : string) (t : tree),
    unfold ns f i = Some t ->
    forall (angle px py : R) (l d : nat) (w : string) (a : R),
      hangs ns i l angle d w a ->
      exists pw,
        In (w, pw) (calculateNodePositions e t angle px py l)
        /\ match d with
           | O => pw = placeOf e angle px py l
           | S d' =>
               exists q pq aq,
                 hangs ns i l angle d' q aq /\ In w (childIds ns q)
                 /\ In (q, pq) (calculateNodePositions e t angle px py l)
                 /\ pw = placeOf e a (centerX pq) (centerY pq) (l + d)
           end.
Proof.
  induction f as [|f IH]; intros i t; [discriminate|].
  cbn [unfold].
  destruct (sequence (map (unfold ns f) (childIds ns i))) as [ks|] eqn:Sq;
    [|discriminate].
  intros [= <-] angle px py l d w a Hb. cbn [calculateNodePositions].
  set (p := placeOf e angle px py l).
  destruct (placed_sequence_nth _ _ _ Sq) as [Lk Nk].
  destruct d as [|d].
  - inversion Hb; subst. exists p. split; [now left | reflexivity].
  - destruct (placed_hangs_first ns i l angle d w a Hb)
      as [c [index [Hc Hcw]]].
    destruct (Nk index c Hc) as [k [Hk Uk]].
    pose proof (placed_eachChild_nth
                  (fun child childAngle =>
                     calculateNodePositions e child childAngle
                       (centerX p) (centerY p) (S l))
                  (childAngleOf e l (List.length ks) angle) ks index 0%nat
                  k Hk) as Ha.
    cbn [Nat.add] in Ha. rewrite Lk in Ha.
    destruct (IH c k Uk _ (centerX p) (centerY p) (S l) d w a Hcw)
      as [pw [Hin Hpw]].
    exists pw. split; [right; rewrite Lk; now apply Ha|].
    destruct d as [|d].
    + inversion Hcw; subst. exists i, p, angle.
      split; [constructor|]. split; [now apply nth_error_In in Hc|].
      split; [now left|]. now rewrite Nat.add_1_r.
    + destruct Hpw as [q [pq [aq [Hq [Hwq [Hqin E]]]]]].
      exists q, pq, aq.
      split; [exact (placed_hangs_cons ns i c l angle index Hc _ _ _ Hq)|].
      split; [assumption|]. split; [right; rewrite Lk; now apply Ha|].
      rewrite E. f_equal. lia.
Qed.

(** A table filled from writes with distinct keys holds every write. *)
Lemma placed_table_other (ws : list (string * npos)) :
  forall (m : JsMap.t npos) (k : string),
    ~ In k (map fst ws) ->
    JsMap.get k (fold_left (fun m w => JsMap.set (fst w) (snd w) m) ws m)
    = JsMap.get k m.
Proof.
  induction ws as [|[k0 v0] ws IH]; intros m k H; cbn [fold_left];
    [reflexivity|].
  rewrite IH by (intros Hk; apply H; now right).
  apply get_set_neq. intros E. apply H. now left.
Qed.

Lemma placed_table_get (ws : list (string * npos)) (k : string) (v : npos) :
  NoDup (map fst ws) -> In (k, v) ws ->
  JsMap.get k (nodePositions ws) = Some v.
Proof.
  unfold nodePositions. generalize (@JsMap.empty npos) as m.
  induction ws as [|[k0 v0] ws IH]; intros m D H; [contradiction|].
  cbn [map fst] in D. apply NoDup_cons_iff in D. destruct D as [N D].
  cbn [fold_left fst snd]. destruct H as [[= -> ->]|H].
  - rewrite placed_table_other by assumption. apply get_set_eq.
  - now apply IH.
Qed.

(** The vertex cells are those of the positioned nodes, each with the box
    stored for it. *)
Lemma placed_vertex_In (positions : JsMap.t npos) (ns : list node)
      (c : Xml.cell R) :
  forall cellId,
    In c (nodeCells positions cellId ns) -> Xml.isVertex c = true ->
    exists n pos,
      In n ns /\ JsMap.get (id n) positions = Some pos
      /\ Xml.cid c = id n
      /\ Xml.geom c = Xml.box (x pos) (y pos) (width pos) (height pos).
Proof.
  induction ns as [|n ns IH]; intros cellId; cbn [nodeCells];
    [contradiction|].
  assert (Next : forall k,
             In c (nodeCells positions k ns) -> Xml.isVertex c = true ->
             exists m pos,
               In m (n :: ns) /\ JsMap.get (id m) positions = Some pos
               /\ Xml.cid c = id m
               /\ Xml.geom c
                  = Xml.box (x pos) (y pos) (width pos) (height pos)).
  { intros k Hk Hv. destruct (IH k Hk Hv) as [m [pos [Hm R']]].
    exists m, pos. split; [now right | assumption]. }
  destruct (JsMap.get (id n) positions) as [pos|] eqn:G; [|apply Next].
  intros [<-|Hin] Hv.
  - exists n, pos. split; [now left|]. split; [assumption|].
    split; reflexivity.
  - apply in_app_or in Hin. destruct Hin as [Hin|Hin]; [|exact (Next _ Hin Hv)].
    destruct (truthy (parentId n)
              && JsMap.has (orElse (parentId n) EmptyString) positions);
      [|contradiction].
    destruct Hin as [<-|[]]. discriminate Hv.
Qed.

Lemma placed_vertex_exists (positions : JsMap.t npos) (ns : list node)
      (n : node) (pos : npos) :
  In n ns -> JsMap.get (id n) positions = Some pos ->
  forall cellId,
  exists c,
    In c (nodeCells positions cellId ns) /\ Xml.isVertex c = true
    /\ Xml.cid c = id n
    /\ Xml.geom c = Xml.box (x pos) (y pos) (width pos) (height pos).
Proof.
  intros Hn G. induction ns as [|m ns IH]; intros cellId; [contradiction|].
  cbn [nodeCells]. destruct Hn as [->|Hn].
  - rewrite G. eexists. split; [left; reflexivity|].
    split; [reflexivity|]. split; reflexivity.
  - destruct (JsMap.get (id m) positions) as [pm|].
    + destruct (IH Hn (if truthy (parentId m)
                          && JsMap.has (orElse (parentId m) EmptyString)
                                       positions
                       then S cellId else cellId)) as [c [Hc R']].
      exists c. split; [|assumption]. right. apply in_or_app. now right.
    + exact (IH Hn cellId).
Qed.

(** With parents before children an object is reached in one way only:
    the number of links and the angle are determined. *)
Lemma placed_hangs_unique (ns : list node) (k : nat) (l : nat) (a0 : R) :
  ordered ns ->
  forall d w a,
    hangs ns ("node" ++ Js.ofNat k) l a0 d w a ->
    forall d' a',
      hangs ns ("node" ++ Js.ofNat k) l a0 d' w a' -> d' = d /\ a' = a.
Proof.
  intros Ord. pose proof (tree_ordered_ids _ Ord) as D.
  assert (Top : forall d q index,
             hangs ns ("node" ++ Js.ofNat k) l a0 d q (a0 + 0 - 0 + 0)
             \/ True ->
             below ns ("node" ++ Js.ofNat k) d q ->
             nth_error (childIds ns q) index = Some ("node" ++ Js.ofNat k) ->
             False).
  { intros d q index _ Hb Hq. apply nth_error_In in Hq.
    destruct (drawn_childIds _ _ _ Hq) as [n [Hn [En Pn]]].
    destruct (In_nth_error _ _ Hn) as [j Hj].
    destruct (Ord j n Hj) as [Ej Hp].
    destruct (Hp q Pn) as [p [Lp Eq]]. subst q.
    exact (drawn_child_not_above ns p _ d Ord Hq Hb). }
  intros d w a H. induction H as [|d q w a index H IH Hw]; intros d' a' H'.
  - inversion H' as [|d0 q' w' aq idx Hq' Hw']; subst; [now split|].
    exfalso. exact (Top d0 q' idx (or_intror I)
                        (placed_hangs_below _ _ _ _ _ _ _ Hq') Hw').
  - inversion H' as [|d0 q' w' aq idx Hq' Hw']; subst.
    + exfalso. exact (Top d q index (or_intror I)
                          (placed_hangs_below _ _ _ _ _ _ _ H) Hw).
    + assert (Eq : q' = q).
      { apply (drawn_one_parent ns w q' q D);
          eapply nth_error_In; eassumption. }
      subst q'. destruct (IH d0 aq Hq') as [-> ->].
      assert (Ei : idx = index).
      { apply (proj1 (NoDup_nth_error (childIds ns q))
                 (drawn_childIds_NoDup ns q D)).
        - apply nth_error_Some. congruence.
        - congruence. }
      subst idx. now split.
Qed.

Hypothesis ieee : Engine.ieee e.

Lemma placed_root_near (angle px py : R) :
  Radial.near 0 (placeOf e angle px py 0).
Proof.
  rewrite (Radial.radial_root e ieee). unfold Radial.near.
  cbn [x y centerX centerY width height]. repeat split; lra.
Qed.

(** The box written for a node hung at level [d], along the angle [a],
    from a parent whose box is at [(xq, yq)] with size [(wq, hq)]. *)
Definition hungFrom (d : nat) (a xq yq wq hq : R) : Xml.geometry R :=
  Xml.box
    (Engine.sub e
       (Engine.add e (Engine.add e xq (Engine.div e wq 2))
          (Engine.mul e (Engine.mcos e a) (radiusOf d)))
       (Engine.div e (fst (sizeOf d)) 2))
    (Engine.sub e
       (Engine.add e (Engine.add e yq (Engine.div e hq 2))
          (Engine.mul e (Engine.msin e a) (radiusOf d)))
       (Engine.div e (snd (sizeOf d)) 2))
    (fst (sizeOf d)) (snd (sizeOf d)).

Lemma placed_hungFrom (a : R) (pq : npos) (d : nat) :
  centred pq ->
  Xml.box (x (placeOf e a (centerX pq) (centerY pq) (S d)))
          (y (placeOf e a (centerX pq) (centerY pq) (S d)))
          (width (placeOf e a (centerX pq) (centerY pq) (S d)))
          (height (placeOf e a (centerX pq) (centerY pq) (S d)))
  = hungFrom (S d) a (x pq) (y pq) (width pq) (height pq).
Proof.
  intros [Cx Cy]. unfold placeOf, hungFrom. rewrite Cx, Cy.
  destruct (sizeOf (S d)) as [w h]. reflexivity.
Qed.

(** What is stored for the tree below the root [r] of a model with
    parents before children. *)
Section Table.
Variables (ns : list node) (r : string) (t : tree) (frames : nat).
Hypothesis Ord : ordered ns.
Hypothesis Rt : rootId ns = Some r.
Hypothesis U : unfold ns frames r = Some t.

Let writes : list (string * npos) :=
  calculateNodePositions e t 0 (CENTER_X e) (CENTER_Y e) 0.

Lemma placed_root_node : exists k, r = "node" ++ Js.ofNat k.
Proof.
  destruct (drawn_rootId _ _ Rt) as [nr [Hnr [Er _]]].
  destruct (In_nth_error _ _ Hnr) as [i Hi].
  exists i. rewrite <- Er. exact (proj1 (Ord i nr Hi)).
Qed.

Lemma placed_keys_NoDup : NoDup (map fst writes).
Proof.
  unfold writes. rewrite (drawn_ids e (Radial.depth t)) by lia.
  destruct placed_root_node as [i Ei].
  apply (drawn_treeIds_NoDup ns frames Ord i). now rewrite <- Ei.
Qed.

Lemma placed_get (w : string) (pw : npos) :
  In (w, pw) writes -> JsMap.get w (nodePositions writes) = Some pw.
Proof. apply placed_table_get. exact placed_keys_NoDup. Qed.

(** The object [d] links below the root is stored within the radii of
    the levels 1 to [d] of the canvas centre. *)
Lemma placed_near (d : nat) :
  (d <= 1000)%nat ->
  forall w a, hangs ns r 0 0 d w a ->
              exists pw, JsMap.get w (nodePositions writes) = Some pw
                         /\ Radial.near (span d) pw.
Proof.
  induction d as [|d IH]; intros Ld w a Hb.
  - destruct (placed_levels ns frames r t U 0 (CENTER_X e) (CENTER_Y e)
                0%nat 0%nat w a Hb) as [pw [Hin E]].
    exists pw. split; [now apply placed_get|]. rewrite E.
    apply placed_root_near.
  - destruct (placed_levels ns frames r t U 0 (CENTER_X e) (CENTER_Y e)
                0%nat (S d) w a Hb)
      as [pw [Hin [q [pq [aq [Hq [Hw [Hqin E]]]]]]]].
    exists pw. split; [now apply placed_get|].
    destruct (IH ltac:(lia) q aq Hq) as [pq' [Gq Nq]].
    rewrite (placed_get q pq Hqin) in Gq. injection Gq as <-.
    rewrite E. cbn [Nat.add]. change (span (S d))
      with (span d + Radial.radiusZ (S d))%Z.
    pose proof (placed_span_bounds d) as Bs.
    destruct Nq as [Nx [Ny _]].
    apply (Radial.radial_place_near e ieee); try assumption.
    change (2 ^ 40)%Z with 1099511627776%Z. lia.
Qed.

(** What the cells say of the positions. *)
Lemma placed_cells (c : Xml.cell R) :
  In c (nodeCells (nodePositions writes) 2 ns) -> Xml.isVertex c = true ->
  exists d a,
    hangs ns r 0 0 d (Xml.cid c) a
    /\ (forall d' a', hangs ns r 0 0 d' (Xml.cid c) a' -> d' = d /\ a' = a)
    /\ ((d <= 3)%nat -> boxInCanvas (Xml.geom c))
    /\ match d with
       | 0%nat => Xml.geom c = Xml.box 1110 855 180 90
       | S d' =>
           exists cq aq xq yq wq hq,
             In cq (nodeCells (nodePositions writes) 2 ns)
             /\ Xml.isVertex cq = true
             /\ hangs ns r 0 0 d' (Xml.cid cq) aq
             /\ In (Xml.cid c) (childIds ns (Xml.cid cq))
             /\ Xml.geom cq = Xml.box xq yq wq hq
             /\ Xml.geom c = hungFrom d a xq yq wq hq
       end.
Proof.
  intros Hc Hv.
  destruct (placed_vertex_In _ _ _ _ Hc Hv) as [n [pos [Hn [G [Ec Eg]]]]].
  assert (Tn : In (id n) (treeIds t)).
  { apply (drawn_keys e t). unfold JsMap.has. fold writes. now rewrite G. }
  destruct (drawn_below_tree _ _ _ _ U _ Tn) as [d Hb0].
  destruct (placed_below_hangs ns r 0 0 d (id n) Hb0) as [a Hb].
  exists d, a. rewrite Ec, Eg. split; [exact Hb|].
  split.
  { destruct placed_root_node as [k Ek]. rewrite Ek in Hb |- *.
    exact (placed_hangs_unique ns k 0 0 Ord d (id n) a Hb). }
  assert (Lv := placed_levels ns frames r t U 0 (CENTER_X e) (CENTER_Y e)
                  0%nat d (id n) a Hb).
  fold writes in Lv. destruct Lv as [pw [Hin Hpw]].
  rewrite (placed_get _ _ Hin) in G. injection G as ->.
  split.
  - intros Ld. destruct (placed_near d ltac:(lia) (id n) a Hb) as [p' [G' N]].
    rewrite (placed_get _ _ Hin) in G'. injection G' as <-.
    assert (N' : Radial.near 850 pos).
    { revert N. apply Radial.radial_near_mono.
      destruct d as [|[|[|[|d]]]]; [..|lia]; vm_compute; discriminate. }
    apply Radial.radial_near_inCanvas in N'.
    exists (x pos), (y pos), (width pos), (height pos).
    split; [reflexivity | exact N'].
  - destruct d as [|d].
    + rewrite Hpw, (Radial.radial_root e ieee). reflexivity.
    + destruct Hpw as [q [pq [aq [Hq [Hw [Hqin E]]]]]].
      assert (Cq : centred pq).
      { assert (Lq := placed_levels ns frames r t U 0 (CENTER_X e)
                        (CENTER_Y e) 0%nat d q aq Hq).
        fold writes in Lq. destruct Lq as [pq' [Hin' Hpq]].
        pose proof (placed_get _ _ Hin') as G1.
        rewrite (placed_get _ _ Hqin) in G1. injection G1 as <-.
        destruct d as [|d'].
        - rewrite Hpq. apply placed_centred.
        - destruct Hpq as [q2 [p2 [a2 [_ [_ [_ ->]]]]]]. apply placed_centred. }
      assert (Nq : exists m, In m ns /\ id m = q).
      { pose proof (drawn_tree_below _ _ _ _ U _ _
                      (placed_hangs_below _ _ _ _ _ _ _ Hq)) as Tq.
        destruct (proj2 (drawn_closure _ _ _ _ U) q Tq) as [->|[q' [_ Hq']]].
        - destruct (drawn_rootId _ _ Rt) as [nr [Hnr [Er _]]]. now exists nr.
        - destruct (drawn_childIds _ _ _ Hq') as [m [Hm [E' _]]].
          now exists m. }
      destruct Nq as [m [Hm Em]].
      destruct (placed_vertex_exists (nodePositions writes) ns m pq Hm
                  ltac:(rewrite Em; now apply placed_get) 2%nat)
        as [cq [Hcq [Vq [Iq Gq]]]].
      exists cq, aq, (x pq), (y pq), (width pq), (height pq).
      rewrite Iq, Em. repeat (split; [assumption|]).
      rewrite E. cbn [Nat.add]. now apply placed_hungFrom.
Qed.

End Table.

(** The positions in the markup of a model with parents before
    children. *)
Lemma placed_document (clk : Xml.clock) (p : parsed) :
  ordered (nodes p) ->
  match generateMindmapXML e clk p with
  | None => (Engine.layoutFrames e < List.length (nodes p))%nat
  | Some doc =>
      forall c,
        In c (Xml.cells doc) -> Xml.isVertex c = true ->
        exists r d a,
          rootId (nodes p) = Some r
          /\ hangs (nodes p) r 0 0 d (Xml.cid c) a
          /\ (forall d' a', hangs (nodes p) r 0 0 d' (Xml.cid c) a' ->
                            d' = d /\ a' = a)
          /\ ((d <= 3)%nat -> boxInCanvas (Xml.geom c))
          /\ match d with
             | 0%nat => Xml.geom c = Xml.box 1110 855 180 90
             | S d' =>
                 exists cq aq xq yq wq hq,
                   In cq (Xml.cells doc) /\ Xml.isVertex cq = true
                   /\ hangs (nodes p) r 0 0 d' (Xml.cid cq) aq
                   /\ In (Xml.cid c) (childIds (nodes p) (Xml.cid cq))
                   /\ Xml.geom cq = Xml.box xq yq wq hq
                   /\ Xml.geom c = hungFrom d a xq yq wq hq
             end
  end.
Proof.
  intros Ord. pose proof (tree_generate_ok e clk p Ord) as G.
  unfold generateMindmapXML in *.
  destruct (root p); [|intros c []].
  destruct (rootId (nodes p)) as [r|] eqn:Rt.
  2:{ cbn [option_map Xml.cells Xml.wrapInDrawioXML].
      change (nodePositions []) with (@JsMap.empty npos).
      rewrite drawn_nothing. intros c []. }
  destruct (unfold (nodes p) (Engine.layoutFrames e) r) as [t|] eqn:U;
    cbn [option_map] in *; [|exact G].
  cbn [Xml.cells Xml.wrapInDrawioXML] in *. intros c Hc Hv.
  destruct (placed_cells (nodes p) r t (Engine.layoutFrames e) Ord Rt U c
              Hc Hv) as [d [a H]].
  exists r, d, a. split; [reflexivity | exact H].
Qed.

End WithEngine.

End MindPlaced.

Definition deepChain : string :=
  "mindmap" ++ nl ++ "A" ++ nl ++ "  B" ++ nl ++ "    C" ++ nl ++ "      D"
  ++ nl ++ "        E" ++ nl ++ "          F" ++ nl ++ "            G".

(** C6, as stated, fails: a chain of seven nodes is laid out along the
    angle 0, each centre one radius to the right of its parent, and the
    seventh node is placed at x = 2470, past the right edge of the canvas
    of width 2400.  All numbers on the way are integers or halves of
    integers, which doubles hold exactly, so this is what every engine
    computes whose call stack holds the seven nested calls. *)
Lemma mindmap_chain_leaves_canvas :
  (exists e, Engine.ieee e /\ (7 <= Engine.layoutFrames e)%nat)
  /\ forall e clk,
       Engine.ieee e -> (7 <= Engine.layoutFrames e)%nat ->
       exists doc c xv,
         MindGen.generateMindmapXML e clk (Mindmap.parseMindmap deepChain)
         = Some doc
         /\ In c (Xml.cells doc) /\ Xml.isVertex c = true
         /\ Xml.cid c = "node6"
         /\ Xml.gx (Xml.geom c) = Some xv
         /\ (xv = 2470)%R /\ (xv > MindGen.CANVAS_WIDTH)%R.
Proof.
  split.
  { exists (Engine.exact 7). split; [apply Radial.radial_exact_ieee|].
    cbn [Engine.layoutFrames Engine.exact]. lia. }
  intros e clk I L.
  unfold MindGen.generateMindmapXML.
  destruct (Engine.layoutFrames e) as [|[|[|[|[|[|[|f]]]]]]]; try lia.
  eexists. eexists. eexists. split.
  { lazy -[MindGen.placeOf MindGen.CENTER_X MindGen.CENTER_Y IZR
           MindGen.x MindGen.y MindGen.centerX MindGen.centerY
           MindGen.width MindGen.height].
    reflexivity. }
  split; [cbn [Xml.cells]; do 11 right; left; reflexivity|].
  split; [reflexivity|]. split; [reflexivity|].
  split; [cbn [Xml.gx Xml.geom Xml.box]; reflexivity|].
  rewrite (Radial.radial_root e I). cbn [MindGen.centerX MindGen.centerY].
  assert (B : forall z, (Z.abs z <= 100000)%Z -> (Z.abs z <= 2 ^ 40)%Z).
  { intros z Hz. change (2 ^ 40)%Z with 1099511627776%Z. lia. }
  do 6 (rewrite (Radial.radial_place_zero e I)
         by (apply B; vm_compute; discriminate);
        cbn [MindGen.centerX MindGen.centerY]).
  cbn [MindGen.x].
  change (2 * (1200 + Radial.radiusZ 1 + Radial.radiusZ 2 + Radial.radiusZ 3
               + Radial.radiusZ 4 + Radial.radiusZ 5 + Radial.radiusZ 6)
          - fst (Radial.sizeZ 6))%Z with 4940%Z.
  unfold MindGen.CANVAS_WIDTH. split; lra.
Qed.

(** C6, amended.  In the markup of a mind map parsed from any text, the
    root is centred on the canvas centre (1200, 900), and a node [d]
    links below the root has its box where the layout puts a node of
    level [d] hung from its parent: its centre is at the radius of level
    [d] (350, 280, 220, 180, then 150) from the centre of the parent's
    box, along the angle [a] that its index is assigned in the fan of
    its parent, each step rounded as the engine rounds.  The number of
    links and the angle are determined by the node.  No position is
    clamped: the boxes of the nodes at most 3 links below the root all
    lie inside the 2400 x 1800 canvas, for any number of children, and
    nothing is claimed of deeper nodes.  The generator returns unless the
    call stack holds fewer calls than the model has nodes. *)
Theorem calculateNodePositions_bounds
        (e : Engine.t) (clk : Xml.clock) (mermaidCode : string) :
  Engine.ieee e ->
  match MindGen.generateMindmapXML e clk (Mindmap.parseMindmap mermaidCode)
  with
  | None =>
      (Engine.layoutFrames e
       < List.length (Mindmap.nodes (Mindmap.parseMindmap mermaidCode)))%nat
  | Some doc =>
      forall c,
        In c (Xml.cells doc) -> Xml.isVertex c = true ->
        exists r d a,
          MindGen.rootId (Mindmap.nodes (Mindmap.parseMindmap mermaidCode))
          = Some r
          /\ MindPlaced.hangs e
               (Mindmap.nodes (Mindmap.parseMindmap mermaidCode)) r 0 0 d
               (Xml.cid c) a
          /\ (forall d' a',
                 MindPlaced.hangs e
                   (Mindmap.nodes (Mindmap.parseMindmap mermaidCode)) r 0 0
                   d' (Xml.cid c) a' ->
                 d' = d /\ a' = a)
          /\ ((d <= 3)%nat -> MindPlaced.boxInCanvas (Xml.geom c))
          /\ match d with
             | O => Xml.geom c = Xml.box 1110%R 855%R 180%R 90%R
             | S d' =>
                 exists cq aq xq yq wq hq,
                   In cq (Xml.cells doc) /\ Xml.isVertex cq = true
                   /\ MindPlaced.hangs e
                        (Mindmap.nodes (Mindmap.parseMindmap mermaidCode))
                        r 0 0 d' (Xml.cid cq) aq
                   /\ In (Xml.cid c)
                         (MindGen.childIds
                            (Mindmap.nodes (Mindmap.parseMindmap mermaidCode))
                            (Xml.cid cq))
                   /\ Xml.geom cq = Xml.box xq yq wq hq
                   /\ Xml.geom c
                      = Xml.box
                          (Engine.sub e
                             (Engine.add e
                                (Engine.add e xq (Engine.div e wq 2))
                                (Engine.mul e (Engine.mcos e a)
                                   (MindGen.radiusOf d)))
                             (Engine.div e (fst (MindGen.sizeOf d)) 2))
                          (Engine.sub e
                             (Engine.add e
                                (Engine.add e yq (Engine.div e hq 2))
                                (Engine.mul e (Engine.msin e a)
                                   (MindGen.radiusOf d)))
                             (Engine.div e (snd (MindGen.sizeOf d)) 2))
                          (fst (MindGen.sizeOf d)) (snd (MindGen.sizeOf d))
             end
  end.
Proof.
  intros I.
  exact (MindPlaced.placed_document e I clk _
           (MindGenFacts.tree_parse_ordered mermaidCode)).
Qed.

(** The chain of seven nodes, laid out by an engine that computes
    exactly and holds seven calls: every node hangs below the root, and
    the first four lie inside the canvas. *)
Lemma calculateNodePositions_bounds_witness :
  exists doc,
    MindGen.generateMindmapXML (Engine.exact 7) someClock
      (Mindmap.parseMindmap deepChain) = Some doc
    /\ forall c,
         In c (Xml.cells doc) -> Xml.isVertex c = true ->
         exists r d a,
           MindGen.rootId (Mindmap.nodes (Mindmap.parseMindmap deepChain))
           = Some r
           /\ MindPlaced.hangs (Engine.exact 7)
                (Mindmap.nodes (Mindmap.parseMindmap deepChain)) r 0 0 d
                (Xml.cid c) a
           /\ ((d <= 3)%nat -> MindPlaced.boxInCanvas (Xml.geom c)).
Proof.
  assert (T := calculateNodePositions_bounds (Engine.exact 7) someClock
                 deepChain (Radial.radial_exact_ieee 7)).
  destruct (MindGen.generateMindmapXML (Engine.exact 7) someClock
              (Mindmap.parseMindmap deepChain)) as [doc|].
  - exists doc. split; [reflexivity|]. intros c Hc Hv.
    destruct (T c Hc Hv) as [r [d [a [H1 [H2 [_ [H3 _]]]]]]].
    exists r, d, a. split; [exact H1|]. split; [exact H2 | exact H3].
  - exfalso. vm_compute in T. lia.
Defined.

(** ** Distinct ids, kind by kind *)

Section Kinds.
Context {N : Type}.

(** The ids of the vertex cells that [keep] selects. *)
Definition idsWhere (keep : Xml.cell N -> bool) (cs : list (Xml.cell N))
  : list string :=
  map Xml.cid (filter (fun c => Xml.isVertex c && keep c) cs).

(** The geometry gives an [x]: the cell is placed on the page.  A row
    stacked inside a container has none. *)
Definition hasX (c : Xml.cell N) : bool :=
  match Xml.gx (Xml.geom c) with
  | Some _ => true
  | None => false
  end.

Definition isRow (c : Xml.cell N) : bool := negb (hasX c).

(** The style of the cell is [s]. *)
Definition styled (s : string) (c : Xml.cell N) : bool :=
  String.eqb (Xml.style c) s.

Lemma idsWhere_app (keep : Xml.cell N -> bool) (a b : list (Xml.cell N)) :
  idsWhere keep (a ++ b) = (idsWhere keep a ++ idsWhere keep b)%list.
Proof. unfold idsWhere. now rewrite filter_app, map_app. Qed.

Lemma idsWhere_flat_map {A : Type} (keep : Xml.cell N -> bool)
      (g : A -> list (Xml.cell N)) (l : list A) :
  idsWhere keep (flat_map g l) = flat_map (fun a => idsWhere keep (g a)) l.
Proof.
  induction l as [|a l IH]; cbn [flat_map]; [reflexivity|].
  now rewrite idsWhere_app, IH.
Qed.

Lemma idsWhere_all (keep : Xml.cell N -> bool) (cs : list (Xml.cell N)) :
  Forall (fun c => Xml.isVertex c && keep c = true) cs ->
  idsWhere keep cs = map Xml.cid cs.
Proof.
  unfold idsWhere. induction 1 as [|c cs H F IH]; cbn [filter map];
    [reflexivity|].
  rewrite H. cbn [map]. now rewrite IH.
Qed.

Lemma idsWhere_none (keep : Xml.cell N -> bool) (cs : list (Xml.cell N)) :
  Forall (fun c => Xml.isVertex c && keep c = false) cs ->
  idsWhere keep cs = [].
Proof.
  unfold idsWhere. induction 1 as [|c cs H F IH]; cbn [filter map];
    [reflexivity|].
  now rewrite H.
Qed.

Lemma idsWhere_edges (keep : Xml.cell N -> bool) (cs : list (Xml.cell N)) :
  Forall (fun c => Xml.isEdge c = true) cs -> idsWhere keep cs = [].
Proof.
  intros F. apply idsWhere_none. eapply Forall_impl; [|exact F].
  intros c H. unfold Xml.isVertex, Xml.isEdge in *.
  now destruct (Xml.ckind c).
Qed.

End Kinds.

Module KindIds.

(** An id made of a name and an index splits in one way only. *)
Lemma kind_indexed_inj (a b s : string) (i j : nat) :
  endsNonDigit s = true ->
  a ++ s ++ Js.ofNat i = b ++ s ++ Js.ofNat j -> a = b /\ i = j.
Proof.
  intros Hs E. rewrite <- !append_assoc in E.
  apply digits_suffix_inj in E;
    try apply allDigits_ofNat; try (now apply endsNonDigit_app).
  destruct E as [E1 E2]. split.
  - now apply append_inj_r in E1.
  - now apply ofNat_inj.
Qed.

Lemma kind_ofNat_nonempty (i : nat) : Js.ofNat i <> EmptyString.
Proof.
  intros E.
  assert (H : Js.ofNat i = Js.ofNat i) by reflexivity.
  unfold Js.ofNat in E.
  pose proof (NilEmpty.usu (Nat.to_uint i)) as U. rewrite E in U.
  cbn in U. injection U as U.
  pose proof (DecimalNat.Unsigned.of_to i) as T. rewrite <- U in T.
  destruct i as [|i]; [discriminate U|].
  cbn in T. discriminate T.
Qed.

(** ** ER diagrams *)

Section ER.
Import ER ERGen.
Variable inherited : string -> option (string * string).

Lemma kind_er_relCells_edges (positions : JsMap.t boxPos)
      (rs : list relationship) :
  forall cellId,
    Forall (fun c => Xml.isEdge c = true)
           (relCells inherited positions cellId rs).
Proof.
  induction rs as [|r rs IH]; intros cellId; cbn [relCells]; [constructor|].
  apply Forall_app. split; [|apply IH].
  destruct (JsMap.get (source r) positions); [|constructor].
  destruct (JsMap.get (target r) positions); repeat constructor.
Qed.

Lemma kind_er_attr_rows (ie : nat * entity) :
  Forall (fun c => Xml.isVertex c && isRow c = true) (attrCells ie).
Proof.
  unfold attrCells. apply Forall_map, Forall_forall.
  intros [j a] _. reflexivity.
Qed.

Lemma kind_er_attr_not_placed (ie : nat * entity) :
  Forall (fun c => Xml.isVertex c && hasX c = false) (attrCells ie).
Proof.
  unfold attrCells. apply Forall_map, Forall_forall.
  intros [j a] _. reflexivity.
Qed.

Lemma kind_er_containers (clk : Xml.clock) (p : parsed) :
  idsWhere hasX (Xml.cells (generateERDiagramXML inherited clk p))
  = map name (entities p).
Proof.
  unfold generateERDiagramXML. cbn [Xml.cells Xml.wrapInDrawioXML].
  rewrite idsWhere_app, idsWhere_flat_map,
    (idsWhere_edges _ _ (kind_er_relCells_edges _ _ _)), List.app_nil_r.
  unfold Xml.indexed. generalize 0%nat.
  induction (entities p) as [|e es IH]; intros i;
    cbn [Xml.indexedFrom flat_map map]; [reflexivity|].
  rewrite IH. unfold entityCells.
  change (idsWhere hasX (containerCell (i, e) :: attrCells (i, e)))
    with (name e :: idsWhere hasX (attrCells (i, e))).
  now rewrite (idsWhere_none _ _ (kind_er_attr_not_placed (i, e))).
Qed.

Lemma kind_er_rows (clk : Xml.clock) (p : parsed) :
  idsWhere isRow (Xml.cells (generateERDiagramXML inherited clk p))
  = map Xml.cid (flat_map attrCells (Xml.indexed (entities p))).
Proof.
  unfold generateERDiagramXML. cbn [Xml.cells Xml.wrapInDrawioXML].
  rewrite idsWhere_app, idsWhere_flat_map,
    (idsWhere_edges _ _ (kind_er_relCells_edges _ _ _)), List.app_nil_r.
  unfold Xml.indexed. generalize 0%nat.
  induction (entities p) as [|e es IH]; intros i;
    cbn [Xml.indexedFrom flat_map map]; [reflexivity|].
  rewrite IH, map_app. f_equal. unfold entityCells.
  change (idsWhere isRow (containerCell (i, e) :: attrCells (i, e)))
    with (idsWhere isRow (attrCells (i, e))).
  apply idsWhere_all, kind_er_attr_rows.
Qed.

End ER.

(** ** Class diagrams *)

Section Class.
Import Class ClassGen.

(** What follows the class name in the id of a member row. *)
Definition rowSuffix (s : string) : Prop :=
  (exists i, s = "_attr" ++ Js.ofNat i) \/ s = "_sep"
  \/ (exists i, s = "_method" ++ Js.ofNat i).

Lemma kind_sep_not_indexed (a b s : string) (i : nat) :
  a ++ "_sep" = b ++ s ++ Js.ofNat i -> endsNonDigit s = true -> False.
Proof.
  intros E Hs.
  assert (Z : forall x : string, x ++ EmptyString = x).
  { induction x as [|c t IH]; cbn; congruence. }
  assert (E' : (a ++ "_sep") ++ EmptyString = (b ++ s) ++ Js.ofNat i).
  { rewrite Z, append_assoc. exact E. }
  apply digits_suffix_inj in E';
    try apply allDigits_ofNat; try (now apply endsNonDigit_app);
    try reflexivity.
  destruct E' as [_ E']. symmetry in E'.
  exact (kind_ofNat_nonempty i E').
Qed.

Lemma kind_attr_not_method (a b : string) (i j : nat) :
  a ++ "_attr" ++ Js.ofNat i = b ++ "_method" ++ Js.ofNat j -> False.
Proof.
  intros E. rewrite <- !append_assoc in E.
  apply digits_suffix_inj in E;
    try apply allDigits_ofNat; try (now apply endsNonDigit_app).
  destruct E as [E _].
  assert (R : forall x y : string,
             x ++ "r" = y ++ "d" -> False).
  { induction x as [|c x IH]; intros [|c' y] H; cbn in H.
    - discriminate H.
    - injection H as _ H. destruct y; discriminate H.
    - injection H as _ H. destruct x; discriminate H.
    - injection H as _ H. exact (IH y H). }
  apply (R (a ++ "_att") (b ++ "_metho")).
  rewrite !append_assoc. exact E.
Qed.

(** The id of a member row determines the class name and the suffix. *)
Lemma kind_row_inj (a b s s' : string) :
  rowSuffix s -> rowSuffix s' -> a ++ s = b ++ s' -> a = b /\ s = s'.
Proof.
  intros [[i ->]|[->|[i ->]]] [[j ->]|[->|[j ->]]] E.
  - destruct (kind_indexed_inj a b "_attr" i j eq_refl E) as [-> ->].
    now split.
  - exfalso. symmetry in E.
    exact (kind_sep_not_indexed b a "_attr" i E eq_refl).
  - exfalso. exact (kind_attr_not_method a b i j E).
  - exfalso. exact (kind_sep_not_indexed a b "_attr" j E eq_refl).
  - split; [now apply append_inj_r in E | reflexivity].
  - exfalso. exact (kind_sep_not_indexed a b "_method" j E eq_refl).
  - exfalso. symmetry in E. exact (kind_attr_not_method b a j i E).
  - exfalso. symmetry in E.
    exact (kind_sep_not_indexed b a "_method" i E eq_refl).
  - destruct (kind_indexed_inj a b "_method" i j eq_refl E) as [-> ->].
    now split.
Qed.

(** The suffixes of the member rows of a class, in order. *)
Definition suffixes (cls : class) : list string :=
  List.app
    (map (fun ia : nat * attribute => "_attr" ++ Js.ofNat (fst ia))
         (Xml.indexed (attributes cls)))
    (List.app
       (if (0 <? len (methods cls))%Z then ["_sep"] else [])
       (map (fun im : nat * method => "_method" ++ Js.ofNat (fst im))
            (Xml.indexed (methods cls)))).

Lemma kind_member_ids (ic : nat * class) :
  map Xml.cid (memberCells ic)
  = map (append (name (snd ic))) (suffixes (snd ic)).
Proof.
  destruct ic as [i cls]. unfold memberCells, suffixes. cbn [snd].
  rewrite !map_app, !map_map. f_equal; [|f_equal].
  - apply map_ext. intros [j a]. reflexivity.
  - destruct (0 <? len (methods cls))%Z; reflexivity.
  - apply map_ext. intros [j m]. reflexivity.
Qed.

Lemma kind_indexed_suffixes {A : Type} (s : string) (l : list A) :
  forall i,
    NoDup (map (fun ia : nat * A => s ++ Js.ofNat (fst ia))
               (Xml.indexedFrom i l))
    /\ forall x, In x (map (fun ia : nat * A => s ++ Js.ofNat (fst ia))
                           (Xml.indexedFrom i l)) ->
                 exists j, (i <= j)%nat /\ x = s ++ Js.ofNat j.
Proof.
  induction l as [|a l IH]; intros i; cbn [Xml.indexedFrom map].
  - split; [constructor | intros x []].
  - destruct (IH (S i)) as [D H]. split.
    + constructor; [|exact D]. cbn [fst]. intros Hin.
      destruct (H _ Hin) as [j [Lj Ej]].
      apply append_inj_l, ofNat_inj in Ej. lia.
    + intros x [<-|Hx].
      * exists i. split; [lia | reflexivity].
      * destruct (H x Hx) as [j [Lj Ej]]. exists j. split; [lia | exact Ej].
Qed.

Lemma kind_suffixes (cls : class) :
  NoDup (suffixes cls) /\ Forall rowSuffix (suffixes cls).
Proof.
  unfold suffixes, Xml.indexed.
  destruct (kind_indexed_suffixes "_attr" (attributes cls) 0) as [Da Ha].
  destruct (kind_indexed_suffixes "_method" (methods cls) 0) as [Dm Hm].
  split.
  - apply NoDup_app; [exact Da| |].
    + apply NoDup_app; [|exact Dm|].
      * destruct (0 <? len (methods cls))%Z; repeat constructor. intros [].
      * intros x Hx Hx'. destruct (Hm x Hx') as [j [_ ->]].
        destruct (0 <? len (methods cls))%Z; [|contradiction].
        destruct Hx as [Hx|[]]. discriminate Hx.
    + intros x Hx Hx'. destruct (Ha x Hx) as [i [_ ->]].
      apply in_app_or in Hx'. destruct Hx' as [Hx'|Hx'].
      * destruct (0 <? len (methods cls))%Z; [|contradiction].
        destruct Hx' as [Hx'|[]]. discriminate Hx'.
      * destruct (Hm _ Hx') as [j [_ E]]. discriminate E.
  - apply Forall_app. split; [|apply Forall_app; split].
    + apply Forall_forall. intros x Hx. destruct (Ha x Hx) as [i [_ ->]].
      left. now exists i.
    + destruct (0 <? len (methods cls))%Z; [|constructor].
      constructor; [right; now left | constructor].
    + apply Forall_forall. intros x Hx. destruct (Hm x Hx) as [i [_ ->]].
      right. right. now exists i.
Qed.

Lemma kind_class_member_rows (cs : list class) :
  NoDup (map name cs) ->
  forall i,
    NoDup (map Xml.cid (flat_map memberCells (Xml.indexedFrom i cs))).
Proof.
  induction cs as [|c cs IH]; intros D i; cbn [Xml.indexedFrom flat_map];
    [constructor|].
  cbn [map] in D. apply NoDup_cons_iff in D. destruct D as [Nc D].
  rewrite map_app, kind_member_ids. cbn [snd].
  destruct (kind_suffixes c) as [Ds Fs].
  apply NoDup_app.
  - apply Finite.Injective_map_NoDup; [|exact Ds].
    intros s s' E. now apply append_inj_l in E.
  - now apply IH.
  - intros x Hx Hx'. apply in_map_iff in Hx. destruct Hx as [s [<- Hs]].
    apply in_map_iff in Hx'. destruct Hx' as [cell [Ex Hcell]].
    apply in_flat_map in Hcell. destruct Hcell as [[k c'] [Hk Hcell]].
    assert (Hid : In (Xml.cid cell) (map Xml.cid (memberCells (k, c')))).
    { now apply in_map. }
    rewrite kind_member_ids in Hid. cbn [snd] in Hid.
    apply in_map_iff in Hid. destruct Hid as [s' [E' Hs']].
    rewrite Ex in E'.
    rewrite Forall_forall in Fs.
    pose proof (proj2 (kind_suffixes c')) as Fs'.
    rewrite Forall_forall in Fs'.
    destruct (kind_row_inj _ _ _ _ (Fs' s' Hs') (Fs s Hs) E') as [En _].
    apply Nc. rewrite <- En. apply in_map.
    apply (in_map snd) in Hk. now rewrite indexedFrom_snd in Hk.
Qed.

Lemma kind_class_relCells_edges (positions : JsMap.t boxPos)
      (rs : list relationship) :
  forall cellId,
    Forall (fun c => Xml.isEdge c = true) (relCells positions cellId rs).
Proof.
  induction rs as [|r rs IH]; intros cellId; cbn [relCells]; [constructor|].
  apply Forall_app. split; [|apply IH].
  destruct (JsMap.get (from r) positions); [|constructor].
  destruct (JsMap.get (to r) positions); [|constructor].
  destruct (arrows (rtype r)) as [[sa ea] da]. repeat constructor.
Qed.

Lemma kind_class_member_kind (ic : nat * class) :
  Forall (fun c => Xml.isVertex c && isRow c = true) (memberCells ic)
  /\ Forall (fun c => Xml.isVertex c && hasX c = false) (memberCells ic).
Proof.
  destruct ic as [i cls]. unfold memberCells.
  split; (apply Forall_app; split; [|apply Forall_app; split]);
    try (apply Forall_map, Forall_forall; intros [j a] _; reflexivity);
    destruct (0 <? len (methods cls))%Z; repeat constructor.
Qed.

Lemma kind_class_containers (clk : Xml.clock) (p : parsed) :
  idsWhere hasX (Xml.cells (generateClassDiagramXML clk p))
  = map name (classes p).
Proof.
  unfold generateClassDiagramXML. cbn [Xml.cells Xml.wrapInDrawioXML].
  rewrite idsWhere_app, idsWhere_flat_map,
    (idsWhere_edges _ _ (kind_class_relCells_edges _ _ _)), List.app_nil_r.
  unfold Xml.indexed. generalize 0%nat.
  induction (classes p) as [|c cs IH]; intros i;
    cbn [Xml.indexedFrom flat_map map]; [reflexivity|].
  rewrite IH. unfold classCells.
  change (idsWhere hasX (containerCell (i, c) :: memberCells (i, c)))
    with (name c :: idsWhere hasX (memberCells (i, c))).
  now rewrite (idsWhere_none _ _ (proj2 (kind_class_member_kind (i, c)))).
Qed.

Lemma kind_class_rows (clk : Xml.clock) (p : parsed) :
  idsWhere isRow (Xml.cells (generateClassDiagramXML clk p))
  = map Xml.cid (flat_map memberCells (Xml.indexed (classes p))).
Proof.
  unfold generateClassDiagramXML. cbn [Xml.cells Xml.wrapInDrawioXML].
  rewrite idsWhere_app, idsWhere_flat_map,
    (idsWhere_edges _ _ (kind_class_relCells_edges _ _ _)), List.app_nil_r.
  unfold Xml.indexed. generalize 0%nat.
  induction (classes p) as [|c cs IH]; intros i;
    cbn [Xml.indexedFrom flat_map map]; [reflexivity|].
  rewrite IH, map_app. f_equal. unfold classCells.
  change (idsWhere isRow (containerCell (i, c) :: memberCells (i, c)))
    with (idsWhere isRow (memberCells (i, c))).
  apply idsWhere_all, kind_class_member_kind.
Qed.

End Class.

(** ** Sequence diagrams *)

Section Sequence.
Import Seq SeqGen.

(** The cell is the box of a participant or the figure of an actor. *)
Definition isBox (c : Xml.cell Z) : bool :=
  styled styleParticipant c || styled styleActor c.

Lemma kind_seq_messages_edges (positions : JsMap.t ppos)
      (ims : list (nat * message)) :
  forall cellId,
    Forall (fun c => Xml.isEdge c = true)
           (fst (messageCells positions cellId ims)).
Proof.
  induction ims as [|[i msg] ims IH]; intros cellId; cbn [messageCells];
    [constructor|].
  destruct (JsMap.get (from msg) positions); [|apply IH].
  destruct (JsMap.get (to msg) positions); [|apply IH].
  specialize (IH (S cellId)).
  destruct (messageCells positions (S cellId) ims) as [cs n].
  cbn [fst] in *. constructor; [reflexivity | exact IH].
Qed.

Lemma kind_seq_note_styles (positions : JsMap.t ppos)
      (ins : list (nat * note)) :
  forall cellId,
    Forall (fun c => Xml.style c = styleNote /\ Xml.isVertex c = true)
           (noteCells positions cellId ins).
Proof.
  induction ins as [|[i nt] ins IH]; intros cellId; cbn [noteCells];
    [constructor|].
  destruct (JsMap.get _ positions); [|apply IH].
  constructor; [split; reflexivity | apply IH].
Qed.

Lemma kind_seq_note_ids (positions : JsMap.t ppos)
      (ins : list (nat * note)) :
  forall cellId,
    NoDup (map Xml.cid (noteCells positions cellId ins))
    /\ forall x, In x (map Xml.cid (noteCells positions cellId ins)) ->
                 exists k, (cellId <= k)%nat /\ x = "note" ++ Js.ofNat k.
Proof.
  induction ins as [|[i nt] ins IH]; intros cellId; cbn [noteCells].
  - split; [constructor | intros x []].
  - destruct (JsMap.get _ positions); [|apply IH].
    destruct (IH (S cellId)) as [D H]. cbn [map Xml.cid]. split.
    + constructor; [|exact D]. intros Hin.
      destruct (H _ Hin) as [k [Lk Ek]].
      apply append_inj_l, ofNat_inj in Ek. lia.
    + intros x [<-|Hx].
      * exists cellId. split; [lia | reflexivity].
      * destruct (H x Hx) as [k [Lk Ek]]. exists k. split; [lia | exact Ek].
Qed.

Lemma kind_seq_boxes (clk : Xml.clock) (p : parsed) :
  idsWhere isBox (Xml.cells (generateSequenceDiagramXML clk p))
  = map id (participants p).
Proof.
  unfold generateSequenceDiagramXML.
  pose proof (kind_seq_messages_edges (participantPositions (participants p))
                (Xml.indexed (messages p)) 2) as Fe.
  destruct (messageCells _ 2 (Xml.indexed (messages p))) as [mcs cellId].
  cbn [fst] in Fe. cbn [Xml.cells Xml.wrapInDrawioXML].
  rewrite !idsWhere_app, idsWhere_flat_map, (idsWhere_edges _ _ Fe).
  rewrite (idsWhere_none isBox (noteCells _ _ _)).
  2:{ eapply Forall_impl; [|apply kind_seq_note_styles].
      intros c [Es Ev]. unfold isBox, styled. rewrite Es, Ev. reflexivity. }
  cbn [app]. rewrite List.app_nil_r.
  unfold Xml.indexed. generalize 0%nat.
  induction (participants p) as [|q qs IH]; intros i;
    cbn [Xml.indexedFrom flat_map map]; [reflexivity|].
  rewrite IH. cbn [app]. f_equal.
  unfold idsWhere, participantCells, isBox, styled.
  cbn [filter Xml.isVertex Xml.ckind Xml.style andb].
  destruct (String.eqb (ptype q) "actor"); reflexivity.
Qed.

Lemma kind_seq_lifelines (clk : Xml.clock) (p : parsed) :
  idsWhere (styled styleLifeline)
           (Xml.cells (generateSequenceDiagramXML clk p))
  = map (fun q => id q ++ "_lifeline") (participants p).
Proof.
  unfold generateSequenceDiagramXML.
  pose proof (kind_seq_messages_edges (participantPositions (participants p))
                (Xml.indexed (messages p)) 2) as Fe.
  destruct (messageCells _ 2 (Xml.indexed (messages p))) as [mcs cellId].
  cbn [fst] in Fe. cbn [Xml.cells Xml.wrapInDrawioXML].
  rewrite !idsWhere_app, idsWhere_flat_map, (idsWhere_edges _ _ Fe).
  rewrite (idsWhere_none (styled styleLifeline) (noteCells _ _ _)).
  2:{ eapply Forall_impl; [|apply kind_seq_note_styles].
      intros c [Es Ev]. unfold styled. rewrite Es, Ev. reflexivity. }
  cbn [app]. rewrite List.app_nil_r.
  unfold Xml.indexed. generalize 0%nat.
  induction (participants p) as [|q qs IH]; intros i;
    cbn [Xml.indexedFrom flat_map map]; [reflexivity|].
  rewrite IH. f_equal.
  unfold idsWhere, participantCells, styled.
  cbn [filter Xml.isVertex Xml.ckind Xml.style andb].
  destruct (String.eqb (ptype q) "actor"); reflexivity.
Qed.

Lemma kind_seq_notes (clk : Xml.clock) (p : parsed) :
  NoDup (idsWhere (styled styleNote)
                  (Xml.cells (generateSequenceDiagramXML clk p))).
Proof.
  unfold generateSequenceDiagramXML.
  pose proof (kind_seq_messages_edges (participantPositions (participants p))
                (Xml.indexed (messages p)) 2) as Fe.
  destruct (messageCells _ 2 (Xml.indexed (messages p))) as [mcs cellId].
  cbn [fst] in Fe. cbn [Xml.cells Xml.wrapInDrawioXML].
  rewrite !idsWhere_app, idsWhere_flat_map, (idsWhere_edges _ _ Fe).
  rewrite (idsWhere_all (styled styleNote) (noteCells _ _ _)).
  2:{ eapply Forall_impl; [|apply kind_seq_note_styles].
      intros c [Es Ev]. unfold styled. rewrite Es, Ev. reflexivity. }
  assert (E : flat_map (fun a => idsWhere (styled styleNote)
                                   (participantCells
                                      (List.length (messages p)) a))
                       (Xml.indexed (participants p)) = []).
  { unfold Xml.indexed. generalize 0%nat.
    induction (participants p) as [|q qs IH]; intros i;
      cbn [Xml.indexedFrom flat_map]; [reflexivity|].
    rewrite IH, List.app_nil_r.
    unfold idsWhere, participantCells, styled.
    cbn [filter Xml.isVertex Xml.ckind Xml.style andb].
    destruct (String.eqb (ptype q) "actor"); reflexivity. }
  rewrite E. cbn [app]. apply kind_seq_note_ids.
Qed.

End Sequence.

End KindIds.

Definition shadowedMember : string :=
  "classDiagram" ++ nl ++ "class A {" ++ nl ++ "+x: int" ++ nl ++ "}" ++ nl
  ++ "class A_attr0".

Definition lifelineClash : string :=
  "sequenceDiagram" ++ nl ++ "participant A" ++ nl ++ "participant A_lifeline".

(** C7, as stated, fails.  The first attribute row of entity [A] gets the
    id [A_attr0], which is also the id of the container of an entity named
    [A_attr0], and likewise for the first attribute row of a class [A] and
    a class named [A_attr0]; the lifeline of participant [A] gets the id
    [A_lifeline], which is also the id of the box of a participant named
    [A_lifeline]; and two commits given the same [id:] make two commit
    cells with that id. *)
Lemma duplicate_vertex_ids :
  (forall inherited clk,
     exists p,
       ER.parseERDiagram shadowedAttribute = Ok p
       /\ Xml.vertexIds
            (Xml.cells (ERGen.generateERDiagramXML inherited clk p))
          = ["A"; "A_attr0"; "A_attr0"])
  /\ (forall clk,
        exists p,
          Class.parseClassDiagram shadowedMember = Ok p
          /\ Xml.vertexIds
               (Xml.cells (ClassGen.generateClassDiagramXML clk p))
             = ["A"; "A_attr0"; "A_attr0"])
  /\ (forall clk,
        Xml.vertexIds
          (Xml.cells (SeqGen.generateSequenceDiagramXML clk
                        (Seq.parseSequenceDiagram lifelineClash)))
        = ["A"; "A_lifeline"; "A_lifeline"; "A_lifeline_lifeline"])
  /\ (forall inherited clk,
        exists p doc,
          Git.parseGitGraph repeatedCommitId = Ok p
          /\ GitGen.generateGitGraphXML inherited clk p = Ok doc
          /\ Xml.vertexIds (Xml.cells doc) = ["branch_main"; "x"; "x"])
  /\ ~ NoDup ["A"; "A_attr0"; "A_attr0"]
  /\ ~ NoDup ["A"; "A_lifeline"; "A_lifeline"; "A_lifeline_lifeline"]
  /\ ~ NoDup ["branch_main"; "x"; "x"].
Proof.
  split; [|split; [|split; [|split; [|split; [|split]]]]].
  - intros inherited clk. eexists.
    split; [vm_compute; reflexivity | reflexivity].
  - intros clk. eexists. split; [vm_compute; reflexivity | reflexivity].
  - intros clk. reflexivity.
  - intros inherited clk. eexists. eexists.
    split; [vm_compute; reflexivity|]. split; reflexivity.
  - intros H. inversion H as [|? ? _ H1]; subst.
    inversion H1 as [|? ? N _]; subst. apply N. now left.
  - intros H. inversion H as [|? ? _ H1]; subst.
    inversion H1 as [|? ? N _]; subst. apply N. now left.
  - intros H. inversion H as [|? ? _ H1]; subst.
    inversion H1 as [|? ? N _]; subst. apply N. now left.
Qed.

(** C7, amended.  In the markup, the vertex cells of one kind have
    distinct ids where the id comes from a map key or a counter: all
    vertex cells of a flowchart and of a mind map; in an ER diagram the
    entity containers, and the attribute rows among themselves; in a
    class diagram the class containers, and the attribute, separator and
    method rows among themselves; in a sequence diagram the participant
    boxes, the lifelines, and the notes, each among themselves; and all
    vertex cells (branch labels, commits, tag labels) of a git graph in
    which no commit line carries an [id:].  Containers are the vertex
    cells whose geometry has an [x], rows those whose geometry has none;
    boxes, lifelines and notes are told apart by their style.  Nothing is
    claimed across the kinds of an ER, class or sequence diagram, or for
    ids the input supplies. *)
Theorem vertex_ids_distinct (clk : Xml.clock) (mermaidCode : string) :
  (exists doc,
     FlowGen.generateFlowchartXML clk (Flow.parseFlowchart mermaidCode) = Ok doc
     /\ NoDup (Xml.vertexIds (Xml.cells doc)))
  /\ (forall e,
        match MindGen.generateMindmapXML e clk
                (Mindmap.parseMindmap mermaidCode) with
        | Some doc => NoDup (Xml.vertexIds (Xml.cells doc))
        | None =>
            (Engine.layoutFrames e
             < List.length
                 (Mindmap.nodes (Mindmap.parseMindmap mermaidCode)))%nat
        end)
  /\ (forall inherited,
      exists p,
        ER.parseERDiagram mermaidCode = Ok p
        /\ NoDup (idsWhere hasX
                    (Xml.cells (ERGen.generateERDiagramXML inherited clk p)))
        /\ NoDup (idsWhere isRow
                    (Xml.cells (ERGen.generateERDiagramXML inherited clk p))))
  /\ (exists p,
        Class.parseClassDiagram mermaidCode = Ok p
        /\ NoDup (idsWhere hasX
                    (Xml.cells (ClassGen.generateClassDiagramXML clk p)))
        /\ NoDup (idsWhere isRow
                    (Xml.cells (ClassGen.generateClassDiagramXML clk p))))
  /\ (NoDup (idsWhere KindIds.isBox
               (Xml.cells (SeqGen.generateSequenceDiagramXML clk
                             (Seq.parseSequenceDiagram mermaidCode))))
      /\ NoDup (idsWhere (styled SeqGen.styleLifeline)
                  (Xml.cells (SeqGen.generateSequenceDiagramXML clk
                                (Seq.parseSequenceDiagram mermaidCode))))
      /\ NoDup (idsWhere (styled SeqGen.styleNote)
                  (Xml.cells (SeqGen.generateSequenceDiagramXML clk
                                (Seq.parseSequenceDiagram mermaidCode)))))
  /\ ((forall l, In l (Js.splitLines (Js.trim mermaidCode)) ->
                  GitIds.suppliesId l = false) ->
      forall inherited p,
        Git.parseGitGraph mermaidCode = Ok p ->
        exists doc,
          GitGen.generateGitGraphXML inherited clk p = Ok doc
          /\ NoDup (Xml.vertexIds (Xml.cells doc))).
Proof.
  split; [|split; [|split; [|split; [|split]]]].
  - destruct (FlowFacts.flow_generate_ok clk (Flow.parseFlowchart mermaidCode))
      as [doc [E [_ V]]].
    exists doc. split; [assumption|]. rewrite V. apply FlowFacts.flow_parse_ids.
  - intros e. apply MindGenFacts.tree_generate_ok.
    apply MindGenFacts.tree_parse_ordered.
  - intros inherited.
    destruct (ERFacts.er_parse_ok mermaidCode) as [p [E [D _]]].
    exists p. split; [assumption|]. split.
    + now rewrite KindIds.kind_er_containers.
    + rewrite KindIds.kind_er_rows. now apply ERIds.erid_attr_rows_nodup.
  - destruct (ClassFacts.class_parse_ok mermaidCode) as [p [E [D _]]].
    exists p. split; [assumption|]. split.
    + now rewrite KindIds.kind_class_containers.
    + rewrite KindIds.kind_class_rows.
      now apply KindIds.kind_class_member_rows.
  - split; [|split].
    + rewrite KindIds.kind_seq_boxes. apply SeqFacts.seq_parse_ok.
    + rewrite KindIds.kind_seq_lifelines.
      rewrite <- (map_map Seq.id (fun s => s ++ "_lifeline")).
      apply Finite.Injective_map_NoDup; [|apply SeqFacts.seq_parse_ok].
      intros a b E. now apply append_inj_r in E.
    + apply KindIds.kind_seq_notes.
  - intros Hids inherited p. now apply GitIds.gitid_generate_ids.
Qed.

(** A git graph whose ids are all generated: the label of each branch,
    then the commits [c0], [c1] and [merge_2]. *)
Lemma vertex_ids_distinct_witness :
  exists p doc,
    Git.parseGitGraph threeCommits = Ok p
    /\ GitGen.generateGitGraphXML (fun _ => None) someClock p = Ok doc
    /\ Xml.vertexIds (Xml.cells doc)
       = ["branch_main"; "branch_dev"; "c0"; "c1"; "merge_2"]
    /\ NoDup (Xml.vertexIds (Xml.cells doc)).
Proof.
  eexists. eexists. split; [vm_compute; reflexivity|].
  split; [reflexivity|]. split; [reflexivity|].
  destruct (proj2 (proj2 (proj2 (proj2 (proj2
              (vertex_ids_distinct someClock threeCommits)))))
              (fun l H => ltac:(vm_compute in H;
                 repeat (destruct H as [<-|H]; [reflexivity|]);
                 contradiction))
              (fun _ => None) _ ltac:(vm_compute; reflexivity))
    as [doc [E D]].
  injection E as <-. exact D.
Defined.

(** ** Determinism of the layout *)

Section Placement.
Context {N : Type}.

(** What a cell says about layout: which cell it is, where it is, and
    what it joins.  The texts of the label and of the style are left
    out. *)
Definition placement (c : Xml.cell N)
  : string * Xml.kind * Xml.geometry N * option string * option string :=
  (Xml.cid c, Xml.ckind c, Xml.geom c, Xml.csource c, Xml.ctarget c).

Definition pageOf (d : Xml.document N) : Z * Z :=
  (Xml.pageWidth d, Xml.pageHeight d).

End Placement.

Module Determinism.

(** ** ER diagrams: a cardinality of the parser is a key of the table *)

Lemma det_er_arrow (inh1 inh2 : string -> option (string * string))
      (c : string) :
  In c ERWf.cardinalities ->
  ERGen.cardinalityArrow inh1 c = ERGen.cardinalityArrow inh2 c.
Proof.
  unfold ERWf.cardinalities.
  intros [<-|[<-|[<-|[<-|[<-|[<-|[<-|[]]]]]]]]; reflexivity.
Qed.

Lemma det_er_relCells (inh1 inh2 : string -> option (string * string))
      (positions : JsMap.t boxPos) (rs : list ER.relationship) :
  Forall ERWf.relationshipOk rs ->
  forall cellId,
    ERGen.relCells inh1 positions cellId rs
    = ERGen.relCells inh2 positions cellId rs.
Proof.
  induction 1 as [|r rs [Hs Ht] F IH]; intros cellId; cbn [ERGen.relCells];
    [reflexivity|].
  rewrite IH, (det_er_arrow inh1 inh2 _ Hs), (det_er_arrow inh1 inh2 _ Ht).
  reflexivity.
Qed.

(** ** Mind maps: the tree does not depend on the depth of the stack *)

Section Mindmap.
Import Mindmap MindGen.

Lemma det_sequence_eq {A B : Type} (g g' : A -> option B) (l : list A) :
  (forall a b b', In a l -> g a = Some b -> g' a = Some b' -> b = b') ->
  forall bs bs',
    sequence (map g l) = Some bs -> sequence (map g' l) = Some bs' ->
    bs = bs'.
Proof.
  induction l as [|a l IH]; intros H bs bs'; cbn [map sequence].
  - now intros [= <-] [= <-].
  - destruct (g a) as [b|] eqn:G; [|discriminate].
    destruct (g' a) as [b'|] eqn:G'; [|discriminate].
    destruct (sequence (map g l)) as [r|] eqn:S1; [|discriminate].
    destruct (sequence (map g' l)) as [r'|] eqn:S2; [|discriminate].
    intros [= <-] [= <-]. f_equal.
    + exact (H a b b' (or_introl eq_refl) G G').
    + apply IH; [|reflexivity..].
      intros x y y' Hx. apply H. now right.
Qed.

Lemma det_unfold (ns : list node) (f : nat) :
  forall (f' : nat) (i : string) (t t' : tree),
    unfold ns f i = Some t -> unfold ns f' i = Some t' -> t = t'.
Proof.
  induction f as [|f IH]; intros f' i t t'; [discriminate|].
  destruct f' as [|f']; [discriminate|]. cbn [unfold].
  destruct (sequence (map (unfold ns f) (childIds ns i))) as [ks|] eqn:S1;
    [|discriminate].
  destruct (sequence (map (unfold ns f') (childIds ns i))) as [ks'|] eqn:S2;
    [|discriminate].
  intros [= <-] [= <-]. f_equal.
  apply (det_sequence_eq _ _ _ (fun a b b' _ => IH f' a b b') _ _ S1 S2).
Qed.

Lemma det_eachChild (rec rec' : tree -> R -> list (string * npos))
      (angleOf angleOf' : nat -> R) (cs : list tree) :
  (forall c a, In c cs -> rec c a = rec' c a) ->
  (forall i, angleOf i = angleOf' i) ->
  forall index,
    eachChild rec angleOf cs index = eachChild rec' angleOf' cs index.
Proof.
  induction cs as [|c cs IH]; intros H A index; cbn [eachChild];
    [reflexivity|].
  rewrite (H c _ (or_introl eq_refl)), A, IH; [reflexivity| |assumption].
  intros c' a Hc. apply H. now right.
Qed.

(** Two engines with the same arithmetic write the same positions. *)
Lemma det_calculate (e1 e2 : Engine.t) :
  Engine.rnd e1 = Engine.rnd e2 ->
  Engine.mcos e1 = Engine.mcos e2 ->
  Engine.msin e1 = Engine.msin e2 ->
  forall (n : nat) (t : tree) (angle px py : R) (l : nat),
    (Radial.depth t <= n)%nat ->
    calculateNodePositions e1 t angle px py l
    = calculateNodePositions e2 t angle px py l.
Proof.
  intros Hr Hc Hs.
  assert (P : forall angle px py l,
             placeOf e1 angle px py l = placeOf e2 angle px py l).
  { intros angle px py l.
    unfold placeOf, CENTER_X, CENTER_Y, Engine.add, Engine.sub, Engine.mul,
      Engine.div. now rewrite Hr, Hc, Hs. }
  assert (A : forall l k angle i,
             childAngleOf e1 l k angle i = childAngleOf e2 l k angle i).
  { intros l k angle i.
    unfold childAngleOf, startAngleOf, angleStepOf, fanAngleOf, Engine.pi,
      Engine.literal, Engine.add, Engine.sub, Engine.mul, Engine.div.
    now rewrite Hr. }
  induction n as [|n IH]; intros [nid kids] angle px py l Hd;
    cbn [calculateNodePositions]; rewrite P; f_equal.
  - destruct kids as [|k kids]; [reflexivity|].
    pose proof (Radial.radial_depth_child nid (k :: kids) k (or_introl eq_refl)).
    lia.
  - apply det_eachChild; [|intros i; apply A].
    intros c a Hc'. apply IH.
    apply (Radial.radial_depth_child nid) in Hc'. lia.
Qed.

Lemma det_mindmap (e1 e2 : Engine.t) (clk1 clk2 : Xml.clock) (p : parsed)
      (d1 d2 : Xml.document R) :
  Engine.rnd e1 = Engine.rnd e2 ->
  Engine.mcos e1 = Engine.mcos e2 ->
  Engine.msin e1 = Engine.msin e2 ->
  generateMindmapXML e1 clk1 p = Some d1 ->
  generateMindmapXML e2 clk2 p = Some d2 ->
  Xml.cells d1 = Xml.cells d2 /\ pageOf d1 = pageOf d2.
Proof.
  intros Hr Hc Hs. unfold generateMindmapXML.
  destruct (root p); [|intros [= <-] [= <-]; now split].
  destruct (rootId (nodes p)) as [r|];
    [|cbn [option_map]; intros [= <-] [= <-]; now split].
  destruct (unfold (nodes p) (Engine.layoutFrames e1) r) as [t1|] eqn:U1;
    [|discriminate].
  destruct (unfold (nodes p) (Engine.layoutFrames e2) r) as [t2|] eqn:U2;
    [|discriminate].
  cbn [option_map]. intros [= <-] [= <-].
  rewrite (det_unfold _ _ _ _ _ _ U1 U2).
  unfold CENTER_X, CENTER_Y, Engine.div. rewrite Hr.
  rewrite (det_calculate e1 e2 Hr Hc Hs (Radial.depth t2)) by lia.
  now split.
Qed.

End Mindmap.

(** ** Git graphs: the prototype reaches the colours only *)

Section Git.
Import Git GitGen.

Lemma det_git_loop (inh1 inh2 : string -> option string)
      (bs : list branchRec) (positions : JsMap.t cpos) (cs : list commit) :
  forall (prev : option commit) (cellId : nat)
         (out1 out2 : list (Xml.cell Z)),
    commitLoop inh1 bs positions prev cellId cs = Ok out1 ->
    commitLoop inh2 bs positions prev cellId cs = Ok out2 ->
    map placement out1 = map placement out2.
Proof.
  induction cs as [|c cs IH]; intros prev cellId out1 out2.
  - now intros [= <-] [= <-].
  - cbn [commitLoop]. unfold commitCells.
    destruct (JsMap.get (id c) positions) as [pos|]; [|discriminate].
    cbn [bind fst snd].
    assert (L : forall inh,
               List.length
                 match prev with
                 | Some prevCommit =>
                     if String.eqb (branch prevCommit) (branch c)
                        || String.eqb (ctype c) "MERGE"
                     then
                       [ {| Xml.cid := "conn" ++ Js.ofNat cellId;
                            Xml.value := None;
                            Xml.style := styleConnector ++ "strokeColor="
                                         ++ color inh (branch c) ++ ";";
                            Xml.ckind := Xml.Edge; Xml.parent := "1";
                            Xml.csource :=
                              Some (if String.eqb (ctype c) "MERGE"
                                       && truthy (mergeFrom c)
                                    then mergeSource bs
                                           (orElse (mergeFrom c) EmptyString)
                                           (id prevCommit)
                                    else id prevCommit);
                            Xml.ctarget := Some (id c);
                            Xml.geom := Xml.rel (N:=Z) [] |} ]
                     else []
                 | None => []
                 end
               = match prev with
                 | Some prevCommit =>
                     if String.eqb (branch prevCommit) (branch c)
                        || String.eqb (ctype c) "MERGE" then 1%nat else 0%nat
                 | None => 0%nat
                 end).
    { intros inh. destruct prev as [q|]; [|reflexivity].
      now destruct (String.eqb (branch q) (branch c)
                    || String.eqb (ctype c) "MERGE"). }
    rewrite (L inh1), (L inh2).
    match goal with
    | |- bind (commitLoop _ _ _ (Some c) ?n cs) _ = _ -> _ =>
        destruct (commitLoop inh1 bs positions (Some c) n cs)
          as [r1|] eqn:R1; [|discriminate];
        destruct (commitLoop inh2 bs positions (Some c) n cs)
          as [r2|] eqn:R2; [|discriminate]
    end.
    cbn [bind]. intros [= <-] [= <-].
    cbn [map]. rewrite !map_app, (IH _ _ _ _ R1 R2).
    destruct prev as [q|];
      [destruct (String.eqb (branch q) (branch c)
                 || String.eqb (ctype c) "MERGE")|];
      destruct (truthy (tag c)); reflexivity.
Qed.

Lemma det_git (inh1 inh2 : string -> option string) (clk1 clk2 : Xml.clock)
      (p : parsed) :
  exists d1 d2,
    generateGitGraphXML inh1 clk1 p = Ok d1
    /\ generateGitGraphXML inh2 clk2 p = Ok d2
    /\ map placement (Xml.cells d1) = map placement (Xml.cells d2)
    /\ pageOf d1 = pageOf d2.
Proof.
  destruct (GitLayout.gitlay_generate inh1 clk1 p) as [d1 [E1 _]].
  destruct (GitLayout.gitlay_generate inh2 clk2 p) as [d2 [E2 _]].
  exists d1, d2. split; [assumption|]. split; [assumption|].
  unfold generateGitGraphXML in E1, E2.
  destruct (commitLoop inh1 _ _ None 2 (commits p)) as [o1|] eqn:L1;
    [|discriminate].
  destruct (commitLoop inh2 _ _ None 2 (commits p)) as [o2|] eqn:L2;
    [|discriminate].
  cbn [bind] in E1, E2. injection E1 as <-. injection E2 as <-.
  cbn [Xml.cells Xml.wrapInDrawioXML pageOf Xml.pageWidth Xml.pageHeight].
  split; [|reflexivity].
  rewrite !map_app, (det_git_loop _ _ _ _ _ _ _ _ _ L1 L2), !map_map.
  reflexivity.
Qed.

End Git.

End Determinism.

(** C9.  What a generator reads besides the model is the clock, the
    properties of [Object.prototype] (in the ER and the git generator) and
    the arithmetic and the call stack of the engine (in the mind-map
    generator).  For a model parsed from any text the layout does not
    depend on them: the cells of the document, which carry every
    position, size and routing hint, and the page size are the same
    whatever the clock says; they are the same whatever [Object.prototype]
    holds, in an ER diagram cell for cell and in a git graph up to the
    colours in the styles; and two engines with the same arithmetic lay
    out a mind map in the same way whatever the depth of their stacks,
    when both return.  The coordinates come from indices and counts:
    flowchart node [i] is at (340, 40 + 120 i), or at (340 + 200 i, 40)
    when the direction is LR or RL; entity [i] is at column [i mod 4] and
    row [i div 4] of a grid, with a height given by its number of
    attributes; class [i] is at column [i mod 3] and row [i div 3], with
    a height given by its numbers of attributes and methods; participant
    [i] is at (80 + 180 i, 20). *)
Theorem layout_deterministic (clk1 clk2 : Xml.clock) (mermaidCode : string) :
  (let p := Flow.parseFlowchart mermaidCode in
   let vertical := FlowLayout.isVertical (Flow.direction p) in
   exists d1 d2,
     FlowGen.generateFlowchartXML clk1 p = Ok d1
     /\ FlowGen.generateFlowchartXML clk2 p = Ok d2
     /\ Xml.cells d1 = Xml.cells d2 /\ pageOf d1 = pageOf d2
     /\ forall i n,
          nth_error (Flow.nodes p) i = Some n ->
          exists c w h,
            nth_error (Xml.cells d1) i = Some c
            /\ Xml.cid c = Flow.id n
            /\ boxOf c
               = Some (if vertical then 340 else 340 + 200 * Z.of_nat i,
                       if vertical then 40 + 120 * Z.of_nat i else 40,
                       w, h)%Z)
  /\ (forall inh1 inh2,
      exists p,
        ER.parseERDiagram mermaidCode = Ok p
        /\ Xml.cells (ERGen.generateERDiagramXML inh1 clk1 p)
           = Xml.cells (ERGen.generateERDiagramXML inh2 clk2 p)
        /\ pageOf (ERGen.generateERDiagramXML inh1 clk1 p)
           = pageOf (ERGen.generateERDiagramXML inh2 clk2 p)
        /\ forall i e,
             nth_error (ER.entities p) i = Some e ->
             exists c,
               In c (Xml.cells (ERGen.generateERDiagramXML inh1 clk1 p))
               /\ Xml.cid c = ER.name e
               /\ boxOf c
                  = Some (40 + 400 * Z.of_nat (i mod 4),
                          40 + 350 * Z.of_nat (i / 4), 200,
                          30 + 22 * Z.of_nat (List.length (ER.attributes e)))%Z)
  /\ (exists p,
        Class.parseClassDiagram mermaidCode = Ok p
        /\ Xml.cells (ClassGen.generateClassDiagramXML clk1 p)
           = Xml.cells (ClassGen.generateClassDiagramXML clk2 p)
        /\ pageOf (ClassGen.generateClassDiagramXML clk1 p)
           = pageOf (ClassGen.generateClassDiagramXML clk2 p)
        /\ forall i c,
             nth_error (Class.classes p) i = Some c ->
             exists cell,
               In cell (Xml.cells (ClassGen.generateClassDiagramXML clk1 p))
               /\ Xml.cid cell = Class.name c
               /\ boxOf cell
                  = Some (60 + 250 * Z.of_nat (i mod 3),
                          60 + 200 * Z.of_nat (i / 3), 180,
                          ClassLayout.heightOf c)%Z)
  /\ (let p := Seq.parseSequenceDiagram mermaidCode in
      Xml.cells (SeqGen.generateSequenceDiagramXML clk1 p)
      = Xml.cells (SeqGen.generateSequenceDiagramXML clk2 p)
      /\ pageOf (SeqGen.generateSequenceDiagramXML clk1 p)
         = pageOf (SeqGen.generateSequenceDiagramXML clk2 p)
      /\ forall i q,
           nth_error (Seq.participants p) i = Some q ->
           exists b,
             In b (Xml.cells (SeqGen.generateSequenceDiagramXML clk1 p))
             /\ Xml.cid b = Seq.id q
             /\ boxOf b = Some (80 + 180 * Z.of_nat i, 20, 100, 50)%Z)
  /\ (forall e1 e2 d1 d2,
        Engine.rnd e1 = Engine.rnd e2 ->
        Engine.mcos e1 = Engine.mcos e2 ->
        Engine.msin e1 = Engine.msin e2 ->
        MindGen.generateMindmapXML e1 clk1 (Mindmap.parseMindmap mermaidCode)
        = Some d1 ->
        MindGen.generateMindmapXML e2 clk2 (Mindmap.parseMindmap mermaidCode)
        = Some d2 ->
        Xml.cells d1 = Xml.cells d2 /\ pageOf d1 = pageOf d2)
  /\ (forall inh1 inh2 p,
        Git.parseGitGraph mermaidCode = Ok p ->
        exists d1 d2,
          GitGen.generateGitGraphXML inh1 clk1 p = Ok d1
          /\ GitGen.generateGitGraphXML inh2 clk2 p = Ok d2
          /\ map placement (Xml.cells d1) = map placement (Xml.cells d2)
          /\ pageOf d1 = pageOf d2).
Proof.
  split; [|split; [|split; [|split; [|split]]]].
  - intros p vertical.
    destruct (FlowLayout.flowlay_generate clk1 p) as [d1 [E1 H]];
      [apply FlowFacts.flow_parse_ids|].
    destruct (FlowLayout.flowlay_generate clk2 p) as [d2 [E2 _]];
      [apply FlowFacts.flow_parse_ids|].
    exists d1, d2. split; [assumption|]. split; [assumption|].
    assert (C : Xml.cells d1 = Xml.cells d2 /\ pageOf d1 = pageOf d2).
    { unfold FlowGen.generateFlowchartXML in E1, E2.
      destruct (FlowGen.nodeCells _ (Flow.nodes p)) as [ncs|];
        [|discriminate].
      cbn [bind] in E1, E2. injection E1 as <-. injection E2 as <-.
      split; reflexivity. }
    destruct C as [C1 C2]. split; [assumption|]. split; [assumption|].
    intros i n Hn. destruct (H i n Hn) as [c [w [h [Nc [Hid [B _]]]]]].
    exists c, w, h. split; [assumption|]. split; [assumption|].
    rewrite B. unfold FlowLayout.slot. fold vertical.
    destruct vertical; reflexivity.
  - intros inh1 inh2.
    destruct (ERWf.erwf_parse mermaidCode) as [p [E [_ [_ [_ R]]]]].
    exists p. split; [assumption|]. split; [|split; [reflexivity|]].
    + unfold ERGen.generateERDiagramXML. cbn [Xml.cells Xml.wrapInDrawioXML].
      f_equal. apply Determinism.det_er_relCells.
      eapply Forall_impl; [|exact R]. intros r H. apply H.
    + intros i e Hi. exists (ERGen.containerCell (i, e)).
      split; [apply (ERLayout.erlay_container_in inh1 clk1 p i e Hi)|].
      split; [reflexivity | apply ERLayout.erlay_container_box].
  - destruct (ClassFacts.class_parse_ok mermaidCode) as [p [E _]].
    exists p. split; [assumption|]. split; [reflexivity|].
    split; [reflexivity|]. intros i c Hi.
    exists (ClassGen.containerCell (i, c)).
    split; [apply (ClassLayout.classlay_cells_in clk1 p i c Hi); now left|].
    split; [reflexivity | apply ClassLayout.classlay_container_box].
  - intros p.
    assert (C : forall clk,
               Xml.cells (SeqGen.generateSequenceDiagramXML clk p)
               = (flat_map (SeqGen.participantCells
                              (List.length (Seq.messages p)))
                           (Xml.indexed (Seq.participants p))
                  ++ fst (SeqGen.messageCells
                            (SeqGen.participantPositions (Seq.participants p))
                            2 (Xml.indexed (Seq.messages p)))
                  ++ SeqGen.noteCells
                       (SeqGen.participantPositions (Seq.participants p))
                       (snd (SeqGen.messageCells
                               (SeqGen.participantPositions
                                  (Seq.participants p))
                               2 (Xml.indexed (Seq.messages p))))
                       (Xml.indexed (Seq.notes p)))%list
               /\ pageOf (SeqGen.generateSequenceDiagramXML clk p)
                  = (Z.max 800 (Z.of_nat (List.length (Seq.participants p))
                                * SeqGen.PARTICIPANT_SPACING + 100),
                     SeqGen.LIFELINE_START_Y
                     + Z.of_nat (List.length (Seq.messages p))
                       * SeqGen.MESSAGE_SPACING + 200)%Z).
    { intros clk. unfold SeqGen.generateSequenceDiagramXML.
      destruct (SeqGen.messageCells _ 2 _) as [mcs cellId].
      split; reflexivity. }
    split; [|split].
    + now rewrite (proj1 (C clk1)), (proj1 (C clk2)).
    + now rewrite (proj2 (C clk1)), (proj2 (C clk2)).
    + intros i q Hi. rewrite (proj1 (C clk1)).
      eexists. split.
      * apply in_or_app. left. apply in_flat_map. exists (i, q).
        split; [now apply ERLayout.erlay_indexed_nth | left; reflexivity].
      * split; [reflexivity|].
        unfold boxOf, SeqGen.participantPos.
        cbn [Xml.geom Xml.box Xml.gx Xml.gy Xml.gwidth Xml.gheight SeqGen.x].
        unfold SeqGen.PARTICIPANT_SPACING, SeqGen.PARTICIPANT_WIDTH,
          SeqGen.PARTICIPANT_HEIGHT.
        apply ClassLayout.box_eq; lia.
  - intros e1 e2 d1 d2. apply Determinism.det_mindmap.
  - intros inh1 inh2 p _. apply Determinism.det_git.
Qed.

(** The three-line flowchart under two clocks a second apart: the same
    cells, the nodes A, B and C one below the other. *)
Lemma layout_deterministic_witness :
  exists d1 d2 a b c,
    FlowGen.generateFlowchartXML
      {| Xml.isoNow := "1970-01-01T00:00:00.000Z"; Xml.msNow := 0 |}
      (Flow.parseFlowchart flowExample) = Ok d1
    /\ FlowGen.generateFlowchartXML
         {| Xml.isoNow := "1970-01-01T00:00:01.000Z"; Xml.msNow := 1000 |}
         (Flow.parseFlowchart flowExample) = Ok d2
    /\ Xml.diagramId d1 <> Xml.diagramId d2
    /\ Xml.cells d1 = Xml.cells d2
    /\ nth_error (Xml.cells d1) 0 = Some a /\ Xml.cid a = "A"
    /\ nth_error (Xml.cells d1) 1 = Some b /\ Xml.cid b = "B"
    /\ nth_error (Xml.cells d1) 2 = Some c /\ Xml.cid c = "C"
    /\ (exists w h, boxOf a = Some (340, 40, w, h)%Z)
    /\ (exists w h, boxOf b = Some (340, 160, w, h)%Z)
    /\ (exists w h, boxOf c = Some (340, 280, w, h)%Z).
Proof.
  destruct (layout_deterministic
              {| Xml.isoNow := "1970-01-01T00:00:00.000Z"; Xml.msNow := 0 |}
              {| Xml.isoNow := "1970-01-01T00:00:01.000Z"; Xml.msNow := 1000 |}
              flowExample) as [[d1 [d2 [E1 [E2 [C [_ H]]]]]] _].
  destruct (H 0%nat _ eq_refl) as [a [wa [ha [Na [Ia Ba]]]]].
  destruct (H 1%nat _ eq_refl) as [b [wb [hb [Nb [Ib Bb]]]]].
  destruct (H 2%nat _ eq_refl) as [c [wc [hc [Nc [Ic Bc]]]]].
  exists d1, d2, a, b, c.
  split; [exact E1|]. split; [exact E2|]. split.
  { vm_compute in E1, E2. injection E1 as <-. injection E2 as <-.
    discriminate. }
  split; [exact C|].
  split; [exact Na|]. split; [exact Ia|].
  split; [exact Nb|]. split; [exact Ib|].
  split; [exact Nc|]. split; [exact Ic|].
  split; [now exists wa, ha|]. split; [now exists wb, hb | now exists wc, hc].
Defined.
